(** * Worm Escape: solvability engine and reverse-construction generator

    A shallow embedding of [worm_escape/solver.py], [worm_escape/level_manager.py]
    and [generator.py], with the properties their specification states.

    Conventions of the embedding
    - Python [int] is [Z]; a grid cell [(row, col)] is a pair of [Z].
    - Text whose code points the program inspects (grid rows, worm ids) is a
      list of Unicode code points ([pystr]); text the program only builds,
      copies or compares (names, colours, status messages) is a [string]
      holding its UTF-8 bytes.
    - A Python [set] is a [gset], a [dict] whose order is never observed is a
      [gmap]; the [worms] mapping of a level, whose iteration order is
      observed, is an association list in insertion order.
    - A call either returns, raises, or exhausts the fuel of a [while] loop:
      the type [res].  Fuel exhaustion is shown not to happen for heads
      inside the grid. *)

From stdpp Require Import gmap list sorting pretty strings.
From Stdlib Require Import ZArith Lia.

#[local] Set Warnings "-clear-no-such-hyp".

Open Scope Z_scope.

(** ** Outcomes of a call *)

Inductive exn := ValueError | KeyError | IndexError.

Inductive res (A : Type) : Type :=
| Ret (a : A)
| Raise (e : exn)
| Diverge.
Arguments Ret {A} a.
Arguments Raise {A} e.
Arguments Diverge {A}.

#[global] Instance res_ret : MRet res := fun A a => Ret a.
#[global] Instance res_bind : MBind res := fun A B k m =>
  match m with
  | Ret a => k a
  | Raise e => Raise e
  | Diverge => Diverge
  end.

Definition raises {A} (m : res A) : Prop := exists e, m = Raise e.

(** ** Data model *)

Abbreviation pystr := (list N).
Abbreviation cell := (Z * Z)%type.

Inductive Direction := Up | Down | Left | Right.

#[global] Instance Direction_eq_dec : EqDecision Direction.
Proof. solve_decision. Defined.

(** [DIR_DELTA] of constants.py. *)
Definition DIR_DELTA (d : Direction) : Z * Z :=
  match d with
  | Up => (-1, 0)
  | Down => (1, 0)
  | Left => (0, -1)
  | Right => (0, 1)
  end.

(** The test [0 <= r < rows and 0 <= c < cols]. *)
Definition in_grid (rows cols : Z) (p : cell) : bool :=
  (0 <=? p.1) && (p.1 <? rows) && (0 <=? p.2) && (p.2 <? cols).

(** [entities.Worm]; [segments] runs tail to head. *)
Record Worm := mkWorm {
  worm_id : pystr;
  segments : list cell;
  direction : Direction;
  color : string
}.

(** The property [Worm.head]: [segments[-1]], an IndexError on an empty list. *)
Definition head (w : Worm) : res cell :=
  match last (segments w) with
  | Some p => Ret p
  | None => Raise IndexError
  end.

(** ** Corridor and path tracer *)

(** The loop of [_exit_corridor]; one unit of fuel per cell added. *)
Fixpoint exit_corridor_loop (fuel : nat) (dr dc : Z) (rows cols : Z)
    (r c : Z) (corridor : gset cell) : res (gset cell) :=
  if in_grid rows cols (r, c) then
    match fuel with
    | O => Diverge
    | S fuel' =>
        exit_corridor_loop fuel' dr dc rows cols (r + dr) (c + dc)
          (corridor ∪ {[ (r, c) ]})
    end
  else Ret corridor.

Definition _exit_corridor (head_r head_c : Z) (direction : Direction)
    (rows cols : Z) : res (gset cell) :=
  let '(dr, dc) := DIR_DELTA direction in
  exit_corridor_loop (Z.to_nat (Z.max rows cols)) dr dc rows cols
    (head_r + dr) (head_c + dc) ∅.

(** The loop of [_first_blocker]; one unit of fuel per cell passed over. *)
Fixpoint first_blocker_loop (fuel : nat) (dr dc : Z) (rows cols : Z)
    (wid : pystr) (occupancy : gmap cell pystr) (r c : Z)
    : res (option pystr) :=
  let r := r + dr in
  let c := c + dc in
  if negb (in_grid rows cols (r, c)) then Ret None
  else
    match occupancy !! (r, c) with
    | Some cell_owner =>
        if bool_decide (cell_owner ≠ wid) then Ret (Some cell_owner)
        else match fuel with
             | O => Diverge
             | S fuel' =>
                 first_blocker_loop fuel' dr dc rows cols wid occupancy r c
             end
    | None =>
        match fuel with
        | O => Diverge
        | S fuel' =>
            first_blocker_loop fuel' dr dc rows cols wid occupancy r c
        end
    end.

Definition _first_blocker (worm : Worm) (occupancy : gmap cell pystr)
    (rows cols : Z) : res (option pystr) :=
  let '(dr, dc) := DIR_DELTA (direction worm) in
  '(r, c) ← head worm;
  first_blocker_loop (Z.to_nat (Z.max rows cols)) dr dc rows cols
    (worm_id worm) occupancy r c.

(** ** Characters and strings *)

(** Case mapping of the code points above ASCII comes from the Unicode
    tables of the Python runtime, which are not part of the repository: they
    are a parameter.  The ASCII range is written out. *)
Class CaseTable := {
  uni_upper : N -> pystr;
  uni_lower : N -> pystr;
  uni_isupper : N -> bool
}.

(** A table that leaves every code point above ASCII without case; it is
    used to evaluate layouts written in ASCII. *)
Definition caseless_table : CaseTable :=
  {| uni_upper := fun c => [c]; uni_lower := fun c => [c];
     uni_isupper := fun _ => false |}.

(** [ch.upper()], [ch.lower()] and [ch.isupper()] of a one-character string. *)
Definition upper `{CaseTable} (ch : N) : pystr :=
  if (ch <? 128)%N then
    [if ((97 <=? ch) && (ch <=? 122))%N then (ch - 32)%N else ch]
  else uni_upper ch.

Definition lower `{CaseTable} (ch : N) : pystr :=
  if (ch <? 128)%N then
    [if ((65 <=? ch) && (ch <=? 90))%N then (ch + 32)%N else ch]
  else uni_lower ch.

Definition isupper `{CaseTable} (ch : N) : bool :=
  if (ch <? 128)%N then ((65 <=? ch) && (ch <=? 90))%N else uni_isupper ch.

(** [chr(n)]: a one-character string, a ValueError outside
    [range(0x110000)]. *)
Definition chr (n : Z) : res N :=
  if (0 <=? n) && (n <? 1114112) then Ret (Z.to_N n) else Raise ValueError.

(** Python's order on [str]: lexicographic on code points. *)
Fixpoint pystr_leb (s t : pystr) : bool :=
  match s, t with
  | [], _ => true
  | _ :: _, [] => false
  | a :: s', b :: t' =>
      if (a <? b)%N then true
      else if (b <? a)%N then false
      else pystr_leb s' t'
  end.

Definition pystr_le (s t : pystr) : Prop := pystr_leb s t = true.

#[global] Instance pystr_le_dec : RelDecision pystr_le.
Proof. intros s t. unfold pystr_le. apply _. Defined.

(** [sorted(xs)] on strings. *)
Definition sorted (xs : list pystr) : list pystr := merge_sort pystr_le xs.

(** [xs.sort(key=key)] with integer keys: Python's sort is stable, so the
    result is the one stable arrangement, built here by insertion. *)
Fixpoint insert_by {A} (key : A -> Z) (x : A) (l : list A) : list A :=
  match l with
  | [] => [x]
  | y :: l' => if key x <=? key y then x :: l else y :: insert_by key x l'
  end.

Definition sort_by {A} (key : A -> Z) (l : list A) : list A :=
  foldr (insert_by key) [] l.

(** ** Level data and its parser (level_manager.py) *)

Record WormMeta := mkMeta {
  m_color : option string;          (* "color", optional *)
  m_direction : string              (* "direction" *)
}.

Record LevelData := mkLevel {
  ld_name : option string;          (* "name", optional *)
  ld_rows : Z;
  ld_cols : Z;
  ld_grid : list pystr;
  ld_worms : list (pystr * WormMeta) (* a dict, in insertion order *)
}.

(** An entry [{"head": ..., "body": [...]}] of [cell_map]. *)
Record CellEntry := mkEntry {
  e_head : option cell;
  e_body : list cell
}.

(** The body of the inner scanning loop of [load_level]. *)
Definition scan_cell `{CaseTable} (r c : Z) (ch : N)
    (cell_map : gmap pystr CellEntry) : res (gmap pystr CellEntry) :=
  if bool_decide (ch = 46%N ∨ ch = 32%N) then Ret cell_map
  else
    let wid := upper ch in
    let entry := default (mkEntry None []) (cell_map !! wid) in
    if isupper ch then
      match e_head entry with
      | Some _ => Raise ValueError
      | None => Ret (<[wid := mkEntry (Some (r, c)) (e_body entry)]> cell_map)
      end
    else
      Ret (<[wid := mkEntry (e_head entry) (e_body entry ++ [(r, c)])]> cell_map).

(** [for c, ch in enumerate(row_str)], from column [c] on. *)
Fixpoint scan_row `{CaseTable} (r c : Z) (row_str : pystr)
    (cell_map : gmap pystr CellEntry) : res (gmap pystr CellEntry) :=
  match row_str with
  | [] => Ret cell_map
  | ch :: rest =>
      cell_map ← scan_cell r c ch cell_map;
      scan_row r (c + 1) rest cell_map
  end.

(** [for r, row_str in enumerate(grid_strs)], from row [r] on. *)
Fixpoint scan_grid `{CaseTable} (r : Z) (grid_strs : list pystr)
    (cell_map : gmap pystr CellEntry) : res (gmap pystr CellEntry) :=
  match grid_strs with
  | [] => Ret cell_map
  | row_str :: rest =>
      cell_map ← scan_row r 0 row_str cell_map;
      scan_grid (r + 1) rest cell_map
  end.

Definition direction_name (d : Direction) : string :=
  match d with
  | Up => "up"
  | Down => "down"
  | Left => "left"
  | Right => "right"
  end.

(** The keys of [sort_keys]; [None] is the KeyError of [sort_keys[direction]]. *)
Definition parse_direction (s : string) : option Direction :=
  if String.eqb s "right" then Some Right
  else if String.eqb s "left" then Some Left
  else if String.eqb s "down" then Some Down
  else if String.eqb s "up" then Some Up
  else None.

Definition sort_keys (d : Direction) (p : cell) : Z :=
  match d with
  | Right => p.2
  | Left => - p.2
  | Down => p.1
  | Up => - p.1
  end.

(** The test of the leading-edge validation loop. *)
Definition beyond_head (direction : string) (head_r head_c : Z) (b : cell)
    : bool :=
  let '(br, bc) := b in
  (String.eqb direction "left" && (bc <? head_c))
  || (String.eqb direction "right" && (head_c <? bc))
  || (String.eqb direction "up" && (br <? head_r))
  || (String.eqb direction "down" && (head_r <? br)).

(** The body of the loop over [worm_meta.items()]. *)
Definition load_worm (cell_map : gmap pystr CellEntry)
    (item : pystr * WormMeta) : res Worm :=
  let '(wid, meta) := item in
  match cell_map !! wid with
  | None => Raise ValueError
  | Some info =>
      match e_head info with
      | None => Raise ValueError
      | Some (head_r, head_c) =>
          let direction := m_direction meta in
          let color := default "white"%string (m_color meta) in
          if existsb (beyond_head direction head_r head_c) (e_body info)
          then Raise ValueError
          else
            match parse_direction direction with
            | None => Raise KeyError
            | Some d =>
                let coords :=
                  sort_by (sort_keys d) (e_body info ++ [(head_r, head_c)]) in
                Ret (mkWorm wid coords d color)
            end
      end
  end.

Definition load_level `{CaseTable} (level_data : LevelData)
    : res (Z * Z * string * list Worm) :=
  let rows := ld_rows level_data in
  let cols := ld_cols level_data in
  let name := default "Unnamed Level"%string (ld_name level_data) in
  let grid_strs := ld_grid level_data in
  let worm_meta := ld_worms level_data in
  cell_map ← scan_grid 0 grid_strs ∅;
  worms ← mapM (load_worm cell_map) worm_meta;
  Ret (rows, cols, name, worms).

(** ** Solvability engine (solver.py) *)

Definition _build_occupancy (worms : list Worm) : gmap cell pystr :=
  foldl (fun occ w =>
           foldl (fun occ seg => <[seg := worm_id w]> occ) occ (segments w))
        ∅ worms.

(** The loop [for w in worms] of [_build_dependency_graph]. *)
Fixpoint blocked_by_loop (occupancy : gmap cell pystr) (rows cols : Z)
    (worms : list Worm) (blocked_by : gmap pystr (gset pystr))
    : res (gmap pystr (gset pystr)) :=
  match worms with
  | [] => Ret blocked_by
  | w :: rest =>
      blocker ← _first_blocker w occupancy rows cols;
      let blocked_by :=
        match blocker with
        | Some b => alter (fun deps => deps ∪ {[ b ]}) (worm_id w) blocked_by
        | None => blocked_by
        end in
      blocked_by_loop occupancy rows cols rest blocked_by
  end.

Definition _build_dependency_graph (worms : list Worm) (rows cols : Z)
    : res (gmap pystr (gset pystr)) :=
  let occupancy := _build_occupancy worms in
  let blocked_by :=
    foldl (fun g w => <[worm_id w := (∅ : gset pystr)]> g) ∅ worms in
  blocked_by_loop occupancy rows cols worms blocked_by.

(** The lines of the report, one constructor per format string. *)
Inductive line :=
| LDeadlock (round_num : nat)                  (* "Round {n}: DEADLOCK" *)
| LBlockedBy (wid : pystr) (deps : list pystr) (* "  [{wid}] blocked by: {deps}" *)
| LBlank                                       (* "" *)
| LRemaining (n : nat) (ids : list pystr)      (* "Remaining worms ({n}): {ids}" *)
| LUnsolvable                                  (* "Verdict: UNSOLVABLE ..." *)
| LExtract (round_num : nat) (free : list pystr) (* "Round {n}: extract {free}" *)
| LStillBlocked (wid : pystr) (deps : list pystr)
                                       (* "  [{wid}] still blocked by: {deps}" *)
| LExtractionOrder (order : list pystr) (round_num : nat)
                                       (* "Extraction order: ...  ({n} rounds)" *)
| LSolvable.                                   (* "Verdict: SOLVABLE" *)

(** [sorted(wid for wid, deps in graph.items() if len(deps) == 0)]. *)
Definition free_of (graph : gmap pystr (gset pystr)) : list pystr :=
  sorted (fst <$> filter (fun kv => size kv.2 = 0%nat) (map_to_list graph)).

(** [sorted(wid for wid, deps in graph.items() if len(deps) > 0)]. *)
Definition blocked_of (graph : gmap pystr (gset pystr)) : list pystr :=
  sorted (fst <$> filter (fun kv => (0 < size kv.2)%nat) (map_to_list graph)).

(** [", ".join(sorted(graph[wid]))], as the list that is joined. *)
Definition deps_of (graph : gmap pystr (gset pystr)) (wid : pystr)
    : list pystr :=
  sorted (elements (default ∅ (graph !! wid))).

Definition deadlock_report (round_num : nat) (worms : list Worm)
    (graph : gmap pystr (gset pystr)) : list line :=
  [LDeadlock round_num]
  ++ ((fun wid => LBlockedBy wid (deps_of graph wid))
        <$> sorted (fst <$> map_to_list graph))
  ++ [LBlank;
      LRemaining (length worms) (sorted (worm_id <$> worms));
      LUnsolvable].

Definition round_report (round_num : nat) (free : list pystr)
    (graph : gmap pystr (gset pystr)) : list line :=
  [LExtract round_num free]
  ++ ((fun wid => LStillBlocked wid (deps_of graph wid)) <$> blocked_of graph).

(** The [while worms] loop of [is_solvable]; a round that goes on removes a
    worm, one unit of fuel per round.  The local [extraction_order] is
    returned next to the verdict and the report. *)
Fixpoint solve_loop (fuel : nat) (rows cols : Z) (worms : list Worm)
    (round_num : nat) (report : list line) (extraction_order : list pystr)
    : res (bool * list pystr * list line) :=
  match worms with
  | [] =>
      Ret (true, extraction_order,
           report ++ [LBlank; LExtractionOrder extraction_order round_num;
                      LSolvable])
  | _ :: _ =>
      match fuel with
      | O => Diverge
      | S fuel' =>
          let round_num := S round_num in
          graph ← _build_dependency_graph worms rows cols;
          let free := free_of graph in
          match free with
          | [] =>
              Ret (false, extraction_order,
                   report ++ deadlock_report round_num worms graph)
          | _ :: _ =>
              solve_loop fuel' rows cols
                (filter (fun w => worm_id w ∉ free) worms)
                round_num
                (report ++ round_report round_num free graph)
                (extraction_order ++ free)
          end
      end
  end.

(** [is_solvable] with its local [extraction_order] kept. *)
Definition is_solvable_trace `{CaseTable} (level_data : LevelData)
    : res (bool * list pystr * list line) :=
  '(rows, cols, name, worms) ← load_level level_data;
  solve_loop (length worms) rows cols worms 0 [] [].

Definition is_solvable `{CaseTable} (level_data : LevelData)
    : res (bool * list line) :=
  '(solvable, _, report) ← is_solvable_trace level_data;
  Ret (solvable, report).

(** ** Random source

    [random.seed], [random.shuffle], [random.randint] and [random.choice] of
    the Python runtime, through what their documentation promises: a shuffle
    is a rearrangement, [randint(a, b)] lies in [a..b], a choice is an
    element.  The generator state is threaded through every call. *)
Class RandomSource := {
  rng : Type;
  rng_seed : Z -> rng;
  rng_shuffle : forall {A}, list A -> rng -> list A * rng;
  rng_randint : Z -> Z -> rng -> Z * rng;
  rng_choice : forall {A}, A -> list A -> rng -> A * rng;
  rng_shuffle_perm : forall A (l : list A) g, (rng_shuffle l g).1 ≡ₚ l;
  rng_randint_range : forall a b g,
    a <= b -> a <= (rng_randint a b g).1 <= b;
  rng_choice_elem : forall A (x : A) l g, (rng_choice x l g).1 ∈ x :: l
}.

(** Computations that draw from the random source and may raise. *)
Definition Rand `{RandomSource} (A : Type) : Type := rng -> res (A * rng).

#[global] Instance rand_ret `{RandomSource} : MRet Rand :=
  fun A a g => Ret (a, g).
#[global] Instance rand_bind `{RandomSource} : MBind Rand :=
  fun A B k m g =>
    match m g with
    | Ret (a, g') => k a g'
    | Raise e => Raise e
    | Diverge => Diverge
    end.

Definition lift `{RandomSource} {A} (m : res A) : Rand A :=
  fun g => a ← m; Ret (a, g).

(** [random.shuffle(x)], returning the list it leaves in [x]. *)
Definition shuffle `{RandomSource} {A} (l : list A) : Rand (list A) :=
  fun g => Ret (rng_shuffle l g).

(** [random.randint(a, b)]: a ValueError on an empty range. *)
Definition randint `{RandomSource} (a b : Z) : Rand Z :=
  fun g => if a <=? b then Ret (rng_randint a b g) else Raise ValueError.

(** [random.choice(seq)]: an IndexError on an empty sequence. *)
Definition choice `{RandomSource} {A} (seq : list A) : Rand A :=
  fun g =>
    match seq with
    | [] => Raise IndexError
    | x :: l => Ret (rng_choice x l g)
    end.

(** ** Reverse-construction generator (generator.py) *)

Definition COLOR_CYCLE : list string :=
  ["red"; "blue"; "green"; "yellow"; "magenta"; "cyan"; "white"]%string.

(** [range(n)] and [range(a, b)]. *)
Definition range (n : Z) : list Z := seqZ 0 n.
Definition range2 (a b : Z) : list Z := seqZ a (b - a).

(** The candidate list [edges] of [_pick_head], before the shuffle. *)
Definition edges_of (rows cols : Z) : list (Z * Z * Direction) :=
  (range cols ≫= fun c => [(0, c, Up); (rows - 1, c, Down)])
  ++ (range rows ≫= fun r => [(r, 0, Left); (r, cols - 1, Right)]).

(** The loop [for depth in depths] of [_pick_head]. *)
Fixpoint pick_depth (rows cols : Z) (occupied : gset cell)
    (edge_r edge_c : Z) (direction : Direction) (depths : list Z)
    : res (option (Z * Z * Direction * gset cell)) :=
  match depths with
  | [] => Ret None
  | depth :: rest =>
      let opp_dr := - (DIR_DELTA direction).1 in
      let opp_dc := - (DIR_DELTA direction).2 in
      let hr := edge_r + depth * opp_dr in
      let hc := edge_c + depth * opp_dc in
      if negb (in_grid rows cols (hr, hc)) then
        pick_depth rows cols occupied edge_r edge_c direction rest
      else if bool_decide ((hr, hc) ∈ occupied) then
        pick_depth rows cols occupied edge_r edge_c direction rest
      else
        corridor ← _exit_corridor hr hc direction rows cols;
        if bool_decide (corridor ∩ occupied ≠ ∅) then
          pick_depth rows cols occupied edge_r edge_c direction rest
        else Ret (Some (hr, hc, direction, corridor))
  end.

(** The loop [for edge_r, edge_c, direction in edges] of [_pick_head]. *)
Fixpoint pick_edge `{RandomSource} (rows cols : Z) (occupied : gset cell)
    (min_depth max_depth : Z) (edges : list (Z * Z * Direction))
    : Rand (option (Z * Z * Direction * gset cell)) :=
  match edges with
  | [] => mret None
  | (edge_r, edge_c, direction) :: rest =>
      depths ← shuffle (range2 min_depth (max_depth + 1));
      found ← lift (pick_depth rows cols occupied edge_r edge_c direction
                      depths);
      match found with
      | Some result => mret (Some result)
      | None => pick_edge rows cols occupied min_depth max_depth rest
      end
  end.

Definition _pick_head `{RandomSource} (rows cols : Z) (occupied : gset cell)
    (min_depth : Z) (max_depth : option Z)
    : Rand (option (Z * Z * Direction * gset cell)) :=
  edges ← shuffle (edges_of rows cols);
  let max_depth := default (Z.max rows cols - 2) max_depth in
  pick_edge rows cols occupied min_depth max_depth edges.

(** The inner function [_valid] of [_grow_body]. *)
Definition _valid (direction : Direction) (head_r head_c : Z) (r c : Z)
    : bool :=
  match direction with
  | Right => negb (head_c <? c)
  | Left => negb (c <? head_c)
  | Down => negb (head_r <? r)
  | Up => negb (r <? head_r)
  end.

Definition ALL_DIRS : list (Z * Z) := [(0, 1); (0, -1); (1, 0); (-1, 0)].

(** The neighbours of the current cell that pass the three tests. *)
Definition candidates_of (direction : Direction) (head_r head_c : Z)
    (rows cols : Z) (taken : gset cell) (cur_r cur_c : Z) : list cell :=
  filter (fun p => in_grid rows cols p = true ∧ (p ∉ taken)
                   ∧ _valid direction head_r head_c p.1 p.2 = true)
    ((fun d => (cur_r + d.1, cur_c + d.2)) <$> ALL_DIRS).

(** The list [weighted]: five copies of a target cell, one of another. *)
Definition weighted_of (target_cells : gset cell) (candidates : list cell)
    : list cell :=
  candidates ≫= fun pos =>
    replicate (if bool_decide (pos ∈ target_cells) then 5 else 1)%nat pos.

(** The loop [for _ in range(num_segs)] of [_grow_body]. *)
Fixpoint grow_loop `{RandomSource} (n : nat) (direction : Direction)
    (head_r head_c : Z) (target_cells : gset cell) (rows cols : Z)
    (body : list cell) (taken : gset cell) (cur_r cur_c : Z)
    : Rand (list cell) :=
  match n with
  | O => mret body
  | S n' =>
      let candidates :=
        candidates_of direction head_r head_c rows cols taken cur_r cur_c in
      match candidates with
      | [] => mret body
      | _ :: _ =>
          '(nr, nc) ← choice (weighted_of target_cells candidates);
          grow_loop n' direction head_r head_c target_cells rows cols
            (body ++ [(nr, nc)]) (taken ∪ {[ (nr, nc) ]}) nr nc
      end
  end.

Definition _grow_body `{RandomSource} (head_r head_c : Z)
    (direction : Direction) (occupied target_cells : gset cell)
    (min_segs max_segs : Z) (rows cols : Z) : Rand (option (list cell)) :=
  num_segs ← randint min_segs max_segs;
  if num_segs =? 0 then mret (Some [])
  else
    body ← grow_loop (Z.to_nat num_segs) direction head_r head_c target_cells
             rows cols [] (occupied ∪ {[ (head_r, head_c) ]}) head_r head_c;
    if Z.of_nat (length body) <? min_segs then mret None
    else mret (Some (reverse body)).

(** A placement record of [worms_placed]. *)
Record Placed := mkPlaced {
  p_worm_id : N;
  p_head : cell;
  p_direction : Direction;
  p_body : list cell;
  p_color : string;
  p_segments : list cell
}.

(** The loop [for _attempt in range(300)]: the record of the worm and its
    corridor, or [None] when the worm was not placed. *)
Fixpoint attempt_loop `{RandomSource} (n : nat) (rows cols : Z) (i : Z)
    (wid : N) (occupied target_cells : gset cell)
    (max_depth min_body max_body : Z) : Rand (option (Placed * gset cell)) :=
  match n with
  | O => mret None
  | S n' =>
      result ← _pick_head rows cols occupied 1 (Some max_depth);
      match result with
      | None => mret None
      | Some (hr, hc, direction, corridor) =>
          body ← _grow_body hr hc direction occupied target_cells
                   min_body max_body rows cols;
          match body with
          | None =>
              attempt_loop n' rows cols i wid occupied target_cells
                max_depth min_body max_body
          | Some body =>
              let color :=
                default ""%string
                  (COLOR_CYCLE !! Z.to_nat (i `mod` Z.of_nat (length COLOR_CYCLE)))
              in
              let segments := body ++ [(hr, hc)] in
              mret (Some (mkPlaced wid (hr, hc) direction body color segments,
                          corridor))
          end
      end
  end.

(** One turn of the loop [for i in range(num_worms)], up to the test of
    [placed]. *)
Definition place_worm `{RandomSource} (rows cols : Z) (i : Z)
    (occupied : gset cell) (corridors : list (gset cell))
    (min_body max_body : Z) : Rand (option (Placed * gset cell)) :=
  wid ← lift (chr (65 + i));
  let target_cells := (⋃ corridors) ∖ occupied in
  let max_depth :=
    if 0 <? i then Z.max rows cols `div` 2 + 1 else Z.max rows cols - 2 in
  attempt_loop 300 rows cols i wid occupied target_cells
    max_depth min_body max_body.

(** The loop [for i in range(num_worms)], with [n] turns left.  [None] is
    the early [return None, [], ...] for the first worm. *)
Fixpoint place_loop `{RandomSource} (n : nat) (rows cols : Z) (i : Z)
    (occupied : gset cell) (worms_placed : list Placed)
    (corridors : list (gset cell)) (min_body max_body : Z)
    : Rand (option (list Placed)) :=
  match n with
  | O => mret (Some worms_placed)
  | S n' =>
      placed ← place_worm rows cols i occupied corridors min_body max_body;
      match placed with
      | Some (wd, corridor) =>
          place_loop n' rows cols (i + 1)
            (occupied ∪ list_to_set (p_segments wd))
            (worms_placed ++ [wd]) (corridors ++ [corridor])
            min_body max_body
      | None =>
          if i =? 0 then mret None else mret (Some worms_placed)
      end
  end.

(** [l[i]] and [l[i] = x] on a Python list: a negative index counts from
    the end, an index out of range is an IndexError. *)
Definition py_index (len : nat) (i : Z) : res nat :=
  if (0 <=? i) && (i <? Z.of_nat len) then Ret (Z.to_nat i)
  else if (- Z.of_nat len <=? i) && (i <? 0) then Ret (Z.to_nat (Z.of_nat len + i))
  else Raise IndexError.

(** [grid[r][c] = v]. *)
Definition grid_set {A} (grid : list (list A)) (r c : Z) (v : A)
    : res (list (list A)) :=
  ri ← py_index (length grid) r;
  match grid !! ri with
  | None => Raise IndexError
  | Some row =>
      ci ← py_index (length row) c;
      Ret (<[ri := <[ci := v]> row]> grid)
  end.

(** [d[k] = v] on a dict kept in insertion order. *)
Fixpoint dict_set {K V} `{EqDecision K} (d : list (K * V)) (k : K) (v : V)
    : list (K * V) :=
  match d with
  | [] => [(k, v)]
  | (k', v') :: d' =>
      if decide (k' = k) then (k, v) :: d' else (k', v') :: dict_set d' k v
  end.

(** The loop [for br, bc in wd["body"]] of the layout construction. *)
Fixpoint paint_body (grid : list (list pystr)) (body : list cell)
    (v : pystr) : res (list (list pystr)) :=
  match body with
  | [] => Ret grid
  | (br, bc) :: rest =>
      grid ← grid_set grid br bc v;
      paint_body grid rest v
  end.

(** The entry [{"color": ..., "direction": ...}] written for a record. *)
Definition meta_of (wd : Placed) : WormMeta :=
  mkMeta (Some (p_color wd)) (direction_name (p_direction wd)).

(** The loop [for wd in worms_placed]. *)
Fixpoint paint_worms `{CaseTable} (worms_placed : list Placed)
    (grid : list (list pystr)) (worms_meta : list (pystr * WormMeta))
    : res (list (list pystr) * list (pystr * WormMeta)) :=
  match worms_placed with
  | [] => Ret (grid, worms_meta)
  | wd :: rest =>
      let wid := p_worm_id wd in
      let '(hr, hc) := p_head wd in
      grid ← grid_set grid hr hc (upper wid);
      grid ← paint_body grid (p_body wd) (lower wid);
      let worms_meta := dict_set worms_meta [wid] (meta_of wd) in
      paint_worms rest grid worms_meta
  end.

Definition msg_first_worm : string :=
  "Failed to place even the first worm — grid too small for the requested worm length.".
Definition msg_no_worms : string := "No worms could be placed.".
Definition msg_ok : string := "OK".
Definition msg_fewer (actual_placed : nat) (num_worms : Z) : string :=
  "Placed " +:+ pretty actual_placed +:+ " of " +:+ pretty num_worms
  +:+ " worms (grid too crowded for more).".

(** The name [f"Generated {rows}x{cols} ({len(worms_placed)} worms)"]. *)
Definition generated_name (rows cols : Z) (n : nat) : string :=
  "Generated " +:+ pretty rows +:+ "x" +:+ pretty cols +:+ " ("
  +:+ pretty n +:+ " worms)".

(** The part of [generate_level] after the placement loop. *)
Definition build_level `{CaseTable} (rows cols num_worms : Z)
    (worms_placed : list Placed)
    : res (option LevelData * list pystr * string) :=
  match worms_placed with
  | [] => Ret (None, [], msg_no_worms)
  | _ :: _ =>
      let grid :=
        replicate (Z.to_nat rows) (replicate (Z.to_nat cols) [46%N]) in
      '(grid, worms_meta) ← paint_worms worms_placed grid [];
      let level_data :=
        mkLevel (Some (generated_name rows cols (length worms_placed)))
          rows cols ((fun row : list pystr => concat row) <$> grid) worms_meta in
      let placement_order := (fun wd => [p_worm_id wd]) <$> worms_placed in
      let actual_placed := length worms_placed in
      let msg :=
        if Z.of_nat actual_placed <? num_worms
        then msg_fewer actual_placed num_worms
        else msg_ok in
      Ret (Some level_data, placement_order, msg)
  end.

(** [if seed is not None: random.seed(seed)]: the state of the random source
    with which the placement starts. *)
Definition start_rng `{RandomSource} (seed : option Z) (g : rng) : rng :=
  match seed with Some s => rng_seed s | None => g end.

(** [generate_level]; [g] is the state of the module-wide generator when the
    call starts, replaced when a seed is given. *)
Definition generate_level `{RandomSource} `{CaseTable}
    (rows cols num_worms min_len max_len : Z) (seed : option Z)
    : Rand (option LevelData * list pystr * string) :=
  fun g =>
    let g := start_rng seed g in
    let min_body := Z.max (min_len - 1) 0 in
    let max_body := max_len - 1 in
    (placed ← place_loop (Z.to_nat num_worms) rows cols 0 ∅ [] []
                min_body max_body;
     match placed with
     | None => mret (None, [], msg_first_worm)
     | Some worms_placed =>
         lift (build_level rows cols num_worms worms_placed)
     end) g.

(** A random source that always returns the first possibility: a shuffle
    leaves the list as it is, [randint(a, b)] is [a], a choice is the first
    element. *)
Definition first_source : RandomSource :=
  {| rng := unit;
     rng_seed := fun _ => tt;
     rng_shuffle := fun A l g => (l, g);
     rng_randint := fun a b g => (a, g);
     rng_choice := fun A x l g => (x, g);
     rng_shuffle_perm := fun A l g => Permutation_refl l;
     rng_randint_range := fun a b g Hab => conj (Z.le_refl a) Hab;
     rng_choice_elem := fun A x l g => list_elem_of_here x l |}.

(** Strings written in ASCII, as code points. *)
Definition cp (s : string) : pystr :=
  (fun a => N.of_nat (Ascii.nat_of_ascii a)) <$> String.list_ascii_of_string s.

(** levels/level_01.py *)
Definition level_01 : LevelData :=
  mkLevel (Some "Level 1 — First Steps"%string) 6 6
    [cp "......"; cp "...Cc."; cp "...B.."; cp "aaAb.."; cp "...b.."; cp "......"]
    [(cp "A", mkMeta (Some "red"%string) "right");
     (cp "B", mkMeta (Some "blue"%string) "up");
     (cp "C", mkMeta (Some "green"%string) "left")].

(** ** Specification vocabulary for the tracer *)

(** The cell [k] steps ahead of [p] in direction [d]. *)
Definition ahead (d : Direction) (p : cell) (k : Z) : cell :=
  (p.1 + k * (DIR_DELTA d).1, p.2 + k * (DIR_DELTA d).2).

(** How many cells lie between [p] and the edge that [d] faces. *)
Definition depth (d : Direction) (rows cols : Z) (p : cell) : Z :=
  match d with
  | Up => p.1
  | Down => rows - 1 - p.1
  | Left => p.2
  | Right => cols - 1 - p.2
  end.

(** [p] sits on the edge of the grid that [d] faces. *)
Definition on_facing_edge (d : Direction) (rows cols : Z) (p : cell) : Prop :=
  match d with
  | Up => p.1 = 0
  | Down => p.1 = rows - 1
  | Left => p.2 = 0
  | Right => p.2 = cols - 1
  end.

(** A cell that does not stop the trace of worm [wid]. *)
Definition passable (occupancy : gmap cell pystr) (wid : pystr) (q : cell)
    : Prop :=
  occupancy !! q = None ∨ occupancy !! q = Some wid.

(** The worms of level 1, as the comment in [load_level] lists them. *)
Definition worm_A : Worm :=
  mkWorm (cp "A") [(3, 0); (3, 1); (3, 2)] Right "red".
Definition worm_B : Worm :=
  mkWorm (cp "B") [(4, 3); (3, 3); (2, 3)] Up "blue".
Definition worm_C : Worm :=
  mkWorm (cp "C") [(1, 4); (1, 3)] Left "green".

(** The report lines that announce the worms freed in a round. *)
Definition is_extract (l : line) : bool :=
  match l with LExtract _ _ => true | _ => false end.

(** ** Specification vocabulary for the engine *)

(** The variables of the loop of [is_solvable] at the start of a round. *)
Record solver_state := mkState {
  st_worms : list Worm;
  st_round_num : nat;
  st_report : list line;
  st_order : list pystr
}.

(** The state in which round [k + 1] starts, when the loop gets that far:
    [k] rounds, each of which freed a worm, have been played. *)
Fixpoint after_rounds (k : nat) (rows cols : Z) (st : solver_state)
    : option solver_state :=
  match k with
  | O => Some st
  | S k' =>
      match st_worms st with
      | [] => None
      | _ :: _ =>
          match _build_dependency_graph (st_worms st) rows cols with
          | Ret graph =>
              match free_of graph with
              | [] => None
              | _ :: _ =>
                  after_rounds k' rows cols
                    (mkState
                       (filter (fun w => worm_id w ∉ free_of graph)
                          (st_worms st))
                       (S (st_round_num st))
                       (st_report st
                        ++ round_report (S (st_round_num st)) (free_of graph)
                             graph)
                       (st_order st ++ free_of graph))
              end
          | _ => None
          end
      end
  end.

(** A hand-built 2x2 layout in which each worm has a body cell of the other
    in its corridor. *)
Definition deadlock_level : LevelData :=
  mkLevel None 2 2 [cp "Ab"; cp "aB"]
    [(cp "A", mkMeta None "right"); (cp "B", mkMeta None "left")].

(** ** Specification vocabulary for the parser *)

(** The cells of a text grid in scanning order, each with its character. *)
Fixpoint row_cells (r c : Z) (row_str : pystr) : list (cell * N) :=
  match row_str with
  | [] => []
  | ch :: rest => ((r, c), ch) :: row_cells r (c + 1) rest
  end.

Fixpoint grid_cells (r : Z) (grid_strs : list pystr) : list (cell * N) :=
  match grid_strs with
  | [] => []
  | row_str :: rest => row_cells r 0 row_str ++ grid_cells (r + 1) rest
  end.

(** A grid cell holds the head, or a body segment, of the worm [wid]. *)
Definition is_head_of `{CaseTable} (wid : pystr) (x : cell * N) : Prop :=
  x.2 ≠ 46%N ∧ x.2 ≠ 32%N ∧ isupper x.2 = true ∧ upper x.2 = wid.

Definition is_body_of `{CaseTable} (wid : pystr) (x : cell * N) : Prop :=
  x.2 ≠ 46%N ∧ x.2 ≠ 32%N ∧ isupper x.2 = false ∧ upper x.2 = wid.

#[global] Instance is_head_of_dec `{CaseTable} wid x : Decision (is_head_of wid x).
Proof. unfold is_head_of. apply _. Defined.

#[global] Instance is_body_of_dec `{CaseTable} wid x : Decision (is_body_of wid x).
Proof. unfold is_body_of. apply _. Defined.

(** The head cells and the body cells of [wid] among [cells], in order. *)
Definition heads_of `{CaseTable} (wid : pystr) (cells : list (cell * N))
    : list cell :=
  fst <$> filter (is_head_of wid) cells.

Definition bodies_of `{CaseTable} (wid : pystr) (cells : list (cell * N))
    : list cell :=
  fst <$> filter (is_body_of wid) cells.

(** The body cell [b] lies strictly further along [d] than the head [h]. *)
Definition further (d : Direction) (h b : cell) : Prop :=
  match d with
  | Left => b.2 < h.2
  | Right => h.2 < b.2
  | Up => b.1 < h.1
  | Down => h.1 < b.1
  end.

(** The scanning loops as one loop over the cells in scanning order. *)
Fixpoint scan_cells `{CaseTable} (cells : list (cell * N))
    (cell_map : gmap pystr CellEntry) : res (gmap pystr CellEntry) :=
  match cells with
  | [] => Ret cell_map
  | ((r, c), ch) :: rest =>
      cell_map ← scan_cell r c ch cell_map;
      scan_cells rest cell_map
  end.

(** What [cell_map] holds for [wid] once [cells] have been scanned. *)
Definition entry_after `{CaseTable} (wid : pystr) (cells : list (cell * N))
    : option CellEntry :=
  match heads_of wid cells, bodies_of wid cells with
  | [], [] => None
  | hs, bs => Some (mkEntry (hs !! 0%nat) bs)
  end.

(** A 1x1 layout whose only cell holds a worm that the metadata does not
    declare. *)
Definition stray_level : LevelData := mkLevel None 1 1 [cp "A"] [].

(** A layout whose metadata declares a worm that the grid does not hold. *)
Definition missing_level : LevelData :=
  mkLevel None 1 1 [cp "."] [(cp "A", mkMeta None "up")].

(** ** Specification vocabulary for the generator *)

(** A head and its corridor as [_pick_head] must return them: the head is in
    the grid and free, and no cell of its corridor is occupied. *)
Definition head_ok (rows cols : Z) (occupied : gset cell)
    (x : Z * Z * Direction * gset cell) : Prop :=
  let '(hr, hc, d, corridor) := x in
  in_grid rows cols (hr, hc) = true
  ∧ ((hr, hc) ∉ occupied)
  ∧ _exit_corridor hr hc d rows cols = Ret corridor
  ∧ corridor ∩ occupied = ∅.

(** A body as [_grow_body] must return it for a head: distinct cells of the
    grid, free, away from the head and not beyond it. *)
Definition body_ok (rows cols : Z) (occupied : gset cell) (h : cell)
    (d : Direction) (body : list cell) : Prop :=
  NoDup body
  ∧ ∀ q, q ∈ body →
         in_grid rows cols q = true ∧ (q ∉ occupied) ∧ q ≠ h ∧ ¬ further d h q.

(** The record of a worm that was placed, for the occupied cells of the
    moment. *)
Definition placed_ok (rows cols : Z) (occupied : gset cell) (wid : N)
    (x : Placed * gset cell) : Prop :=
  let '(wd, corridor) := x in
  p_worm_id wd = wid
  ∧ p_segments wd = p_body wd ++ [p_head wd]
  ∧ head_ok rows cols occupied
      ((p_head wd).1, (p_head wd).2, p_direction wd, corridor)
  ∧ body_ok rows cols occupied (p_head wd) (p_direction wd) (p_body wd).

(** The cells of the worms of a list. *)
Definition cells_of (ws : list Placed) : list cell := ws ≫= p_segments.

(** The placement records after [i] worms: the [j]-th is named
    [chr(ord('A') + j)], its segments are its body then its head, all in the
    grid and distinct, no body cell lies beyond the head, no cell belongs to
    an earlier worm, and no earlier worm has a cell in its corridor. *)
Inductive well_placed (rows cols : Z) : list Placed → Prop :=
| wp_nil : well_placed rows cols []
| wp_snoc ws wd :
    well_placed rows cols ws →
    p_worm_id wd = Z.to_N (65 + Z.of_nat (length ws)) →
    p_segments wd = p_body wd ++ [p_head wd] →
    NoDup (p_segments wd) →
    (∀ q, q ∈ p_segments wd →
          in_grid rows cols q = true ∧ q ∉ cells_of ws) →
    (∀ b, b ∈ p_body wd → ¬ further (p_direction wd) (p_head wd) b) →
    (∀ k, 1 <= k →
          in_grid rows cols (ahead (p_direction wd) (p_head wd) k) = true →
          ahead (p_direction wd) (p_head wd) k ∉ cells_of ws) →
    well_placed rows cols (ws ++ [wd]).

(** No worm of the list has a cell in the corridor of a worm that comes
    later in the list. *)
Fixpoint clear_order (rows cols : Z) (ws : list Worm) : Prop :=
  match ws with
  | [] => True
  | w :: ws' =>
      (∀ w' h k, w' ∈ ws' → head w' = Ret h → 1 <= k →
                 in_grid rows cols (ahead (direction w') h k) = true →
                 ahead (direction w') h k ∉ segments w)
      ∧ clear_order rows cols ws'
  end.

(** Worms as the generator leaves them for the engine: distinct ids, heads
    in the grid, and corridors clear of the earlier worms. *)
Definition solver_ready (rows cols : Z) (ws : list Worm) : Prop :=
  NoDup (worm_id <$> ws)
  ∧ (∀ w, w ∈ ws → ∃ h, head w = Ret h ∧ in_grid rows cols h = true)
  ∧ clear_order rows cols ws.

(** ** Specification vocabulary for the layout that is built *)

(** The content of the cell [q] of a grid of rows. *)
Definition grid_at {A} (grid : list (list A)) (q : cell) : option A :=
  if (0 <=? q.1) && (0 <=? q.2) then
    grid !! Z.to_nat q.1 ≫= fun row => row !! Z.to_nat q.2
  else None.

(** A grid of [rows] rows of [cols] cells each. *)
Definition rect {A} (rows cols : Z) (grid : list (list A)) : Prop :=
  length grid = Z.to_nat rows
  ∧ Forall (fun row => length row = Z.to_nat cols) grid.

(** The variables of the placement loop once the first [k] worms have all
    been placed, from the state in which worm [i] is next; [None] when one of
    them could not be placed. *)
Fixpoint placed_after `{RandomSource} (k : nat) (rows cols : Z) (i : Z)
    (occupied : gset cell) (worms_placed : list Placed)
    (corridors : list (gset cell)) (min_body max_body : Z)
    : Rand (option (gset cell * list Placed * list (gset cell))) :=
  match k with
  | O => mret (Some (occupied, worms_placed, corridors))
  | S k' =>
      placed ← place_worm rows cols i occupied corridors min_body max_body;
      match placed with
      | Some (wd, corridor) =>
          placed_after k' rows cols (i + 1)
            (occupied ∪ list_to_set (p_segments wd))
            (worms_placed ++ [wd]) (corridors ++ [corridor])
            min_body max_body
      | None => mret None
      end
  end.

(** The worm that the parser makes of a placement record, given the
    scanned cells of the layout. *)
Definition parsed_worm `{CaseTable} (cells : list (cell * N)) (wd : Placed)
    : Worm :=
  mkWorm [p_worm_id wd]
    (sort_by (sort_keys (p_direction wd))
       (bodies_of [p_worm_id wd] cells ++ [p_head wd]))
    (p_direction wd) (p_color wd).

(** The layout that [generate_level 6 6 3 2 4] builds with the random source
    [first_source]. *)
Definition generated_6x6 : LevelData :=
  mkLevel (Some "Generated 6x6 (3 worms)"%string) 6 6
    [cp "......"; cp "AaCc.."; cp "......"; cp "......"; cp "Bb...."; cp "......"]
    [(cp "A", mkMeta (Some "red"%string) "up");
     (cp "B", mkMeta (Some "blue"%string) "down");
     (cp "C", mkMeta (Some "green"%string) "up")].

(** The layout that [generate_level 3 3 2 1 1] builds with [first_source]:
    two worms of one cell, side by side, both facing up. *)
Definition generated_3x3 : LevelData :=
  mkLevel (Some "Generated 3x3 (2 worms)"%string) 3 3
    [cp "..."; cp "AB."; cp "..."]
    [(cp "A", mkMeta (Some "red"%string) "up");
     (cp "B", mkMeta (Some "blue"%string) "up")].

(** A random source that always returns the last possibility: a shuffle
    turns the list round, [randint(a, b)] is [b], a choice is the last
    element. *)
Definition last_source : RandomSource :=
  {| rng := unit;
     rng_seed := fun _ => tt;
     rng_shuffle := fun A l g => (reverse l, g);
     rng_randint := fun a b g => (Z.max a b, g);
     rng_choice := fun A x l g => (default x (last l), g);
     rng_shuffle_perm := fun A l g => reverse_Permutation l;
     rng_randint_range := fun a b g Hab =>
       conj (Z.le_max_l a b) (Z.max_lub a b b Hab (Z.le_refl b));
     rng_choice_elem := fun A x l g =>
       match last l as o return last l = o → default x o ∈ x :: l with
       | Some y => fun Hl =>
           list_elem_of_further y x l (last_Some_elem_of l y Hl)
       | None => fun _ => list_elem_of_here x l
       end eq_refl |}.

(** The layout that [generate_level 1 5 3 1 1] builds with [last_source]:
    three worms of one cell in a row, all facing right, each behind the
    next. *)
Definition generated_1x5 : LevelData :=
  mkLevel (Some "Generated 1x5 (3 worms)"%string) 1 5
    [cp ".ABC."]
    [(cp "A", mkMeta (Some "red"%string) "right");
     (cp "B", mkMeta (Some "blue"%string) "right");
     (cp "C", mkMeta (Some "green"%string) "right")].

(** The rounds that a report lists: the number and the ids of each line
    "Round {n}: extract ...", in the order of the report. *)
Definition rounds_of (report : list line) : list (nat * list pystr) :=
  omap (fun l => match l with
                 | LExtract n free => Some (n, free)
                 | _ => None
                 end) report.

(** ** The engine on a store

    To state what [is_solvable] does to the objects it is given, the parser
    and the engine are written a second time, statement by statement, on a
    store.  The store holds the objects that the caller passed (the
    [level_data] dictionary with the grid list, the worms mapping and its
    entries, which the code reaches again through each [level_data[...]],
    each turn of [enumerate(grid_strs)] and of [worm_meta.items()]) and the
    mutable objects that the call creates: [cell_map] with its entries, the
    list [worms], the list [report] and the list [extraction_order].  The
    helpers that receive only objects of the call are used as above. *)
Record store := mkStore {
  s_level : LevelData;
  s_cell_map : gmap pystr CellEntry;
  s_worms : list Worm;
  s_report : list line;
  s_extraction_order : list pystr
}.

Definition set_cell_map (cm : gmap pystr CellEntry) (s : store) : store :=
  mkStore (s_level s) cm (s_worms s) (s_report s) (s_extraction_order s).
Definition set_worms (ws : list Worm) (s : store) : store :=
  mkStore (s_level s) (s_cell_map s) ws (s_report s) (s_extraction_order s).
Definition set_report (rep : list line) (s : store) : store :=
  mkStore (s_level s) (s_cell_map s) (s_worms s) rep (s_extraction_order s).
Definition set_extraction_order (ord : list pystr) (s : store) : store :=
  mkStore (s_level s) (s_cell_map s) (s_worms s) (s_report s) ord.

(** Computations on the store; the store is kept when a call raises. *)
Definition St (A : Type) : Type := store → res A * store.

#[global] Instance st_ret : MRet St := fun A a s => (Ret a, s).
#[global] Instance st_bind : MBind St := fun A B k m s =>
  match m s with
  | (Ret a, s') => k a s'
  | (Raise e, s') => (Raise e, s')
  | (Diverge, s') => (Diverge, s')
  end.

Definition st_get : St store := fun s => (Ret s, s).
Definition st_lift {A} (m : res A) : St A := fun s => (m, s).
Definition st_modify (f : store → store) : St unit := fun s => (Ret tt, f s).

(** [for c, ch in enumerate(row_str)]: the row is a string, the cell map is
    updated in the store. *)
Fixpoint scan_row_st `{CaseTable} (r c : Z) (row_str : pystr) : St unit :=
  match row_str with
  | [] => mret tt
  | ch :: rest =>
      s ← st_get;
      cm ← st_lift (scan_cell r c ch (s_cell_map s));
      st_modify (set_cell_map cm);;
      scan_row_st r (c + 1) rest
  end.

(** [for r, row_str in enumerate(grid_strs)]: each turn takes item [r] of
    the caller's list as it is then; one unit of fuel per turn. *)
Fixpoint scan_grid_st `{CaseTable} (fuel : nat) (r : nat) : St unit :=
  s ← st_get;
  match ld_grid (s_level s) !! r with
  | None => mret tt
  | Some row_str =>
      match fuel with
      | O => st_lift Diverge
      | S fuel' =>
          scan_row_st (Z.of_nat r) 0 row_str;;
          scan_grid_st fuel' (S r)
      end
  end.

(** [for wid, meta in worm_meta.items()]: each turn takes item [i] of the
    caller's mapping as it is then, and appends to [worms]. *)
Fixpoint load_worms_st (fuel : nat) (i : nat) : St unit :=
  s ← st_get;
  match ld_worms (s_level s) !! i with
  | None => mret tt
  | Some item =>
      match fuel with
      | O => st_lift Diverge
      | S fuel' =>
          w ← st_lift (load_worm (s_cell_map s) item);
          st_modify (fun s => set_worms (s_worms s ++ [w]) s);;
          load_worms_st fuel' (S i)
      end
  end.

Definition load_level_st `{CaseTable} : St (Z * Z * string * list Worm) :=
  s ← st_get;
  let rows := ld_rows (s_level s) in
  let cols := ld_cols (s_level s) in
  let name := default "Unnamed Level"%string (ld_name (s_level s)) in
  st_modify (set_cell_map ∅);;
  scan_grid_st (length (ld_grid (s_level s))) 0;;
  st_modify (set_worms []);;
  load_worms_st (length (ld_worms (s_level s))) 0;;
  s ← st_get;
  mret (rows, cols, name, s_worms s).

(** The [while worms] loop: [report.append], [extraction_order.extend] and
    the new list bound to [worms] are updates of the store. *)
Fixpoint solve_loop_st (fuel : nat) (rows cols : Z) (round_num : nat)
    : St bool :=
  s ← st_get;
  match s_worms s with
  | [] =>
      st_modify (fun s =>
        set_report
          (s_report s
           ++ [LBlank; LExtractionOrder (s_extraction_order s) round_num;
               LSolvable]) s);;
      mret true
  | _ :: _ =>
      match fuel with
      | O => st_lift Diverge
      | S fuel' =>
          let round_num := S round_num in
          graph ← st_lift (_build_dependency_graph (s_worms s) rows cols);
          let free := free_of graph in
          match free with
          | [] =>
              st_modify (fun s =>
                set_report
                  (s_report s ++ deadlock_report round_num (s_worms s) graph)
                  s);;
              mret false
          | _ :: _ =>
              st_modify (fun s =>
                set_report (s_report s ++ [LExtract round_num free]) s);;
              st_modify (fun s =>
                set_extraction_order (s_extraction_order s ++ free) s);;
              st_modify (fun s =>
                set_report
                  (s_report s
                   ++ ((fun wid => LStillBlocked wid (deps_of graph wid))
                         <$> blocked_of graph)) s);;
              st_modify (fun s =>
                set_worms (filter (fun w => worm_id w ∉ free) (s_worms s)) s);;
              solve_loop_st fuel' rows cols round_num
          end
      end
  end.

Definition is_solvable_st `{CaseTable} : St (bool * list line) :=
  '(rows, cols, name, worms) ← load_level_st;
  st_modify (set_worms worms);;
  st_modify (set_report []);;
  st_modify (set_extraction_order []);;
  solvable ← solve_loop_st (length worms) rows cols 0;
  s ← st_get;
  mret (solvable, s_report s).

(** The state of the scan: [cell_map] describes the cells scanned so far,
    and no worm has shown two heads. *)
Definition scanned `{CaseTable} (l : list (cell * N))
    (cm : gmap pystr CellEntry) : Prop :=
  ∀ wid, cm !! wid = entry_after wid l
         ∧ (length (heads_of wid l) <= 1)%nat.

(** The verdict of a run of the loop. *)
Definition verdict_of (m : res (bool * list pystr * list line)) : res bool :=
  x ← m; Ret x.1.1.

(** The scanned cells of the layout made of a grid of cell strings. *)
Abbreviation cells_of_grid grid :=
  (grid_cells 0 ((fun row : list pystr => concat row) <$> grid)).

(** ** Level dictionaries with missing keys (level_manager.py)

    [load_level] reads its argument with [level_data["rows"]],
    [level_data["cols"]], [level_data["grid"]], [level_data["worms"]] and
    [meta["direction"]], each of which is a KeyError on a dictionary without
    the key.  A [LevelData] has all of them; a [LevelDict] is a dictionary
    that may lack any. *)

Record MetaDict := mkMetaDict {
  md_color : option string;        (* "color" *)
  md_direction : option string     (* "direction" *)
}.

Record LevelDict := mkLevelDict {
  d_name : option string;          (* "name" *)
  d_rows : option Z;               (* "rows" *)
  d_cols : option Z;               (* "cols" *)
  d_grid : option (list pystr);    (* "grid" *)
  d_worms : option (list (pystr * MetaDict))  (* "worms", in insertion order *)
}.

(** [d[key]]. *)
Definition getitem {A} (v : option A) : res A :=
  match v with
  | Some a => Ret a
  | None => Raise KeyError
  end.

(** The body of the loop over [worm_meta.items()], on an entry that may
    lack its direction. *)
Definition load_worm_dict (cell_map : gmap pystr CellEntry)
    (item : pystr * MetaDict) : res Worm :=
  let '(wid, meta) := item in
  match cell_map !! wid with
  | None => Raise ValueError
  | Some info =>
      match e_head info with
      | None => Raise ValueError
      | Some (head_r, head_c) =>
          direction ← getitem (md_direction meta);
          let color := default "white"%string (md_color meta) in
          if existsb (beyond_head direction head_r head_c) (e_body info)
          then Raise ValueError
          else
            match parse_direction direction with
            | None => Raise KeyError
            | Some d =>
                let coords :=
                  sort_by (sort_keys d) (e_body info ++ [(head_r, head_c)]) in
                Ret (mkWorm wid coords d color)
            end
      end
  end.

(** [load_level] on a dictionary that may lack keys. *)
Definition load_level_dict `{CaseTable} (level_data : LevelDict)
    : res (Z * Z * string * list Worm) :=
  rows ← getitem (d_rows level_data);
  cols ← getitem (d_cols level_data);
  let name := default "Unnamed Level"%string (d_name level_data) in
  grid_strs ← getitem (d_grid level_data);
  worm_meta ← getitem (d_worms level_data);
  cell_map ← scan_grid 0 grid_strs ∅;
  worms ← mapM (load_worm_dict cell_map) worm_meta;
  Ret (rows, cols, name, worms).

(** The dictionary that a [LevelData] stands for. *)
Definition dict_of_meta (meta : WormMeta) : MetaDict :=
  mkMetaDict (m_color meta) (Some (m_direction meta)).

Definition dict_of (level_data : LevelData) : LevelDict :=
  mkLevelDict (ld_name level_data) (Some (ld_rows level_data))
    (Some (ld_cols level_data)) (Some (ld_grid level_data))
    (Some ((fun item : pystr * WormMeta => (item.1, dict_of_meta item.2))
             <$> ld_worms level_data)).

(** ** Game engine (engine.py) *)

(** [_occupied_by_others(worms, exclude_id)]. *)
Definition _occupied_by_others (worms : list Worm) (exclude_id : pystr)
    : gset cell :=
  foldl (fun cells w =>
           if bool_decide (worm_id w ≠ exclude_id)
           then cells ∪ list_to_set (segments w) else cells)
        ∅ worms.

(** The three strings that [_step_forward] returns. *)
Inductive step_result := extracted | blocked | moved.

(** [_step_forward] changes the object [worm] in place, and the list
    [worms] may hold that very object: an item [None] of [worms] stands for
    the object [worm] itself, an item [Some w] for another object.  The list
    as the code reads it at a given moment: *)
Definition resolve (worm : Worm) (worms : list (option Worm)) : list Worm :=
  (fun item => default worm item) <$> worms.

(** [_step_forward(worm, worms, rows, cols)]; the worm comes back as the
    call leaves it. *)
Definition _step_forward (worm : Worm) (worms : list (option Worm))
    (rows cols : Z) : res (step_result * Worm) :=
  let '(dr, dc) := DIR_DELTA (direction worm) in
  '(hr, hc) ← head worm;
  let nr := hr + dr in
  let nc := hc + dc in
  if negb (in_grid rows cols (nr, nc)) then Ret (extracted, worm)
  else if bool_decide
            ((nr, nc) ∈ _occupied_by_others (resolve worm worms)
                          (worm_id worm))
  then Ret (blocked, worm)
  else
    match segments worm with
    | [] => Raise IndexError
    | _ :: rest =>
        Ret (moved,
             mkWorm (worm_id worm) (rest ++ [(nr, nc)]) (direction worm)
               (color worm))
    end.

(** The loop of [attempt_extraction], with [on_step] left at [None]; one
    unit of fuel per slide. *)
Fixpoint attempt_extraction_loop (fuel : nat) (worm : Worm)
    (worms : list (option Worm)) (rows cols : Z) (steps : Z)
    : res (bool * Z * Worm) :=
  '(result, worm) ← _step_forward worm worms rows cols;
  match result with
  | moved =>
      match fuel with
      | O => Diverge
      | S fuel' =>
          attempt_extraction_loop fuel' worm worms rows cols (steps + 1)
      end
  | extracted => Ret (true, steps, worm)
  | blocked => Ret (false, steps, worm)
  end.

(** [attempt_extraction(worm, worms, rows, cols)]: the pair that is
    returned, and the worm as the call leaves it. *)
Definition attempt_extraction (worm : Worm) (worms : list (option Worm))
    (rows cols : Z) : res (bool * Z * Worm) :=
  attempt_extraction_loop (Z.to_nat (Z.max rows cols)) worm worms rows cols 0.

(** ** Game loop (main.py) *)

(** The list [worms] as the call [attempt_extraction(worm, worms, ...)] of
    the game loop sees it, [worm] being item [i] of the list. *)
Definition aliased (i : nat) (worms : list Worm) : list (option Worm) :=
  imap (fun j w => if decide (j = i) then None else Some w) worms.

(** [next(w for w in worms if w.worm_id == choice)]: the worm and its
    position in the list; [None] when no worm has that id. *)
Fixpoint find_worm (choice : pystr) (worms : list Worm)
    : option (nat * Worm) :=
  match worms with
  | [] => None
  | w :: rest =>
      if decide (worm_id w = choice) then Some (0%nat, w)
      else (fun x => (S x.1, x.2)) <$> find_worm choice rest
  end.

(** How a run of the game loop ends. *)
Inductive ending :=
| Congratulations (moves : nat)  (* the loop ends, the board is clear *)
| Goodbye                        (* [sys.exit(0)] *)
| EOFError                       (* [input] past the end, outside the [try] *)
| Failed (e : exn)               (* an exception of the engine *)
| Unfinished.                    (* out of fuel in the engine *)

Definition QUIT_WORDS : list pystr := [cp "Q"; cp "QUIT"; cp "EXIT"].

(** The [while worms] loop of [main].  [inputs] are the lines that [input]
    returns, one per call; a line read at the selection prompt is given as
    [.strip().upper()] leaves it.  What is printed is not modelled. *)
Fixpoint main_loop (rows cols : Z) (inputs : list pystr)
    (worms : list Worm) (moves : nat) : ending :=
  match worms with
  | [] => Congratulations moves
  | _ :: _ =>
      match inputs with
      | [] => Goodbye
      | choice :: inputs =>
          if bool_decide (choice ∈ QUIT_WORDS) then Goodbye
          else
            match find_worm choice worms with
            | None =>
                match inputs with
                | [] => EOFError
                | _ :: inputs => main_loop rows cols inputs worms moves
                end
            | Some (i, worm) =>
                match attempt_extraction worm (aliased i worms) rows cols with
                | Ret (true, _, _) =>
                    main_loop rows cols inputs (delete i worms) (S moves)
                | Ret (false, _, worm') =>
                    main_loop rows cols inputs (<[i := worm']> worms)
                      (S moves)
                | Raise e => Failed e
                | Diverge => Unfinished
                end
            end
      end
  end.

(** ** Specification vocabulary for the game *)

(** Worms as the parser leaves them: distinct ids, no cell shared, no worm
    without a segment. *)
Definition board (worms : list Worm) : Prop :=
  NoDup (worm_id <$> worms)
  ∧ NoDup (worms ≫= segments)
  ∧ ∀ w, w ∈ worms → segments w ≠ [].

(** The cells [1 .. n] ahead of [h]. *)
Definition trail (d : Direction) (h : cell) (n : Z) : list cell :=
  (fun i => ahead d h i) <$> seqZ 1 n.

(** The worms named by [order] leave the board one after the other, each
    by one call of [attempt_extraction] that extracts it from the board of
    the moment. *)
Fixpoint extracts (rows cols : Z) (worms : list Worm) (order : list pystr)
    : Prop :=
  match order with
  | [] => worms = []
  | wid :: rest =>
      ∃ (i : nat) (w : Worm) (steps : Z) (w' : Worm),
        find_worm wid worms = Some (i, w)
        ∧ attempt_extraction w (aliased i worms) rows cols
          = Ret (true, steps, w')
        ∧ extracts rows cols (delete i worms) rest
  end.

(** A cell held by an object of [worms] other than the worm [wid]. *)
Definition held_by_others (worms : list (option Worm)) (wid : pystr)
    (q : cell) : Prop :=
  ∃ v, Some v ∈ worms ∧ worm_id v ≠ wid ∧ q ∈ segments v.

(** The tracer of the solver finds no blocker for [w] among [worms]. *)
Definition free_in (rows cols : Z) (worms : list Worm) (w : Worm) : Prop :=
  _first_blocker w (_build_occupancy worms) rows cols = Ret None.

(** ** Specification vocabulary for worm bodies *)

(** Two cells that touch by a side. *)
Definition adjacent (p q : cell) : Prop :=
  Z.abs (p.1 - q.1) + Z.abs (p.2 - q.2) = 1.

(** A list of cells in which each cell touches the next. *)
Fixpoint chain (l : list cell) : Prop :=
  match l with
  | p :: (q :: _) as l' => adjacent p q ∧ chain l'
  | _ => True
  end.

(** The layout that [generate_level 4 9 17 1 1] builds with
    [first_source]: seventeen worms of one cell, A to Q. *)
Definition generated_4x9 : LevelData :=
  mkLevel (Some "Generated 4x9 (17 worms)"%string) 4 9
    [cp "........."; cp "ACEGIKMOQ"; cp "BDFHJLNP."; cp "........."]
    [(cp "A", mkMeta (Some "red"%string) "up");
     (cp "B", mkMeta (Some "blue"%string) "down");
     (cp "C", mkMeta (Some "green"%string) "up");
     (cp "D", mkMeta (Some "yellow"%string) "down");
     (cp "E", mkMeta (Some "magenta"%string) "up");
     (cp "F", mkMeta (Some "cyan"%string) "down");
     (cp "G", mkMeta (Some "white"%string) "up");
     (cp "H", mkMeta (Some "red"%string) "down");
     (cp "I", mkMeta (Some "blue"%string) "up");
     (cp "J", mkMeta (Some "green"%string) "down");
     (cp "K", mkMeta (Some "yellow"%string) "up");
     (cp "L", mkMeta (Some "magenta"%string) "down");
     (cp "M", mkMeta (Some "cyan"%string) "up");
     (cp "N", mkMeta (Some "white"%string) "down");
     (cp "O", mkMeta (Some "red"%string) "up");
     (cp "P", mkMeta (Some "blue"%string) "down");
     (cp "Q", mkMeta (Some "green"%string) "up")].


(** * Properties *)

(** ** Geometry *)

Lemma in_grid_spec rows cols p :
  in_grid rows cols p = true ↔ 0 <= p.1 < rows ∧ 0 <= p.2 < cols.
Proof. unfold in_grid. rewrite !andb_true_iff. lia. Qed.

Lemma ahead_0 d p : ahead d p 0 = p.
Proof. destruct p, d; unfold ahead; simpl; f_equal; lia. Qed.

(** In the grid, the depth counts the cells ahead that are in the grid. *)
Lemma in_grid_ahead_depth d rows cols p k :
  in_grid rows cols p = true → 0 <= k →
  (in_grid rows cols (ahead d p k) = true ↔ k <= depth d rows cols p).
Proof.
  rewrite !in_grid_spec. destruct p, d; unfold ahead, depth; simpl; lia.
Qed.

Lemma depth_nonneg d rows cols p :
  in_grid rows cols p = true → 0 <= depth d rows cols p < Z.max rows cols.
Proof. rewrite in_grid_spec. destruct p, d; unfold depth; simpl; lia. Qed.

(** ** The corridor *)

Lemma ahead_next d p k r c :
  (r, c) = ahead d p k →
  (r + (DIR_DELTA d).1, c + (DIR_DELTA d).2) = ahead d p (k + 1).
Proof. destruct p, d; unfold ahead; simpl; intros [= -> ->]; f_equal; lia. Qed.

Lemma exit_corridor_loop_spec d rows cols p :
  in_grid rows cols p = true →
  ∀ (fuel : nat) (k r c : Z) (acc : gset cell),
    (r, c) = ahead d p k →
    1 <= k → depth d rows cols p - k < Z.of_nat fuel →
    ∃ S, exit_corridor_loop fuel (DIR_DELTA d).1 (DIR_DELTA d).2 rows cols
           r c acc = Ret S
         ∧ ∀ q, q ∈ S ↔ q ∈ acc ∨ ∃ i, k <= i <= depth d rows cols p
                                        ∧ q = ahead d p i.
Proof.
  intros Hp fuel.
  induction fuel as [|fuel IH]; intros k r c acc Hrc Hk Hfuel; simpl;
    rewrite Hrc; destruct (in_grid rows cols (ahead d p k)) eqn:Hin.
  - apply in_grid_ahead_depth in Hin; [lia | done | lia].
  - eexists; split; [done|]. intros q. split; [auto|].
    intros [?|(i & Hi & ->)]; [done|lia].
  - apply in_grid_ahead_depth in Hin; [| done | lia].
    destruct (IH (k + 1) (r + (DIR_DELTA d).1) (c + (DIR_DELTA d).2)
                (acc ∪ {[ahead d p k]})) as (S & HS & Hchar);
      [by apply ahead_next | lia | lia |].
    exists S. split; [done|].
    intros q. rewrite Hchar, elem_of_union, elem_of_singleton.
    split.
    + intros [[?| ->]|(i & Hi & ->)]; eauto.
      * right. exists k. split; [lia|done].
      * right. exists i. split; [lia|done].
    + intros [?|(i & Hi & ->)]; [auto|].
      destruct (decide (i = k)) as [->|]; [auto|].
      right. exists i. split; [lia|done].
  - eexists; split; [done|]. intros q. split; [auto|].
    intros [?|(i & Hi & ->)]; [done|].
    assert (in_grid rows cols (ahead d p k) = true); [|congruence].
    apply in_grid_ahead_depth; [done|lia|lia].
Qed.

(** The corridor is computed for every head in the grid, and it holds the
    cells ahead of the head, up to its depth. *)
Lemma exit_corridor_cells d rows cols p :
  in_grid rows cols p = true →
  ∃ S, _exit_corridor p.1 p.2 d rows cols = Ret S
       ∧ ∀ q, q ∈ S ↔ ∃ i, 1 <= i <= depth d rows cols p ∧ q = ahead d p i.
Proof.
  intros Hp. unfold _exit_corridor.
  pose proof (depth_nonneg d rows cols p Hp) as Hd.
  destruct (exit_corridor_loop_spec d rows cols p Hp
              (Z.to_nat (Z.max rows cols)) 1
              (p.1 + (DIR_DELTA d).1) (p.2 + (DIR_DELTA d).2) ∅)
    as (S & HS & Hchar); [| lia | lia |].
  { destruct p, d; unfold ahead; simpl; f_equal; lia. }
  exists S. split.
  - destruct (DIR_DELTA d) as [dr dc] eqn:Hdelta. done.
  - intros q. rewrite Hchar. split; [|by right].
    intros [Hq|Hq]; [by apply not_elem_of_empty in Hq | done].
Qed.

(** C6.  For an in-bounds position [p], a direction [d] and positive bounds,
    the corridor is computed and holds exactly the cells of the grid that lie
    strictly ahead of [p] along [d]; it is empty if and only if [p] sits on
    the edge that [d] faces; a head at depth 1 has a corridor of exactly one
    cell. *)
Theorem exit_corridor_spec (d : Direction) (rows cols : Z) (p : cell) :
  0 < rows → 0 < cols → in_grid rows cols p = true →
  ∃ S : gset cell,
    _exit_corridor p.1 p.2 d rows cols = Ret S
    ∧ (∀ q, q ∈ S ↔ in_grid rows cols q = true
                     ∧ ∃ k, 1 <= k ∧ q = ahead d p k)
    ∧ (S = ∅ ↔ on_facing_edge d rows cols p)
    ∧ (depth d rows cols p = 1 → S = {[ ahead d p 1 ]} ∧ size S = 1%nat).
Proof.
  intros _ _ Hp.
  destruct (exit_corridor_cells d rows cols p Hp) as (S & HS & Hchar).
  pose proof (depth_nonneg d rows cols p Hp) as Hd.
  exists S. split; [done|]. split; [|split].
  - intros q. rewrite Hchar. split.
    + intros (i & Hi & ->). split; [|exists i; split; [lia|done]].
      apply in_grid_ahead_depth; [done|lia|lia].
    + intros (Hq & k & Hk & ->). exists k. split; [|done].
      apply in_grid_ahead_depth in Hq; [lia|done|lia].
  - assert (on_facing_edge d rows cols p ↔ depth d rows cols p = 0) as ->.
    { destruct d; unfold on_facing_edge, depth; lia. }
    split.
    + intros ->. destruct (decide (depth d rows cols p = 0)) as [|Hne]; [done|].
      exfalso. apply (not_elem_of_empty (C:=gset cell) (ahead d p 1)).
      apply Hchar. exists 1. split; [lia|done].
    + intros H0. apply set_eq. intros q. rewrite Hchar. split.
      * intros (i & Hi & _). lia.
      * intros Hq. by apply not_elem_of_empty in Hq.
  - intros H1.
    assert (S = {[ ahead d p 1 ]}) as ->.
    { apply set_eq. intros q. rewrite Hchar, elem_of_singleton. split.
      - intros (i & Hi & ->). f_equal. lia.
      - intros ->. exists 1. split; [lia|done]. }
    split; [done|]. apply size_singleton.
Qed.

(** The corridor of the head [(3, 2)] facing up in a 6x6 grid, as in the
    docstring of [_exit_corridor]. *)
Lemma exit_corridor_spec_witness :
  ∃ S : gset cell,
    _exit_corridor 3 2 Up 6 6 = Ret S
    ∧ (∀ q, q ∈ S ↔ in_grid 6 6 q = true ∧ ∃ k, 1 <= k ∧ q = ahead Up (3, 2) k)
    ∧ (S = ∅ ↔ on_facing_edge Up 6 6 (3, 2))
    ∧ (depth Up 6 6 (3, 2) = 1 → S = {[ ahead Up (3, 2) 1 ]} ∧ size S = 1%nat).
Proof. apply (exit_corridor_spec Up 6 6 (3, 2)); [lia | lia | reflexivity]. Defined.

(** ** The first blocker *)

Lemma first_blocker_loop_spec d rows cols p wid occupancy :
  in_grid rows cols p = true →
  ∀ (fuel : nat) (k r c : Z),
    (r, c) = ahead d p k →
    0 <= k → depth d rows cols p - k <= Z.of_nat fuel →
    ∃ res, first_blocker_loop fuel (DIR_DELTA d).1 (DIR_DELTA d).2 rows cols
             wid occupancy r c = Ret res
      ∧ match res with
        | Some b =>
            ∃ i, k < i <= depth d rows cols p
                 ∧ occupancy !! ahead d p i = Some b ∧ b ≠ wid
                 ∧ ∀ j, k < j < i → passable occupancy wid (ahead d p j)
        | None =>
            ∀ j, k < j <= depth d rows cols p →
                 passable occupancy wid (ahead d p j)
        end.
Proof.
  intros Hp fuel.
  induction fuel as [|fuel IH]; intros k r c Hrc Hk Hfuel; simpl;
    rewrite (ahead_next d p k r c Hrc);
    destruct (in_grid rows cols (ahead d p (k + 1))) eqn:Hin; simpl.
  - apply in_grid_ahead_depth in Hin; [lia | done | lia].
  - exists None. split; [done|]. intros j Hj. lia.
  - apply in_grid_ahead_depth in Hin; [| done | lia].
    assert (∃ res,
      first_blocker_loop fuel (DIR_DELTA d).1 (DIR_DELTA d).2 rows cols
        wid occupancy (r + (DIR_DELTA d).1) (c + (DIR_DELTA d).2) = Ret res
      ∧ match res with
        | Some b =>
            ∃ i, k + 1 < i <= depth d rows cols p
                 ∧ occupancy !! ahead d p i = Some b ∧ b ≠ wid
                 ∧ ∀ j, k + 1 < j < i → passable occupancy wid (ahead d p j)
        | None =>
            ∀ j, k + 1 < j <= depth d rows cols p →
                 passable occupancy wid (ahead d p j)
        end) as Hnext.
    { apply IH; [by apply ahead_next | lia | lia]. }
    assert (passable occupancy wid (ahead d p (k + 1)) →
      ∃ res,
      first_blocker_loop fuel (DIR_DELTA d).1 (DIR_DELTA d).2 rows cols
        wid occupancy (r + (DIR_DELTA d).1) (c + (DIR_DELTA d).2) = Ret res
      ∧ match res with
        | Some b =>
            ∃ i, k < i <= depth d rows cols p
                 ∧ occupancy !! ahead d p i = Some b ∧ b ≠ wid
                 ∧ ∀ j, k < j < i → passable occupancy wid (ahead d p j)
        | None =>
            ∀ j, k < j <= depth d rows cols p →
                 passable occupancy wid (ahead d p j)
        end) as Hgo.
    { intros Hpass. destruct Hnext as (res & Hres & Hspec).
      exists res. split; [done|]. destruct res as [b|].
      - destruct Hspec as (i & Hi & Hocc & Hne & Hbefore).
        exists i. split; [lia|]. split; [done|]. split; [done|].
        intros j Hj. destruct (decide (j = k + 1)) as [->|]; [done|].
        apply Hbefore. lia.
      - intros j Hj. destruct (decide (j = k + 1)) as [->|]; [done|].
        apply Hspec. lia. }
    destruct (occupancy !! _) as [owner|] eqn:Hocc.
    + case_bool_decide as Hown.
      * exists (Some owner). split; [done|].
        exists (k + 1).
        split; [lia|]. split; [exact Hocc|]. split; [done|]. intros j Hj. lia.
      * apply Hgo. right. rewrite <- Hown. exact Hocc.
    + apply Hgo. left. exact Hocc.
  - exists None. split; [done|]. intros j Hj.
    assert (in_grid rows cols (ahead d p (k + 1)) = true); [|congruence].
    apply in_grid_ahead_depth; [done|lia|lia].
Qed.

(** C5.  For a worm whose head is in the grid, [_first_blocker] returns; it
    returns the owner of the first cell ahead of the head, inside the grid,
    that is occupied by another worm, and it returns none exactly when every
    cell ahead of the head inside the grid is free or the worm's own. *)
Theorem first_blocker_spec (worm : Worm) (occupancy : gmap cell pystr)
    (rows cols : Z) (h : cell) :
  head worm = Ret h → in_grid rows cols h = true →
  ∃ res,
    _first_blocker worm occupancy rows cols = Ret res
    ∧ (∀ b, res = Some b ↔
         ∃ k, 1 <= k ∧ in_grid rows cols (ahead (direction worm) h k) = true
              ∧ occupancy !! ahead (direction worm) h k = Some b
              ∧ b ≠ worm_id worm
              ∧ ∀ j, 1 <= j < k →
                  passable occupancy (worm_id worm) (ahead (direction worm) h j))
    ∧ (res = None ↔
         ∀ k, 1 <= k → in_grid rows cols (ahead (direction worm) h k) = true →
              passable occupancy (worm_id worm) (ahead (direction worm) h k)).
Proof.
  intros Hhead Hin. unfold _first_blocker. rewrite Hhead.
  pose proof (depth_nonneg (direction worm) rows cols h Hin) as Hd.
  destruct (first_blocker_loop_spec (direction worm) rows cols h (worm_id worm)
              occupancy Hin (Z.to_nat (Z.max rows cols)) 0 h.1 h.2)
    as (res & Hres & Hspec); [by rewrite ahead_0, <- surjective_pairing | lia | lia |].
  exists res. split.
  { destruct (DIR_DELTA (direction worm)) as [dr dc]. destruct h. done. }
  assert (∀ k b, 1 <= k →
            occupancy !! ahead (direction worm) h k = Some b →
            b ≠ worm_id worm →
            ¬ passable occupancy (worm_id worm) (ahead (direction worm) h k))
    as Hstop.
  { intros k b _ Hocc Hne [Hnone|Hsome]; congruence. }
  split.
  - intros b. split.
    + intros ->. destruct Hspec as (i & Hi & Hocc & Hne & Hbefore).
      exists i. split; [lia|]. split; [|split; [done|split; [done|]]].
      * apply in_grid_ahead_depth; [done|lia|lia].
      * intros j Hj. apply Hbefore. lia.
    + intros (k & Hk & Hink & Hocc & Hne & Hbefore).
      apply in_grid_ahead_depth in Hink; [|done|lia].
      destruct res as [b'|].
      * destruct Hspec as (i & Hi & Hocc' & Hne' & Hbefore').
        destruct (Z.lt_trichotomy i k) as [Hlt|[->|Hgt]].
        -- exfalso. apply (Hstop i b'); [lia|done|done|]. apply Hbefore. lia.
        -- congruence.
        -- exfalso. apply (Hstop k b); [lia|done|done|]. apply Hbefore'. lia.
      * exfalso. apply (Hstop k b); [lia|done|done|]. apply Hspec. lia.
  - split.
    + intros ->. intros k Hk Hink.
      apply in_grid_ahead_depth in Hink; [|done|lia]. apply Hspec. lia.
    + intros Hall. destruct res as [b|]; [|done].
      destruct Hspec as (i & Hi & Hocc & Hne & _).
      exfalso. apply (Hstop i b); [lia|done|done|].
      apply Hall; [lia|]. apply in_grid_ahead_depth; [done|lia|lia].
Qed.

(** The blocker of worm A on the first level is worm B. *)
Lemma first_blocker_spec_witness :
  ∃ res,
    _first_blocker worm_A (_build_occupancy [worm_A; worm_B; worm_C]) 6 6
      = Ret res
    ∧ (∀ b, res = Some b ↔
         ∃ k, 1 <= k ∧ in_grid 6 6 (ahead Right (3, 2) k) = true
              ∧ _build_occupancy [worm_A; worm_B; worm_C]
                  !! ahead Right (3, 2) k = Some b
              ∧ b ≠ cp "A"
              ∧ ∀ j, 1 <= j < k →
                  passable (_build_occupancy [worm_A; worm_B; worm_C])
                    (cp "A") (ahead Right (3, 2) j))
    ∧ (res = None ↔
         ∀ k, 1 <= k → in_grid 6 6 (ahead Right (3, 2) k) = true →
              passable (_build_occupancy [worm_A; worm_B; worm_C])
                (cp "A") (ahead Right (3, 2) k)).
Proof.
  apply (first_blocker_spec worm_A (_build_occupancy [worm_A; worm_B; worm_C])
           6 6 (3, 2)); reflexivity.
Defined.

(** ** The first level *)

(** C3.  On the 6x6 layout of level 1 the parser yields worm A (right, head
    (3,2), body (3,0),(3,1)), worm B (up, head (2,3), body (3,3),(4,3)) and
    worm C (left, head (1,3), body (1,4)); the engine answers solvable, round
    1 frees C alone, round 2 frees B alone, round 3 frees A alone, and the
    extraction order is C, B, A. *)
Theorem level_01_solved `{CaseTable} :
  load_level level_01
    = Ret (6, 6, "Level 1 — First Steps"%string, [worm_A; worm_B; worm_C])
  ∧ head worm_A = Ret (3, 2) ∧ head worm_B = Ret (2, 3)
  ∧ head worm_C = Ret (1, 3)
  ∧ is_solvable_trace level_01
    = Ret (true, [cp "C"; cp "B"; cp "A"],
           [LExtract 1 [cp "C"];
            LStillBlocked (cp "A") [cp "B"];
            LStillBlocked (cp "B") [cp "C"];
            LExtract 2 [cp "B"];
            LStillBlocked (cp "A") [cp "B"];
            LExtract 3 [cp "A"];
            LBlank;
            LExtractionOrder [cp "C"; cp "B"; cp "A"] 3;
            LSolvable])
  ∧ ∃ report, is_solvable level_01 = Ret (true, report)
      ∧ filter (fun l => is_extract l = true) report
        = [LExtract 1 [cp "C"]; LExtract 2 [cp "B"]; LExtract 3 [cp "A"]].
Proof.
  split; [vm_compute; reflexivity|].
  split; [reflexivity|]. split; [reflexivity|]. split; [reflexivity|].
  split; [vm_compute; reflexivity|].
  eexists. split; vm_compute; reflexivity.
Qed.

(** ** Sorting *)

Lemma elem_of_sorted (x : pystr) (l : list pystr) : x ∈ sorted l ↔ x ∈ l.
Proof. unfold sorted. by rewrite merge_sort_Permutation. Qed.

Lemma NoDup_sorted l : NoDup (sorted l) ↔ NoDup l.
Proof. unfold sorted. by rewrite merge_sort_Permutation. Qed.

(** ** The dependency graph *)

Lemma blocked_by_init_dom (worms : list Worm) (g : gmap pystr (gset pystr)) :
  dom (foldl (fun g w => <[worm_id w := (∅ : gset pystr)]> g) g worms)
  = dom g ∪ list_to_set (worm_id <$> worms).
Proof.
  revert g. induction worms as [|w ws IH]; intros g; simpl.
  - set_solver.
  - rewrite IH, dom_insert_L. set_solver.
Qed.

Lemma blocked_by_loop_dom (occupancy : gmap cell pystr) (rows cols : Z)
    (worms : list Worm)
    (g g' : gmap pystr (gset pystr)) :
  blocked_by_loop occupancy rows cols worms g = Ret g' → dom g' = dom g.
Proof.
  revert g. induction worms as [|w ws IH]; intros g; simpl.
  - by intros [= ->].
  - destruct (_first_blocker w occupancy rows cols) as [[b|]| |]; simpl;
      try done; intros Hg; apply IH in Hg; by rewrite ?dom_alter_L in Hg.
Qed.

Lemma graph_dom (worms : list Worm) (rows cols : Z)
    (graph : gmap pystr (gset pystr)) :
  _build_dependency_graph worms rows cols = Ret graph →
  ∀ x, x ∈ dom graph ↔ x ∈ worm_id <$> worms.
Proof.
  unfold _build_dependency_graph. intros Hg%blocked_by_loop_dom x.
  rewrite Hg, blocked_by_init_dom. set_solver.
Qed.

Lemma elem_of_free_of (graph : gmap pystr (gset pystr)) (x : pystr) :
  x ∈ free_of graph ↔ graph !! x = Some ∅.
Proof.
  unfold free_of. rewrite elem_of_sorted, list_elem_of_fmap. split.
  - intros ([k deps] & -> & [Hsize Hin]%list_elem_of_filter).
    apply elem_of_map_to_list in Hin. simpl in *.
    apply size_empty_inv in Hsize. apply leibniz_equiv in Hsize. by subst.
  - intros Hx. exists (x, ∅). split; [done|].
    apply list_elem_of_filter. split; [done|]. by apply elem_of_map_to_list.
Qed.

(** A round that frees a worm leaves fewer worms. *)
Lemma round_shrinks (worms : list Worm) (rows cols : Z)
    (graph : gmap pystr (gset pystr)) :
  _build_dependency_graph worms rows cols = Ret graph →
  free_of graph ≠ [] →
  (length (filter (fun w => worm_id w ∉ free_of graph) worms)
   < length worms)%nat.
Proof.
  intros Hg Hfree.
  destruct (free_of graph) as [|x free] eqn:Hf; [done|].
  assert (x ∈ free_of graph) as Hx by (rewrite Hf; apply elem_of_cons; by left).
  assert (x ∈ dom graph) as Hdom.
  { apply elem_of_free_of in Hx. apply elem_of_dom. eauto. }
  apply (graph_dom _ _ _ _ Hg) in Hdom.
  apply list_elem_of_fmap in Hdom as (w & -> & Hw).
  rewrite <- Hf. apply (length_filter_lt _ _ w); [done|]. tauto.
Qed.

(** ** The loop of the engine *)

Lemma solve_loop_after_rounds (rows cols : Z) (k : nat) :
  ∀ st st' fuel,
    after_rounds k rows cols st = Some st' →
    (length (st_worms st) <= fuel)%nat →
    ∃ fuel',
      (length (st_worms st') <= fuel')%nat
      ∧ solve_loop fuel rows cols (st_worms st) (st_round_num st)
          (st_report st) (st_order st)
        = solve_loop fuel' rows cols (st_worms st') (st_round_num st')
            (st_report st') (st_order st').
Proof.
  induction k as [|k IH]; intros st st' fuel Hk Hfuel; simpl in Hk.
  - injection Hk as <-. eauto.
  - destruct (st_worms st) as [|w ws] eqn:Hws; [done|].
    destruct (_build_dependency_graph (w :: ws) rows cols) as [graph| |] eqn:Hg;
      try done.
    pose proof (round_shrinks _ _ _ _ Hg) as Hshrink.
    destruct (free_of graph) as [|x free] eqn:Hfree; [done|].
    specialize (Hshrink ltac:(done)).
    destruct fuel as [|fuel]; [simpl in Hfuel; lia|].
    apply (IH _ _ fuel) in Hk as (fuel' & Hfuel' & Heq); [|simpl in *; lia].
    exists fuel'. split; [done|]. rewrite <- Heq. simpl.
    rewrite Hg. simpl. rewrite Hfree. done.
Qed.

(** C4.  When a round of the engine starts with worms left and none of them
    has an empty blocking set, [is_solvable] returns not solvable; its report
    is the report so far followed by the deadlock lines, which name every
    remaining worm with its (non-empty) set of blockers; the extraction order
    is the one reached before that round and the deadlock lines free no
    worm. *)
Theorem deadlock_reported `{CaseTable} (level_data : LevelData)
    (rows cols : Z) (name : string) (worms : list Worm) (k : nat)
    (st : solver_state) (graph : gmap pystr (gset pystr)) :
  load_level level_data = Ret (rows, cols, name, worms) →
  after_rounds k rows cols (mkState worms 0 [] []) = Some st →
  st_worms st ≠ [] →
  _build_dependency_graph (st_worms st) rows cols = Ret graph →
  free_of graph = [] →
  let report :=
    st_report st
    ++ deadlock_report (S (st_round_num st)) (st_worms st) graph in
  is_solvable level_data = Ret (false, report)
  ∧ is_solvable_trace level_data = Ret (false, st_order st, report)
  ∧ (∀ w, w ∈ st_worms st →
       ∃ deps, graph !! worm_id w = Some deps ∧ deps ≠ ∅
               ∧ LBlockedBy (worm_id w) (sorted (elements deps)) ∈ report)
  ∧ (∃ ids, LRemaining (length (st_worms st)) ids ∈ report
            ∧ ∀ w, w ∈ st_worms st → worm_id w ∈ ids)
  ∧ (∀ n free, LExtract n free ∈ report → LExtract n free ∈ st_report st).
Proof.
  intros Hload Hk Hne Hg Hfree report.
  assert (is_solvable_trace level_data = Ret (false, st_order st, report))
    as Htrace.
  { unfold is_solvable_trace. rewrite Hload. simpl.
    destruct (solve_loop_after_rounds rows cols k _ _ (length worms) Hk)
      as (fuel & Hfuel & Heq); [done|].
    simpl in Heq. rewrite Heq.
    destruct (st_worms st) as [|w ws] eqn:Hws; [done|].
    destruct fuel as [|fuel]; [simpl in Hfuel; lia|].
    simpl. rewrite Hg. simpl. rewrite Hfree. done. }
  split; [unfold is_solvable; by rewrite Htrace|]. split; [done|].
  split; [|split].
  - intros w Hw.
    assert (worm_id w ∈ dom graph) as Hdom.
    { apply (graph_dom _ _ _ _ Hg). apply list_elem_of_fmap. eauto. }
    apply elem_of_dom in Hdom as [deps Hdeps].
    exists deps. split; [done|]. split.
    + intros ->. apply elem_of_free_of in Hdeps.
      rewrite Hfree in Hdeps. by apply elem_of_nil in Hdeps.
    + unfold report, deadlock_report.
      apply elem_of_app. right. apply elem_of_cons. right.
      apply elem_of_app. left. apply list_elem_of_fmap.
      exists (worm_id w). split.
      * unfold deps_of. by rewrite Hdeps.
      * apply elem_of_sorted, list_elem_of_fmap. exists (worm_id w, deps).
        split; [done|]. by apply elem_of_map_to_list.
  - exists (sorted (worm_id <$> st_worms st)). split.
    + unfold report, deadlock_report. rewrite !elem_of_app, !elem_of_cons.
      right. right. right. right. by left.
    + intros w Hw. apply elem_of_sorted, list_elem_of_fmap. eauto.
  - intros n free Hin. unfold report, deadlock_report in Hin.
    apply elem_of_app in Hin as [Hin|Hin]; [done|].
    exfalso. simpl in Hin.
    apply elem_of_cons in Hin as [Hin|Hin]; [done|].
    apply elem_of_app in Hin as [Hin|Hin].
    + apply list_elem_of_fmap in Hin as (? & ? & ?). done.
    + repeat (apply elem_of_cons in Hin as [Hin|Hin]; [done|]).
      by apply elem_of_nil in Hin.
Qed.

(** The 2x2 layout in which A and B block each other is a deadlock in the
    first round. *)
Lemma deadlock_reported_witness :
  let graph : gmap pystr (gset pystr) :=
    {[ cp "A" := {[ cp "B" ]}; cp "B" := {[ cp "A" ]} ]} in
  let st :=
    mkState [mkWorm (cp "A") [(1, 0); (0, 0)] Right "white";
             mkWorm (cp "B") [(0, 1); (1, 1)] Left "white"] 0 [] [] in
  let report :=
    st_report st
    ++ deadlock_report (S (st_round_num st)) (st_worms st) graph in
  @is_solvable caseless_table deadlock_level = Ret (false, report)
  ∧ @is_solvable_trace caseless_table deadlock_level
    = Ret (false, st_order st, report)
  ∧ (∀ w, w ∈ st_worms st →
       ∃ deps, graph !! worm_id w = Some deps ∧ deps ≠ ∅
               ∧ LBlockedBy (worm_id w) (sorted (elements deps)) ∈ report)
  ∧ (∃ ids, LRemaining (length (st_worms st)) ids ∈ report
            ∧ ∀ w, w ∈ st_worms st → worm_id w ∈ ids)
  ∧ (∀ n free, LExtract n free ∈ report → LExtract n free ∈ st_report st).
Proof.
  intros graph st.
  apply (@deadlock_reported caseless_table deadlock_level 2 2 "Unnamed Level"
           (st_worms st) 0 st graph).
  - vm_compute. reflexivity.
  - reflexivity.
  - discriminate.
  - vm_compute. reflexivity.
  - vm_compute. reflexivity.
Defined.

(** ** The parser *)

Lemma bind_Ret {A B} (m : res A) (k : A → res B) (b : B) :
  m ≫= k = Ret b ↔ ∃ a, m = Ret a ∧ k a = Ret b.
Proof. destruct m; simpl; naive_solver. Qed.

Lemma scan_cells_app `{CaseTable} (l1 l2 : list (cell * N))
    (cm : gmap pystr CellEntry) :
  scan_cells (l1 ++ l2) cm = scan_cells l1 cm ≫= scan_cells l2.
Proof.
  revert cm. induction l1 as [|[[r c] ch] l1 IH]; intros cm; simpl; [done|].
  destruct (scan_cell r c ch cm); simpl; auto.
Qed.

Lemma scan_row_cells `{CaseTable} (r c : Z) (row_str : pystr)
    (cm : gmap pystr CellEntry) :
  scan_row r c row_str cm = scan_cells (row_cells r c row_str) cm.
Proof.
  revert c cm. induction row_str as [|ch rest IH]; intros c cm; simpl; [done|].
  destruct (scan_cell r c ch cm); simpl; auto.
Qed.

Lemma scan_grid_cells `{CaseTable} (r : Z) (grid_strs : list pystr)
    (cm : gmap pystr CellEntry) :
  scan_grid r grid_strs cm = scan_cells (grid_cells r grid_strs) cm.
Proof.
  revert r cm. induction grid_strs as [|row rest IH]; intros r cm; simpl;
    [done|].
  rewrite scan_cells_app, scan_row_cells.
  destruct (scan_cells (row_cells r 0 row) cm); simpl; auto.
Qed.

Lemma heads_of_snoc `{CaseTable} (wid : pystr) (l : list (cell * N))
    (x : cell * N) :
  heads_of wid (l ++ [x])
  = heads_of wid l ++ (if decide (is_head_of wid x) then [x.1] else []).
Proof.
  unfold heads_of. rewrite filter_app, fmap_app. f_equal.
  rewrite filter_cons, filter_nil. by destruct (decide (is_head_of wid x)).
Qed.

Lemma bodies_of_snoc `{CaseTable} (wid : pystr) (l : list (cell * N))
    (x : cell * N) :
  bodies_of wid (l ++ [x])
  = bodies_of wid l ++ (if decide (is_body_of wid x) then [x.1] else []).
Proof.
  unfold bodies_of. rewrite filter_app, fmap_app. f_equal.
  rewrite filter_cons, filter_nil. by destruct (decide (is_body_of wid x)).
Qed.

Lemma heads_of_app `{CaseTable} (wid : pystr) (l1 l2 : list (cell * N)) :
  heads_of wid (l1 ++ l2) = heads_of wid l1 ++ heads_of wid l2.
Proof. unfold heads_of. by rewrite filter_app, fmap_app. Qed.

Lemma entry_after_default `{CaseTable} (wid : pystr) (l : list (cell * N)) :
  default (mkEntry None []) (entry_after wid l)
  = mkEntry (heads_of wid l !! 0%nat) (bodies_of wid l).
Proof.
  unfold entry_after.
  by destruct (heads_of wid l), (bodies_of wid l).
Qed.

Lemma entry_after_Some `{CaseTable} (wid : pystr) (l : list (cell * N)) :
  heads_of wid l ≠ [] ∨ bodies_of wid l ≠ [] →
  entry_after wid l
  = Some (mkEntry (heads_of wid l !! 0%nat) (bodies_of wid l)).
Proof.
  unfold entry_after.
  destruct (heads_of wid l), (bodies_of wid l); naive_solver.
Qed.

Lemma scanned_nil `{CaseTable} : scanned [] ∅.
Proof. intros wid. split; [by rewrite lookup_empty|simpl; lia]. Qed.

Lemma entry_after_snoc_other `{CaseTable} (wid : pystr)
    (l : list (cell * N)) (x : cell * N) :
  x.2 = 46%N ∨ x.2 = 32%N ∨ upper x.2 ≠ wid →
  entry_after wid (l ++ [x]) = entry_after wid l
  ∧ heads_of wid (l ++ [x]) = heads_of wid l.
Proof.
  intros Hx. unfold entry_after. rewrite heads_of_snoc, bodies_of_snoc.
  rewrite !decide_False, !app_nil_r;
    [done | unfold is_body_of; naive_solver | unfold is_head_of; naive_solver].
Qed.

Lemma entry_after_snoc_head `{CaseTable} (l : list (cell * N))
    (x : cell * N) :
  x.2 ≠ 46%N → x.2 ≠ 32%N → isupper x.2 = true →
  entry_after (upper x.2) (l ++ [x])
  = Some (mkEntry ((heads_of (upper x.2) l ++ [x.1]) !! 0%nat)
            (bodies_of (upper x.2) l))
  ∧ heads_of (upper x.2) (l ++ [x]) = heads_of (upper x.2) l ++ [x.1].
Proof.
  intros H46 H32 Hup.
  assert (heads_of (upper x.2) (l ++ [x]) = heads_of (upper x.2) l ++ [x.1])
    as Hh.
  { rewrite heads_of_snoc. by rewrite decide_True. }
  assert (bodies_of (upper x.2) (l ++ [x]) = bodies_of (upper x.2) l) as Hb.
  { rewrite bodies_of_snoc.
    rewrite decide_False, app_nil_r; [done|].
    unfold is_body_of. intros (_ & _ & ? & _). congruence. }
  split; [|done]. rewrite entry_after_Some; [by rewrite Hh, Hb|].
  left. rewrite Hh. by destruct (heads_of (upper x.2) l).
Qed.

Lemma entry_after_snoc_body `{CaseTable} (l : list (cell * N))
    (x : cell * N) :
  x.2 ≠ 46%N → x.2 ≠ 32%N → isupper x.2 = false →
  entry_after (upper x.2) (l ++ [x])
  = Some (mkEntry (heads_of (upper x.2) l !! 0%nat)
            (bodies_of (upper x.2) l ++ [x.1]))
  ∧ heads_of (upper x.2) (l ++ [x]) = heads_of (upper x.2) l.
Proof.
  intros H46 H32 Hup.
  assert (heads_of (upper x.2) (l ++ [x]) = heads_of (upper x.2) l) as Hh.
  { rewrite heads_of_snoc.
    rewrite decide_False, app_nil_r; [done|].
    unfold is_head_of. intros (_ & _ & ? & _). congruence. }
  assert (bodies_of (upper x.2) (l ++ [x]) = bodies_of (upper x.2) l ++ [x.1])
    as Hb.
  { rewrite bodies_of_snoc. by rewrite decide_True. }
  split; [|done]. rewrite entry_after_Some; [by rewrite Hh, Hb|].
  right. rewrite Hb. by destruct (bodies_of (upper x.2) l).
Qed.

Lemma scan_cell_step `{CaseTable} (l : list (cell * N))
    (cm : gmap pystr CellEntry) (r c : Z) (ch : N) :
  scanned l cm →
  (∃ cm', scan_cell r c ch cm = Ret cm' ∧ scanned (l ++ [((r, c), ch)]) cm')
  ∨ (scan_cell r c ch cm = Raise ValueError
     ∧ ∃ wid, (2 <= length (heads_of wid (l ++ [((r, c), ch)])))%nat).
Proof.
  intros Hinv. unfold scan_cell.
  case_bool_decide as Hskip.
  { left. exists cm. split; [done|]. intros wid.
    destruct (Hinv wid) as [Hcm Hlen].
    destruct (entry_after_snoc_other wid l ((r, c), ch)) as [He Hh];
      [simpl; tauto|].
    by rewrite He, Hh. }
  assert (ch ≠ 46%N ∧ ch ≠ 32%N) as [H46 H32] by tauto.
  destruct (Hinv (upper ch)) as [Hcm0 Hlen0].
  rewrite Hcm0, entry_after_default. simpl.
  assert (∀ wid e, wid ≠ upper ch →
            <[upper ch := e]> cm !! wid
            = entry_after wid (l ++ [((r, c), ch)])
            ∧ (length (heads_of wid (l ++ [((r, c), ch)])) <= 1)%nat)
    as Hother.
  { intros wid e Hne. rewrite lookup_insert_ne by done.
    destruct (Hinv wid) as [Hcm Hlen].
    destruct (entry_after_snoc_other wid l ((r, c), ch)) as [He Hh];
      [simpl; auto|].
    by rewrite He, Hh. }
  destruct (isupper ch) eqn:Hup.
  - destruct (entry_after_snoc_head l ((r, c), ch) H46 H32 Hup)
      as [Hentry Hheads].
    change (((r, c), ch).2) with ch in Hentry, Hheads.
    change (((r, c), ch).1) with (r, c) in Hentry, Hheads.
    destruct (heads_of (upper ch) l) as [|h0 hs] eqn:Hh; simpl.
    + left. eexists. split; [done|]. intros wid.
      destruct (decide (wid = upper ch)) as [->|Hne]; [|by apply Hother].
      rewrite lookup_insert_eq, Hentry, Hheads. simpl. split; [done|lia].
    + right. split; [done|]. exists (upper ch).
      rewrite Hheads, length_app. simpl. lia.
  - destruct (entry_after_snoc_body l ((r, c), ch) H46 H32 Hup)
      as [Hentry Hheads].
    change (((r, c), ch).2) with ch in Hentry, Hheads.
    change (((r, c), ch).1) with (r, c) in Hentry, Hheads.
    left. eexists. split; [done|]. intros wid.
    destruct (decide (wid = upper ch)) as [->|Hne]; [|by apply Hother].
    rewrite lookup_insert_eq, Hentry, Hheads. done.
Qed.

(** The outcome of the scan: either every worm has at most one head among
    the cells and [cell_map] describes them, or some worm has two heads and
    the scan raises. *)
Lemma scan_cells_spec `{CaseTable} (l' : list (cell * N)) :
  ∀ (l : list (cell * N)) (cm : gmap pystr CellEntry),
    scanned l cm →
    (∃ cm', scan_cells l' cm = Ret cm' ∧ scanned (l ++ l') cm')
    ∨ (scan_cells l' cm = Raise ValueError
       ∧ ∃ wid, (2 <= length (heads_of wid (l ++ l')))%nat).
Proof.
  induction l' as [|[[r c] ch] l' IH]; intros l cm Hinv; simpl.
  - left. exists cm. by rewrite app_nil_r.
  - destruct (scan_cell_step l cm r c ch Hinv)
      as [(cm' & -> & Hinv')|(-> & wid & Hlen)]; simpl.
    + replace (l ++ ((r, c), ch) :: l') with ((l ++ [((r, c), ch)]) ++ l')
        by (by rewrite <- app_assoc).
      by apply IH.
    + right. split; [done|]. exists wid.
      replace (l ++ ((r, c), ch) :: l') with ((l ++ [((r, c), ch)]) ++ l')
        by (by rewrite <- app_assoc).
      rewrite heads_of_app, length_app. lia.
Qed.

Lemma scan_grid_spec `{CaseTable} (grid_strs : list pystr) :
  let cells := grid_cells 0 grid_strs in
  (∃ cm, scan_grid 0 grid_strs ∅ = Ret cm ∧ scanned cells cm)
  ∨ (scan_grid 0 grid_strs ∅ = Raise ValueError
     ∧ ∃ wid, (2 <= length (heads_of wid cells))%nat).
Proof.
  intros cells. rewrite scan_grid_cells.
  apply (scan_cells_spec cells [] ∅ scanned_nil).
Qed.

Lemma mapM_Ret {A B} (f : A → res B) (l : list A) (ys : list B) :
  mapM f l = Ret ys ↔ Forall2 (fun x y => f x = Ret y) l ys.
Proof.
  revert ys. induction l as [|x l IH]; intros ys; simpl.
  - split; [intros [= <-]; constructor | by intros ->%Forall2_nil_inv_l].
  - split.
    + intros (y & Hy & (k & Hk & [= <-])%bind_Ret)%bind_Ret.
      constructor; [done|]. by apply IH.
    + intros (y & k & Hy & Hk & ->)%Forall2_cons_inv_l.
      rewrite Hy. simpl. apply IH in Hk. rewrite Hk. done.
Qed.

Lemma mapM_raises {A B} (f : A → res B) (l : list A) (x : A) :
  (∀ y, f y ≠ Diverge) → x ∈ l → raises (f x) → raises (mapM f l).
Proof.
  intros Hdiv Hx [e He]. induction l as [|y l IH]; [by apply elem_of_nil in Hx|].
  simpl. destruct (f y) as [b|e'|] eqn:Hy; simpl.
  - apply elem_of_cons in Hx as [->|Hx]; [congruence|].
    destruct (IH Hx) as [e' ->]. by exists e'.
  - by exists e'.
  - by apply Hdiv in Hy.
Qed.

Lemma load_worm_no_diverge (cm : gmap pystr CellEntry)
    (item : pystr * WormMeta) :
  load_worm cm item ≠ Diverge.
Proof.
  destruct item as [wid meta]. unfold load_worm.
  destruct (cm !! wid) as [[[[hr hc]|] body]|]; simpl; try done.
  destruct (existsb _ _); [done|]. by destruct (parse_direction _).
Qed.

Lemma beyond_head_further (s : string) (d : Direction) (hr hc : Z) (b : cell) :
  parse_direction s = Some d →
  beyond_head s hr hc b = true ↔ further d (hr, hc) b.
Proof.
  unfold parse_direction, beyond_head, further. destruct b as [br bc].
  destruct (String.eqb_spec s "right") as [->|_];
    [intros [= <-]; simpl; rewrite ?orb_false_r; lia|].
  destruct (String.eqb_spec s "left") as [->|_];
    [intros [= <-]; simpl; rewrite ?orb_false_r; lia|].
  destruct (String.eqb_spec s "down") as [->|_];
    [intros [= <-]; simpl; rewrite ?orb_false_r; lia|].
  destruct (String.eqb_spec s "up") as [->|_];
    [intros [= <-]; simpl; rewrite ?orb_false_r; lia|done].
Qed.

(** What the loop over the metadata does with a worm that has one head on
    the grid, a known direction and no body cell beyond its head. *)
Lemma load_worm_accepts `{CaseTable} (cells : list (cell * N))
    (cm : gmap pystr CellEntry) (wid : pystr) (meta : WormMeta)
    (h : cell) (d : Direction) :
  scanned cells cm →
  heads_of wid cells = [h] →
  parse_direction (m_direction meta) = Some d →
  (∀ b, b ∈ bodies_of wid cells → ¬ further d h b) →
  load_worm cm (wid, meta)
  = Ret (mkWorm wid (sort_by (sort_keys d) (bodies_of wid cells ++ [h])) d
           (default "white"%string (m_color meta))).
Proof.
  intros Hinv Hh Hd Hb. unfold load_worm.
  destruct (Hinv wid) as [-> _].
  rewrite entry_after_Some by (left; by rewrite Hh).
  rewrite Hh. simpl. destruct h as [hr hc].
  destruct (existsb _ _) eqn:Hex.
  - apply existsb_exists in Hex as (b & Hin & Hbeyond).
    apply (beyond_head_further _ d) in Hbeyond; [|done].
    exfalso. apply (Hb b); [|done]. by apply list_elem_of_In.
  - by rewrite Hd.
Qed.

(** What it does with a declared worm that has no head on the grid, or a
    body cell beyond its head. *)
Lemma load_worm_rejects `{CaseTable} (cells : list (cell * N))
    (cm : gmap pystr CellEntry) (wid : pystr) (meta : WormMeta) :
  scanned cells cm →
  heads_of wid cells = []
  ∨ (∃ h b d, h ∈ heads_of wid cells ∧ b ∈ bodies_of wid cells
              ∧ parse_direction (m_direction meta) = Some d
              ∧ further d h b) →
  raises (load_worm cm (wid, meta)).
Proof.
  intros Hinv Hbad. unfold load_worm. destruct (Hinv wid) as [-> Hlen].
  destruct Hbad as [Hnone|(h & b & d & Hh & Hb & Hd & Hfar)].
  - unfold entry_after. rewrite Hnone.
    destruct (bodies_of wid cells); by eexists.
  - rewrite entry_after_Some
      by (left; intros Heq; rewrite Heq in Hh; by apply elem_of_nil in Hh).
    destruct (heads_of wid cells) as [|h0 hs]; [by apply elem_of_nil in Hh|].
    destruct hs; [|simpl in Hlen; lia].
    apply list_elem_of_singleton in Hh as ->. simpl. destruct h0 as [hr hc].
    destruct (existsb _ _) eqn:Hex; [by eexists|].
    exfalso. apply not_true_iff_false in Hex. apply Hex.
    apply existsb_exists. exists b. split; [by apply list_elem_of_In|].
    by apply (beyond_head_further _ d).
Qed.

(** C9, as amended.  [load_level] raises whenever some id has more than one
    head cell on the grid, whenever an id of the metadata mapping has no cell
    on the grid, whenever an id of the metadata mapping has no head cell on
    the grid, and whenever a body cell of an id of the metadata mapping lies
    strictly further along the worm's direction than its head. *)
Theorem load_level_rejects `{CaseTable} (level_data : LevelData) :
  let cells := grid_cells 0 (ld_grid level_data) in
  (∃ wid, (2 <= length (heads_of wid cells))%nat)
  ∨ (∃ wid meta, (wid, meta) ∈ ld_worms level_data
                 ∧ heads_of wid cells = [] ∧ bodies_of wid cells = [])
  ∨ (∃ wid meta, (wid, meta) ∈ ld_worms level_data ∧ heads_of wid cells = [])
  ∨ (∃ wid meta h b d,
       (wid, meta) ∈ ld_worms level_data
       ∧ h ∈ heads_of wid cells ∧ b ∈ bodies_of wid cells
       ∧ parse_direction (m_direction meta) = Some d ∧ further d h b) →
  raises (load_level level_data).
Proof.
  intros cells Hbad. unfold load_level.
  destruct (scan_grid_spec (ld_grid level_data))
    as [(cm & -> & Hinv)|(-> & _)]; [|by eexists].
  fold cells in Hinv. simpl.
  assert (∃ wid meta,
            (wid, meta) ∈ ld_worms level_data
            ∧ raises (load_worm cm (wid, meta))) as (wid & meta & Hin & Hr).
  { destruct Hbad as [(wid & Hlen)|[(wid & meta & Hin & Hh & _)|
      [(wid & meta & Hin & Hh)|(wid & meta & h & b & d & Hin & Hrest)]]].
    - destruct (Hinv wid) as [_ Hle]. lia.
    - exists wid, meta. split; [done|].
      apply (load_worm_rejects cells); auto.
    - exists wid, meta. split; [done|].
      apply (load_worm_rejects cells); auto.
    - exists wid, meta. split; [done|].
      apply (load_worm_rejects cells); [done|]. right. by exists h, b, d. }
  destruct (mapM_raises (load_worm cm) (ld_worms level_data) (wid, meta)
              (load_worm_no_diverge cm) Hin Hr) as [e ->].
  by exists e.
Qed.

(** A layout that declares worm A and has no cell of it is rejected. *)
Lemma load_level_rejects_witness :
  raises (@load_level caseless_table missing_level).
Proof.
  apply (@load_level_rejects caseless_table missing_level).
  right. left. exists (cp "A"), (mkMeta None "up").
  split; [apply list_elem_of_singleton; reflexivity|].
  split; reflexivity.
Defined.

(** C9, as stated, fails: the 1x1 layout whose cell is the head of worm A and
    whose metadata mapping is empty has an id on the grid that the metadata
    does not declare, and [load_level] returns on it, with no worm. *)
Lemma stray_id_not_rejected :
  @heads_of caseless_table (cp "A") (grid_cells 0 (ld_grid stray_level))
    = [(0, 0)]
  ∧ (cp "A" ∉ fst <$> ld_worms stray_level)
  ∧ @load_level caseless_table stray_level
    = Ret (1, 1, "Unnamed Level"%string, [])
  ∧ ¬ raises (@load_level caseless_table stray_level).
Proof.
  split; [reflexivity|]. split; [apply not_elem_of_nil|].
  split; [reflexivity|]. intros [e He]. discriminate He.
Qed.

(** ** The generator: heads and bodies *)

Lemma valid_not_further (d : Direction) (hr hc r c : Z) :
  _valid d hr hc r c = true ↔ ¬ further d (hr, hc) (r, c).
Proof. destruct d; unfold _valid, further; simpl; lia. Qed.

Lemma pick_depth_ok (rows cols : Z) (occupied : gset cell) (er ec : Z)
    (d : Direction) (depths : list Z) (x : Z * Z * Direction * gset cell) :
  pick_depth rows cols occupied er ec d depths = Ret (Some x) →
  head_ok rows cols occupied x.
Proof.
  induction depths as [|depth rest IH]; simpl; [done|].
  destruct (in_grid _ _ _) eqn:Hin; simpl; [|done].
  case_bool_decide as Hocc; [done|].
  destruct (_exit_corridor _ _ _ _ _) as [corridor| |] eqn:Hcorr; simpl;
    try done.
  case_bool_decide as Hclear; [done|].
  intros [= <-]. unfold head_ok. split; [done|]. split; [done|].
  split; [done|]. destruct (decide (corridor ∩ occupied = ∅)); done.
Qed.

Section generator.
Context `{RandomSource}.

Lemma rand_bind_Ret {A B} (m : Rand A) (k : A → Rand B) (g g' : rng)
    (b : B) :
  (m ≫= k) g = Ret (b, g') ↔
  ∃ a g1, m g = Ret (a, g1) ∧ k a g1 = Ret (b, g').
Proof.
  unfold mbind, rand_bind.
  destruct (m g) as [[a g1]| |]; naive_solver.
Qed.

Lemma lift_Ret {A} (m : res A) (g g' : rng) (a : A) :
  lift m g = Ret (a, g') ↔ m = Ret a ∧ g' = g.
Proof. unfold lift. destruct m; simpl; naive_solver. Qed.

Lemma choice_elem {A} (l : list A) (g g' : rng) (x : A) :
  choice l g = Ret (x, g') → x ∈ l.
Proof.
  unfold choice. destruct l as [|y l]; [done|]. intros [= Hx].
  pose proof (rng_choice_elem A y l g) as Hin.
  destruct (rng_choice y l g) as [x' g'']. simpl in *. congruence.
Qed.

Lemma pick_edge_ok (rows cols : Z) (occupied : gset cell)
    (min_depth max_depth : Z) (edges : list (Z * Z * Direction))
    (g g' : rng) (x : Z * Z * Direction * gset cell) :
  pick_edge rows cols occupied min_depth max_depth edges g
    = Ret (Some x, g') →
  head_ok rows cols occupied x.
Proof.
  revert g. induction edges as [|[[er ec] d] rest IH]; intros g; simpl.
  - done.
  - intros (depths & g1 & _ & (found & g2 & Hfound & Hk)%rand_bind_Ret)
             %rand_bind_Ret.
    apply lift_Ret in Hfound as [Hfound ->].
    destruct found as [y|].
    + injection Hk as -> _. by eapply pick_depth_ok.
    + by eapply IH.
Qed.

Lemma pick_head_ok (rows cols : Z) (occupied : gset cell) (min_depth : Z)
    (max_depth : option Z) (g g' : rng)
    (x : Z * Z * Direction * gset cell) :
  _pick_head rows cols occupied min_depth max_depth g = Ret (Some x, g') →
  head_ok rows cols occupied x.
Proof.
  unfold _pick_head.
  intros (edges & g1 & _ & Hk)%rand_bind_Ret. by eapply pick_edge_ok.
Qed.

Lemma elem_of_weighted_of (target_cells : gset cell)
    (candidates : list cell) (q : cell) :
  q ∈ weighted_of target_cells candidates → q ∈ candidates.
Proof.
  unfold weighted_of. intros (p & Hq & Hp)%list_elem_of_bind.
  by apply elem_of_replicate in Hq as [-> _].
Qed.

Lemma elem_of_candidates_of (d : Direction) (hr hc rows cols : Z)
    (taken : gset cell) (cur_r cur_c : Z) (q : cell) :
  q ∈ candidates_of d hr hc rows cols taken cur_r cur_c →
  in_grid rows cols q = true ∧ (q ∉ taken) ∧ ¬ further d (hr, hc) q.
Proof.
  unfold candidates_of. intros [(Hin & Htaken & Hvalid) _]%list_elem_of_filter.
  split; [done|]. split; [done|].
  destruct q as [r c]. by apply valid_not_further.
Qed.

Lemma grow_loop_ok (n : nat) (d : Direction) (hr hc : Z)
    (target_cells : gset cell) (rows cols : Z) :
  ∀ (body : list cell) (taken : gset cell) (cur_r cur_c : Z) (g g' : rng)
    (body' : list cell),
    grow_loop n d hr hc target_cells rows cols body taken cur_r cur_c g
      = Ret (body', g') →
    ∃ new, body' = body ++ new ∧ NoDup new
           ∧ ∀ q, q ∈ new →
                  in_grid rows cols q = true ∧ (q ∉ taken)
                  ∧ ¬ further d (hr, hc) q.
Proof.
  induction n as [|n IH]; intros body taken cur_r cur_c g g' body'; simpl.
  - intros [= <- _]. exists []. rewrite app_nil_r.
    split; [done|]. split; [constructor|]. intros q Hq.
    by apply elem_of_nil in Hq.
  - destruct (candidates_of d hr hc rows cols taken cur_r cur_c)
      as [|c0 cs] eqn:Hcands.
    { intros [= <- _]. exists []. rewrite app_nil_r.
      split; [done|]. split; [constructor|]. intros q Hq.
      by apply elem_of_nil in Hq. }
    intros ([nr nc] & g1 & Hchoice & Hrest)%rand_bind_Ret.
    apply choice_elem, elem_of_weighted_of in Hchoice.
    rewrite <- Hcands in Hchoice.
    apply elem_of_candidates_of in Hchoice as (Hin & Htaken & Hfar).
    apply IH in Hrest as (new & -> & Hnodup & Hnew).
    exists ((nr, nc) :: new). split; [by rewrite <- app_assoc|]. split.
    + constructor; [|done]. intros Hq. apply Hnew in Hq as (_ & Hq & _).
      set_solver.
    + intros q [->|Hq]%elem_of_cons; [done|].
      apply Hnew in Hq as (? & Hq & ?). set_solver.
Qed.

Lemma grow_body_ok (hr hc : Z) (d : Direction)
    (occupied target_cells : gset cell) (min_segs max_segs rows cols : Z)
    (g g' : rng) (body : list cell) :
  _grow_body hr hc d occupied target_cells min_segs max_segs rows cols g
    = Ret (Some body, g') →
  body_ok rows cols occupied (hr, hc) d body.
Proof.
  unfold _grow_body. intros (num_segs & g1 & _ & Hk)%rand_bind_Ret.
  destruct (num_segs =? 0).
  { injection Hk as <- _. split; [constructor|]. intros q Hq.
    by apply elem_of_nil in Hq. }
  apply rand_bind_Ret in Hk as (body0 & g2 & Hgrow & Hk).
  destruct (_ <? min_segs); [done|]. injection Hk as <- _.
  apply grow_loop_ok in Hgrow as (new & -> & Hnodup & Hnew). simpl.
  split; [by rewrite reverse_Permutation|].
  intros q Hq. rewrite elem_of_reverse in Hq.
  apply Hnew in Hq as (? & Hq & ?).
  split; [done|]. split; [set_solver|]. split; [set_solver|done].
Qed.

Lemma attempt_loop_ok (n : nat) (rows cols i : Z) (wid : N)
    (occupied target_cells : gset cell)
    (max_depth min_body max_body : Z) (g g' : rng)
    (x : Placed * gset cell) :
  attempt_loop n rows cols i wid occupied target_cells max_depth min_body
    max_body g = Ret (Some x, g') →
  placed_ok rows cols occupied wid x.
Proof.
  revert g. induction n as [|n IH]; intros g; simpl; [done|].
  intros (result & g1 & Hhead & Hk)%rand_bind_Ret.
  destruct result as [[[[hr hc] d] corridor]|]; [|done].
  apply pick_head_ok in Hhead.
  apply rand_bind_Ret in Hk as (body & g2 & Hbody & Hk).
  destruct body as [body|]; [|by eapply IH].
  apply grow_body_ok in Hbody. injection Hk as <- _. done.
Qed.

Lemma place_worm_ok (rows cols i : Z) (occupied : gset cell)
    (corridors : list (gset cell)) (min_body max_body : Z) (g g' : rng)
    (x : Placed * gset cell) :
  place_worm rows cols i occupied corridors min_body max_body g
    = Ret (Some x, g') →
  0 <= i →
  placed_ok rows cols occupied (Z.to_N (65 + i)) x.
Proof.
  unfold place_worm. intros (wid & g1 & Hchr & Hk)%rand_bind_Ret Hi.
  apply lift_Ret in Hchr as [Hchr ->]. unfold chr in Hchr.
  destruct (_ && _); [|done]. injection Hchr as <-.
  by eapply attempt_loop_ok.
Qed.

Lemma elem_of_cells_of (ws : list Placed) (q : cell) :
  q ∈ cells_of ws ↔ ∃ wd, wd ∈ ws ∧ q ∈ p_segments wd.
Proof. unfold cells_of. rewrite list_elem_of_bind. naive_solver. Qed.

Lemma cells_of_snoc (ws : list Placed) (wd : Placed) :
  cells_of (ws ++ [wd]) = cells_of ws ++ p_segments wd.
Proof. unfold cells_of. by rewrite bind_app, bind_cons, app_nil_r. Qed.

(** A worm that was placed extends the placement records. *)
Lemma well_placed_snoc (rows cols : Z) (occupied : gset cell)
    (ws : list Placed) (wd : Placed) (corridor : gset cell) :
  well_placed rows cols ws →
  (∀ q, q ∈ occupied ↔ q ∈ cells_of ws) →
  placed_ok rows cols occupied (Z.to_N (65 + Z.of_nat (length ws)))
    (wd, corridor) →
  well_placed rows cols (ws ++ [wd]).
Proof.
  intros Hws Hocc (Hid & Hseg & Hhead & Hnodup & Hbody).
  destruct (p_head wd) as [hr hc] eqn:Hh.
  destruct Hhead as (Hin & Hfree & Hcorr & Hclear). simpl in *.
  apply wp_snoc; [done | done | by rewrite Hh | | | |].
  - rewrite Hseg. apply NoDup_app. split; [done|]. split.
    + intros q Hq ->%list_elem_of_singleton.
      by apply Hbody in Hq as (_ & _ & ? & _).
    + apply NoDup_singleton.
  - rewrite Hseg. intros q [Hq| ->%list_elem_of_singleton]%elem_of_app.
    + apply Hbody in Hq as (? & ? & _). by rewrite <- Hocc.
    + by rewrite <- Hocc.
  - intros b Hb. rewrite Hh. by apply Hbody in Hb as (_ & _ & _ & ?).
  - rewrite Hh. intros k Hk Hink.
    destruct (exit_corridor_cells (p_direction wd) rows cols (hr, hc) Hin)
      as (S & HS & Hchar).
    simpl in HS. rewrite Hcorr in HS. injection HS as <-.
    rewrite <- Hocc. intros Hq.
    apply (not_elem_of_empty (C:=gset cell)
             (ahead (p_direction wd) (hr, hc) k)).
    rewrite <- Hclear. apply elem_of_intersection. split; [|done].
    apply Hchar. exists k. split; [|done].
    apply in_grid_ahead_depth in Hink; [lia|done|lia].
Qed.

(** The placement loop keeps the records well placed. *)
Lemma place_loop_ok (rows cols min_body max_body : Z) (n : nat) :
  ∀ (i : Z) (occupied : gset cell) (ws : list Placed)
    (corridors : list (gset cell)) (g g' : rng) (ws' : list Placed),
    well_placed rows cols ws →
    i = Z.of_nat (length ws) →
    (∀ q, q ∈ occupied ↔ q ∈ cells_of ws) →
    place_loop n rows cols i occupied ws corridors min_body max_body g
      = Ret (Some ws', g') →
    well_placed rows cols ws'
    ∧ (length ws <= length ws' <= length ws + n)%nat.
Proof.
  induction n as [|n IH]; intros i occupied ws corridors g g' ws' Hws Hi Hocc;
    simpl.
  - intros [= <- _]. split; [done|lia].
  - intros (placed & g1 & Hplaced & Hk)%rand_bind_Ret.
    destruct placed as [[wd corridor]|].
    + apply place_worm_ok in Hplaced; [|lia]. subst i.
      pose proof (well_placed_snoc _ _ _ _ _ _ Hws Hocc Hplaced) as Hws1.
      apply IH in Hk as [Hwp Hlen]; try done.
      * split; [done|]. rewrite length_app in Hlen. simpl in Hlen. lia.
      * rewrite length_app. simpl. lia.
      * intros q. rewrite cells_of_snoc, elem_of_union, elem_of_app,
          elem_of_list_to_set, Hocc. done.
    + destruct (i =? 0); [done|]. injection Hk as <- _. split; [done|lia].
Qed.
End generator.

(** ** The engine on worms in a clear order *)

Lemma occupancy_owner_seg (id : pystr) (segs : list cell)
    (occ : gmap cell pystr) (q : cell) (id' : pystr) :
  foldl (fun occ seg => <[seg := id]> occ) occ segs !! q = Some id' →
  occ !! q = Some id' ∨ (q ∈ segs ∧ id' = id).
Proof.
  revert occ. induction segs as [|seg segs IH]; intros occ; simpl; [auto|].
  intros [Hq|[Hq ->]]%IH.
  - destruct (decide (seg = q)) as [->|Hne].
    + rewrite lookup_insert_eq in Hq. injection Hq as <-.
      right. split; [apply elem_of_cons; by left|done].
    + rewrite lookup_insert_ne in Hq by done. by left.
  - right. split; [apply elem_of_cons; by right|done].
Qed.

Lemma occupancy_owner_from (ws : list Worm) (occ : gmap cell pystr)
    (q : cell) (id : pystr) :
  foldl (fun occ w =>
           foldl (fun occ seg => <[seg := worm_id w]> occ) occ (segments w))
    occ ws !! q = Some id →
  occ !! q = Some id ∨ ∃ w, w ∈ ws ∧ q ∈ segments w ∧ worm_id w = id.
Proof.
  revert occ. induction ws as [|w ws IH]; intros occ; simpl; [auto|].
  intros [Hq|(w' & Hw' & Hq & Hid)]%IH.
  - apply occupancy_owner_seg in Hq as [Hq|[Hq ->]]; [by left|].
    right. exists w. split; [apply elem_of_cons; by left|done].
  - right. exists w'. split; [apply elem_of_cons; by right|done].
Qed.

(** An occupied cell belongs to a worm that carries the owner's id. *)
Lemma occupancy_owner (ws : list Worm) (q : cell) (id : pystr) :
  _build_occupancy ws !! q = Some id →
  ∃ w, w ∈ ws ∧ q ∈ segments w ∧ worm_id w = id.
Proof.
  unfold _build_occupancy.
  intros [Hq|?]%occupancy_owner_from; [|done]. by rewrite lookup_empty in Hq.
Qed.

(** The trace of a worm whose head is in the grid returns, with the first
    cell that is not passable when there is one. *)
Lemma first_blocker_returns (w : Worm) (occ : gmap cell pystr)
    (rows cols : Z) (h : cell) :
  head w = Ret h → in_grid rows cols h = true →
  ∃ res, _first_blocker w occ rows cols = Ret res
    ∧ match res with
      | Some b =>
          ∃ k, 1 <= k ∧ in_grid rows cols (ahead (direction w) h k) = true
               ∧ occ !! ahead (direction w) h k = Some b ∧ b ≠ worm_id w
      | None => True
      end.
Proof.
  intros Hhead Hin. unfold _first_blocker. rewrite Hhead.
  pose proof (depth_nonneg (direction w) rows cols h Hin) as Hd.
  destruct (first_blocker_loop_spec (direction w) rows cols h (worm_id w)
              occ Hin (Z.to_nat (Z.max rows cols)) 0 h.1 h.2)
    as (res & Hres & Hspec);
    [by rewrite ahead_0, <- surjective_pairing | lia | lia |].
  exists res. split.
  { destruct (DIR_DELTA (direction w)) as [dr dc]. destruct h. done. }
  destruct res as [b|]; [|done].
  destruct Hspec as (i & Hi & Hocc & Hne & _).
  exists i. split; [lia|]. split; [|done].
  apply in_grid_ahead_depth; [done|lia|lia].
Qed.

(** The trace of any worm that has a head returns within the fuel. *)
Lemma first_blocker_total (w : Worm) (occ : gmap cell pystr) (rows cols : Z)
    (h : cell) :
  head w = Ret h → ∃ res, _first_blocker w occ rows cols = Ret res.
Proof.
  intros Hhead. unfold _first_blocker. rewrite Hhead.
  set (d := direction w).
  set (p := (h.1 + (DIR_DELTA d).1, h.2 + (DIR_DELTA d).2)).
  assert (∃ res,
            first_blocker_loop (Z.to_nat (Z.max rows cols)) (DIR_DELTA d).1
              (DIR_DELTA d).2 rows cols (worm_id w) occ h.1 h.2 = Ret res)
    as [res Hres].
  { destruct (in_grid rows cols p) eqn:Hin.
    - pose proof (depth_nonneg d rows cols p Hin) as Hd.
      destruct (Z.to_nat (Z.max rows cols)) as [|fuel] eqn:Hfuel; [lia|].
      cbn [first_blocker_loop]. fold p. rewrite Hin. cbn [negb].
      destruct (first_blocker_loop_spec d rows cols p (worm_id w) occ Hin
                  fuel 0 p.1 p.2) as (res & Hres & _);
        [by rewrite ahead_0 | lia | lia |].
      destruct (occ !! p) as [owner|]; [|by exists res].
      destruct (bool_decide (owner ≠ worm_id w)); [by eexists|by exists res].
    - exists None. destruct (Z.to_nat (Z.max rows cols));
        cbn [first_blocker_loop]; fold p; by rewrite Hin. }
  exists res. destruct (DIR_DELTA d) as [dr dc]. destruct h. done.
Qed.

Lemma clear_order_last (rows cols : Z) (ws : list Worm) (w : Worm) :
  clear_order rows cols (ws ++ [w]) →
  ∀ w0 h k, w0 ∈ ws → head w = Ret h → 1 <= k →
            in_grid rows cols (ahead (direction w) h k) = true →
            ahead (direction w) h k ∉ segments w0.
Proof.
  induction ws as [|w1 ws IH]; simpl; intros [Hw1 Hrest] w0 h k Hw0.
  - by apply elem_of_nil in Hw0.
  - apply elem_of_cons in Hw0 as [->|Hw0].
    + apply Hw1. apply elem_of_app. right. apply elem_of_cons. by left.
    + by apply IH.
Qed.

Lemma clear_order_filter (rows cols : Z) (P : Worm → Prop)
    `{∀ w, Decision (P w)} (ws : list Worm) :
  clear_order rows cols ws → clear_order rows cols (filter P ws).
Proof.
  induction ws as [|w ws IH]; simpl; [done|]. intros [Hw Hrest].
  rewrite filter_cons. destruct (decide (P w)); [|by apply IH].
  simpl. split; [|by apply IH].
  intros w' h k [_ Hw']%list_elem_of_filter. by apply Hw.
Qed.

Lemma NoDup_ids_filter (P : Worm → Prop) `{∀ w, Decision (P w)}
    (ws : list Worm) :
  NoDup (worm_id <$> ws) → NoDup (worm_id <$> filter P ws).
Proof.
  induction ws as [|w ws IH]; simpl; [done|].
  intros [Hw Hws]%NoDup_cons. rewrite filter_cons.
  destruct (decide (P w)); [|by apply IH].
  simpl. apply NoDup_cons. split; [|by apply IH].
  intros (w' & Hid & [_ Hw']%list_elem_of_filter)%list_elem_of_fmap.
  apply Hw. apply list_elem_of_fmap. eauto.
Qed.

Lemma solver_ready_filter (rows cols : Z) (P : Worm → Prop)
    `{∀ w, Decision (P w)} (ws : list Worm) :
  solver_ready rows cols ws → solver_ready rows cols (filter P ws).
Proof.
  intros (Hnd & Hheads & Hclear). split; [by apply NoDup_ids_filter|].
  split; [|by apply clear_order_filter].
  intros w [_ Hw]%list_elem_of_filter. by apply Hheads.
Qed.

(** The last worm of a clear order has no blocker. *)
Lemma last_worm_free (rows cols : Z) (ws : list Worm) (w : Worm) :
  solver_ready rows cols (ws ++ [w]) →
  _first_blocker w (_build_occupancy (ws ++ [w])) rows cols = Ret None.
Proof.
  intros (Hnd & Hheads & Hclear).
  destruct (Hheads w) as (h & Hh & Hin).
  { apply elem_of_app. right. by apply list_elem_of_singleton. }
  destruct (first_blocker_returns w (_build_occupancy (ws ++ [w])) rows cols h
              Hh Hin) as ([b|] & Hres & Hspec); [|done].
  exfalso. destruct Hspec as (k & Hk & Hink & Hocc & Hne).
  apply occupancy_owner in Hocc as (w0 & Hw0 & Hq & Hid).
  apply elem_of_app in Hw0 as [Hw0| ->%list_elem_of_singleton]; [|done].
  by apply (clear_order_last rows cols ws w Hclear w0 h k).
Qed.

Lemma clear_order_app_l (rows cols : Z) (l1 l2 : list Worm) :
  clear_order rows cols (l1 ++ l2) → clear_order rows cols l1.
Proof.
  induction l1 as [|w l1 IH]; simpl; [done|]. intros [Hw Hrest].
  split; [|by apply IH]. intros w' h k Hw'. apply Hw.
  apply elem_of_app. by left.
Qed.

(** The worms placed first, without those placed later, are in a clear
    order as well. *)
Lemma solver_ready_app_l (rows cols : Z) (l1 l2 : list Worm) :
  solver_ready rows cols (l1 ++ l2) → solver_ready rows cols l1.
Proof.
  intros (Hnd & Hheads & Hclear). split; [|split].
  - rewrite fmap_app in Hnd. by apply NoDup_app in Hnd as (? & _ & _).
  - intros w Hw. apply Hheads. apply elem_of_app. by left.
  - by eapply clear_order_app_l.
Qed.

Lemma blocked_by_init_keep (ws : list Worm) (g : gmap pystr (gset pystr))
    (x : pystr) :
  g !! x = Some ∅ →
  foldl (fun g w => <[worm_id w := (∅ : gset pystr)]> g) g ws !! x = Some ∅.
Proof.
  revert g. induction ws as [|w ws IH]; intros g Hx; simpl; [done|].
  apply IH. destruct (decide (worm_id w = x)) as [->|Hne].
  - by rewrite lookup_insert_eq.
  - by rewrite lookup_insert_ne.
Qed.

Lemma blocked_by_init_lookup (ws : list Worm) (g : gmap pystr (gset pystr))
    (w : Worm) :
  w ∈ ws →
  foldl (fun g w => <[worm_id w := (∅ : gset pystr)]> g) g ws !! worm_id w
  = Some ∅.
Proof.
  revert g. induction ws as [|w0 ws IH]; intros g Hw; simpl.
  - by apply elem_of_nil in Hw.
  - apply elem_of_cons in Hw as [->|Hw]; [|by apply IH].
    apply blocked_by_init_keep. by rewrite lookup_insert_eq.
Qed.

Lemma blocked_by_loop_other (occ : gmap cell pystr) (rows cols : Z)
    (ws : list Worm) (g g' : gmap pystr (gset pystr)) (x : pystr) :
  blocked_by_loop occ rows cols ws g = Ret g' →
  x ∉ worm_id <$> ws → g' !! x = g !! x.
Proof.
  revert g. induction ws as [|w ws IH]; intros g; simpl.
  - by intros [= ->].
  - intros (blocker & Hb & Hrest)%bind_Ret Hx.
    apply not_elem_of_cons in Hx as [Hne Hx].
    rewrite (IH _ Hrest Hx). destruct blocker; [|done].
    by rewrite lookup_alter_ne.
Qed.

Lemma blocked_by_loop_free (occ : gmap cell pystr) (rows cols : Z)
    (ws : list Worm) (g g' : gmap pystr (gset pystr)) (w : Worm) :
  blocked_by_loop occ rows cols ws g = Ret g' →
  NoDup (worm_id <$> ws) → w ∈ ws →
  _first_blocker w occ rows cols = Ret None →
  g' !! worm_id w = g !! worm_id w.
Proof.
  revert g. induction ws as [|w0 ws IH]; intros g; simpl.
  - intros _ _ Hw. by apply elem_of_nil in Hw.
  - intros (blocker & Hb & Hrest)%bind_Ret [Hw0 Hnd]%NoDup_cons Hw Hfree.
    apply elem_of_cons in Hw as [->|Hw].
    + rewrite Hfree in Hb. injection Hb as <-.
      by apply (blocked_by_loop_other _ _ _ _ _ _ _ Hrest).
    + rewrite (IH _ Hrest Hnd Hw Hfree). destruct blocker; [|done].
      rewrite lookup_alter_ne; [done|]. intros Heq. apply Hw0.
      rewrite Heq. apply list_elem_of_fmap. eauto.
Qed.

Lemma blocked_by_loop_returns (occ : gmap cell pystr) (rows cols : Z)
    (ws : list Worm) (g : gmap pystr (gset pystr)) :
  (∀ w, w ∈ ws → ∃ h, head w = Ret h) →
  ∃ g', blocked_by_loop occ rows cols ws g = Ret g'.
Proof.
  revert g. induction ws as [|w ws IH]; intros g Hheads; simpl; [eauto|].
  destruct (Hheads w) as (h & Hh); [apply elem_of_cons; by left|].
  destruct (first_blocker_total w occ rows cols h Hh) as (res & ->).
  simpl. apply IH. intros w' Hw'. apply Hheads. apply elem_of_cons. by right.
Qed.

(** On worms in a clear order the graph is built, and the last worm is in
    the free list. *)
Lemma graph_of_ready (rows cols : Z) (ws : list Worm) (w : Worm) :
  solver_ready rows cols (ws ++ [w]) →
  ∃ graph, _build_dependency_graph (ws ++ [w]) rows cols = Ret graph
           ∧ worm_id w ∈ free_of graph.
Proof.
  intros Hready. pose proof Hready as (Hnd & Hheads & _).
  unfold _build_dependency_graph.
  destruct (blocked_by_loop_returns (_build_occupancy (ws ++ [w])) rows cols
              (ws ++ [w])
              (foldl (fun g w => <[worm_id w := (∅ : gset pystr)]> g) ∅
                 (ws ++ [w]))) as [graph Hg].
  { intros w' Hw'. destruct (Hheads w' Hw') as (h & Hh & _). eauto. }
  exists graph. split; [done|]. apply elem_of_free_of.
  assert (w ∈ ws ++ [w]) as Hw.
  { apply elem_of_app. right. by apply list_elem_of_singleton. }
  rewrite (blocked_by_loop_free _ _ _ _ _ _ w Hg Hnd Hw
             (last_worm_free rows cols ws w Hready)).
  by apply blocked_by_init_lookup.
Qed.

Lemma NoDup_free_of (graph : gmap pystr (gset pystr)) :
  NoDup (free_of graph).
Proof.
  unfold free_of. apply NoDup_sorted.
  eapply sublist_NoDup; [apply (NoDup_fst_map_to_list graph)|].
  apply fmap_sublist, sublist_filter.
Qed.

(** The worms freed in a round and the ids of the worms left make up the
    ids of the round. *)
Lemma round_ids_perm (ws : list Worm) (free : list pystr) :
  NoDup (worm_id <$> ws) → NoDup free →
  (∀ x, x ∈ free → x ∈ worm_id <$> ws) →
  free ++ (worm_id <$> filter (fun w => worm_id w ∉ free) ws)
  ≡ₚ worm_id <$> ws.
Proof.
  intros Hnd Hfree Hsub. apply NoDup_Permutation; [|done|].
  - apply NoDup_app. split; [done|]. split; [|by apply NoDup_ids_filter].
    intros x Hx (w & -> & [Hw _]%list_elem_of_filter)%list_elem_of_fmap.
    done.
  - intros x. rewrite elem_of_app. split.
    + intros [Hx|(w & -> & [_ Hw]%list_elem_of_filter)%list_elem_of_fmap];
        [by apply Hsub|].
      apply list_elem_of_fmap. eauto.
    + intros (w & -> & Hw)%list_elem_of_fmap.
      destruct (decide (worm_id w ∈ free)); [by left|].
      right. apply list_elem_of_fmap. exists w. split; [done|].
      by apply list_elem_of_filter.
Qed.

(** Removing the one worm that carries the last id leaves the worms before
    it. *)
Lemma filter_last_id (ws : list Worm) (w : Worm) :
  NoDup (worm_id <$> (ws ++ [w])) →
  filter (fun w' => worm_id w' ∉ [worm_id w]) (ws ++ [w]) = ws.
Proof.
  rewrite fmap_app. intros (_ & Hdisj & _)%NoDup_app.
  rewrite filter_app, filter_cons, filter_nil.
  rewrite decide_False, app_nil_r
    by (intros Hn; apply Hn; by apply list_elem_of_singleton).
  induction ws as [|w0 ws IH]; [done|].
  rewrite filter_cons. rewrite decide_True.
  - f_equal. apply IH. intros x Hx. apply Hdisj. simpl.
    apply elem_of_cons. by right.
  - intros Heq%list_elem_of_singleton.
    apply (Hdisj (worm_id w0)).
    + simpl. apply elem_of_cons. by left.
    + rewrite Heq. simpl. by apply list_elem_of_singleton.
Qed.

(** On worms in a clear order the engine answers solvable; its extraction
    order is a rearrangement of the ids, and it is the ids in reverse when
    every round frees one worm. *)
Lemma solve_loop_ready (rows cols : Z) (fuel : nat) :
  ∀ (ws : list Worm) (rn : nat) (rep : list line) (ord : list pystr),
    solver_ready rows cols ws → (length ws <= fuel)%nat →
    ∃ (order : list pystr) (rounds : list line) (k : nat),
      solve_loop fuel rows cols ws rn rep ord
      = Ret (true, ord ++ order,
             rep ++ rounds
             ++ [LBlank; LExtractionOrder (ord ++ order) (rn + k); LSolvable])
      ∧ order ≡ₚ worm_id <$> ws
      ∧ ((∀ n free, LExtract n free ∈ rounds → length free = 1%nat) →
         order = reverse (worm_id <$> ws)).
Proof.
  induction fuel as [|fuel IH]; intros ws rn rep ord Hready Hfuel.
  { destruct ws; [|simpl in Hfuel; lia].
    exists [], [], 0%nat. simpl. rewrite app_nil_r, Nat.add_0_r. done. }
  destruct ws as [|w ws' _] using rev_ind.
  { exists [], [], 0%nat. simpl. rewrite app_nil_r, Nat.add_0_r. done. }
  destruct (graph_of_ready rows cols ws' w Hready) as (graph & Hg & Hw).
  pose proof Hready as (Hnd & _ & _).
  pose proof (round_shrinks _ _ _ _ Hg) as Hshrink.
  pose proof (solver_ready_filter rows cols
                (fun w' => worm_id w' ∉ free_of graph) _ Hready) as Hready'.
  pose proof (round_ids_perm (ws' ++ [w]) (free_of graph) Hnd
                (NoDup_free_of graph)) as Hperm.
  pose proof (filter_last_id ws' w Hnd) as Hlast.
  destruct (ws' ++ [w]) as [|w0 ws0] eqn:Hws; [by destruct ws'|].
  cbn [solve_loop]. rewrite Hg. cbn [mbind res_bind].
  destruct (free_of graph) as [|x free] eqn:Hf; [by apply elem_of_nil in Hw|].
  specialize (Hshrink ltac:(done)).
  destruct (IH _ (S rn) (rep ++ round_report (S rn) (x :: free) graph)
              (ord ++ x :: free) Hready')
    as (order1 & rounds1 & k1 & Heq & Hperm1 & Hrev1);
    [simpl in *; lia|].
  exists ((x :: free) ++ order1),
    (round_report (S rn) (x :: free) graph ++ rounds1), (S k1).
  split; [|split].
  - rewrite Heq, <- !app_assoc.
    by replace (rn + S k1)%nat with (S rn + k1)%nat by lia.
  - rewrite Hperm1. apply Hperm. intros y Hy. rewrite <- Hf in Hy.
    apply elem_of_free_of in Hy. apply (graph_dom _ _ _ _ Hg).
    apply elem_of_dom. eauto.
  - intros Hone.
    assert (length (x :: free) = 1%nat) as Hlen.
    { apply (Hone (S rn)). apply elem_of_app. left. unfold round_report.
      apply elem_of_app. left. by apply list_elem_of_singleton. }
    destruct free; [|done].
    apply list_elem_of_singleton in Hw as <-.
    rewrite Hlast in Hrev1. rewrite Hrev1.
    + by rewrite <- Hws, fmap_app, reverse_app.
    + intros n free' Hin. apply (Hone n). apply elem_of_app. by right.
Qed.

(** ** Writing the grid *)

Lemma py_index_in (len : nat) (i : Z) :
  0 <= i < Z.of_nat len → py_index len i = Ret (Z.to_nat i).
Proof.
  intros Hi. unfold py_index.
  destruct (Z.leb_spec 0 i), (Z.ltb_spec i (Z.of_nat len)); simpl; done || lia.
Qed.

Lemma rect_row {A} (rows cols : Z) (grid : list (list A)) (i : nat)
    (row : list A) :
  rect rows cols grid → grid !! i = Some row → length row = Z.to_nat cols.
Proof.
  intros [_ Hrows] Hi. rewrite Forall_forall in Hrows. apply Hrows.
  apply list_elem_of_lookup. eauto.
Qed.

Lemma grid_at_in {A} (rows cols : Z) (grid : list (list A)) (q : cell) :
  rect rows cols grid →
  in_grid rows cols q = true ↔ is_Some (grid_at grid q).
Proof.
  intros Hrect. pose proof Hrect as [Hlen _].
  rewrite in_grid_spec. unfold grid_at.
  destruct (Z.leb_spec 0 q.1), (Z.leb_spec 0 q.2); simpl;
    try (split; [lia|by intros [? ?]]).
  destruct (grid !! Z.to_nat q.1) as [row|] eqn:Hrow; simpl.
  - pose proof (rect_row _ _ _ _ _ Hrect Hrow) as Hc.
    apply lookup_lt_Some in Hrow. rewrite lookup_lt_is_Some. lia.
  - apply lookup_ge_None in Hrow. split; [lia|by intros [? ?]].
Qed.

(** A write inside the grid succeeds, changes that cell, and leaves the
    other cells and the shape of the grid as they were. *)
Lemma grid_set_in {A} (rows cols : Z) (grid : list (list A)) (r c : Z)
    (v : A) :
  rect rows cols grid → in_grid rows cols (r, c) = true →
  ∃ grid', grid_set grid r c v = Ret grid'
           ∧ rect rows cols grid'
           ∧ grid_at grid' (r, c) = Some v
           ∧ ∀ q, q ≠ (r, c) → grid_at grid' q = grid_at grid q.
Proof.
  intros Hrect Hin. pose proof Hrect as [Hlen Hrows].
  apply in_grid_spec in Hin. simpl in Hin. unfold grid_set.
  rewrite py_index_in by lia. simpl.
  destruct (grid !! Z.to_nat r) as [row|] eqn:Hrow;
    [|apply lookup_ge_None in Hrow; lia].
  pose proof (rect_row _ _ _ _ _ Hrect Hrow) as Hc.
  rewrite py_index_in by lia. simpl.
  eexists. split; [done|]. split; [|split].
  - split; [by rewrite length_insert|].
    apply Forall_insert; [done|]. by rewrite length_insert.
  - unfold grid_at. simpl.
    destruct (Z.leb_spec 0 r), (Z.leb_spec 0 c); try lia. simpl.
    rewrite list_lookup_insert_eq by (apply lookup_lt_Some in Hrow; lia).
    simpl. apply list_lookup_insert_eq. lia.
  - intros [r' c'] Hne. unfold grid_at. simpl.
    destruct (Z.leb_spec 0 r'), (Z.leb_spec 0 c'); try done. simpl.
    destruct (decide (Z.to_nat r' = Z.to_nat r)) as [Heq|Hner].
    + rewrite Heq, Hrow.
      rewrite list_lookup_insert_eq by (apply lookup_lt_Some in Hrow; lia).
      simpl. apply list_lookup_insert_ne. intros Heqc.
      apply Hne. f_equal; lia.
    + by rewrite list_lookup_insert_ne.
Qed.

Lemma paint_body_in (rows cols : Z) (body : list cell) (v : pystr) :
  ∀ grid : list (list pystr),
    rect rows cols grid →
    (∀ q, q ∈ body → in_grid rows cols q = true) →
    ∃ grid', paint_body grid body v = Ret grid'
             ∧ rect rows cols grid'
             ∧ (∀ q, q ∈ body → grid_at grid' q = Some v)
             ∧ (∀ q, q ∉ body → grid_at grid' q = grid_at grid q).
Proof.
  induction body as [|[br bc] body IH]; intros grid Hrect Hin; simpl.
  - exists grid. split; [done|]. split; [done|]. split; [|done].
    intros q Hq. by apply elem_of_nil in Hq.
  - destruct (grid_set_in rows cols grid br bc v Hrect)
      as (grid1 & -> & Hrect1 & Hset & Hother).
    { apply Hin. apply elem_of_cons. by left. }
    simpl. destruct (IH grid1 Hrect1) as (grid' & -> & Hrect' & Hbody & Hrest).
    { intros q Hq. apply Hin. apply elem_of_cons. by right. }
    exists grid'. split; [done|]. split; [done|]. split.
    + intros q Hq. destruct (decide (q ∈ body)) as [Hqb|Hqb]; [by apply Hbody|].
      apply elem_of_cons in Hq as [->|Hq]; [|done].
      by rewrite Hrest.
    + intros q Hq. apply not_elem_of_cons in Hq as [Hne Hq].
      rewrite Hrest by done. by apply Hother.
Qed.

Lemma cells_of_cons (wd : Placed) (ws : list Placed) :
  cells_of (wd :: ws) = p_segments wd ++ cells_of ws.
Proof. done. Qed.

(** Painting worms whose cells are in the grid succeeds; it leaves the cells
    of no worm as they were, and when the worms do not overlap every head
    holds the upper-case id and every body cell the lower-case id. *)
Lemma paint_worms_in `{CaseTable} (rows cols : Z) (ws : list Placed) :
  ∀ (grid : list (list pystr)) (meta : list (pystr * WormMeta)),
    rect rows cols grid →
    (∀ wd, wd ∈ ws →
           p_segments wd = p_body wd ++ [p_head wd]
           ∧ ∀ q, q ∈ p_segments wd → in_grid rows cols q = true) →
    ∃ grid',
      paint_worms ws grid meta
      = Ret (grid',
             foldl (fun m wd => dict_set m [p_worm_id wd] (meta_of wd)) meta ws)
      ∧ rect rows cols grid'
      ∧ (∀ q, q ∉ cells_of ws → grid_at grid' q = grid_at grid q)
      ∧ (NoDup (cells_of ws) →
         ∀ wd, wd ∈ ws →
               grid_at grid' (p_head wd) = Some (upper (p_worm_id wd))
               ∧ ∀ b, b ∈ p_body wd →
                      grid_at grid' b = Some (lower (p_worm_id wd))).
Proof.
  induction ws as [|wd ws IH]; intros grid meta Hrect Hin;
    cbn [paint_worms foldl].
  - exists grid. split; [done|]. split; [done|]. split; [done|].
    intros _ wd Hwd. by apply elem_of_nil in Hwd.
  - destruct (Hin wd) as [Hseg Hcells]; [apply elem_of_cons; by left|].
    destruct (p_head wd) as [hr hc] eqn:Hhead.
    destruct (grid_set_in rows cols grid hr hc (upper (p_worm_id wd)) Hrect)
      as (grid1 & -> & Hrect1 & Hset1 & Hother1).
    { apply Hcells. rewrite Hseg. apply elem_of_app. right.
      by apply list_elem_of_singleton. }
    cbn [mbind res_bind].
    destruct (paint_body_in rows cols (p_body wd) (lower (p_worm_id wd))
                grid1 Hrect1) as (grid2 & -> & Hrect2 & Hbody2 & Hother2).
    { intros q Hq. apply Hcells. rewrite Hseg. apply elem_of_app. by left. }
    cbn [mbind res_bind].
    destruct (IH grid2
                (dict_set meta [p_worm_id wd] (meta_of wd)) Hrect2)
      as (grid' & -> & Hrect' & Hother & Hcontent).
    { intros wd' Hwd'. apply Hin. apply elem_of_cons. by right. }
    exists grid'. split; [done|]. split; [done|]. split.
    + intros q. rewrite cells_of_cons, Hseg.
      rewrite !not_elem_of_app, list_elem_of_singleton.
      intros [[Hqb Hqh] Hqr].
      rewrite Hother, Hother2 by done. by apply Hother1.
    + rewrite cells_of_cons.
      intros (Hnd1 & Hdisj & Hnd2)%NoDup_app wd' Hwd'.
      apply elem_of_cons in Hwd' as [->|Hwd']; [|by apply Hcontent].
      rewrite Hseg in Hnd1, Hdisj.
      apply NoDup_app in Hnd1 as (_ & Hbh & _). rewrite Hhead. split.
      * rewrite Hother, Hother2; [done| |].
        -- intros Hq. apply (Hbh _ Hq). by apply list_elem_of_singleton.
        -- apply Hdisj. apply elem_of_app. right.
           by apply list_elem_of_singleton.
      * intros b Hb. rewrite Hother; [by apply Hbody2|].
        apply Hdisj. apply elem_of_app. by left.
Qed.

(** ** What the placement records guarantee *)

Lemma wp_cells (rows cols : Z) (ws : list Placed) :
  well_placed rows cols ws →
  ∀ wd, wd ∈ ws →
        p_segments wd = p_body wd ++ [p_head wd]
        ∧ (∀ q, q ∈ p_segments wd → in_grid rows cols q = true)
        ∧ (∀ b, b ∈ p_body wd → ¬ further (p_direction wd) (p_head wd) b).
Proof.
  induction 1 as [|ws wd Hws IH Hid Hseg Hnd Hcells Hlead Hcorr];
    intros wd' Hwd'.
  - by apply elem_of_nil in Hwd'.
  - apply elem_of_app in Hwd' as [Hwd'| ->%list_elem_of_singleton];
      [by apply IH|].
    split; [done|]. split; [|done]. intros q Hq. by apply Hcells.
Qed.

Lemma wp_NoDup (rows cols : Z) (ws : list Placed) :
  well_placed rows cols ws → NoDup (cells_of ws).
Proof.
  induction 1 as [|ws wd Hws IH Hid Hseg Hnd Hcells Hlead Hcorr].
  - constructor.
  - rewrite cells_of_snoc. apply NoDup_app. split; [done|]. split; [|done].
    intros q Hq Hq'. by apply Hcells in Hq' as [_ Hq'].
Qed.

Lemma wp_ids (rows cols : Z) (ws : list Placed) :
  well_placed rows cols ws →
  ∀ (j : nat) wd, ws !! j = Some wd → p_worm_id wd = Z.to_N (65 + Z.of_nat j).
Proof.
  induction 1 as [|ws wd Hws IH Hid Hseg Hnd Hcells Hlead Hcorr];
    intros j wd' Hj.
  - by rewrite lookup_nil in Hj.
  - apply lookup_app_Some in Hj as [Hj|[Hlen Hj]]; [by apply IH|].
    apply list_lookup_singleton_Some in Hj as [Hj <-].
    rewrite Hid. f_equal. lia.
Qed.

Lemma wp_ids_NoDup (rows cols : Z) (ws : list Placed) :
  well_placed rows cols ws → NoDup ((fun wd => [p_worm_id wd]) <$> ws).
Proof.
  intros Hws. apply NoDup_alt. intros j k x Hj Hk.
  apply list_lookup_fmap_Some in Hj as (wj & -> & Hj).
  apply list_lookup_fmap_Some in Hk as (wk & Heq & Hk).
  injection Heq as Heq.
  rewrite (wp_ids _ _ _ Hws _ _ Hj), (wp_ids _ _ _ Hws _ _ Hk) in Heq. lia.
Qed.

(** No earlier worm has a cell in the corridor of a later one. *)
Lemma wp_corridor (rows cols : Z) (ws : list Placed) :
  well_placed rows cols ws →
  ∀ (j k : nat) wj wk n,
    ws !! j = Some wj → ws !! k = Some wk → (j < k)%nat → 1 <= n →
    in_grid rows cols (ahead (p_direction wk) (p_head wk) n) = true →
    ahead (p_direction wk) (p_head wk) n ∉ p_segments wj.
Proof.
  induction 1 as [|ws wd Hws IH Hid Hseg Hnd Hcells Hlead Hcorr];
    intros j k wj wk n Hj Hk Hjk Hn Hin.
  - by rewrite lookup_nil in Hj.
  - apply lookup_app_Some in Hk as [Hk|[Hlen Hk]].
    + apply lookup_app_Some in Hj as [Hj|[Hlenj _]].
      * by eapply IH.
      * apply lookup_lt_Some in Hk. lia.
    + apply list_lookup_singleton_Some in Hk as [Hk <-].
      apply lookup_app_Some in Hj as [Hj|[Hlenj _]]; [|lia].
      intros Hq. apply (Hcorr n Hn Hin). apply elem_of_cells_of.
      exists wj. split; [|done]. apply list_elem_of_lookup. eauto.
Qed.

(** ** The layout that is built *)

Lemma dict_set_fresh {V} (d : list (pystr * V)) (k : pystr) (v : V) :
  k ∉ d.*1 → dict_set d k v = d ++ [(k, v)].
Proof.
  induction d as [|[k' v'] d IH]; simpl; [done|].
  intros [Hne Hk]%not_elem_of_cons.
  destruct (decide (k' = k)); [done|]. by rewrite IH.
Qed.

Lemma worms_meta_fresh (ws : list Placed) :
  NoDup ((fun wd => [p_worm_id wd]) <$> ws) →
  foldl (fun m wd => dict_set m [p_worm_id wd] (meta_of wd)) [] ws
  = (fun wd => ([p_worm_id wd], meta_of wd)) <$> ws.
Proof.
  induction ws as [|wd ws IH] using rev_ind; [done|].
  rewrite fmap_app. intros (Hnd & Hdisj & _)%NoDup_app.
  rewrite foldl_snoc, IH, fmap_app by done. simpl.
  apply dict_set_fresh. rewrite <- list_fmap_compose.
  intros Hin. apply (Hdisj _ Hin). simpl. by apply list_elem_of_singleton.
Qed.

Lemma rect_initial {A} (rows cols : Z) (x : A) :
  rect rows cols (replicate (Z.to_nat rows) (replicate (Z.to_nat cols) x)).
Proof.
  split; [by rewrite length_replicate|].
  apply Forall_replicate. by rewrite length_replicate.
Qed.

Lemma grid_at_initial {A} (rows cols : Z) (x : A) (q : cell) :
  in_grid rows cols q = true →
  grid_at (replicate (Z.to_nat rows) (replicate (Z.to_nat cols) x)) q
  = Some x.
Proof.
  intros Hin%in_grid_spec. unfold grid_at.
  destruct (Z.leb_spec 0 q.1), (Z.leb_spec 0 q.2); try lia. simpl.
  rewrite lookup_replicate_2 by lia. simpl.
  apply lookup_replicate_2. lia.
Qed.

Lemma build_level_ok `{CaseTable} (rows cols num_worms : Z)
    (ws : list Placed) :
  well_placed rows cols ws → ws ≠ [] →
  ∃ grid' : list (list pystr),
    build_level rows cols num_worms ws
    = Ret (Some (mkLevel (Some (generated_name rows cols (length ws)))
                   rows cols ((fun row : list pystr => concat row) <$> grid')
                   ((fun wd => ([p_worm_id wd], meta_of wd)) <$> ws)),
           (fun wd => [p_worm_id wd]) <$> ws,
           if Z.of_nat (length ws) <? num_worms
           then msg_fewer (length ws) num_worms else msg_ok)
    ∧ rect rows cols grid'
    ∧ (∀ q, in_grid rows cols q = true → q ∉ cells_of ws →
            grid_at grid' q = Some [46%N])
    ∧ (∀ wd, wd ∈ ws →
             grid_at grid' (p_head wd) = Some (upper (p_worm_id wd))
             ∧ ∀ b, b ∈ p_body wd →
                    grid_at grid' b = Some (lower (p_worm_id wd))).
Proof.
  intros Hws Hne. unfold build_level.
  destruct (paint_worms_in rows cols ws
              (replicate (Z.to_nat rows) (replicate (Z.to_nat cols) [46%N]))
              [] (rect_initial rows cols [46%N]))
    as (grid' & Hpaint & Hrect & Hother & Hcontent).
  { intros wd Hwd. destruct (wp_cells _ _ _ Hws wd Hwd) as (? & ? & _). done. }
  exists grid'. destruct ws as [|wd0 ws0]; [done|].
  rewrite Hpaint. cbn [mbind res_bind].
  rewrite worms_meta_fresh by (by eapply wp_ids_NoDup).
  split; [done|]. split; [done|]. split.
  - intros q Hin Hq. rewrite Hother by done. by apply grid_at_initial.
  - apply Hcontent. by eapply wp_NoDup.
Qed.

(** ** The placement loop, worm by worm *)

Section generation.
Context `{RandomSource} `{CaseTable}.

Lemma placed_after_ok (rows cols min_body max_body : Z) (k : nat) :
  ∀ (i : Z) (occupied : gset cell) (ws : list Placed)
    (corridors : list (gset cell)) (g g' : rng) (occupied' : gset cell)
    (ws' : list Placed) (corridors' : list (gset cell)),
    well_placed rows cols ws →
    i = Z.of_nat (length ws) →
    (∀ q, q ∈ occupied ↔ q ∈ cells_of ws) →
    placed_after k rows cols i occupied ws corridors min_body max_body g
      = Ret (Some (occupied', ws', corridors'), g') →
    well_placed rows cols ws'
    ∧ length ws' = (length ws + k)%nat
    ∧ (∀ q, q ∈ occupied' ↔ q ∈ cells_of ws').
Proof.
  induction k as [|k IH];
    intros i occupied ws corridors g g' occupied' ws' corridors' Hws Hi Hocc;
    simpl.
  - intros [= <- <- _ _]. split; [done|]. split; [lia|done].
  - intros (placed & g1 & Hplaced & Hk)%rand_bind_Ret.
    destruct placed as [[wd corridor]|]; [|done].
    apply place_worm_ok in Hplaced; [|lia]. subst i.
    pose proof (well_placed_snoc _ _ _ _ _ _ Hws Hocc Hplaced) as Hws1.
    apply IH in Hk as (Hwp & Hlen & Hocc'); try done.
    + split; [done|]. split; [|done].
      rewrite length_app in Hlen. simpl in Hlen. lia.
    + rewrite length_app. simpl. lia.
    + intros q. rewrite cells_of_snoc, elem_of_union, elem_of_app,
        elem_of_list_to_set, Hocc. done.
Qed.

Lemma place_loop_after (rows cols min_body max_body : Z) (k : nat) :
  ∀ (i : Z) (occupied : gset cell) (ws : list Placed)
    (corridors : list (gset cell)) (g g' : rng) (occupied' : gset cell)
    (ws' : list Placed) (corridors' : list (gset cell)) (n : nat),
    placed_after k rows cols i occupied ws corridors min_body max_body g
      = Ret (Some (occupied', ws', corridors'), g') →
    place_loop (k + n) rows cols i occupied ws corridors min_body max_body g
    = place_loop n rows cols (i + Z.of_nat k) occupied' ws' corridors'
        min_body max_body g'.
Proof.
  induction k as [|k IH];
    intros i occupied ws corridors g g' occupied' ws' corridors' n; simpl.
  - intros [= <- <- <- <-]. by rewrite Z.add_0_r.
  - intros (placed & g1 & Hplaced & Hk)%rand_bind_Ret.
    destruct placed as [[wd corridor]|]; [|done].
    unfold mbind at 1, rand_bind at 1. rewrite Hplaced.
    rewrite (IH _ _ _ _ _ _ _ _ _ n Hk). f_equal. lia.
Qed.

(** C8.  When the first worm cannot be placed, [generate_level] returns no
    layout, an empty placement order and the text of the hard failure,
    "Failed to place even the first worm ...".  When the first [k >= 1]
    worms were placed and worm [k + 1 <= num_worms] cannot be, it returns
    normally: a layout named "Generated {rows}x{cols} ({k} worms)" that
    holds these [k] worms, each with its colour and the name of its
    direction in the metadata, their ids as the placement order, and the
    note "Placed {k} of {num_worms} worms (grid too crowded for more).",
    which is not "OK". *)
Theorem generation_exhaustion (rows cols num_worms min_len max_len : Z)
    (seed : option Z) (g : rng) :
  let min_body := Z.max (min_len - 1) 0 in
  let max_body := max_len - 1 in
  (∀ g', 0 < num_worms →
         place_worm rows cols 0 ∅ [] min_body max_body (start_rng seed g)
           = Ret (None, g') →
         generate_level rows cols num_worms min_len max_len seed g
         = Ret ((None, [],
                 "Failed to place even the first worm — grid too small for the requested worm length."%string),
                g'))
  ∧ (∀ (k : nat) (occupied : gset cell) (ws : list Placed)
       (corridors : list (gset cell)) (g1 g2 : rng),
       (0 < k)%nat → Z.of_nat k < num_worms →
       placed_after k rows cols 0 ∅ [] [] min_body max_body
         (start_rng seed g)
         = Ret (Some (occupied, ws, corridors), g1) →
       place_worm rows cols (Z.of_nat k) occupied corridors min_body
         max_body g1 = Ret (None, g2) →
       length ws = k
       ∧ ∃ (grid : list (list pystr)) (msg : string),
           generate_level rows cols num_worms min_len max_len seed g
           = Ret ((Some (mkLevel
                           (Some ("Generated " +:+ pretty rows +:+ "x"
                                  +:+ pretty cols +:+ " (" +:+ pretty k
                                  +:+ " worms)"))
                           rows cols
                           ((fun row : list pystr => concat row) <$> grid)
                           ((fun wd =>
                               ([p_worm_id wd],
                                mkMeta (Some (p_color wd))
                                  match p_direction wd with
                                  | Up => "up"
                                  | Down => "down"
                                  | Left => "left"
                                  | Right => "right"
                                  end)) <$> ws)),
                   (fun wd => [p_worm_id wd]) <$> ws,
                   msg), g2)
           ∧ msg = ("Placed " +:+ pretty k +:+ " of " +:+ pretty num_worms
                    +:+ " worms (grid too crowded for more).")%string
           ∧ msg ≠ "OK"%string
           ∧ rect rows cols grid
           ∧ ∀ wd, wd ∈ ws →
                   grid_at grid (p_head wd) = Some (upper (p_worm_id wd))
                   ∧ ∀ b, b ∈ p_body wd →
                          grid_at grid b = Some (lower (p_worm_id wd))).
Proof.
  intros min_body max_body. split.
  - intros g' Hn Hplace. unfold generate_level.
    fold min_body max_body.
    destruct (Z.to_nat num_worms) as [|n] eqn:Hnat; [lia|].
    unfold mbind at 1, rand_bind at 1. cbn [place_loop].
    unfold mbind at 1, rand_bind at 1. rewrite Hplace. done.
  - intros k occupied ws corridors g1 g2 Hk Hlt Hafter Hplace.
    destruct (placed_after_ok rows cols min_body max_body k 0 ∅ [] []
                _ _ _ _ _ (wp_nil rows cols) eq_refl
                ltac:(intros q; by rewrite elem_of_nil, elem_of_empty) Hafter)
      as (Hws & Hlen & _).
    simpl in Hlen. split; [done|].
    destruct (build_level_ok rows cols num_worms ws Hws)
      as (grid & Hbuild & Hrect & _ & Hcontent).
    { intros ->. simpl in Hlen. lia. }
    exists grid, (msg_fewer k num_worms).
    split; [|split; [done|split; [|done]]];
      [|unfold msg_fewer; simpl; discriminate].
    unfold generate_level. fold min_body max_body.
    replace (Z.to_nat num_worms)
      with (k + S (Z.to_nat num_worms - k - 1))%nat by lia.
    unfold mbind at 1, rand_bind at 1.
    rewrite (place_loop_after rows cols min_body max_body k _ _ _ _ _ _ _ _ _
               (S (Z.to_nat num_worms - k - 1)) Hafter).
    rewrite Z.add_0_l. cbn [place_loop].
    unfold mbind at 1, rand_bind at 1. rewrite Hplace.
    destruct (Z.eqb_spec (Z.of_nat k) 0) as [|_]; [lia|].
    unfold mret, rand_ret, lift. rewrite Hbuild. cbn [mbind res_bind].
    rewrite Hlen. by destruct (Z.ltb_spec (Z.of_nat k) num_worms); [|lia].
Qed.
(** C7.  Two calls of [generate_level] with the same parameters and the
    same seed (not [None]) have the same outcome, whatever the state of
    the random source when each call starts: the same level data, the same
    placement order and the same message, or the same exception. *)
Theorem generate_level_deterministic
    (rows cols num_worms min_len max_len seed : Z) (g1 g2 : rng) :
  generate_level rows cols num_worms min_len max_len (Some seed) g1
  = generate_level rows cols num_worms min_len max_len (Some seed) g2.
Proof. unfold generate_level, start_rng. reflexivity. Qed.
End generation.

(** On a 1x1 grid the first worm cannot be placed; on a 1x3 grid worm A is
    placed in the middle, facing left, and worm B cannot be placed. *)
Lemma generation_exhaustion_witness :
  @generate_level first_source caseless_table 1 1 1 1 1 (Some 0) tt
  = Ret ((None, [],
          "Failed to place even the first worm — grid too small for the requested worm length."%string),
         tt)
  ∧ (length [mkPlaced 65 (0, 1) Left [] "red" [(0, 1)]] = 1%nat
     ∧ ∃ (grid : list (list pystr)) (msg : string),
         @generate_level first_source caseless_table 1 3 2 1 1 (Some 0) tt
         = Ret ((Some (mkLevel (Some "Generated 1x3 (1 worms)"%string) 1 3
                         ((fun row : list pystr => concat row) <$> grid)
                         [(cp "A", mkMeta (Some "red"%string) "left")]),
                 [cp "A"], msg), tt)
         ∧ msg = "Placed 1 of 2 worms (grid too crowded for more)."%string
         ∧ msg ≠ "OK"%string
         ∧ rect 1 3 grid
         ∧ ∀ wd, wd ∈ [mkPlaced 65 (0, 1) Left [] "red" [(0, 1)]] →
                 grid_at grid (p_head wd)
                 = Some (@upper caseless_table (p_worm_id wd))
                 ∧ ∀ b, b ∈ p_body wd →
                        grid_at grid b
                        = Some (@lower caseless_table (p_worm_id wd))).
Proof.
  split.
  - apply (proj1 (@generation_exhaustion first_source caseless_table
                    1 1 1 1 1 (Some 0) tt) tt); [lia|].
    vm_compute. reflexivity.
  - apply (proj2 (@generation_exhaustion first_source caseless_table
                    1 3 2 1 1 (Some 0) tt)
             1%nat {[ (0, 1) ]} [mkPlaced 65 (0, 1) Left [] "red" [(0, 1)]]
             [{[ (0, 0) ]}] tt tt); [lia | lia | |].
    + vm_compute. reflexivity.
    + vm_compute. reflexivity.
Defined.

(** ** The cells of a text grid *)

Lemma row_cells_elem (r c0 : Z) (row : pystr) (p : cell) (ch : N) :
  (p, ch) ∈ row_cells r c0 row ↔
  ∃ j : nat, p = (r, c0 + Z.of_nat j) ∧ row !! j = Some ch.
Proof.
  revert c0. induction row as [|ch0 rest IH]; intros c0; simpl.
  - split; [by intros ?%elem_of_nil|]. by intros (j & _ & ?).
  - rewrite elem_of_cons, IH. split.
    + intros [[= -> ->]|(j & -> & Hj)].
      * exists 0%nat. split; [f_equal; lia|done].
      * exists (S j). split; [f_equal; lia|done].
    + intros ([|j] & -> & Hj).
      * left. injection Hj as ->. do 2 f_equal. lia.
      * right. exists j. split; [f_equal; lia|done].
Qed.

Lemma grid_cells_elem (r0 : Z) (strs : list pystr) (p : cell) (ch : N) :
  (p, ch) ∈ grid_cells r0 strs ↔
  ∃ (i j : nat) (row : pystr),
    p = (r0 + Z.of_nat i, Z.of_nat j) ∧ strs !! i = Some row
    ∧ row !! j = Some ch.
Proof.
  revert r0. induction strs as [|row0 rest IH]; intros r0; simpl.
  - split; [by intros ?%elem_of_nil|]. by intros (i & j & row & _ & ? & _).
  - rewrite elem_of_app, row_cells_elem, IH. split.
    + intros [(j & -> & Hj)|(i & j & row & -> & Hi & Hj)].
      * exists 0%nat, j, row0. split; [f_equal; lia|done].
      * exists (S i), j, row. split; [f_equal; lia|done].
    + intros ([|i] & j & row & -> & Hi & Hj).
      * left. injection Hi as ->. exists j. split; [f_equal; lia|done].
      * right. exists i, j, row. split; [f_equal; lia|done].
Qed.

Lemma row_cells_pos (r c0 : Z) (row : pystr) (q : cell) :
  q ∈ (row_cells r c0 row).*1 → q.1 = r ∧ c0 <= q.2.
Proof.
  intros ([p ch] & -> & (j & -> & _)%row_cells_elem)%list_elem_of_fmap.
  simpl. lia.
Qed.

Lemma grid_cells_pos (r0 : Z) (strs : list pystr) (q : cell) :
  q ∈ (grid_cells r0 strs).*1 → r0 <= q.1.
Proof.
  intros ([p ch] & -> & (i & j & row & -> & _)%grid_cells_elem)
           %list_elem_of_fmap.
  simpl. lia.
Qed.

Lemma NoDup_row_cells (r c0 : Z) (row : pystr) :
  NoDup (row_cells r c0 row).*1.
Proof.
  revert c0. induction row as [|ch rest IH]; intros c0; simpl.
  - constructor.
  - apply NoDup_cons. split; [|apply IH].
    intros Hin%row_cells_pos. simpl in Hin. lia.
Qed.

(** No cell of the grid is scanned twice. *)
Lemma NoDup_grid_cells (r0 : Z) (strs : list pystr) :
  NoDup (grid_cells r0 strs).*1.
Proof.
  revert r0. induction strs as [|row rest IH]; intros r0; simpl.
  - constructor.
  - rewrite fmap_app. apply NoDup_app.
    split; [apply NoDup_row_cells|]. split; [|apply IH].
    intros q [Hr _]%row_cells_pos Hin%grid_cells_pos. lia.
Qed.

Lemma concat_singles_lookup (row : list pystr) (j : nat) (ch : N) :
  (∀ s, s ∈ row → ∃ c, s = [c]) →
  concat row !! j = Some ch ↔ row !! j = Some [ch].
Proof.
  revert j. induction row as [|s rest IH]; intros j Hs; simpl.
  - by rewrite !lookup_nil.
  - destruct (Hs s) as [c ->]; [apply elem_of_cons; by left|].
    simpl. destruct j as [|j]; simpl.
    + naive_solver.
    + apply IH. intros s' Hs'. apply Hs. apply elem_of_cons. by right.
Qed.

(** The scanned cells of a grid whose cells hold one character each. *)
Lemma grid_cells_concat (rows cols : Z) (grid : list (list pystr))
    (p : cell) (ch : N) :
  rect rows cols grid →
  (∀ q s, grid_at grid q = Some s → ∃ c, s = [c]) →
  (p, ch) ∈ grid_cells 0 ((fun row : list pystr => concat row) <$> grid) ↔
  grid_at grid p = Some [ch].
Proof.
  intros Hrect Hsingle.
  assert (∀ (i : nat) row, grid !! i = Some row →
            ∀ s, s ∈ row → ∃ c, s = [c]) as Hrow.
  { intros i row Hi s (j & Hj)%list_elem_of_lookup.
    apply (Hsingle (Z.of_nat i, Z.of_nat j)). unfold grid_at. simpl.
    destruct (Z.leb_spec 0 (Z.of_nat i)), (Z.leb_spec 0 (Z.of_nat j));
      try lia.
    simpl. rewrite !Nat2Z.id, Hi. simpl. done. }
  rewrite grid_cells_elem. split.
  - intros (i & j & row_str & -> & Hi & Hj).
    apply list_lookup_fmap_Some in Hi as (row & -> & Hi).
    apply (concat_singles_lookup row j ch (Hrow i row Hi)) in Hj.
    unfold grid_at. simpl.
    destruct (Z.leb_spec 0 (0 + Z.of_nat i)), (Z.leb_spec 0 (Z.of_nat j));
      try lia.
    simpl. rewrite Z.add_0_l, !Nat2Z.id, Hi. simpl. done.
  - unfold grid_at. destruct p as [r c]. simpl.
    destruct (Z.leb_spec 0 r), (Z.leb_spec 0 c); try done. simpl.
    destruct (grid !! Z.to_nat r) as [row|] eqn:Hi; [|done]. simpl.
    intros Hj. exists (Z.to_nat r), (Z.to_nat c), (concat row).
    split; [f_equal; lia|]. split.
    + rewrite list_lookup_fmap, Hi. done.
    + by apply (concat_singles_lookup row _ ch (Hrow _ row Hi)).
Qed.

(** ** The stable sort of the segments *)

Lemma insert_by_perm {A} (key : A → Z) (x : A) (l : list A) :
  insert_by key x l ≡ₚ x :: l.
Proof.
  induction l as [|y l IH]; simpl; [done|].
  destruct (key x <=? key y); [done|]. rewrite IH. apply Permutation_swap.
Qed.

Lemma sort_by_perm {A} (key : A → Z) (l : list A) : sort_by key l ≡ₚ l.
Proof.
  induction l as [|x l IH]; simpl; [done|].
  unfold sort_by in *. simpl. by rewrite insert_by_perm, IH.
Qed.

Lemma insert_by_last {A} (key : A → Z) (x h : A) (l : list A) :
  last l = Some h → key x <= key h → last (insert_by key x l) = Some h.
Proof.
  induction l as [|y l IH]; [done|]. intros Hlast Hle.
  cbn [insert_by]. destruct (Z.leb_spec (key x) (key y)).
  - by rewrite last_cons_cons.
  - rewrite last_cons in Hlast. rewrite last_cons.
    destruct (last l) as [z|] eqn:Hl.
    + injection Hlast as ->. by rewrite IH.
    + injection Hlast as ->. lia.
Qed.

(** The head, put last before the sort, is still last after it when no key
    exceeds its own. *)
Lemma sort_by_last {A} (key : A → Z) (bs : list A) (h : A) :
  (∀ b, b ∈ bs → key b <= key h) →
  last (sort_by key (bs ++ [h])) = Some h.
Proof.
  unfold sort_by. rewrite foldr_app. simpl.
  induction bs as [|b bs IH]; intros Hle; simpl; [done|].
  apply insert_by_last.
  - apply IH. intros b' Hb'. apply Hle. apply elem_of_cons. by right.
  - apply Hle. apply elem_of_cons. by left.
Qed.

Lemma sort_keys_not_further (d : Direction) (h b : cell) :
  ¬ further d h b → sort_keys d b <= sort_keys d h.
Proof. destruct d; unfold further, sort_keys; lia. Qed.

Lemma parse_direction_name (d : Direction) :
  parse_direction (direction_name d) = Some d.
Proof. by destruct d. Qed.

(** ** Letters *)

Lemma letter_case `{CaseTable} (c : N) :
  (65 <= c <= 90)%N →
  upper c = [c] ∧ lower c = [(c + 32)%N] ∧ isupper c = true
  ∧ isupper (c + 32) = false ∧ upper (c + 32) = [c].
Proof.
  intros Hc. unfold upper, lower, isupper.
  destruct (N.ltb_spec c 128); [|lia].
  destruct (N.ltb_spec (c + 32) 128); [|lia].
  destruct (N.leb_spec 97 c); [lia|].
  destruct (N.leb_spec 65 c); [|lia].
  destruct (N.leb_spec c 90); [|lia].
  destruct (N.leb_spec 65 (c + 32)); [|lia].
  destruct (N.leb_spec (c + 32) 90); [lia|].
  destruct (N.leb_spec 97 (c + 32)); [|lia].
  destruct (N.leb_spec (c + 32) 122); [|lia].
  simpl. repeat split; try done. f_equal. lia.
Qed.

Lemma NoDup_singleton_eq {A} (l : list A) (a : A) :
  NoDup l → (∀ x, x ∈ l ↔ x = a) → l = [a].
Proof.
  intros Hnd Hel. apply Permutation_singleton_r.
  apply NoDup_Permutation; [done|apply NoDup_singleton|].
  intros x. by rewrite Hel, list_elem_of_singleton.
Qed.

Lemma clear_order_pairwise (rows cols : Z) (ws : list Worm) :
  (∀ (j k : nat) wj wk h n,
     ws !! j = Some wj → ws !! k = Some wk → (j < k)%nat →
     head wk = Ret h → 1 <= n →
     in_grid rows cols (ahead (direction wk) h n) = true →
     ahead (direction wk) h n ∉ segments wj) →
  clear_order rows cols ws.
Proof.
  induction ws as [|w ws IH]; intros Hpair; simpl; [done|]. split.
  - intros w' h n (k & Hk)%list_elem_of_lookup Hh Hn Hin.
    apply (Hpair 0%nat (S k) w w' h n); try done. lia.
  - apply IH. intros j k wj wk h n Hj Hk Hjk.
    apply (Hpair (S j) (S k)); try done. lia.
Qed.

(** ** The layout of at most 26 well-placed worms, read back *)

Section built.
Context `{CaseTable} (rows cols : Z) (ws : list Placed)
  (grid : list (list pystr)).
Hypothesis Hws : well_placed rows cols ws.
Hypothesis Hlen : (length ws <= 26)%nat.
Hypothesis Hrect : rect rows cols grid.
Hypothesis Hdot :
  ∀ q, in_grid rows cols q = true → q ∉ cells_of ws →
       grid_at grid q = Some [46%N].
Hypothesis Hcontent :
  ∀ wd, wd ∈ ws →
        grid_at grid (p_head wd) = Some (upper (p_worm_id wd))
        ∧ ∀ b, b ∈ p_body wd → grid_at grid b = Some (lower (p_worm_id wd)).

Lemma id_range (wd : Placed) : wd ∈ ws → (65 <= p_worm_id wd <= 90)%N.
Proof.
  intros (j & Hj)%list_elem_of_lookup.
  rewrite (wp_ids _ _ _ Hws _ _ Hj). apply lookup_lt_Some in Hj. lia.
Qed.

Lemma same_id (wd wd' : Placed) :
  wd ∈ ws → wd' ∈ ws → p_worm_id wd = p_worm_id wd' → wd = wd'.
Proof.
  intros (j & Hj)%list_elem_of_lookup (j' & Hj')%list_elem_of_lookup.
  rewrite (wp_ids _ _ _ Hws _ _ Hj), (wp_ids _ _ _ Hws _ _ Hj').
  intros Heq. assert (j = j') as -> by lia. congruence.
Qed.

(** What a cell of the grid holds. *)
Lemma built_cell (q : cell) (s : pystr) :
  grid_at grid q = Some s →
  (s = [46%N] ∧ q ∉ cells_of ws)
  ∨ ∃ wd, wd ∈ ws
          ∧ ((q = p_head wd ∧ s = [p_worm_id wd])
             ∨ (q ∈ p_body wd ∧ s = [(p_worm_id wd + 32)%N])).
Proof.
  intros Hq.
  assert (in_grid rows cols q = true) as Hin.
  { apply (grid_at_in rows cols grid q Hrect). eauto. }
  destruct (decide (q ∈ cells_of ws)) as [Hc|Hc].
  - right. apply elem_of_cells_of in Hc as (wd & Hwd & Hseg).
    destruct (wp_cells _ _ _ Hws wd Hwd) as (Hs & _ & _).
    destruct (letter_case (p_worm_id wd) (id_range wd Hwd))
      as (Hup & Hlow & _).
    destruct (Hcontent wd Hwd) as [Hh Hb].
    exists wd. split; [done|]. rewrite Hs in Hseg.
    apply elem_of_app in Hseg as [Hseg| ->%list_elem_of_singleton].
    + right. split; [done|]. rewrite (Hb _ Hseg), Hlow in Hq. congruence.
    + left. split; [done|]. rewrite Hh, Hup in Hq. congruence.
  - left. split; [|done]. rewrite (Hdot q Hin Hc) in Hq. congruence.
Qed.

Lemma cells_char (p : cell) (ch : N) :
  (p, ch) ∈ (cells_of_grid grid) ↔ grid_at grid p = Some [ch].
Proof.
  apply (grid_cells_concat rows cols); [done|].
  intros q s [[-> _]|(wd & _ & [[_ ->]|[_ ->]])]%built_cell; eauto.
Qed.

Lemma head_cell_elem (wid : pystr) (x : cell) :
  x ∈ heads_of wid (cells_of_grid grid) ↔
  ∃ wd, wd ∈ ws ∧ x = p_head wd ∧ wid = [p_worm_id wd].
Proof.
  unfold heads_of. rewrite list_elem_of_fmap. split.
  - intros ([p ch] & -> & [Hhead Hin]%list_elem_of_filter).
    destruct Hhead as (H46 & H32 & Hup & Hwid). simpl in *.
    apply cells_char in Hin.
    apply built_cell in Hin
      as [[[= ->] _]|(wd & Hwd & [[-> [= ->]]|[_ [= ->]]])]; [done| |].
    + destruct (letter_case _ (id_range wd Hwd)) as (Hu & _).
      exists wd. by rewrite <- Hwid, Hu.
    + destruct (letter_case _ (id_range wd Hwd)) as (_ & _ & _ & Hl & _).
      congruence.
  - intros (wd & Hwd & -> & ->).
    destruct (letter_case _ (id_range wd Hwd)) as (Hu & _ & Hi & _).
    pose proof (id_range wd Hwd) as Hr.
    exists (p_head wd, p_worm_id wd). split; [done|].
    apply list_elem_of_filter. split.
    + unfold is_head_of. simpl. repeat split; try done; lia.
    + apply cells_char. destruct (Hcontent wd Hwd) as [Hh _].
      by rewrite Hh, Hu.
Qed.

Lemma body_cell_elem (wid : pystr) (x : cell) :
  x ∈ bodies_of wid (cells_of_grid grid) ↔
  ∃ wd, wd ∈ ws ∧ x ∈ p_body wd ∧ wid = [p_worm_id wd].
Proof.
  unfold bodies_of. rewrite list_elem_of_fmap. split.
  - intros ([p ch] & -> & [Hbody Hin]%list_elem_of_filter).
    destruct Hbody as (H46 & H32 & Hup & Hwid). simpl in *.
    apply cells_char in Hin.
    apply built_cell in Hin
      as [[[= ->] _]|(wd & Hwd & [[-> [= ->]]|[Hb [= ->]]])]; [done| |].
    + destruct (letter_case _ (id_range wd Hwd)) as (_ & _ & Hi & _).
      congruence.
    + destruct (letter_case _ (id_range wd Hwd)) as (_ & _ & _ & _ & Hu).
      exists wd. by rewrite <- Hwid, Hu.
  - intros (wd & Hwd & Hb & ->).
    destruct (letter_case _ (id_range wd Hwd)) as (_ & Hl & _ & Hi & Hu).
    pose proof (id_range wd Hwd) as Hr.
    exists (x, (p_worm_id wd + 32)%N). split; [done|].
    apply list_elem_of_filter. split.
    + unfold is_body_of. simpl. repeat split; try done; lia.
    + apply cells_char. destruct (Hcontent wd Hwd) as [_ Hbs].
      by rewrite (Hbs _ Hb), Hl.
Qed.

Lemma NoDup_heads_of (wid : pystr) : NoDup (heads_of wid (cells_of_grid grid)).
Proof.
  unfold heads_of.
  eapply sublist_NoDup; [apply (NoDup_grid_cells 0)|].
  apply fmap_sublist, sublist_filter.
Qed.

Lemma heads_of_built (wd : Placed) :
  wd ∈ ws → heads_of [p_worm_id wd] (cells_of_grid grid) = [p_head wd].
Proof.
  intros Hwd. apply NoDup_singleton_eq; [apply NoDup_heads_of|].
  intros x. rewrite head_cell_elem. split.
  - intros (wd' & Hwd' & -> & [= Hid]).
    by rewrite (same_id wd wd' Hwd Hwd' Hid).
  - intros ->. eauto.
Qed.

Lemma heads_le_1 (wid : pystr) : (length (heads_of wid (cells_of_grid grid)) <= 1)%nat.
Proof.
  destruct (heads_of wid (cells_of_grid grid)) as [|x l] eqn:Hh; [simpl; lia|].
  assert (x ∈ heads_of wid (cells_of_grid grid)) as Hx
    by (rewrite Hh; apply elem_of_cons; by left).
  apply head_cell_elem in Hx as (wd & Hwd & _ & ->).
  rewrite (heads_of_built wd Hwd) in Hh. injection Hh as _ <-. simpl. lia.
Qed.

Lemma bodies_of_built (wd : Placed) (x : cell) :
  wd ∈ ws → x ∈ bodies_of [p_worm_id wd] (cells_of_grid grid) ↔ x ∈ p_body wd.
Proof.
  intros Hwd. rewrite body_cell_elem. split.
  - intros (wd' & Hwd' & Hx & [= Hid]).
    by rewrite (same_id wd wd' Hwd Hwd' Hid).
  - intros Hx. eauto.
Qed.

Lemma parsed_head (wd : Placed) :
  wd ∈ ws → head (parsed_worm (cells_of_grid grid) wd) = Ret (p_head wd).
Proof.
  intros Hwd. unfold head, parsed_worm. simpl.
  rewrite sort_by_last; [done|].
  intros b Hb%(bodies_of_built wd b Hwd). apply sort_keys_not_further.
  destruct (wp_cells _ _ _ Hws wd Hwd) as (_ & _ & Hlead). by apply Hlead.
Qed.

Lemma parsed_segments (wd : Placed) (x : cell) :
  wd ∈ ws → x ∈ segments (parsed_worm (cells_of_grid grid) wd) ↔ x ∈ p_segments wd.
Proof.
  intros Hwd. unfold parsed_worm. simpl.
  destruct (wp_cells _ _ _ Hws wd Hwd) as (-> & _ & _).
  by rewrite sort_by_perm, !elem_of_app, (bodies_of_built wd x Hwd).
Qed.

(** The parser reads the layout back as the worms that were placed. *)
Lemma load_built (name : option string) :
  load_level
    (mkLevel name rows cols ((fun row : list pystr => concat row) <$> grid)
       ((fun wd => ([p_worm_id wd], meta_of wd)) <$> ws))
  = Ret (rows, cols, default "Unnamed Level"%string name,
         parsed_worm (cells_of_grid grid) <$> ws).
Proof.
  unfold load_level. cbn [ld_grid ld_worms ld_rows ld_cols ld_name].
  destruct (scan_grid_spec ((fun row : list pystr => concat row) <$> grid))
    as [(cm & -> & Hinv)|(_ & wid & Hlen2)];
    [|pose proof (heads_le_1 wid); lia].
  cbn [mbind res_bind].
  assert (mapM (load_worm cm)
            ((fun wd => ([p_worm_id wd], meta_of wd)) <$> ws)
          = Ret (parsed_worm (cells_of_grid grid) <$> ws)) as ->; [|done].
  apply mapM_Ret. apply Forall2_fmap, Forall_Forall2_diag, Forall_forall.
  intros wd Hwd.
  rewrite (load_worm_accepts (cells_of_grid grid) cm [p_worm_id wd] (meta_of wd)
             (p_head wd) (p_direction wd) Hinv (heads_of_built wd Hwd)
             (parse_direction_name (p_direction wd))); [done|].
  intros b Hb%(bodies_of_built wd b Hwd).
  destruct (wp_cells _ _ _ Hws wd Hwd) as (_ & _ & Hlead). by apply Hlead.
Qed.

(** The worms read back are in a clear order. *)
Lemma ready_built : solver_ready rows cols (parsed_worm (cells_of_grid grid) <$> ws).
Proof.
  split; [|split].
  - rewrite <- list_fmap_compose. apply (wp_ids_NoDup _ _ _ Hws).
  - intros w (wd & -> & Hwd)%list_elem_of_fmap.
    exists (p_head wd). split; [by apply parsed_head|].
    destruct (wp_cells _ _ _ Hws wd Hwd) as (Hseg & Hin & _).
    apply Hin. rewrite Hseg. apply elem_of_app. right.
    by apply list_elem_of_singleton.
  - apply clear_order_pairwise. intros j k wj wk h n Hj Hk Hjk Hh Hn Hin.
    apply list_lookup_fmap_Some in Hj as (wdj & -> & Hj).
    apply list_lookup_fmap_Some in Hk as (wdk & -> & Hk).
    assert (wdj ∈ ws) as Hwdj by (apply list_elem_of_lookup; eauto).
    assert (wdk ∈ ws) as Hwdk by (apply list_elem_of_lookup; eauto).
    rewrite (parsed_head wdk Hwdk) in Hh. injection Hh as <-.
    rewrite (parsed_segments wdj _ Hwdj).
    by apply (wp_corridor _ _ _ Hws j k wdj wdk n).
Qed.
End built.

(** ** Generated layouts are solved *)

(** ** The order of the ids *)

Lemma pystr_leb_refl (s : pystr) : pystr_leb s s = true.
Proof.
  induction s as [|a s IH]; [done|]. simpl.
  by rewrite N.ltb_irrefl.
Qed.

Lemma pystr_leb_total (s t : pystr) :
  pystr_leb s t = true ∨ pystr_leb t s = true.
Proof.
  revert t. induction s as [|a s IH]; intros [|b t]; simpl; auto.
  destruct (N.ltb_spec a b), (N.ltb_spec b a); auto; lia.
Qed.

Lemma pystr_leb_antisym (s t : pystr) :
  pystr_leb s t = true → pystr_leb t s = true → s = t.
Proof.
  revert t. induction s as [|a s IH]; intros [|b t]; simpl; try done.
  destruct (N.ltb_spec a b), (N.ltb_spec b a); try done; try lia.
  intros Hst Hts. assert (a = b) as -> by lia. f_equal. by apply IH.
Qed.

Lemma pystr_leb_trans (s t u : pystr) :
  pystr_leb s t = true → pystr_leb t u = true → pystr_leb s u = true.
Proof.
  revert t u. induction s as [|a s IH]; intros [|b t] [|c u]; simpl;
    try done.
  destruct (N.ltb_spec a b), (N.ltb_spec b a), (N.ltb_spec b c),
    (N.ltb_spec c b), (N.ltb_spec a c), (N.ltb_spec c a);
    try done; try lia.
  apply IH.
Qed.

#[global] Instance pystr_le_total : Total pystr_le.
Proof. intros s t. apply pystr_leb_total. Qed.

#[global] Instance pystr_le_trans : Transitive pystr_le.
Proof. intros s t u. apply pystr_leb_trans. Qed.

#[global] Instance pystr_le_antisym : AntiSymm eq pystr_le.
Proof. intros s t. apply pystr_leb_antisym. Qed.

(** ** The rounds of a report *)

Lemma free_of_sorted (graph : gmap pystr (gset pystr)) :
  StronglySorted pystr_le (free_of graph).
Proof. unfold free_of, sorted. apply StronglySorted_merge_sort; apply _. Qed.

Lemma rounds_of_app (l1 l2 : list line) :
  rounds_of (l1 ++ l2) = rounds_of l1 ++ rounds_of l2.
Proof. unfold rounds_of. apply omap_app. Qed.

Lemma rounds_of_round_report (rn : nat) (free : list pystr)
    (graph : gmap pystr (gset pystr)) :
  rounds_of (round_report rn free graph) = [(rn, free)].
Proof.
  unfold round_report. rewrite rounds_of_app. simpl. f_equal.
  induction (blocked_of graph) as [|x l IH]; [done|]. apply IH.
Qed.

Lemma rounds_of_deadlock_report (rn : nat) (worms : list Worm)
    (graph : gmap pystr (gset pystr)) :
  rounds_of (deadlock_report rn worms graph) = [].
Proof.
  unfold deadlock_report. rewrite !rounds_of_app. simpl.
  rewrite app_nil_r.
  induction (sorted (map_to_list graph).*1) as [|x l IH]; [done|]. apply IH.
Qed.

(** The extraction order is made of the rounds of the report, one after the
    other; a round is not empty, repeats no id and lists its ids in
    ascending order. *)
Lemma solve_loop_rounds (rows cols : Z) (fuel : nat) :
  ∀ (ws : list Worm) (rn : nat) (rep : list line) (ord : list pystr)
    (b : bool) (ext : list pystr) (report : list line),
    solve_loop fuel rows cols ws rn rep ord = Ret (b, ext, report) →
    ∃ rounds : list (list pystr),
      rounds_of report
      = rounds_of rep ++ zip (seq (S rn) (length rounds)) rounds
      ∧ ext = ord ++ concat rounds
      ∧ Forall (fun free => free ≠ [] ∧ NoDup free
                            ∧ StronglySorted pystr_le free) rounds.
Proof.
  induction fuel as [|fuel IH]; intros ws rn rep ord b ext report;
    (destruct ws as [|w0 ws];
     [intros [= <- <- <-]; exists []; rewrite rounds_of_app; simpl;
      by rewrite !app_nil_r|]); [done|].
  cbn [solve_loop]. intros (graph & Hg & Hrest)%bind_Ret.
  destruct (free_of graph) as [|x free] eqn:Hfree.
  - injection Hrest as <- <- <-. exists [].
    rewrite rounds_of_app, rounds_of_deadlock_report. simpl.
    by rewrite !app_nil_r.
  - apply IH in Hrest as (rounds & Hrep & -> & Hall).
    exists ((x :: free) :: rounds). split; [|split].
    + rewrite Hrep, rounds_of_app, rounds_of_round_report.
      by rewrite <- app_assoc.
    + by rewrite <- app_assoc.
    + constructor; [|done]. split; [done|]. rewrite <- Hfree.
      split; [apply NoDup_free_of|apply free_of_sorted].
Qed.

Lemma elem_of_concat {A} (x : A) (l : list A) (ls : list (list A)) :
  x ∈ l → l ∈ ls → x ∈ concat ls.
Proof.
  intros Hx Hl. induction ls as [|l0 ls IH]; [by apply elem_of_nil in Hl|].
  simpl. apply elem_of_app.
  apply elem_of_cons in Hl as [<-|Hl]; [by left|right; by apply IH].
Qed.

(** Among distinct ids of one character, the order of Python is the order
    of the code points. *)
Lemma sorted_letters (l : list pystr) :
  Forall (fun a => ∃ x : N, a = [x]) l → NoDup l →
  StronglySorted pystr_le l →
  StronglySorted (fun a b => ∃ x y : N, a = [x] ∧ b = [y] ∧ (x < y)%N) l.
Proof.
  intros Hone Hnd Hs.
  induction Hs as [|a l Hs IH Hle]; [constructor|].
  apply Forall_cons in Hone as [[x ->] Hone].
  apply NoDup_cons in Hnd as [Hx Hnd].
  constructor; [by apply IH|].
  apply Forall_forall. intros b Hb.
  destruct (proj1 (Forall_forall _ _) Hone b Hb) as [y ->].
  exists x, y. split; [done|]. split; [done|].
  pose proof (proj1 (Forall_forall _ _) Hle _ Hb) as Hxy.
  unfold pystr_le in Hxy. simpl in Hxy.
  destruct (N.ltb_spec x y); [done|].
  destruct (N.ltb_spec y x); [done|].
  assert (x = y) as -> by lia. done.
Qed.

Section end_to_end.
Context `{RandomSource} `{CaseTable}.

(** The ids of a placement order have one character each. *)
Lemma generated_ids_letters (rows cols num_worms min_len max_len : Z)
    (seed : option Z) (g g' : rng) (ld : option LevelData)
    (order : list pystr) (msg : string) :
  generate_level rows cols num_worms min_len max_len seed g
    = Ret ((ld, order, msg), g') →
  Forall (fun a => ∃ x : N, a = [x]) order.
Proof.
  unfold generate_level.
  intros (placed & g1 & Hloop & Hbuild)%rand_bind_Ret.
  destruct placed as [ws|];
    [|cbv [mret rand_ret] in Hbuild; simplify_eq; constructor].
  apply lift_Ret in Hbuild as [Hbuild ->].
  unfold build_level in Hbuild. destruct ws as [|wd ws];
    [simplify_eq; constructor|].
  apply bind_Ret in Hbuild as ([grid meta] & _ & Hret).
  injection Hret as _ <- _.
  apply Forall_forall. intros a Ha.
  apply (list_elem_of_fmap (fun wd => [p_worm_id wd]) (wd :: ws)) in Ha
    as (wd' & -> & _).
  by eexists.
Qed.

(** A layout generated for at most 26 worms is read back as worms in a
    clear order, named as in the placement order; it is solvable, the
    extraction order rearranges the placement order, and it is the placement
    order in reverse when every round frees one worm. *)
Lemma generated_layout_solved (rows cols num_worms min_len max_len : Z)
    (seed : option Z) (g g' : rng) (ld : LevelData) (order : list pystr)
    (msg : string) :
  num_worms <= 26 →
  generate_level rows cols num_worms min_len max_len seed g
    = Ret ((Some ld, order, msg), g') →
  (∃ name worms,
     load_level ld = Ret (rows, cols, name, worms)
     ∧ worm_id <$> worms = order
     ∧ solver_ready rows cols worms)
  ∧ ∃ (ext : list pystr) (rounds : list line) (k : nat),
      is_solvable_trace ld
      = Ret (true, ext, rounds ++ [LBlank; LExtractionOrder ext k; LSolvable])
      ∧ ext ≡ₚ order
      ∧ ((∀ n free, LExtract n free ∈ rounds → length free = 1%nat) →
         ext = reverse order).
Proof.
  intros Hn. unfold generate_level.
  intros (placed & g1 & Hloop & Hbuild)%rand_bind_Ret.
  destruct placed as [ws|]; [|done].
  apply lift_Ret in Hbuild as [Hbuild ->].
  destruct (place_loop_ok rows cols _ _ (Z.to_nat num_worms) 0 ∅ [] [] _ _ _
              (wp_nil rows cols) eq_refl
              ltac:(intros q; by rewrite elem_of_nil, elem_of_empty) Hloop)
    as (Hws & _ & Hlen).
  simpl in Hlen.
  destruct (decide (ws = [])) as [->|Hne]; [done|].
  destruct (build_level_ok rows cols num_worms ws Hws Hne)
    as (grid & Heq & Hrect & Hdot & Hcontent).
  rewrite Heq in Hbuild. injection Hbuild as <- <- _.
  assert (length ws <= 26)%nat as Hlen26 by lia.
  pose proof (load_built rows cols ws grid Hws Hlen26 Hrect Hdot Hcontent)
    as Hload.
  pose proof (ready_built rows cols ws grid Hws Hlen26 Hrect Hdot Hcontent)
    as Hready.
  split.
  - eexists _, _. split; [apply Hload|]. split; [|done].
    by rewrite <- list_fmap_compose.
  - unfold is_solvable_trace. rewrite Hload. cbn [mbind res_bind].
    destruct (solve_loop_ready rows cols _ _ 0%nat [] [] Hready (le_n _))
      as (ext & rounds & k & Hsolve & Hperm & Hrev).
    exists ext, rounds, k. split; [done|].
    rewrite <- list_fmap_compose in Hperm, Hrev. done.
Qed.

(** C1, as amended.  For every grid size, worm count of at most 26, length
    bounds and seed for which [generate_level] returns a layout with the
    message "OK", [is_solvable] returns solvable on that layout. *)
Theorem generated_solvable (rows cols num_worms min_len max_len : Z)
    (seed : option Z) (g g' : rng) (ld : LevelData) (order : list pystr) :
  num_worms <= 26 →
  generate_level rows cols num_worms min_len max_len seed g
    = Ret ((Some ld, order, msg_ok), g') →
  ∃ report, is_solvable ld = Ret (true, report).
Proof.
  intros Hn Hgen.
  destruct (generated_layout_solved _ _ _ _ _ _ _ _ _ _ _ Hn Hgen)
    as (_ & ext & rounds & k & Htrace & _).
  unfold is_solvable. rewrite Htrace. by eexists.
Qed.

(** C2, as amended.  For every generation run that succeeds fully with at
    most 26 worms, the engine solves the layout and its extraction order is
    a rearrangement of the placement order: it is made of the rounds of the
    report, one after the other, and the worms freed in one round are listed
    in ascending order of their ids.  It is the exact reverse of the
    placement order when every round of the engine frees one worm.  The
    exact reverse of the placement order is in every case a possible
    extraction sequence: each worm has no blocker once the worms placed
    after it are gone. *)
Theorem generated_order (rows cols num_worms min_len max_len : Z)
    (seed : option Z) (g g' : rng) (ld : LevelData) (order : list pystr) :
  num_worms <= 26 →
  generate_level rows cols num_worms min_len max_len seed g
    = Ret ((Some ld, order, msg_ok), g') →
  (∃ (ext : list pystr) (report : list line),
     is_solvable_trace ld = Ret (true, ext, report)
     ∧ is_solvable ld = Ret (true, report)
     ∧ (∃ k, LExtractionOrder ext k ∈ report)
     ∧ ext ≡ₚ order
     ∧ (∃ rounds : list (list pystr),
          rounds_of report = zip (seq 1 (length rounds)) rounds
          ∧ ext = concat rounds
          ∧ ∀ free, free ∈ rounds →
              free ≠ []
              ∧ StronglySorted
                  (fun a b => ∃ x y : N, a = [x] ∧ b = [y] ∧ (x < y)%N)
                  free)
     ∧ ((∀ n free, LExtract n free ∈ report → length free = 1%nat) →
        ext = reverse order))
  ∧ ∃ name worms,
      load_level ld = Ret (rows, cols, name, worms)
      ∧ worm_id <$> worms = order
      ∧ ∀ before w after,
          worms = before ++ w :: after →
          _first_blocker w (_build_occupancy (before ++ [w])) rows cols
          = Ret None.
Proof.
  intros Hn Hgen.
  pose proof (generated_ids_letters _ _ _ _ _ _ _ _ _ _ _ Hgen) as Hletters.
  destruct (generated_layout_solved _ _ _ _ _ _ _ _ _ _ _ Hn Hgen)
    as ((name & worms & Hload & Hids & Hready)
        & ext & rounds & k & Htrace & Hperm & Hrev).
  split.
  - eexists ext, _. split; [done|].
    split; [unfold is_solvable; by rewrite Htrace|].
    split; [|split; [done|split]].
    + exists k. rewrite elem_of_app, !elem_of_cons. right. right. by left.
    + unfold is_solvable_trace in Htrace. rewrite Hload in Htrace.
      cbn [mbind res_bind] in Htrace.
      destruct (solve_loop_rounds _ _ _ _ _ _ _ _ _ _ Htrace)
        as (frees & Hrounds & Hext & Hall).
      exists frees. split; [done|]. split; [done|].
      intros free Hfree.
      destruct (proj1 (Forall_forall _ _) Hall free Hfree)
        as (Hne & Hnd & Hsorted).
      split; [done|]. apply sorted_letters; [|done..].
      apply Forall_forall. intros a Ha.
      apply (proj1 (Forall_forall _ _) Hletters).
      rewrite <- Hperm, Hext. simpl. by apply (elem_of_concat a free).
    + intros Hone. apply Hrev. intros n free Hin. apply (Hone n).
      apply elem_of_app. by left.
  - exists name, worms. split; [done|]. split; [done|].
    intros before w after ->. apply last_worm_free.
    apply (solver_ready_app_l rows cols (before ++ [w]) after).
    by rewrite <- app_assoc.
Qed.
End end_to_end.

(** The run of [generate_level 6 6 3 2 4] with [first_source] places three
    worms, and the layout is solvable. *)
Lemma generated_solvable_witness :
  ∃ report, @is_solvable caseless_table generated_6x6 = Ret (true, report).
Proof.
  apply (@generated_solvable first_source caseless_table 6 6 3 2 4 (Some 0)
           tt tt generated_6x6 [cp "A"; cp "B"; cp "C"]); [lia|].
  vm_compute. reflexivity.
Defined.

(** With [first_source] the run of [generate_level 6 6 3 2 4] places three
    worms that are all free in round 1 and come out as A, B, C; with
    [last_source] the run of [generate_level 1 5 3 1 1] places three worms
    in a row, of which every round frees one, and they come out as C, B,
    A. *)
Lemma generated_order_witness :
  ((∃ (ext : list pystr) (report : list line),
      @is_solvable_trace caseless_table generated_6x6 = Ret (true, ext, report)
      ∧ @is_solvable caseless_table generated_6x6 = Ret (true, report)
      ∧ (∃ k, LExtractionOrder ext k ∈ report)
      ∧ ext ≡ₚ [cp "A"; cp "B"; cp "C"]
      ∧ (∃ rounds : list (list pystr),
           rounds_of report = zip (seq 1 (length rounds)) rounds
           ∧ ext = concat rounds
           ∧ ∀ free, free ∈ rounds →
               free ≠ []
               ∧ StronglySorted
                   (fun a b => ∃ x y : N, a = [x] ∧ b = [y] ∧ (x < y)%N)
                   free)
      ∧ ((∀ n free, LExtract n free ∈ report → length free = 1%nat) →
         ext = reverse [cp "A"; cp "B"; cp "C"]))
   ∧ ∃ name worms,
       @load_level caseless_table generated_6x6 = Ret (6, 6, name, worms)
       ∧ worm_id <$> worms = [cp "A"; cp "B"; cp "C"]
       ∧ ∀ before w after,
           worms = before ++ w :: after →
           _first_blocker w (_build_occupancy (before ++ [w])) 6 6 = Ret None)
  ∧ ∃ (ext : list pystr) (report : list line),
      @is_solvable_trace caseless_table generated_1x5 = Ret (true, ext, report)
      ∧ (∀ n free, LExtract n free ∈ report → length free = 1%nat)
      ∧ ext = reverse [cp "A"; cp "B"; cp "C"].
Proof.
  split.
  - apply (@generated_order first_source caseless_table 6 6 3 2 4 (Some 0)
             tt tt generated_6x6 [cp "A"; cp "B"; cp "C"]); [lia|].
    vm_compute. reflexivity.
  - destruct (@generated_order last_source caseless_table 1 5 3 1 1 (Some 0)
                tt tt generated_1x5 [cp "A"; cp "B"; cp "C"])
      as [(ext & report & Htrace & _ & _ & _ & _ & Hrev) _];
      [lia|vm_compute; reflexivity|].
    exists ext, report. split; [done|].
    assert (∀ n free, LExtract n free ∈ report → length free = 1%nat)
      as Hone; [|by split; [|apply Hrev]].
    assert (@is_solvable_trace caseless_table generated_1x5
            = Ret (true, [cp "C"; cp "B"; cp "A"],
                   [LExtract 1 [cp "C"];
                    LStillBlocked (cp "A") [cp "B"];
                    LStillBlocked (cp "B") [cp "C"];
                    LExtract 2 [cp "B"];
                    LStillBlocked (cp "A") [cp "B"];
                    LExtract 3 [cp "A"]; LBlank;
                    LExtractionOrder [cp "C"; cp "B"; cp "A"] 3; LSolvable]))
      as Hrun by (vm_compute; reflexivity).
    rewrite Hrun in Htrace. injection Htrace as _ <-.
    intros n free Hin.
    repeat (apply elem_of_cons in Hin as [Hin|Hin];
            [try discriminate Hin; by injection Hin as _ ->|]).
    by apply elem_of_nil in Hin.
Defined.

(** C1, as stated, fails: with [first_source], [generate_level 4 14 27 1 1]
    places the 27 worms it is asked for, two to a column, and reports "OK";
    the id of the last one is the character after Z, which has no upper
    case, so the parser finds no head for it and [is_solvable] raises
    ValueError. *)
Lemma generated_27_not_solved :
  ∃ (ld : LevelData) (order : list pystr),
    @generate_level first_source caseless_table 4 14 27 1 1 (Some 0) tt
    = Ret ((Some ld, order, msg_ok), tt)
    ∧ length order = 27%nat
    ∧ @is_solvable caseless_table ld = Raise ValueError
    ∧ ¬ ∃ report, @is_solvable caseless_table ld = Ret (true, report).
Proof.
  eexists _, _. split; [vm_compute; reflexivity|].
  split; [reflexivity|].
  assert (∀ x, x = Raise ValueError →
               x = Raise ValueError
               ∧ ¬ ∃ report : list line, x = Ret (true, report)) as Hx.
  { intros x ->. split; [done|]. by intros [? ?]. }
  apply Hx. vm_compute. reflexivity.
Qed.

(** C2, as stated, fails: with [first_source], [generate_level 3 3 2 1 1]
    places A then B, side by side and both facing up, and reports "OK";
    neither blocks the other, the engine frees both in round 1 in the order
    A, B, which is the placement order and not its reverse. *)
Lemma generated_order_not_reverse :
  @generate_level first_source caseless_table 3 3 2 1 1 (Some 0) tt
  = Ret ((Some generated_3x3, [cp "A"; cp "B"], msg_ok), tt)
  ∧ @is_solvable_trace caseless_table generated_3x3
    = Ret (true, [cp "A"; cp "B"],
           [LExtract 1 [cp "A"; cp "B"]; LBlank;
            LExtractionOrder [cp "A"; cp "B"] 1; LSolvable])
  ∧ [cp "A"; cp "B"] ≠ reverse [cp "A"; cp "B"].
Proof.
  split; [vm_compute; reflexivity|].
  split; [vm_compute; reflexivity|]. discriminate.
Qed.

(** ** The engine on a store *)

Lemma set_cell_map_id (s : store) : set_cell_map (s_cell_map s) s = s.
Proof. by destruct s. Qed.

Lemma set_worms_id (s : store) : set_worms (s_worms s) s = s.
Proof. by destruct s. Qed.

Lemma st_bind_unfold {A B} (m : St A) (k : A → St B) (s : store) :
  (m ≫= k) s
  = match m s with
    | (Ret a, s') => k a s'
    | (Raise e, s') => (Raise e, s')
    | (Diverge, s') => (Diverge, s')
    end.
Proof. done. Qed.

(** The scanning of a row on the store follows [scan_row] and writes the
    cell map only. *)
Lemma scan_row_st_spec `{CaseTable} (r : Z) (row_str : pystr) :
  ∀ (c : Z) (s : store),
    ∃ s', scan_row_st r c row_str s
          = (scan_row r c row_str (s_cell_map s) ≫= fun _ => Ret tt, s')
          ∧ s_level s' = s_level s
          ∧ ∀ cm, scan_row r c row_str (s_cell_map s) = Ret cm →
                  s' = set_cell_map cm s.
Proof.
  induction row_str as [|ch rest IH]; intros c s.
  - exists s. split; [done|]. split; [done|].
    intros cm [= <-]. by rewrite set_cell_map_id.
  - cbn [scan_row_st scan_row]. rewrite !st_bind_unfold.
    unfold st_get, st_lift.
    destruct (scan_cell r c ch (s_cell_map s)) as [cm1|e|] eqn:Hcell.
    + rewrite st_bind_unfold. unfold st_modify.
      destruct (IH (c + 1) (set_cell_map cm1 s)) as (s' & Heq & Hlev & Hcm).
      exists s'. split; [done|]. split; [done|].
      intros cm Hscan. rewrite (Hcm cm Hscan). by destruct s.
    + exists s. split; [done|]. split; [done|]. intros cm. done.
    + exists s. split; [done|]. split; [done|]. intros cm. done.
Qed.

Lemma scan_grid_st_spec `{CaseTable} (fuel : nat) :
  ∀ (r : nat) (s : store),
    (length (ld_grid (s_level s)) - r <= fuel)%nat →
    ∃ s', scan_grid_st fuel r s
          = (scan_grid (Z.of_nat r) (drop r (ld_grid (s_level s)))
               (s_cell_map s) ≫= fun _ => Ret tt, s')
          ∧ s_level s' = s_level s
          ∧ ∀ cm, scan_grid (Z.of_nat r) (drop r (ld_grid (s_level s)))
                    (s_cell_map s) = Ret cm →
                  s' = set_cell_map cm s.
Proof.
  induction fuel as [|fuel IH]; intros r s Hfuel.
  - assert (ld_grid (s_level s) !! r = None) as Hnone
      by (apply lookup_ge_None; lia).
    cbn [scan_grid_st]. rewrite st_bind_unfold. unfold st_get.
    rewrite Hnone, drop_ge by lia. exists s.
    split; [done|]. split; [done|].
    intros cm [= <-]. by rewrite set_cell_map_id.
  - cbn [scan_grid_st]. rewrite st_bind_unfold. unfold st_get.
    destruct (ld_grid (s_level s) !! r) as [row_str|] eqn:Hrow.
    + rewrite (drop_S _ _ _ Hrow). cbn [scan_grid].
      rewrite st_bind_unfold.
      destruct (scan_row_st_spec (Z.of_nat r) row_str 0 s)
        as (s1 & -> & Hlev1 & Hcm1).
      destruct (scan_row (Z.of_nat r) 0 row_str (s_cell_map s))
        as [cm1|e|] eqn:Hscan; cbn [mbind res_bind].
      * rewrite (Hcm1 cm1 eq_refl).
        destruct (IH (S r) (set_cell_map cm1 s)) as (s' & Heq & Hlev & Hcm);
          [simpl; lia|].
        cbn [s_level set_cell_map s_cell_map] in Heq, Hlev, Hcm.
        replace (Z.of_nat r + 1) with (Z.of_nat (S r)) by lia.
        exists s'. split; [done|]. split; [done|].
        intros cm Hg. rewrite (Hcm cm Hg). by destruct s.
      * exists s1. split; [done|]. split; [done|]. intros cm. done.
      * exists s1. split; [done|]. split; [done|]. intros cm. done.
    + rewrite drop_ge by (by apply lookup_ge_None). exists s.
      split; [done|]. split; [done|].
      intros cm [= <-]. by rewrite set_cell_map_id.
Qed.

Lemma load_worms_st_spec (fuel : nat) :
  ∀ (i : nat) (s : store),
    (length (ld_worms (s_level s)) - i <= fuel)%nat →
    ∃ s', load_worms_st fuel i s
          = (mapM (load_worm (s_cell_map s)) (drop i (ld_worms (s_level s)))
               ≫= fun _ => Ret tt, s')
          ∧ s_level s' = s_level s
          ∧ ∀ ws, mapM (load_worm (s_cell_map s))
                    (drop i (ld_worms (s_level s))) = Ret ws →
                  s' = set_worms (s_worms s ++ ws) s.
Proof.
  induction fuel as [|fuel IH]; intros i s Hfuel.
  - assert (ld_worms (s_level s) !! i = None) as Hnone
      by (apply lookup_ge_None; lia).
    cbn [load_worms_st]. rewrite st_bind_unfold. unfold st_get.
    rewrite Hnone, drop_ge by lia. exists s.
    split; [done|]. split; [done|].
    intros ws [= <-]. by rewrite app_nil_r, set_worms_id.
  - cbn [load_worms_st]. rewrite st_bind_unfold. unfold st_get.
    destruct (ld_worms (s_level s) !! i) as [item|] eqn:Hitem.
    + rewrite (drop_S _ _ _ Hitem). cbn [mapM].
      rewrite st_bind_unfold. unfold st_lift.
      destruct (load_worm (s_cell_map s) item) as [w|e|] eqn:Hw;
        cbn [mbind res_bind].
      * rewrite st_bind_unfold. unfold st_modify.
        destruct (IH (S i) (set_worms (s_worms s ++ [w]) s))
          as (s' & Heq & Hlev & Hws); [simpl; lia|].
        cbn [s_level set_worms s_cell_map s_worms] in Heq, Hlev, Hws.
        exists s'. split.
        { rewrite Heq. f_equal.
          by destruct (mapM (load_worm (s_cell_map s))
                         (drop (S i) (ld_worms (s_level s)))). }
        split; [done|]. intros ws Hm.
        destruct (mapM (load_worm (s_cell_map s))
                    (drop (S i) (ld_worms (s_level s)))) as [ws1|e|] eqn:Hm1;
          try done.
        injection Hm as <-. rewrite (Hws ws1 eq_refl).
        rewrite <- app_assoc. by destruct s.
      * exists s. split; [done|]. split; [done|]. intros ws. done.
      * exists s. split; [done|]. split; [done|]. intros ws. done.
    + rewrite drop_ge by (by apply lookup_ge_None). exists s.
      split; [done|]. split; [done|].
      intros ws [= <-]. by rewrite app_nil_r, set_worms_id.
Qed.

(** The parser on the store returns what [load_level] returns and leaves the
    caller's objects as they were. *)
Lemma load_level_st_spec `{CaseTable} (s : store) :
  ∃ s', load_level_st s = (load_level (s_level s), s')
        ∧ s_level s' = s_level s.
Proof.
  unfold load_level_st, load_level. rewrite st_bind_unfold. unfold st_get.
  rewrite st_bind_unfold. unfold st_modify. rewrite st_bind_unfold.
  destruct (scan_grid_st_spec (length (ld_grid (s_level s))) 0
              (set_cell_map ∅ s)) as (s1 & Heq1 & Hlev1 & Hcm1);
    [simpl; lia|].
  cbn [s_level set_cell_map s_cell_map] in Heq1, Hlev1, Hcm1.
  rewrite drop_0 in Heq1, Hcm1. change (Z.of_nat 0) with 0 in Heq1, Hcm1.
  rewrite Heq1.
  destruct (scan_grid 0 (ld_grid (s_level s)) ∅) as [cm|e|] eqn:Hscan;
    cbn [mbind res_bind]; [|by exists s1|by exists s1].
  rewrite (Hcm1 cm eq_refl). rewrite st_bind_unfold. cbn [st_modify].
  rewrite st_bind_unfold.
  destruct (load_worms_st_spec (length (ld_worms (s_level s))) 0
              (set_worms [] (set_cell_map cm (set_cell_map ∅ s))))
    as (s2 & Heq2 & Hlev2 & Hws2); [simpl; lia|].
  cbn [s_level set_cell_map set_worms s_cell_map s_worms] in Heq2, Hlev2, Hws2.
  rewrite drop_0 in Heq2, Hws2. rewrite Heq2.
  destruct (mapM (load_worm cm) (ld_worms (s_level s))) as [ws|e|] eqn:Hm;
    cbn [mbind res_bind]; [|by exists s2|by exists s2].
  rewrite (Hws2 ws eq_refl). rewrite st_bind_unfold. unfold st_get.
  eexists. split; [done|]. done.
Qed.

Lemma solve_loop_st_spec (rows cols : Z) (fuel : nat) :
  ∀ (round_num : nat) (s : store),
    ∃ s', solve_loop_st fuel rows cols round_num s
          = (verdict_of
               (solve_loop fuel rows cols (s_worms s) round_num (s_report s)
                  (s_extraction_order s)), s')
          ∧ s_level s' = s_level s
          ∧ ∀ ok ord rep,
              solve_loop fuel rows cols (s_worms s) round_num (s_report s)
                (s_extraction_order s) = Ret (ok, ord, rep) →
              s_report s' = rep ∧ s_extraction_order s' = ord.
Proof.
  assert (∀ round_num s, s_worms s = [] →
    ∃ s', (st_modify (fun s =>
             set_report
               (s_report s
                ++ [LBlank; LExtractionOrder (s_extraction_order s) round_num;
                    LSolvable]) s);; mret true) s
          = (verdict_of
               (Ret (true, s_extraction_order s,
                     s_report s
                     ++ [LBlank;
                         LExtractionOrder (s_extraction_order s) round_num;
                         LSolvable])), s')
          ∧ s_level s' = s_level s
          ∧ ∀ ok ord rep,
              Ret (true, s_extraction_order s,
                   s_report s
                   ++ [LBlank;
                       LExtractionOrder (s_extraction_order s) round_num;
                       LSolvable]) = Ret (ok, ord, rep) →
              s_report s' = rep ∧ s_extraction_order s' = ord) as Hdone.
  { intros round_num s _. rewrite st_bind_unfold. unfold st_modify.
    eexists. split; [done|]. split; [done|]. by intros ok ord rep [= <- <- <-]. }
  induction fuel as [|fuel IH]; intros round_num s;
    cbn [solve_loop_st solve_loop]; rewrite st_bind_unfold; unfold st_get;
    destruct (s_worms s) as [|w ws] eqn:Hws; try by apply Hdone.
  - exists s. unfold st_lift. split; [done|]. split; [done|]. done.
  - rewrite st_bind_unfold. unfold st_lift.
    destruct (_build_dependency_graph (w :: ws) rows cols) as [graph|e|];
      cbn [mbind res_bind];
      [|exists s; split; [done|]; split; done
       |exists s; split; [done|]; split; done].
    destruct (free_of graph) as [|x free] eqn:Hfree.
    + rewrite st_bind_unfold. unfold st_modify.
      eexists. split; [done|]. split; [done|].
      intros ok ord rep [= <- <- <-]. cbn. by rewrite Hws.
    + rewrite !st_bind_unfold. unfold st_modify. rewrite !st_bind_unfold.
      unfold set_report, set_extraction_order, set_worms.
      cbn [s_report s_extraction_order s_worms s_level s_cell_map].
      rewrite Hws, <- app_assoc.
      change ([LExtract (S round_num) (x :: free)]
              ++ ((fun wid => LStillBlocked wid (deps_of graph wid))
                    <$> blocked_of graph))
        with (round_report (S round_num) (x :: free) graph).
      destruct (IH (S round_num)
                  (mkStore (s_level s) (s_cell_map s)
                     (filter (fun w0 => worm_id w0 ∉ x :: free) (w :: ws))
                     (s_report s ++ round_report (S round_num) (x :: free) graph)
                     (s_extraction_order s ++ x :: free)))
        as (s' & Heq & Hlev & Hres).
      exists s'. split; [done|]. split; [done|]. done.
Qed.

(** The engine on the store returns what [is_solvable] returns on the
    caller's dictionary and leaves the caller's objects as they were. *)
Lemma is_solvable_st_spec `{CaseTable} (s : store) :
  ∃ s', is_solvable_st s = (is_solvable (s_level s), s')
        ∧ s_level s' = s_level s.
Proof.
  unfold is_solvable_st, is_solvable, is_solvable_trace.
  rewrite st_bind_unfold.
  destruct (load_level_st_spec s) as (s1 & -> & Hlev1).
  destruct (load_level (s_level s)) as [[[[rows cols] name] worms]|e|];
    cbn [mbind res_bind]; [|by exists s1|by exists s1].
  rewrite !st_bind_unfold. unfold st_modify. rewrite !st_bind_unfold.
  destruct (solve_loop_st_spec rows cols (length worms) 0
              (set_extraction_order []
                 (set_report [] (set_worms worms s1))))
    as (s2 & Heq & Hlev2 & Hres).
  cbn [s_worms s_report s_extraction_order set_worms set_report
       set_extraction_order s_level s_cell_map] in Heq, Hlev2, Hres.
  rewrite Heq.
  destruct (solve_loop (length worms) rows cols worms 0 [] [])
    as [[[ok ord] rep]|e|] eqn:Hsolve; cbn [verdict_of mbind res_bind];
    [|exists s2; split; [done|congruence]
     |exists s2; split; [done|congruence]].
  destruct (Hres ok ord rep eq_refl) as [Hrep _].
  rewrite st_bind_unfold. unfold st_get. cbn [fst]. rewrite Hrep.
  exists s2. split; [done|congruence].
Qed.

(** C10.  A call of [is_solvable] that does not raise leaves the level-data
    dictionary (name, rows, cols, grid strings and worm metadata) equal to
    what it was, and a second call on it returns the same verdict and the
    same report. *)
Theorem is_solvable_frame `{CaseTable} (s s' : store) (solvable : bool)
    (report : list line) :
  is_solvable_st s = (Ret (solvable, report), s') →
  s_level s' = s_level s
  ∧ is_solvable (s_level s) = Ret (solvable, report)
  ∧ ∃ s'', is_solvable_st s' = (Ret (solvable, report), s'')
           ∧ s_level s'' = s_level s.
Proof.
  intros Hrun.
  destruct (is_solvable_st_spec s) as (s1 & Heq & Hlev).
  rewrite Hrun in Heq. injection Heq as Hres <-.
  split; [done|]. split; [done|].
  destruct (is_solvable_st_spec s') as (s2 & Heq2 & Hlev2).
  exists s2. split; [|congruence]. by rewrite Heq2, Hlev, <- Hres.
Qed.

(** The first level, solved twice in a row on the store. *)
Lemma is_solvable_frame_witness :
  let s := mkStore level_01 ∅ [] [] [] in
  let report :=
    [LExtract 1 [cp "C"];
     LStillBlocked (cp "A") [cp "B"];
     LStillBlocked (cp "B") [cp "C"];
     LExtract 2 [cp "B"];
     LStillBlocked (cp "A") [cp "B"];
     LExtract 3 [cp "A"];
     LBlank;
     LExtractionOrder [cp "C"; cp "B"; cp "A"] 3;
     LSolvable] in
  let s' :=
    mkStore level_01
      {[ cp "A" := mkEntry (Some (3, 2)) [(3, 0); (3, 1)];
         cp "B" := mkEntry (Some (2, 3)) [(3, 3); (4, 3)];
         cp "C" := mkEntry (Some (1, 3)) [(1, 4)] ]}
      [] report [cp "C"; cp "B"; cp "A"] in
  s_level s' = s_level s
  ∧ @is_solvable caseless_table (s_level s) = Ret (true, report)
  ∧ ∃ s'', @is_solvable_st caseless_table s' = (Ret (true, report), s'')
           ∧ s_level s'' = s_level s.
Proof.
  intros s report s'.
  apply (@is_solvable_frame caseless_table s s' true report).
  vm_compute. reflexivity.
Defined.

(** ** The engine always answers *)

Lemma graph_total (ws : list Worm) (rows cols : Z) :
  (∀ w, w ∈ ws → ∃ h, head w = Ret h) →
  ∃ graph, _build_dependency_graph ws rows cols = Ret graph.
Proof. intros Hheads. by apply blocked_by_loop_returns. Qed.

Lemma solve_loop_total (rows cols : Z) (fuel : nat) :
  ∀ (ws : list Worm) (rn : nat) (rep : list line) (ord : list pystr),
    (∀ w, w ∈ ws → ∃ h, head w = Ret h) → (length ws <= fuel)%nat →
    ∃ r, solve_loop fuel rows cols ws rn rep ord = Ret r.
Proof.
  induction fuel as [|fuel IH]; intros ws rn rep ord Hheads Hfuel.
  { destruct ws; [|simpl in Hfuel; lia]. simpl. eauto. }
  destruct (graph_total ws rows cols Hheads) as [graph Hg].
  pose proof (round_shrinks _ _ _ _ Hg) as Hshrink.
  destruct ws as [|w ws]; [simpl; eauto|].
  cbn [solve_loop]. rewrite Hg. cbn [mbind res_bind].
  destruct (free_of graph) as [|x free]; [eauto|].
  specialize (Hshrink ltac:(done)). apply IH; [|simpl in *; lia].
  intros w' [_ Hw']%list_elem_of_filter. by apply Hheads.
Qed.

Lemma load_worm_head (cm : gmap pystr CellEntry) (item : pystr * WormMeta)
    (w : Worm) :
  load_worm cm item = Ret w → ∃ h, head w = Ret h.
Proof.
  destruct item as [wid meta]. unfold load_worm.
  destruct (cm !! wid) as [[[[hr hc]|] body]|]; simpl; try done.
  destruct (existsb _ _); [done|].
  destruct (parse_direction _) as [d|]; [|done]. intros [= <-].
  unfold head. simpl.
  destruct (last (sort_by (sort_keys d) (body ++ [(hr, hc)]))) eqn:Hlast;
    [eauto|].
  apply last_None in Hlast. apply (f_equal length) in Hlast.
  rewrite sort_by_perm, length_app in Hlast. simpl in Hlast. lia.
Qed.

(** [is_solvable] returns a verdict whenever the parser accepts the layout,
    and raises what the parser raises otherwise. *)
Lemma is_solvable_total `{CaseTable} (level_data : LevelData) :
  (∃ rows cols name worms verdict report,
     load_level level_data = Ret (rows, cols, name, worms)
     ∧ is_solvable level_data = Ret (verdict, report))
  ∨ (∃ e, load_level level_data = Raise e
          ∧ is_solvable level_data = Raise e).
Proof.
  unfold is_solvable, is_solvable_trace.
  destruct (load_level level_data) as [[[[rows cols] name] worms]|e|] eqn:Hload.
  - left. cbn [mbind res_bind].
    destruct (solve_loop_total rows cols (length worms) worms 0 [] [])
      as [[[ok ord] rep] ->]; [|done|by exists rows, cols, name, worms, ok, rep].
    intros w Hw. unfold load_level in Hload.
    apply bind_Ret in Hload as (cm & _ & (ws & Hm & [= _ _ _ <-])%bind_Ret).
    apply mapM_Ret in Hm.
    apply list_elem_of_lookup in Hw as [i Hi].
    destruct (Forall2_lookup_r _ _ _ _ _ Hm Hi) as (item & _ & Hitem).
    by eapply load_worm_head.
  - right. by exists e.
  - exfalso. unfold load_level in Hload.
    destruct (scan_grid_spec (ld_grid level_data))
      as [(cm & Hs & _)|(Hs & _)]; rewrite Hs in Hload; [|done].
    cbn [mbind res_bind] in Hload.
    destruct (mapM (load_worm cm) (ld_worms level_data)) as [ws|e|] eqn:Hm;
      try done.
    clear Hload. revert Hm. generalize (ld_worms level_data) as l.
    induction l as [|item l IH]; simpl; [done|].
    pose proof (load_worm_no_diverge cm item) as Hnd.
    destruct (load_worm cm item); simpl; [|done|done].
    destruct (mapM (load_worm cm) l); simpl; [done|done|]. by intros _; apply IH.
Qed.

(** ** Past the letter Z *)

Lemma ascii_case `{CaseTable} (ch : N) :
  (ch < 128)%N →
  (∃ x, upper ch = [x] ∧ (x < 128)%N) ∧ (∃ x, lower ch = [x] ∧ (x < 128)%N).
Proof.
  intros Hch. unfold upper, lower. destruct (N.ltb_spec ch 128); [|lia]. split.
  - eexists. split; [done|].
    destruct (N.leb_spec 97 ch), (N.leb_spec ch 122); simpl; lia.
  - eexists. split; [done|].
    destruct (N.leb_spec 65 ch), (N.leb_spec ch 90); simpl; lia.
Qed.

Lemma ascii_isupper `{CaseTable} (ch : N) :
  (ch < 128)%N → isupper ch = true → (65 <= ch <= 90)%N ∧ upper ch = [ch].
Proof.
  intros Hch. unfold isupper, upper. destruct (N.ltb_spec ch 128); [|lia].
  destruct (N.leb_spec 65 ch), (N.leb_spec ch 90); simpl; try done.
  intros _. split; [lia|].
  destruct (N.leb_spec 97 ch); simpl; [lia|done].
Qed.

Section built_ascii.
Context `{CaseTable} (rows cols : Z) (ws : list Placed)
  (grid : list (list pystr)).
Hypothesis Hws : well_placed rows cols ws.
Hypothesis Hlen : (length ws <= 63)%nat.
Hypothesis Hrect : rect rows cols grid.
Hypothesis Hdot :
  ∀ q, in_grid rows cols q = true → q ∉ cells_of ws →
       grid_at grid q = Some [46%N].
Hypothesis Hcontent :
  ∀ wd, wd ∈ ws →
        grid_at grid (p_head wd) = Some (upper (p_worm_id wd))
        ∧ ∀ b, b ∈ p_body wd → grid_at grid b = Some (lower (p_worm_id wd)).

(** With at most 63 worms every cell holds one ASCII character. *)
Lemma ascii_cell (q : cell) (s : pystr) :
  grid_at grid q = Some s → ∃ ch, s = [ch] ∧ (ch < 128)%N.
Proof.
  intros Hq.
  assert (in_grid rows cols q = true) as Hin.
  { apply (grid_at_in rows cols grid q Hrect). eauto. }
  destruct (decide (q ∈ cells_of ws)) as [Hc|Hc].
  - apply elem_of_cells_of in Hc as (wd & Hwd & Hseg).
    destruct (wp_cells _ _ _ Hws wd Hwd) as (Hs & _ & _).
    assert (p_worm_id wd < 128)%N as Hid.
    { apply list_elem_of_lookup in Hwd as [j Hj].
      rewrite (wp_ids _ _ _ Hws _ _ Hj). apply lookup_lt_Some in Hj. lia. }
    destruct (ascii_case (p_worm_id wd) Hid)
      as [(x & Hx & Hx128) (y & Hy & Hy128)].
    destruct (Hcontent wd Hwd) as [Hh Hb].
    rewrite Hs in Hseg.
    apply elem_of_app in Hseg as [Hseg| ->%list_elem_of_singleton].
    + exists y. rewrite (Hb _ Hseg), Hy in Hq. split; [congruence|done].
    + exists x. rewrite Hh, Hx in Hq. split; [congruence|done].
  - exists 46%N. rewrite (Hdot q Hin Hc) in Hq. split; [congruence|lia].
Qed.

(** No cell is read as the head of a worm whose id is not a capital
    letter. *)
Lemma no_head_past_Z (c : N) :
  ¬ (65 <= c <= 90)%N → heads_of [c] (cells_of_grid grid) = [].
Proof.
  intros Hc. unfold heads_of.
  destruct (filter (is_head_of [c]) (cells_of_grid grid)) as [|[p ch] l] eqn:Hf;
    [done|].
  assert ((p, ch) ∈ filter (is_head_of [c]) (cells_of_grid grid)) as Hin
    by (rewrite Hf; apply elem_of_cons; by left).
  apply list_elem_of_filter in Hin as [(_ & _ & Hup & Hwid) Hin].
  simpl in Hup, Hwid.
  apply (grid_cells_concat rows cols grid p ch Hrect) in Hin.
  - apply ascii_cell in Hin as (ch' & [= <-] & Hch).
    destruct (ascii_isupper ch Hch Hup) as [Hrange Heq].
    rewrite Heq in Hwid. injection Hwid as <-. lia.
  - intros q s (ch' & -> & _)%ascii_cell. eauto.
Qed.
End built_ascii.

Lemma msg_fewer_not_ok (n : nat) (m : Z) : msg_fewer n m ≠ msg_ok.
Proof. unfold msg_fewer, msg_ok. simpl. discriminate. Qed.

Section past_Z.
Context `{RandomSource} `{CaseTable}.

(** Whatever the random source, a run for 27 to 63 worms that reports full
    success yields a layout that [is_solvable] rejects: the 27th worm is
    named by the character after Z, which the parser does not read as a
    head. *)
Lemma generated_past_Z_rejected (rows cols num_worms min_len max_len : Z)
    (seed : option Z) (g g' : rng) (ld : LevelData) (order : list pystr) :
  26 < num_worms <= 63 →
  generate_level rows cols num_worms min_len max_len seed g
    = Ret ((Some ld, order, msg_ok), g') →
  raises (is_solvable ld).
Proof.
  intros Hn. unfold generate_level.
  intros (placed & g1 & Hloop & Hbuild)%rand_bind_Ret.
  destruct placed as [ws|]; [|done].
  apply lift_Ret in Hbuild as [Hbuild ->].
  destruct (place_loop_ok rows cols _ _ (Z.to_nat num_worms) 0 ∅ [] [] _ _ _
              (wp_nil rows cols) eq_refl
              ltac:(intros q; by rewrite elem_of_nil, elem_of_empty) Hloop)
    as (Hws & _ & Hlen).
  simpl in Hlen.
  destruct (decide (ws = [])) as [->|Hne]; [done|].
  destruct (build_level_ok rows cols num_worms ws Hws Hne)
    as (grid & Heq & Hrect & Hdot & Hcontent).
  rewrite Heq in Hbuild. injection Hbuild as <- _ Hmsg.
  destruct (Z.ltb_spec (Z.of_nat (length ws)) num_worms) as [|Hfull];
    [by apply msg_fewer_not_ok in Hmsg|].
  assert (length ws <= 63)%nat as Hlen63 by lia.
  destruct (lookup_lt_is_Some_2 ws 26) as [wd Hwd]; [lia|].
  assert (p_worm_id wd = 91%N) as Hid by (by rewrite (wp_ids _ _ _ Hws _ _ Hwd)).
  assert (raises (load_level
            (mkLevel (Some (generated_name rows cols (length ws))) rows cols
               ((fun row : list pystr => concat row) <$> grid)
               ((fun wd => ([p_worm_id wd], meta_of wd)) <$> ws))))
    as [e He].
  { unfold load_level. cbn [ld_grid ld_worms ld_rows ld_cols ld_name].
    destruct (scan_grid_spec ((fun row : list pystr => concat row) <$> grid))
      as [(cm & -> & Hinv)|(-> & _)]; [|by eexists].
    cbn [mbind res_bind].
    destruct (mapM_raises (load_worm cm)
                ((fun wd => ([p_worm_id wd], meta_of wd)) <$> ws)
                ([p_worm_id wd], meta_of wd) (load_worm_no_diverge cm))
      as [e ->]; [| |by exists e].
    - apply list_elem_of_fmap. exists wd. split; [done|].
      apply list_elem_of_lookup. eauto.
    - apply (load_worm_rejects (cells_of_grid grid)); [done|]. left.
      rewrite Hid.
      apply (no_head_past_Z rows cols ws grid Hws Hlen63 Hrect Hdot Hcontent).
      lia. }
  exists e. unfold is_solvable, is_solvable_trace. by rewrite He.
Qed.
End past_Z.

(** * Further properties of the code *)

(** ** The parser accepts *)

Lemma mapM_total {A B} (f : A → res B) (l : list A) :
  (∀ x, x ∈ l → ∃ y, f x = Ret y) → ∃ ys, mapM f l = Ret ys.
Proof.
  induction l as [|x l IH]; intros Hall; simpl; [by eexists|].
  destruct (Hall x) as [y Hy]; [by left|]. rewrite Hy. simpl.
  destruct IH as [ys Hys]; [intros z Hz; apply Hall; by right|].
  rewrite Hys. by eexists.
Qed.

Lemma beyond_head_unknown (s : string) (hr hc : Z) (b : cell) :
  parse_direction s = None → beyond_head s hr hc b = false.
Proof.
  unfold parse_direction, beyond_head. destruct b as [br bc].
  destruct (String.eqb s "right"); [done|].
  destruct (String.eqb s "left"); [done|].
  destruct (String.eqb s "down"); [done|].
  by destruct (String.eqb s "up").
Qed.

(** What a worm that the loop over the metadata accepts looks like. *)
Lemma load_worm_Ret `{CaseTable} (cells : list (cell * N))
    (cm : gmap pystr CellEntry) (wid : pystr) (meta : WormMeta) (w : Worm) :
  scanned cells cm →
  load_worm cm (wid, meta) = Ret w →
  ∃ h d,
    heads_of wid cells = [h]
    ∧ parse_direction (m_direction meta) = Some d
    ∧ (∀ b, b ∈ bodies_of wid cells → ¬ further d h b)
    ∧ w = mkWorm wid (sort_by (sort_keys d) (bodies_of wid cells ++ [h])) d
            (default "white"%string (m_color meta)).
Proof.
  intros Hinv Hw.
  destruct (Hinv wid) as [Hcm Hlen].
  destruct (heads_of wid cells) as [|h hs] eqn:Hh.
  { destruct (load_worm_rejects cells cm wid meta Hinv (or_introl Hh))
      as [e He]. congruence. }
  destruct hs; [|simpl in Hlen; lia].
  destruct (parse_direction (m_direction meta)) as [d|] eqn:Hd.
  - exists h, d. split; [done|]. split; [done|].
    assert (∀ b, b ∈ bodies_of wid cells → ¬ further d h b) as Hb.
    { intros b Hb Hfar.
      destruct (load_worm_rejects cells cm wid meta Hinv) as [e He];
        [|congruence].
      right. exists h, b, d. rewrite Hh. split; [by left|done]. }
    split; [done|].
    rewrite (load_worm_accepts cells cm wid meta h d Hinv Hh Hd Hb) in Hw.
    by injection Hw.
  - exfalso. unfold load_worm in Hw. rewrite Hcm in Hw.
    rewrite entry_after_Some in Hw by (left; by rewrite Hh).
    rewrite Hh in Hw. simpl in Hw. destruct h as [hr hc].
    destruct (existsb _ _) eqn:Hex; [done|]. by rewrite Hd in Hw.
Qed.

Lemma insert_by_sorted {A} (key : A → Z) (x : A) (l : list A) :
  StronglySorted (fun p q => key p <= key q) l →
  StronglySorted (fun p q => key p <= key q) (insert_by key x l).
Proof.
  induction 1 as [|y l Hl IH Hy]; simpl; [repeat constructor|].
  destruct (Z.leb_spec (key x) (key y)).
  - constructor; [by constructor|]. constructor; [done|].
    eapply Forall_impl; [done|]. simpl. intros; lia.
  - constructor; [done|]. rewrite insert_by_perm. constructor; [lia|done].
Qed.

Lemma sort_by_sorted {A} (key : A → Z) (l : list A) :
  StronglySorted (fun p q => key p <= key q) (sort_by key l).
Proof.
  induction l as [|x l IH]; simpl; [constructor|]. by apply insert_by_sorted.
Qed.

Lemma NoDup_filter_fst {A B} (P : A * B → Prop) `{∀ x, Decision (P x)}
    (l : list (A * B)) :
  NoDup l.*1 → NoDup (filter P l).*1.
Proof.
  intros Hnd. eapply sublist_NoDup; [done|].
  apply fmap_sublist, sublist_filter.
Qed.

(** On a layout that has every key, [load_level] returns exactly when no id
    shows two heads on the grid and every id of the metadata has one head on
    the grid, a direction among the four names, and no body cell that lies
    strictly further along that direction than the head. *)
Lemma load_level_accepts `{CaseTable} (level_data : LevelData) :
  let cells := grid_cells 0 (ld_grid level_data) in
  (∃ worms,
     load_level level_data
     = Ret (ld_rows level_data, ld_cols level_data,
            default "Unnamed Level"%string (ld_name level_data), worms))
  ↔ (∀ wid, (length (heads_of wid cells) <= 1)%nat)
    ∧ ∀ wid meta,
        (wid, meta) ∈ ld_worms level_data →
        ∃ h d,
          heads_of wid cells = [h]
          ∧ parse_direction (m_direction meta) = Some d
          ∧ ∀ b, b ∈ bodies_of wid cells → ¬ further d h b.
Proof.
  intros cells. unfold load_level.
  destruct (scan_grid_spec (ld_grid level_data))
    as [(cm & -> & Hinv)|(-> & wid & Hwid)]; fold cells in Hinv || idtac.
  - cbn [mbind res_bind]. split.
    + intros (worms & Hworms).
      split; [intros wid; apply Hinv|].
      intros wid meta Hin.
      destruct (mapM (load_worm cm) (ld_worms level_data)) as [ws| |] eqn:Hm;
        [|done..].
      apply mapM_Ret in Hm.
      apply list_elem_of_lookup in Hin as [i Hi].
      destruct (Forall2_lookup_l _ _ _ _ _ Hm Hi) as (w & _ & Hw).
      destruct (load_worm_Ret cells cm wid meta w Hinv Hw)
        as (h & d & ? & ? & ? & _).
      by exists h, d.
    + intros [_ Hall].
      destruct (mapM_total (load_worm cm) (ld_worms level_data)) as [ws ->].
      * intros [wid meta] Hin. destruct (Hall wid meta Hin) as (h & d & Hh & Hd & Hb).
        eexists. by apply (load_worm_accepts cells cm wid meta h d).
      * by eexists.
  - cbn [mbind res_bind]. split; [by intros [? ?]|].
    intros [Hle _]. specialize (Hle wid). fold cells in Hwid. lia.
Qed.

(** ** Dictionaries with missing keys *)

Lemma load_worm_dict_direction (cm : gmap pystr CellEntry) (wid : pystr)
    (meta : MetaDict) (dir : string) :
  md_direction meta = Some dir →
  load_worm_dict cm (wid, meta)
  = load_worm cm (wid, mkMeta (md_color meta) dir).
Proof.
  intros Hdir. unfold load_worm_dict, load_worm. rewrite Hdir.
  destruct (cm !! wid) as [info|]; [|done].
  by destruct (e_head info) as [[hr hc]|].
Qed.

Lemma load_worm_dict_Ret (cm : gmap pystr CellEntry) (wid : pystr)
    (meta : MetaDict) (w : Worm) :
  load_worm_dict cm (wid, meta) = Ret w →
  ∃ dir, md_direction meta = Some dir
         ∧ load_worm cm (wid, mkMeta (md_color meta) dir) = Ret w.
Proof.
  intros Hw. destruct (md_direction meta) as [dir|] eqn:Hdir.
  - exists dir. split; [done|]. by rewrite <- (load_worm_dict_direction cm).
  - exfalso. unfold load_worm_dict in Hw. rewrite Hdir in Hw.
    destruct (cm !! wid) as [info|]; [|done].
    by destruct (e_head info) as [[hr hc]|].
Qed.

(** A [LevelData] is read as the dictionary with all keys that it stands
    for. *)
Lemma load_level_dict_of `{CaseTable} (level_data : LevelData) :
  load_level_dict (dict_of level_data) = load_level level_data.
Proof.
  unfold load_level_dict, load_level, dict_of. cbn [getitem mbind res_bind
    d_rows d_cols d_grid d_worms d_name].
  destruct (scan_grid 0 (ld_grid level_data) ∅) as [cm| |]; [|done..].
  cbn [mbind res_bind].
  assert (mapM (load_worm_dict cm)
            ((fun item : pystr * WormMeta => (item.1, dict_of_meta item.2))
               <$> ld_worms level_data)
          = mapM (load_worm cm) (ld_worms level_data)) as ->; [|done].
  induction (ld_worms level_data) as [|[wid meta] l IH]; [done|].
  rewrite fmap_cons. cbn [mapM fst snd]. rewrite IH.
  rewrite (load_worm_dict_direction cm wid (dict_of_meta meta)
             (m_direction meta) eq_refl).
  by destruct meta.
Qed.

(** X1.  [load_level] returns (instead of raising) on exactly the
    dictionaries that have the keys "rows", "cols", "grid" and "worms", in
    which no id shows two heads on the grid, and in which every entry of
    the metadata has a "direction" among the four names, one head on the
    grid, and no body cell that lies strictly further along that direction
    than the head.  What it returns are the rows, the cols and the name of
    the dictionary ("Unnamed Level" without one) and one worm for each
    entry; a dictionary without one of the four keys is a KeyError. *)
Theorem load_level_dict_accepts `{CaseTable} (level_data : LevelDict) :
  ((∃ result, load_level_dict level_data = Ret result)
   ↔ ∃ rows cols grid worm_meta,
       d_rows level_data = Some rows
       ∧ d_cols level_data = Some cols
       ∧ d_grid level_data = Some grid
       ∧ d_worms level_data = Some worm_meta
       ∧ (∀ wid, (length (heads_of wid (grid_cells 0 grid)) <= 1)%nat)
       ∧ ∀ wid meta,
           (wid, meta) ∈ worm_meta →
           ∃ h dir d,
             heads_of wid (grid_cells 0 grid) = [h]
             ∧ md_direction meta = Some dir
             ∧ parse_direction dir = Some d
             ∧ ∀ b, b ∈ bodies_of wid (grid_cells 0 grid) → ¬ further d h b)
  ∧ (∀ rows cols name worms,
       load_level_dict level_data = Ret (rows, cols, name, worms) →
       d_rows level_data = Some rows
       ∧ d_cols level_data = Some cols
       ∧ name = default "Unnamed Level"%string (d_name level_data)
       ∧ ∃ worm_meta,
           d_worms level_data = Some worm_meta
           ∧ worm_id <$> worms = worm_meta.*1)
  ∧ (d_rows level_data = None ∨ d_cols level_data = None
     ∨ d_grid level_data = None ∨ d_worms level_data = None →
     load_level_dict level_data = Raise KeyError).
Proof.
  unfold load_level_dict.
  destruct (d_rows level_data) as [rows|];
    [|split; [split; [by intros [? ?]|by intros (? & ? & ? & ? & ? & _)]|];
      by split].
  destruct (d_cols level_data) as [cols|];
    [|split; [split; [by intros [? ?]|by intros (? & ? & ? & ? & _ & ? & _)]|];
      by split].
  destruct (d_grid level_data) as [grid|];
    [|split;
      [split; [by intros [? ?]|by intros (? & ? & ? & ? & _ & _ & ? & _)]|];
      by split].
  destruct (d_worms level_data) as [wm|];
    [|split;
      [split;
       [by intros [? ?]|by intros (? & ? & ? & ? & _ & _ & _ & ? & _)]|];
      by split].
  cbn [getitem mbind res_bind].
  set (cells := grid_cells 0 grid).
  split; [|split; [|by intros [?|[?|[?|?]]]]].
  - destruct (scan_grid_spec grid)
      as [(cm & -> & Hinv)|(-> & wid & Hwid)]; fold cells in Hinv || idtac;
      cbn [mbind res_bind].
    + split.
      * intros (result & Hres).
        exists rows, cols, grid, wm. do 4 (split; [done|]).
        split; [intros wid; apply Hinv|].
        intros wid meta Hin.
        destruct (mapM (load_worm_dict cm) wm) as [ws| |] eqn:Hm; [|done..].
        apply mapM_Ret in Hm.
        apply list_elem_of_lookup in Hin as [i Hi].
        destruct (Forall2_lookup_l _ _ _ _ _ Hm Hi) as (w & _ & Hw).
        apply load_worm_dict_Ret in Hw as (dir & Hdir & Hw).
        destruct (load_worm_Ret cells cm wid _ w Hinv Hw)
          as (h & d & ? & ? & ? & _).
        by exists h, dir, d.
      * intros (? & ? & ? & ? & [= <-] & [= <-] & [= <-] & [= <-] & _ & Hall).
        destruct (mapM_total (load_worm_dict cm) wm) as [ws ->];
          [|by eexists].
        intros [wid meta] Hin.
        destruct (Hall wid meta Hin) as (h & dir & d & Hh & Hdir & Hd & Hb).
        rewrite (load_worm_dict_direction cm wid meta dir Hdir).
        eexists. by apply (load_worm_accepts cells cm wid _ h d).
    + split; [by intros [? ?]|].
      intros (? & ? & ? & ? & _ & _ & [= <-] & _ & Hle & _).
      specialize (Hle wid). unfold cells in *. cbv zeta in Hwid. lia.
  - intros rows' cols' name worms.
    intros (cm & _ & (ws & Hm & [= <- <- <- <-])%bind_Ret)%bind_Ret.
    do 3 (split; [done|]). exists wm. split; [done|].
    apply mapM_Ret in Hm. clear -Hm.
    induction Hm as [|[wid meta] w l ws Hw _ IH]; [done|].
    cbn [fmap list_fmap]. rewrite IH. f_equal.
    apply load_worm_dict_Ret in Hw as (dir & _ & Hw).
    unfold load_worm in Hw.
    destruct (cm !! wid) as [info|]; [|done].
    destruct (e_head info) as [[hr hc]|]; [|done].
    destruct (existsb _ _); [done|].
    destruct (parse_direction _); [|done]. by injection Hw as <-.
Qed.

Lemma elem_of_heads_of `{CaseTable} (wid : pystr) (cells : list (cell * N))
    (q : cell) :
  q ∈ heads_of wid cells ↔ ∃ ch, (q, ch) ∈ cells ∧ is_head_of wid (q, ch).
Proof.
  unfold heads_of. rewrite list_elem_of_fmap. split.
  - intros ([q' ch] & -> & [Hp Hin]%list_elem_of_filter). by exists ch.
  - intros (ch & Hin & Hp). exists (q, ch). split; [done|].
    by apply list_elem_of_filter.
Qed.

Lemma elem_of_bodies_of `{CaseTable} (wid : pystr) (cells : list (cell * N))
    (q : cell) :
  q ∈ bodies_of wid cells ↔ ∃ ch, (q, ch) ∈ cells ∧ is_body_of wid (q, ch).
Proof.
  unfold bodies_of. rewrite list_elem_of_fmap. split.
  - intros ([q' ch] & -> & [Hp Hin]%list_elem_of_filter). by exists ch.
  - intros (ch & Hin & Hp). exists (q, ch). split; [done|].
    by apply list_elem_of_filter.
Qed.

(** A cell of the grid shows one character. *)
Lemma grid_cell_char (strs : list pystr) (q : cell) (ch ch' : N) :
  (q, ch) ∈ grid_cells 0 strs → (q, ch') ∈ grid_cells 0 strs → ch = ch'.
Proof.
  intros (i & j & row & Hq & Hi & Hj)%grid_cells_elem
         (i' & j' & row' & Hq' & Hi' & Hj')%grid_cells_elem.
  rewrite Hq in Hq'. injection Hq' as Hii Hjj.
  assert (i = i') as <- by lia. assert (j = j') as <- by lia.
  congruence.
Qed.

Lemma NoDup_worm_cells `{CaseTable} (strs : list pystr) (wid : pystr) :
  NoDup (bodies_of wid (grid_cells 0 strs)
         ++ heads_of wid (grid_cells 0 strs)).
Proof.
  apply NoDup_app. split; [|split].
  - apply NoDup_filter_fst, NoDup_grid_cells.
  - intros q (ch & Hin & Hb)%elem_of_bodies_of (ch' & Hin' & Hh)%elem_of_heads_of.
    rewrite (grid_cell_char strs q ch ch' Hin Hin') in Hb.
    destruct Hb as (_ & _ & Hb & _). destruct Hh as (_ & _ & Hh & _).
    simpl in *. congruence.
  - apply NoDup_filter_fst, NoDup_grid_cells.
Qed.

Lemma NoDup_fmap_same {A B} (f : A → B) (l : list A) (x y : A) :
  NoDup (f <$> l) → x ∈ l → y ∈ l → f x = f y → x = y.
Proof.
  intros Hnd [i Hi]%list_elem_of_lookup [j Hj]%list_elem_of_lookup Hxy.
  assert (i = j) as <-; [|congruence].
  apply (NoDup_lookup (f <$> l) i j (f x)); [done|..];
    rewrite list_lookup_fmap; [by rewrite Hi|by rewrite Hj, Hxy].
Qed.

(** The worms that [load_level] returns, one by one. *)
Lemma load_level_Forall2 `{CaseTable} (level_data : LevelData)
    (rows cols : Z) (name : string) (worms : list Worm) :
  load_level level_data = Ret (rows, cols, name, worms) →
  let cells := grid_cells 0 (ld_grid level_data) in
  rows = ld_rows level_data ∧ cols = ld_cols level_data
  ∧ name = default "Unnamed Level"%string (ld_name level_data)
  ∧ Forall2
      (fun (item : pystr * WormMeta) (w : Worm) =>
         ∃ h d,
           heads_of item.1 cells = [h]
           ∧ parse_direction (m_direction item.2) = Some d
           ∧ (∀ b, b ∈ bodies_of item.1 cells → ¬ further d h b)
           ∧ w = mkWorm item.1
                   (sort_by (sort_keys d) (bodies_of item.1 cells ++ [h])) d
                   (default "white"%string (m_color item.2)))
      (ld_worms level_data) worms.
Proof.
  intros Hload cells. unfold load_level in Hload.
  destruct (scan_grid_spec (ld_grid level_data))
    as [(cm & Hscan & Hinv)|(Hscan & _)]; rewrite Hscan in Hload; [|done].
  cbn [mbind res_bind] in Hload.
  destruct (mapM (load_worm cm) (ld_worms level_data)) as [ws| |] eqn:Hm;
    [|done..].
  injection Hload as <- <- <- <-. repeat split.
  apply mapM_Ret in Hm. eapply Forall2_impl; [done|].
  intros [wid meta] w Hw. simpl.
  by apply (load_worm_Ret _ cm).
Qed.

(** X2.  The worms that [load_level] returns follow the metadata entry by
    entry: worm [i] has the id, the direction and the colour (white when none
    is given) of entry [i]; its head, the last segment, is the one cell of
    the grid that shows the id in upper case; its segments are the head and
    the body cells of the id, each once, in ascending order of the sort key
    of the direction. *)
Theorem load_level_worms `{CaseTable} (level_data : LevelData)
    (rows cols : Z) (name : string) (worms : list Worm) :
  load_level level_data = Ret (rows, cols, name, worms) →
  let cells := grid_cells 0 (ld_grid level_data) in
  rows = ld_rows level_data ∧ cols = ld_cols level_data
  ∧ name = default "Unnamed Level"%string (ld_name level_data)
  ∧ Forall2
      (fun (item : pystr * WormMeta) (w : Worm) =>
         worm_id w = item.1
         ∧ parse_direction (m_direction item.2) = Some (direction w)
         ∧ color w = default "white"%string (m_color item.2)
         ∧ (∃ h, heads_of item.1 cells = [h] ∧ head w = Ret h)
         ∧ segments w ≡ₚ bodies_of item.1 cells ++ heads_of item.1 cells
         ∧ NoDup (segments w)
         ∧ StronglySorted
             (fun p q => sort_keys (direction w) p <= sort_keys (direction w) q)
             (segments w))
      (ld_worms level_data) worms.
Proof.
  intros Hload cells.
  destruct (load_level_Forall2 _ _ _ _ _ Hload) as (-> & -> & -> & Hall).
  repeat split. eapply Forall2_impl; [done|].
  intros [wid meta] w (h & d & Hh & Hd & Hb & ->). simpl in *.
  fold cells in Hh, Hb. rewrite Hh.
  split; [done|]. split; [done|]. split; [done|].
  split; [|split; [|split]].
  - exists h. split; [done|]. unfold head. simpl.
    rewrite sort_by_last; [done|].
    intros b Hin. by apply sort_keys_not_further, Hb.
  - apply sort_by_perm.
  - rewrite sort_by_perm, <- Hh. apply NoDup_worm_cells.
  - apply sort_by_sorted.
Qed.

(** The layout of level 1 and its three worms. *)
Lemma load_level_worms_witness :
  6 = ld_rows level_01 ∧ 6 = ld_cols level_01
  ∧ "Level 1 — First Steps"%string
    = default "Unnamed Level"%string (ld_name level_01)
  ∧ Forall2
      (fun (item : pystr * WormMeta) (w : Worm) =>
         worm_id w = item.1
         ∧ parse_direction (m_direction item.2) = Some (direction w)
         ∧ color w = default "white"%string (m_color item.2)
         ∧ (∃ h, @heads_of caseless_table item.1
                   (grid_cells 0 (ld_grid level_01)) = [h]
                 ∧ head w = Ret h)
         ∧ segments w
           ≡ₚ @bodies_of caseless_table item.1
                (grid_cells 0 (ld_grid level_01))
              ++ @heads_of caseless_table item.1
                   (grid_cells 0 (ld_grid level_01))
         ∧ NoDup (segments w)
         ∧ StronglySorted
             (fun p q => sort_keys (direction w) p <= sort_keys (direction w) q)
             (segments w))
      (ld_worms level_01) [worm_A; worm_B; worm_C].
Proof.
  apply (@load_level_worms caseless_table level_01 6 6
           "Level 1 — First Steps" [worm_A; worm_B; worm_C]).
  vm_compute. reflexivity.
Defined.

Lemma load_level_ids `{CaseTable} (level_data : LevelData) (rows cols : Z)
    (name : string) (worms : list Worm) :
  load_level level_data = Ret (rows, cols, name, worms) →
  worm_id <$> worms = (ld_worms level_data).*1.
Proof.
  intros Hload.
  destruct (load_level_Forall2 _ _ _ _ _ Hload) as (_ & _ & _ & Hall).
  clear Hload. induction Hall as [|[wid meta] w l ws Hw _ IH]; [done|].
  destruct Hw as (h & d & _ & _ & _ & ->). rewrite !fmap_cons. simpl.
  by f_equal.
Qed.

Lemma load_level_segments `{CaseTable} (level_data : LevelData)
    (rows cols : Z) (name : string) (worms : list Worm) (w : Worm)
    (q : cell) :
  load_level level_data = Ret (rows, cols, name, worms) → w ∈ worms →
  q ∈ segments w ↔
  ∃ ch, (q, ch) ∈ grid_cells 0 (ld_grid level_data)
        ∧ ch ≠ 46%N ∧ ch ≠ 32%N ∧ upper ch = worm_id w.
Proof.
  intros Hload [i Hi]%list_elem_of_lookup.
  destruct (load_level_Forall2 _ _ _ _ _ Hload) as (_ & _ & _ & Hall).
  destruct (Forall2_lookup_r _ _ _ _ _ Hall Hi)
    as ([wid meta] & _ & h & d & Hh & _ & _ & ->). simpl in *.
  rewrite sort_by_perm, <- Hh, elem_of_app, elem_of_bodies_of,
    elem_of_heads_of.
  unfold is_body_of, is_head_of. simpl. split.
  - intros [(ch & ? & ? & ? & ? & ?)|(ch & ? & ? & ? & ? & ?)];
      by exists ch.
  - intros (ch & ? & ? & ? & ?).
    destruct (isupper ch) eqn:Hup; [right|left]; by exists ch.
Qed.

Lemma load_level_segments_NoDup `{CaseTable} (level_data : LevelData)
    (rows cols : Z) (name : string) (worms : list Worm) (w : Worm) :
  load_level level_data = Ret (rows, cols, name, worms) → w ∈ worms →
  NoDup (segments w).
Proof.
  intros Hload [i Hi]%list_elem_of_lookup.
  destruct (load_level_Forall2 _ _ _ _ _ Hload) as (_ & _ & _ & Hall).
  destruct (Forall2_lookup_r _ _ _ _ _ Hall Hi)
    as ([wid meta] & _ & h & d & Hh & _ & _ & ->). simpl in *.
  rewrite sort_by_perm, <- Hh. apply NoDup_worm_cells.
Qed.

(** Worms with distinct ids that are read off one grid share no cell. *)
Lemma load_level_NoDup_cells `{CaseTable} (level_data : LevelData)
    (rows cols : Z) (name : string) (worms : list Worm) :
  NoDup (ld_worms level_data).*1 →
  load_level level_data = Ret (rows, cols, name, worms) →
  NoDup (worms ≫= segments).
Proof.
  intros Hnd Hload. pose proof (load_level_ids _ _ _ _ _ Hload) as Hids.
  apply NoDup_bind.
  - intros w1 w2 q Hw1 Hw2 Hq1 Hq2.
    apply (load_level_segments _ _ _ _ _ _ _ Hload Hw1) in Hq1
      as (ch1 & Hin1 & _ & _ & Hup1).
    apply (load_level_segments _ _ _ _ _ _ _ Hload Hw2) in Hq2
      as (ch2 & Hin2 & _ & _ & Hup2).
    rewrite (grid_cell_char _ q ch1 ch2 Hin1 Hin2) in Hup1.
    apply (NoDup_fmap_same worm_id worms); [by rewrite Hids|done..|congruence].
  - intros w Hw. by eapply load_level_segments_NoDup.
  - apply (NoDup_fmap_1 worm_id). by rewrite Hids.
Qed.

(** X3.  When the ids of the metadata are distinct, the worms that
    [load_level] returns have distinct ids and share no cell, and the
    segments of a worm are exactly the cells of the grid that show its id,
    in upper or in lower case. *)
Theorem load_level_disjoint `{CaseTable} (level_data : LevelData)
    (rows cols : Z) (name : string) (worms : list Worm) :
  NoDup (ld_worms level_data).*1 →
  load_level level_data = Ret (rows, cols, name, worms) →
  worm_id <$> worms = (ld_worms level_data).*1
  ∧ NoDup (worm_id <$> worms)
  ∧ NoDup (worms ≫= segments)
  ∧ ∀ w q, w ∈ worms →
           (q ∈ segments w ↔
            ∃ ch, (q, ch) ∈ grid_cells 0 (ld_grid level_data)
                  ∧ ch ≠ 46%N ∧ ch ≠ 32%N ∧ upper ch = worm_id w).
Proof.
  intros Hnd Hload. pose proof (load_level_ids _ _ _ _ _ Hload) as Hids.
  split; [done|]. split; [by rewrite Hids|].
  split; [by eapply load_level_NoDup_cells|].
  intros w q Hw. by eapply load_level_segments.
Qed.

(** The three worms of level 1 share no cell. *)
Lemma load_level_disjoint_witness :
  worm_id <$> [worm_A; worm_B; worm_C] = (ld_worms level_01).*1
  ∧ NoDup (worm_id <$> [worm_A; worm_B; worm_C])
  ∧ NoDup ([worm_A; worm_B; worm_C] ≫= segments)
  ∧ ∀ w q, w ∈ [worm_A; worm_B; worm_C] →
           (q ∈ segments w ↔
            ∃ ch, (q, ch) ∈ grid_cells 0 (ld_grid level_01)
                  ∧ ch ≠ 46%N ∧ ch ≠ 32%N
                  ∧ @upper caseless_table ch = worm_id w).
Proof.
  apply (@load_level_disjoint caseless_table level_01 6 6
           "Level 1 — First Steps" [worm_A; worm_B; worm_C]).
  - apply (bool_decide_unpack _). vm_compute. reflexivity.
  - vm_compute. reflexivity.
Defined.

(** ** The game engine *)

Lemma occupied_by_others_from (ws : list Worm) (x : pystr) (acc : gset cell)
    (q : cell) :
  q ∈ foldl (fun cells w =>
               if bool_decide (worm_id w ≠ x)
               then cells ∪ list_to_set (segments w) else cells) acc ws
  ↔ q ∈ acc ∨ ∃ w, w ∈ ws ∧ worm_id w ≠ x ∧ q ∈ segments w.
Proof.
  revert acc. induction ws as [|w ws IH]; intros acc; simpl.
  - split; [by left|]. intros [?|(w & Hw & _)]; [done|].
    by apply elem_of_nil in Hw.
  - rewrite IH. case_bool_decide as Hid.
    + rewrite elem_of_union, elem_of_list_to_set. split.
      * intros [[?|?]|(v & ? & ? & ?)]; [by left| |].
        -- right. exists w. split; [by left|done].
        -- right. exists v. split; [by right|done].
      * intros [?|(v & [->|?]%elem_of_cons & ? & ?)].
        -- left. by left.
        -- left. by right.
        -- right. by exists v.
    + split.
      * intros [?|(v & ? & ? & ?)]; [by left|].
        right. exists v. split; [by right|done].
      * intros [?|(v & [->|?]%elem_of_cons & ? & ?)]; [by left|done|].
        right. by exists v.
Qed.

Lemma elem_of_occupied_by_others (ws : list Worm) (x : pystr) (q : cell) :
  q ∈ _occupied_by_others ws x
  ↔ ∃ w, w ∈ ws ∧ worm_id w ≠ x ∧ q ∈ segments w.
Proof.
  unfold _occupied_by_others. rewrite occupied_by_others_from.
  split; [intros [Hq|?]; [by apply elem_of_empty in Hq|done]|by right].
Qed.

(** The cells that stop a worm do not depend on where the worm is. *)
Lemma occupied_by_others_resolve (w : Worm) (worms : list (option Worm))
    (q : cell) :
  q ∈ _occupied_by_others (resolve w worms) (worm_id w)
  ↔ held_by_others worms (worm_id w) q.
Proof.
  rewrite elem_of_occupied_by_others. unfold resolve, held_by_others. split.
  - intros (v & (item & -> & Hitem)%list_elem_of_fmap & Hid & Hq).
    destruct item as [v|]; simpl in *; [by exists v|done].
  - intros (v & Hv & Hid & Hq). exists v. split; [|done].
    apply list_elem_of_fmap. by exists (Some v).
Qed.

Lemma depth_ahead (d : Direction) (rows cols : Z) (p : cell) (k : Z) :
  depth d rows cols (ahead d p k) = depth d rows cols p - k.
Proof. destruct d; unfold depth, ahead; simpl; lia. Qed.

Lemma ahead_ahead (d : Direction) (p : cell) (j k : Z) :
  ahead d (ahead d p j) k = ahead d p (j + k).
Proof. unfold ahead. simpl. f_equal; lia. Qed.

Lemma ahead_1 (d : Direction) (r c : Z) :
  ahead d (r, c) 1 = (r + (DIR_DELTA d).1, c + (DIR_DELTA d).2).
Proof. unfold ahead. simpl. f_equal; lia. Qed.

Lemma trail_cons (d : Direction) (h : cell) (n : Z) :
  0 <= n →
  trail d h (1 + n) = ahead d h 1 :: trail d (ahead d h 1) n.
Proof.
  intros Hn. unfold trail. rewrite seqZ_cons by lia. rewrite fmap_cons.
  f_equal. replace (Z.pred (1 + n)) with n by lia.
  replace (Z.succ 1) with (1 + 1) by lia.
  rewrite <- fmap_add_seqZ, <- list_fmap_compose.
  apply list_fmap_ext. intros i x _. simpl. by rewrite ahead_ahead.
Qed.

Lemma head_Ret (w : Worm) (h : cell) :
  head w = Ret h ↔ last (segments w) = Some h.
Proof.
  unfold head. destruct (last (segments w)); split; congruence.
Qed.

(** One call of [_step_forward], by the cell ahead of the head. *)
Lemma step_forward_spec (w : Worm) (worms : list (option Worm))
    (rows cols : Z) (h : cell) :
  head w = Ret h →
  let q := ahead (direction w) h 1 in
  _step_forward w worms rows cols
  = if negb (in_grid rows cols q) then Ret (extracted, w)
    else if bool_decide
              (q ∈ _occupied_by_others (resolve w worms) (worm_id w))
         then Ret (blocked, w)
         else Ret (moved,
                   mkWorm (worm_id w) (tail (segments w) ++ [q])
                     (direction w) (color w)).
Proof.
  intros Hh q. unfold _step_forward. rewrite Hh. destruct h as [hr hc].
  subst q. rewrite ahead_1. destruct (DIR_DELTA (direction w)) as [dr dc].
  cbn [mbind res_bind fst snd].
  destruct (negb _); [done|].
  destruct (bool_decide _); [done|].
  apply head_Ret in Hh. by destruct (segments w).
Qed.

Lemma attempt_loop_unfold (fuel : nat) (w : Worm)
    (worms : list (option Worm)) (rows cols steps : Z) :
  attempt_extraction_loop fuel w worms rows cols steps
  = '(result, worm) ← _step_forward w worms rows cols;
    match result with
    | moved =>
        match fuel with
        | O => Diverge
        | S fuel' =>
            attempt_extraction_loop fuel' worm worms rows cols (steps + 1)
        end
    | extracted => Ret (true, steps, worm)
    | blocked => Ret (false, steps, worm)
    end.
Proof. by destruct fuel. Qed.

(** The loop of [attempt_extraction], from a worm whose head is [h]. *)
Lemma attempt_loop_spec (worms : list (option Worm)) (rows cols : Z)
    (fuel : nat) :
  ∀ (w : Worm) (steps : Z) (h : cell),
    head w = Ret h →
    (in_grid rows cols (ahead (direction w) h 1) = true →
     depth (direction w) rows cols (ahead (direction w) h 1)
     < Z.of_nat fuel) →
    ∃ (ok : bool) (n : Z) (w' : Worm),
      attempt_extraction_loop fuel w worms rows cols steps
      = Ret (ok, steps + n, w')
      ∧ 0 <= n
      ∧ worm_id w' = worm_id w ∧ direction w' = direction w
      ∧ color w' = color w
      ∧ segments w'
        = drop (Z.to_nat n) (segments w ++ trail (direction w) h n)
      ∧ head w' = Ret (ahead (direction w) h n)
      ∧ (∀ i, 1 <= i <= n →
              in_grid rows cols (ahead (direction w) h i) = true
              ∧ ¬ held_by_others worms (worm_id w)
                    (ahead (direction w) h i))
      ∧ (if ok
         then in_grid rows cols (ahead (direction w) h (n + 1)) = false
         else in_grid rows cols (ahead (direction w) h (n + 1)) = true
              ∧ held_by_others worms (worm_id w)
                  (ahead (direction w) h (n + 1))).
Proof.
  induction fuel as [|fuel IH]; intros w steps h Hh Hfuel;
    rewrite attempt_loop_unfold, (step_forward_spec w worms rows cols h Hh);
    cbn zeta.
  - destruct (in_grid rows cols (ahead (direction w) h 1)) eqn:Hin;
      cbn [negb].
    + pose proof (depth_nonneg (direction w) rows cols _ Hin).
      specialize (Hfuel eq_refl). lia.
    + exists true, 0, w. cbn [mbind res_bind]. rewrite Z.add_0_r.
      unfold trail. simpl. rewrite app_nil_r, ahead_0.
      repeat split; try done; lia.
  - destruct (in_grid rows cols (ahead (direction w) h 1)) eqn:Hin;
      cbn [negb].
    2:{ exists true, 0, w. cbn [mbind res_bind]. rewrite Z.add_0_r.
        unfold trail. simpl. rewrite app_nil_r, ahead_0.
        repeat split; try done; lia. }
    case_bool_decide as Hheld; cbn [mbind res_bind];
      rewrite occupied_by_others_resolve in Hheld.
    { exists false, 0, w. rewrite Z.add_0_r.
      unfold trail. simpl. rewrite app_nil_r, ahead_0.
      repeat split; try done; lia. }
    set (q := ahead (direction w) h 1) in *.
    set (w1 := mkWorm (worm_id w) (tail (segments w) ++ [q]) (direction w)
                 (color w)).
    assert (head w1 = Ret q) as Hh1.
    { apply head_Ret. simpl. by rewrite last_snoc. }
    destruct (IH w1 (steps + 1) q Hh1)
      as (ok & n & w' & Hloop & Hn & Hid & Hdir & Hcol & Hsegs & Hhead'
          & Hfree & Hend).
    { simpl. subst q. rewrite ahead_ahead, !depth_ahead.
      intros _. specialize (Hfuel eq_refl). rewrite depth_ahead in Hfuel.
      lia. }
    simpl in *. exists ok, (1 + n), w'.
    rewrite Hloop. split; [do 3 f_equal; lia|].
    split; [lia|]. split; [done|]. split; [done|]. split; [done|].
    subst q. rewrite ahead_ahead in Hhead'.
    split; [|split; [done|split]].
    + rewrite Hsegs, trail_cons by lia.
      apply head_Ret in Hh. destruct (segments w) as [|s0 rest]; [done|].
      simpl. replace (Z.to_nat (1 + n)) with (S (Z.to_nat n)) by lia.
      simpl. by rewrite <- app_assoc.
    + intros i Hi. destruct (decide (i = 1)) as [->|Hne]; [done|].
      specialize (Hfree (i - 1) ltac:(lia)).
      rewrite ahead_ahead in Hfree.
      by replace (1 + (i - 1)) with i in Hfree by lia.
    + rewrite ahead_ahead in Hend.
      by replace (1 + n + 1) with (1 + (n + 1)) by lia.
Qed.

(** X10.  [attempt_extraction] returns for every worm that has a segment,
    whatever the board.  It slides the worm over the [n] cells ahead of its
    head that are in the grid and free of other worms: the worm keeps its
    id, direction, colour and length, its head ends [n] cells ahead and its
    segments are the last ones of the old segments followed by the trail.
    The worm is extracted when the next cell is off the grid, and blocked
    when the next cell is in the grid and held by another worm. *)
Theorem attempt_extraction_slides (worm : Worm) (worms : list (option Worm))
    (rows cols : Z) (h : cell) :
  head worm = Ret h →
  ∃ (ok : bool) (n : Z) (worm' : Worm),
    attempt_extraction worm worms rows cols = Ret (ok, n, worm')
    ∧ 0 <= n
    ∧ worm_id worm' = worm_id worm ∧ direction worm' = direction worm
    ∧ color worm' = color worm
    ∧ length (segments worm') = length (segments worm)
    ∧ segments worm'
      = drop (Z.to_nat n) (segments worm ++ trail (direction worm) h n)
    ∧ head worm' = Ret (ahead (direction worm) h n)
    ∧ (∀ i, 1 <= i <= n →
            in_grid rows cols (ahead (direction worm) h i) = true
            ∧ ¬ held_by_others worms (worm_id worm)
                  (ahead (direction worm) h i))
    ∧ (if ok
       then in_grid rows cols (ahead (direction worm) h (n + 1)) = false
       else in_grid rows cols (ahead (direction worm) h (n + 1)) = true
            ∧ held_by_others worms (worm_id worm)
                (ahead (direction worm) h (n + 1))).
Proof.
  intros Hh. unfold attempt_extraction.
  destruct (attempt_loop_spec worms rows cols (Z.to_nat (Z.max rows cols))
              worm 0 h Hh)
    as (ok & n & w' & Hloop & Hn & Hid & Hdir & Hcol & Hsegs & Hhead
        & Hfree & Hend).
  { intros Hin. pose proof (depth_nonneg (direction worm) rows cols _ Hin).
    lia. }
  exists ok, n, w'. rewrite Z.add_0_l in Hloop.
  repeat (split; [done|]). split; [|done].
  rewrite Hsegs, length_drop, length_app. unfold trail.
  rewrite length_fmap, length_seqZ. lia.
Qed.

(** Worm A of level 1 slides three cells to the right edge once B and C
    are gone. *)
Lemma attempt_extraction_slides_witness :
  ∃ (ok : bool) (n : Z) (worm' : Worm),
    attempt_extraction worm_A [None] 6 6 = Ret (ok, n, worm')
    ∧ 0 <= n
    ∧ worm_id worm' = worm_id worm_A ∧ direction worm' = direction worm_A
    ∧ color worm' = color worm_A
    ∧ length (segments worm') = length (segments worm_A)
    ∧ segments worm'
      = drop (Z.to_nat n)
          (segments worm_A ++ trail (direction worm_A) (3, 2) n)
    ∧ head worm' = Ret (ahead (direction worm_A) (3, 2) n)
    ∧ (∀ i, 1 <= i <= n →
            in_grid 6 6 (ahead (direction worm_A) (3, 2) i) = true
            ∧ ¬ held_by_others [None] (worm_id worm_A)
                  (ahead (direction worm_A) (3, 2) i))
    ∧ (if ok
       then in_grid 6 6 (ahead (direction worm_A) (3, 2) (n + 1)) = false
       else in_grid 6 6 (ahead (direction worm_A) (3, 2) (n + 1)) = true
            ∧ held_by_others [None] (worm_id worm_A)
                (ahead (direction worm_A) (3, 2) (n + 1))).
Proof. apply (attempt_extraction_slides worm_A [None] 6 6 (3, 2)). reflexivity. Defined.

Lemma step_forward_same (w : Worm) (worms : list (option Worm))
    (rows cols : Z) (r : step_result) (w' : Worm) :
  _step_forward w worms rows cols = Ret (r, w') → r ≠ moved → w' = w.
Proof.
  unfold _step_forward. destruct (DIR_DELTA (direction w)) as [dr dc].
  destruct (head w) as [[hr hc]| |]; cbn [mbind res_bind]; [|done..].
  destruct (negb _); [by intros [= <- <-]|].
  destruct (bool_decide _); [by intros [= <- <-]|].
  destruct (segments w); [done|]. by intros [= <- <-].
Qed.

Lemma attempt_loop_settled (worms : list (option Worm)) (rows cols : Z)
    (fuel : nat) :
  ∀ (w : Worm) (steps : Z) (ok : bool) (n : Z) (w' : Worm),
    attempt_extraction_loop fuel w worms rows cols steps = Ret (ok, n, w') →
    _step_forward w' worms rows cols
    = Ret (if ok then extracted else blocked, w').
Proof.
  induction fuel as [|fuel IH]; intros w steps ok n w';
    rewrite attempt_loop_unfold;
    destruct (_step_forward w worms rows cols) as [[[| |] w1]| |] eqn:Hstep;
    cbn [mbind res_bind]; try done.
  - intros [= <- <- <-].
    by assert (w1 = w) as -> by (by eapply step_forward_same).
  - intros [= <- <- <-].
    by assert (w1 = w) as -> by (by eapply step_forward_same).
  - intros [= <- <- <-].
    by assert (w1 = w) as -> by (by eapply step_forward_same).
  - intros [= <- <- <-].
    by assert (w1 = w) as -> by (by eapply step_forward_same).
  - apply IH.
Qed.

(** X11.  A second call of [attempt_extraction] on the worm that a first
    call has left does nothing more: it gives the same answer after no
    slide and leaves the worm as it is. *)
Theorem attempt_extraction_again (worm : Worm) (worms : list (option Worm))
    (rows cols : Z) (ok : bool) (n : Z) (worm' : Worm) :
  attempt_extraction worm worms rows cols = Ret (ok, n, worm') →
  attempt_extraction worm' worms rows cols = Ret (ok, 0, worm').
Proof.
  unfold attempt_extraction. intros Hstep%attempt_loop_settled.
  rewrite attempt_loop_unfold, Hstep. by destruct ok.
Qed.

(** Worm C of level 1 slides three cells to the left edge and is
    extracted; a second call extracts it after no slide. *)
Lemma attempt_extraction_again_witness :
  attempt_extraction (mkWorm (cp "C") [(1, 1); (1, 0)] Left "green")
    [Some worm_A; Some worm_B; None] 6 6
  = Ret (true, 0, mkWorm (cp "C") [(1, 1); (1, 0)] Left "green").
Proof.
  apply (attempt_extraction_again worm_C [Some worm_A; Some worm_B; None]
           6 6 true 3).
  vm_compute. reflexivity.
Defined.

(** ** Boards *)

Lemma NoDup_bind_same {A B} (f : A → list B) (l : list A) (x1 x2 : A)
    (y : B) :
  NoDup (l ≫= f) → x1 ∈ l → x2 ∈ l → y ∈ f x1 → y ∈ f x2 →
  ∃ i, l !! i = Some x1 ∧ l !! i = Some x2.
Proof.
  induction l as [|a l IH]; intros Hnd H1 H2 Hy1 Hy2;
    [by apply elem_of_nil in H1|].
  rewrite bind_cons in Hnd. apply NoDup_app in Hnd as (_ & Hdis & Hnd).
  apply elem_of_cons in H1 as [->|H1]; apply elem_of_cons in H2 as [->|H2].
  - by exists 0%nat.
  - exfalso. apply (Hdis y Hy1). apply list_elem_of_bind. by exists x2.
  - exfalso. apply (Hdis y Hy2). apply list_elem_of_bind. by exists x1.
  - destruct (IH Hnd H1 H2 Hy1 Hy2) as (i & ? & ?). by exists (S i).
Qed.

Lemma board_sublist (ws ws' : list Worm) :
  board ws → ws' `sublist_of` ws → board ws'.
Proof.
  intros (Hids & Hcells & Hne) Hsub. split; [|split].
  - eapply sublist_NoDup; [done|]. by apply fmap_sublist.
  - eapply sublist_NoDup; [done|]. by apply bind_sublist.
  - intros w Hw. apply Hne. by eapply elem_of_sublist.
Qed.

Lemma board_head (ws : list Worm) (w : Worm) :
  board ws → w ∈ ws → ∃ h, head w = Ret h.
Proof.
  intros (_ & _ & Hne) Hw. specialize (Hne w Hw). unfold head.
  destruct (last (segments w)) as [h|] eqn:Hl; [by exists h|].
  by apply last_None in Hl.
Qed.

Lemma board_same_cell (ws : list Worm) (w1 w2 : Worm) (q : cell) :
  board ws → w1 ∈ ws → w2 ∈ ws → q ∈ segments w1 → q ∈ segments w2 →
  w1 = w2.
Proof.
  intros (_ & Hcells & _) H1 H2 Hq1 Hq2.
  destruct (NoDup_bind_same segments ws w1 w2 q Hcells H1 H2 Hq1 Hq2)
    as (i & ? & ?). congruence.
Qed.

Lemma board_same_id (ws : list Worm) (w1 w2 : Worm) :
  board ws → w1 ∈ ws → w2 ∈ ws → worm_id w1 = worm_id w2 → w1 = w2.
Proof. intros (Hids & _) ???. by apply (NoDup_fmap_same worm_id ws). Qed.

(** ** The occupancy map *)

Lemma occupancy_seg_keep (id : pystr) (segs : list cell)
    (occ : gmap cell pystr) (q : cell) :
  is_Some (occ !! q) →
  is_Some (foldl (fun occ seg => <[seg := id]> occ) occ segs !! q).
Proof.
  revert occ. induction segs as [|s segs IH]; intros occ Hq; simpl; [done|].
  apply IH. destruct (decide (s = q)) as [->|Hne].
  - rewrite lookup_insert_eq. by eexists.
  - by rewrite lookup_insert_ne.
Qed.

Lemma occupancy_seg_set (id : pystr) (segs : list cell)
    (occ : gmap cell pystr) (q : cell) :
  q ∈ segs →
  is_Some (foldl (fun occ seg => <[seg := id]> occ) occ segs !! q).
Proof.
  revert occ. induction segs as [|s segs IH]; intros occ Hq; simpl;
    [by apply elem_of_nil in Hq|].
  apply elem_of_cons in Hq as [->|Hq]; [|by apply IH].
  apply occupancy_seg_keep. rewrite lookup_insert_eq. by eexists.
Qed.

Lemma occupancy_keep (ws : list Worm) (occ : gmap cell pystr) (q : cell) :
  is_Some (occ !! q) →
  is_Some (foldl (fun occ w =>
                    foldl (fun occ seg => <[seg := worm_id w]> occ) occ
                      (segments w)) occ ws !! q).
Proof.
  revert occ. induction ws as [|w ws IH]; intros occ Hq; simpl; [done|].
  by apply IH, occupancy_seg_keep.
Qed.

Lemma occupancy_dom (ws : list Worm) (w : Worm) (q : cell) :
  w ∈ ws → q ∈ segments w → is_Some (_build_occupancy ws !! q).
Proof.
  unfold _build_occupancy. generalize (∅ : gmap cell pystr).
  induction ws as [|w0 ws IH]; intros occ Hw Hq; simpl;
    [by apply elem_of_nil in Hw|].
  apply elem_of_cons in Hw as [->|Hw]; [|by apply IH].
  by apply occupancy_keep, occupancy_seg_set.
Qed.

(** On a board, the occupancy map gives each cell of a worm to that worm. *)
Lemma occupancy_lookup (ws : list Worm) (w : Worm) (q : cell) :
  board ws → w ∈ ws → q ∈ segments w →
  _build_occupancy ws !! q = Some (worm_id w).
Proof.
  intros Hb Hw Hq. destruct (occupancy_dom ws w q Hw Hq) as [id Hid].
  destruct (occupancy_owner ws q id Hid) as (w' & Hw' & Hq' & <-).
  by rewrite (board_same_cell ws w w' q).
Qed.

(** ** The tracer and the engine agree *)

Lemma first_blocker_loop_Some (fuel : nat) (dr dc rows cols : Z)
    (wid : pystr) (occ : gmap cell pystr) :
  ∀ (r c : Z) (b : pystr),
    first_blocker_loop fuel dr dc rows cols wid occ r c = Ret (Some b) →
    b ≠ wid ∧ ∃ q, occ !! q = Some b.
Proof.
  induction fuel as [|fuel IH]; intros r c b; cbn [first_blocker_loop];
    (destruct (negb _); [done|]);
    destruct (occ !! (r + dr, c + dc)) as [owner|] eqn:Hq; try done.
  - case_bool_decide; [|done]. intros [= ->]. split; [done|by eexists].
  - case_bool_decide; [|by apply IH]. intros [= ->]. split; [done|by eexists].
  - apply IH.
Qed.

Lemma first_blocker_Some (w : Worm) (ws : list Worm) (rows cols : Z)
    (b : pystr) :
  _first_blocker w (_build_occupancy ws) rows cols = Ret (Some b) →
  b ≠ worm_id w ∧ b ∈ worm_id <$> ws.
Proof.
  unfold _first_blocker. destruct (DIR_DELTA (direction w)) as [dr dc].
  destruct (head w) as [[r c]| |]; cbn [mbind res_bind]; [|done..].
  intros [Hne (q & Hq)]%first_blocker_loop_Some. split; [done|].
  destruct (occupancy_owner ws q b Hq) as (v & Hv & _ & <-).
  apply list_elem_of_fmap. by exists v.
Qed.

(** The trace of the engine and the slide of the game, cell by cell, when
    the occupancy map and the board name the same cells as held by others. *)
Lemma attempt_lockstep (worms : list (option Worm)) (rows cols : Z)
    (wid : pystr) (d : Direction) (occ : gmap cell pystr) :
  (∀ q, held_by_others worms wid q ↔ ∃ b, occ !! q = Some b ∧ b ≠ wid) →
  ∀ (fuel : nat) (w : Worm) (steps r c : Z) (res : option pystr),
    worm_id w = wid → direction w = d → head w = Ret (r, c) →
    first_blocker_loop fuel (DIR_DELTA d).1 (DIR_DELTA d).2 rows cols wid
      occ r c = Ret res →
    ∃ (n : Z) (w' : Worm),
      attempt_extraction_loop fuel w worms rows cols steps
      = Ret (bool_decide (res = None), n, w').
Proof.
  intros Hocc. induction fuel as [|fuel IH];
    intros w steps r c res Hid Hd Hh;
    rewrite attempt_loop_unfold, (step_forward_spec w worms rows cols _ Hh);
    cbn zeta; rewrite Hd, ahead_1; cbn [first_blocker_loop];
    (destruct (negb _); cbn [mbind res_bind];
     [intros [= <-]; by eexists _, _|]);
    (case_bool_decide as Hheld;
     rewrite occupied_by_others_resolve, Hid, Hocc in Hheld);
    destruct (occ !! _) as [owner|] eqn:Hq.
  - case_bool_decide as Hown; [|done]. intros [= <-]. by eexists _, _.
  - by destruct Hheld as (b & ? & _).
  - case_bool_decide as Hown; [|done].
    exfalso. apply Hheld. by exists owner.
  - done.
  - case_bool_decide as Hown; [intros [= <-]; by eexists _, _|].
    destruct Hheld as (b & [= ->] & Hne). by destruct Hown.
  - by destruct Hheld as (b & ? & _).
  - case_bool_decide as Hown; [exfalso; apply Hheld; by exists owner|].
    cbn [mbind res_bind]. apply IH; [done..|].
    apply head_Ret. simpl. by rewrite last_snoc.
  - cbn [mbind res_bind]. apply IH; [done..|].
    apply head_Ret. simpl. by rewrite last_snoc.
Qed.

Lemma elem_of_aliased (i : nat) (ws : list Worm) (v : Worm) :
  Some v ∈ aliased i ws ↔ ∃ j, j ≠ i ∧ ws !! j = Some v.
Proof.
  unfold aliased. rewrite elem_of_lookup_imap. split.
  - intros (j & y & Heq & Hj). case_decide; [done|].
    injection Heq as ->. by exists j.
  - intros (j & Hne & Hj). exists j, v. by rewrite decide_False.
Qed.

(** On a board, the cells that the game holds against worm [i] are those
    that the occupancy map gives to another id. *)
Lemma held_occupancy (ws : list Worm) (i : nat) (w : Worm) (q : cell) :
  board ws → ws !! i = Some w →
  held_by_others (aliased i ws) (worm_id w) q
  ↔ ∃ b, _build_occupancy ws !! q = Some b ∧ b ≠ worm_id w.
Proof.
  intros Hb Hi. unfold held_by_others. split.
  - intros (v & (j & Hne & Hj)%elem_of_aliased & Hid & Hq).
    exists (worm_id v). split; [|done].
    apply occupancy_lookup; [done| |done]. by eapply list_elem_of_lookup_2.
  - intros (b & Hocc & Hne).
    destruct (occupancy_owner ws q b Hocc) as (v & Hv & Hq & <-).
    exists v. split; [|done]. apply elem_of_aliased.
    apply list_elem_of_lookup in Hv as [j Hj]. exists j. split; [|done].
    intros ->. congruence.
Qed.

(** On a board, the slide of worm [i] ends as the trace of the solver
    does. *)
Lemma attempt_traces (worms : list Worm) (i : nat) (w : Worm)
    (rows cols : Z) :
  board worms → worms !! i = Some w →
  ∃ (res : option pystr) (n : Z) (w' : Worm),
    _first_blocker w (_build_occupancy worms) rows cols = Ret res
    ∧ attempt_extraction w (aliased i worms) rows cols
      = Ret (bool_decide (res = None), n, w').
Proof.
  intros Hb Hi.
  destruct (board_head worms w Hb) as [[r c] Hh];
    [by eapply list_elem_of_lookup_2|].
  destruct (first_blocker_total w (_build_occupancy worms) rows cols _ Hh)
    as [res Hres].
  exists res. rewrite Hres. unfold _first_blocker in Hres.
  rewrite Hh in Hres.
  rewrite (surjective_pairing (DIR_DELTA (direction w))) in Hres.
  cbn [mbind res_bind] in Hres.
  destruct (attempt_lockstep (aliased i worms) rows cols (worm_id w)
              (direction w) (_build_occupancy worms)
              (fun q => held_occupancy worms i w q Hb Hi)
              _ w 0 r c res eq_refl eq_refl Hh Hres) as (n & w' & Hloop).
  by exists n, w'.
Qed.

(** X9.  On a board, the game extracts a worm exactly when the tracer of
    the solver finds no blocker for it. *)
Theorem attempt_extraction_agrees (worms : list Worm) (i : nat) (w : Worm)
    (rows cols : Z) :
  board worms → worms !! i = Some w →
  ∃ (ok : bool) (n : Z) (w' : Worm),
    attempt_extraction w (aliased i worms) rows cols = Ret (ok, n, w')
    ∧ (ok = true
       ↔ _first_blocker w (_build_occupancy worms) rows cols = Ret None).
Proof.
  intros Hb Hi.
  destruct (attempt_traces worms i w rows cols Hb Hi)
    as (res & n & w' & Hres & Hat).
  exists (bool_decide (res = None)), n, w'. split; [done|].
  rewrite Hres, bool_decide_eq_true. split; congruence.
Qed.

(** Worm C of level 1 is free and is extracted; the board is the one of
    level 1. *)
Lemma attempt_extraction_agrees_witness :
  ∃ (ok : bool) (n : Z) (w' : Worm),
    attempt_extraction worm_C (aliased 2 [worm_A; worm_B; worm_C]) 6 6
    = Ret (ok, n, w')
    ∧ (ok = true
       ↔ _first_blocker worm_C (_build_occupancy [worm_A; worm_B; worm_C])
           6 6 = Ret None).
Proof.
  apply (attempt_extraction_agrees [worm_A; worm_B; worm_C] 2 worm_C 6 6).
  - split; [|split].
    + apply (bool_decide_unpack _). vm_compute. reflexivity.
    + apply (bool_decide_unpack _). vm_compute. reflexivity.
    + intros w Hw. vm_compute in Hw.
      repeat (apply elem_of_cons in Hw as [->|Hw]; [done|]).
      by apply elem_of_nil in Hw.
  - reflexivity.
Defined.

(** ** The dependency graph, for any worms with distinct ids *)

Lemma blocked_by_loop_spec (occ : gmap cell pystr) (rows cols : Z)
    (ws : list Worm) :
  ∀ (g g' : gmap pystr (gset pystr)) (w : Worm),
    NoDup (worm_id <$> ws) →
    blocked_by_loop occ rows cols ws g = Ret g' → w ∈ ws →
    ∃ blocker,
      _first_blocker w occ rows cols = Ret blocker
      ∧ g' !! worm_id w
        = match blocker with
          | Some b => (fun deps => deps ∪ {[ b ]}) <$> g !! worm_id w
          | None => g !! worm_id w
          end.
Proof.
  induction ws as [|w0 ws IH]; intros g g' w; simpl.
  - intros _ _ Hw. by apply elem_of_nil in Hw.
  - intros [Hw0 Hnd]%NoDup_cons (blocker & Hb & Hrest)%bind_Ret Hw.
    apply elem_of_cons in Hw as [->|Hw].
    + exists blocker. split; [done|].
      rewrite (blocked_by_loop_other _ _ _ _ _ _ _ Hrest Hw0).
      destruct blocker; [|done]. by rewrite lookup_alter_eq.
    + destruct (IH _ _ w Hnd Hrest Hw) as (bl & Hbl & Hg').
      exists bl. split; [done|]. rewrite Hg'.
      assert (worm_id w0 ≠ worm_id w) as Hne.
      { intros Heq. apply Hw0. rewrite Heq. apply list_elem_of_fmap. eauto. }
      destruct blocker; [|done]. by rewrite lookup_alter_ne.
Qed.

(** The entry of a worm in the graph. *)
Lemma graph_lookup (worms : list Worm) (rows cols : Z)
    (graph : gmap pystr (gset pystr)) (w : Worm) :
  NoDup (worm_id <$> worms) →
  _build_dependency_graph worms rows cols = Ret graph → w ∈ worms →
  ∃ blocker,
    _first_blocker w (_build_occupancy worms) rows cols = Ret blocker
    ∧ graph !! worm_id w
      = Some (match blocker with Some b => {[ b ]} | None => ∅ end).
Proof.
  intros Hnd Hg Hw. unfold _build_dependency_graph in Hg.
  destruct (blocked_by_loop_spec _ _ _ _ _ _ w Hnd Hg Hw)
    as (blocker & Hb & Hlook).
  exists blocker. split; [done|].
  rewrite Hlook, (blocked_by_init_lookup worms ∅ w Hw).
  destruct blocker; [|done]. simpl. f_equal. set_solver.
Qed.

(** X4.  For worms with distinct ids, the dependency graph has the ids of
    the worms as its keys; the entry of a worm is empty when the tracer finds
    no blocker for it, and holds the one id that the tracer returns
    otherwise; that id is never the worm's own and is the id of a worm of
    the list. *)
Theorem dependency_graph_spec (worms : list Worm) (rows cols : Z)
    (graph : gmap pystr (gset pystr)) :
  NoDup (worm_id <$> worms) →
  _build_dependency_graph worms rows cols = Ret graph →
  (∀ x, x ∈ dom graph ↔ x ∈ worm_id <$> worms)
  ∧ ∀ w, w ∈ worms →
         ∃ blocker,
           _first_blocker w (_build_occupancy worms) rows cols = Ret blocker
           ∧ graph !! worm_id w
             = Some (match blocker with Some b => {[ b ]} | None => ∅ end)
           ∧ ∀ b, blocker = Some b →
                  b ≠ worm_id w ∧ b ∈ worm_id <$> worms.
Proof.
  intros Hnd Hg. split; [by apply (graph_dom _ _ _ _ Hg)|].
  intros w Hw.
  destruct (graph_lookup worms rows cols graph w Hnd Hg Hw)
    as (blocker & Hb & Hlook).
  exists blocker. split; [done|]. split; [done|].
  intros b ->. by apply (first_blocker_Some w worms rows cols).
Qed.

(** The graph of level 1: A waits for B, B waits for C, C is free. *)
Lemma dependency_graph_spec_witness :
  (∀ x, x ∈ dom ({[ cp "A" := {[ cp "B" ]}; cp "B" := {[ cp "C" ]};
                    cp "C" := ∅ ]} : gmap pystr (gset pystr))
        ↔ x ∈ worm_id <$> [worm_A; worm_B; worm_C])
  ∧ ∀ w, w ∈ [worm_A; worm_B; worm_C] →
         ∃ blocker,
           _first_blocker w (_build_occupancy [worm_A; worm_B; worm_C]) 6 6
           = Ret blocker
           ∧ ({[ cp "A" := {[ cp "B" ]}; cp "B" := {[ cp "C" ]};
                 cp "C" := ∅ ]} : gmap pystr (gset pystr)) !! worm_id w
             = Some (match blocker with Some b => {[ b ]} | None => ∅ end)
           ∧ ∀ b, blocker = Some b →
                  b ≠ worm_id w ∧ b ∈ worm_id <$> [worm_A; worm_B; worm_C].
Proof.
  apply (dependency_graph_spec [worm_A; worm_B; worm_C] 6 6).
  - apply (bool_decide_unpack _). vm_compute. reflexivity.
  - vm_compute. reflexivity.
Defined.

(** ** Free worms stay free when worms leave *)

Lemma first_blocker_loop_mono (dr dc rows cols : Z) (wid : pystr)
    (occ occ' : gmap cell pystr) :
  (∀ q b, occ' !! q = Some b → b ≠ wid →
          ∃ b', occ !! q = Some b' ∧ b' ≠ wid) →
  ∀ (fuel : nat) (r c : Z),
    first_blocker_loop fuel dr dc rows cols wid occ r c = Ret None →
    first_blocker_loop fuel dr dc rows cols wid occ' r c = Ret None.
Proof.
  intros Hocc. induction fuel as [|fuel IH]; intros r c;
    cbn [first_blocker_loop]; (destruct (negb _); [done|]);
    destruct (occ !! (r + dr, c + dc)) as [owner|] eqn:Hq;
    destruct (occ' !! (r + dr, c + dc)) as [owner'|] eqn:Hq';
    repeat case_bool_decide; try done; try (apply IH);
    try (destruct (Hocc _ _ Hq' ltac:(done)) as (b' & Hb' & Hne);
         rewrite Hq in Hb'; by simplify_eq).
Qed.

Lemma free_in_sublist (rows cols : Z) (ws ws' : list Worm) (w : Worm) :
  board ws → ws' `sublist_of` ws →
  free_in rows cols ws w → free_in rows cols ws' w.
Proof.
  intros Hb Hsub. unfold free_in, _first_blocker.
  destruct (DIR_DELTA (direction w)) as [dr dc].
  destruct (head w) as [[r c]| |]; cbn [mbind res_bind]; [|done..].
  apply first_blocker_loop_mono. intros q b Hq Hne.
  destruct (occupancy_owner ws' q b Hq) as (v & Hv & Hqv & <-).
  exists (worm_id v). split; [|done].
  apply occupancy_lookup; [done| |done]. by eapply elem_of_sublist.
Qed.

(** ** The free list of a round *)

Lemma free_of_board (rows cols : Z) (ws : list Worm)
    (graph : gmap pystr (gset pystr)) (x : pystr) :
  NoDup (worm_id <$> ws) →
  _build_dependency_graph ws rows cols = Ret graph →
  x ∈ free_of graph ↔ ∃ w, w ∈ ws ∧ worm_id w = x ∧ free_in rows cols ws w.
Proof.
  intros Hnd Hg.
  rewrite elem_of_free_of. split.
  - intros Hx. assert (x ∈ dom graph) as Hd by (apply elem_of_dom; eauto).
    apply (graph_dom _ _ _ _ Hg), list_elem_of_fmap in Hd as (w & -> & Hw).
    exists w. split; [done|]. split; [done|].
    destruct (graph_lookup ws rows cols graph w Hnd Hg Hw)
      as (blocker & Hb & Hlook).
    rewrite Hx in Hlook. destruct blocker as [b|]; [|done].
    apply (inj Some) in Hlook. exfalso.
    assert (b ∈ (∅ : gset pystr)) as Hbad
      by (rewrite Hlook; by apply elem_of_singleton).
    by apply elem_of_empty in Hbad.
  - intros (w & Hw & <- & Hfree).
    destruct (graph_lookup ws rows cols graph w Hnd Hg Hw)
      as (blocker & Hb & Hlook).
    unfold free_in in Hfree. rewrite Hfree in Hb. by injection Hb as <-.
Qed.

(** ** Positions and ids *)

Lemma find_worm_Some (x : pystr) (ws : list Worm) (i : nat) (w : Worm) :
  find_worm x ws = Some (i, w) → ws !! i = Some w ∧ worm_id w = x.
Proof.
  revert i. induction ws as [|v ws IH]; intros i; simpl; [done|].
  case_decide as Hid; [by intros [= <- <-]|].
  destruct (find_worm x ws) as [[j u]|]; [|done]. simpl.
  intros [= <- <-]. by apply IH.
Qed.

Lemma find_worm_None (x : pystr) (ws : list Worm) :
  find_worm x ws = None ↔ x ∉ worm_id <$> ws.
Proof.
  induction ws as [|v ws IH]; simpl.
  - split; [intros _; apply not_elem_of_nil|done].
  - rewrite not_elem_of_cons. case_decide as Hid.
    + split; [done|]. intros [Hne _]. by destruct Hne.
    + destruct (find_worm x ws) as [[j u]|]; simpl.
      * split; [done|]. intros [_ Hx]. by apply IH in Hx.
      * split; [|done]. intros _. split; [done|]. by apply IH.
Qed.

Lemma find_worm_elem (ws : list Worm) (w : Worm) :
  NoDup (worm_id <$> ws) → w ∈ ws →
  ∃ i, find_worm (worm_id w) ws = Some (i, w).
Proof.
  intros Hnd Hw.
  destruct (find_worm (worm_id w) ws) as [[i v]|] eqn:Hf.
  - apply find_worm_Some in Hf as [Hi Hid]. exists i. do 2 f_equal.
    apply (NoDup_fmap_same worm_id ws); [done| |done..].
    by eapply list_elem_of_lookup_2.
  - apply find_worm_None in Hf. exfalso. apply Hf.
    apply list_elem_of_fmap. by exists w.
Qed.

Lemma filter_all {A} (P : A → Prop) `{∀ x, Decision (P x)} (l : list A) :
  (∀ x, x ∈ l → P x) → filter P l = l.
Proof.
  induction l as [|x l IH]; intros Hall; [done|].
  rewrite filter_cons_True by (apply Hall; by left).
  f_equal. apply IH. intros y Hy. apply Hall. by right.
Qed.

Lemma delete_filter_id (ws : list Worm) (i : nat) (w : Worm) :
  NoDup (worm_id <$> ws) → ws !! i = Some w →
  delete i ws = filter (fun v => worm_id v ∉ [worm_id w]) ws.
Proof.
  revert i. induction ws as [|v ws IH]; intros i Hnd Hi; [done|].
  rewrite fmap_cons in Hnd. apply NoDup_cons in Hnd as [Hv Hnd].
  destruct i as [|i]; simpl in Hi.
  - injection Hi as ->. simpl. rewrite filter_cons_False by set_solver.
    symmetry. apply filter_all. intros u Hu Hin.
    apply list_elem_of_singleton in Hin. apply Hv. rewrite <- Hin.
    apply list_elem_of_fmap. by exists u.
  - simpl. rewrite filter_cons_True; [f_equal; by apply IH|].
    intros Hin%list_elem_of_singleton. apply Hv. rewrite Hin.
    apply list_elem_of_fmap. exists w. split; [done|].
    by eapply list_elem_of_lookup_2.
Qed.

(** ** Extraction orders *)

Lemma extracts_cons (rows cols : Z) (ws : list Worm) (x : pystr)
    (rest : list pystr) :
  board ws →
  extracts rows cols ws (x :: rest)
  ↔ ∃ w, w ∈ ws ∧ worm_id w = x ∧ free_in rows cols ws w
         ∧ extracts rows cols (filter (fun v => worm_id v ∉ [x]) ws) rest.
Proof.
  intros Hb. pose proof Hb as (Hnd & _). cbn [extracts]. split.
  - intros (i & w & steps & w' & [Hi Hid]%find_worm_Some & Hat & Hrest).
    exists w. split; [by eapply list_elem_of_lookup_2|]. split; [done|].
    destruct (attempt_traces ws i w rows cols Hb Hi)
      as (res & n & w1 & Hres & Hat').
    rewrite Hat in Hat'. injection Hat' as Hok _ _.
    symmetry in Hok. apply bool_decide_eq_true in Hok.
    split; [unfold free_in; by rewrite Hres, Hok|].
    by rewrite <- Hid, <- (delete_filter_id ws i w Hnd Hi).
  - intros (w & Hw & <- & Hfree & Hrest).
    destruct (find_worm_elem ws w Hnd Hw) as [i Hf].
    pose proof (find_worm_Some _ _ _ _ Hf) as [Hi _].
    destruct (attempt_traces ws i w rows cols Hb Hi)
      as (res & n & w1 & Hres & Hat).
    exists i, w, n, w1. split; [done|].
    unfold free_in in Hfree. rewrite Hfree in Hres. injection Hres as <-.
    split; [done|].
    by rewrite (delete_filter_id ws i w Hnd Hi).
Qed.

Lemma filter_filter_ids (S1 S2 : list pystr) (ws : list Worm) :
  filter (fun v => worm_id v ∉ S2) (filter (fun v => worm_id v ∉ S1) ws)
  = filter (fun v => worm_id v ∉ S1 ++ S2) ws.
Proof.
  rewrite list_filter_filter. apply list_filter_iff. intros v.
  rewrite elem_of_app. tauto.
Qed.

(** The worms that a round frees can leave one after the other. *)
Lemma extracts_round (rows cols : Z) (free rest : list pystr) :
  ∀ ws : list Worm,
    board ws → NoDup free →
    (∀ x, x ∈ free → ∃ w, w ∈ ws ∧ worm_id w = x ∧ free_in rows cols ws w) →
    extracts rows cols (filter (fun v => worm_id v ∉ free) ws) rest →
    extracts rows cols ws (free ++ rest).
Proof.
  induction free as [|x free IH]; intros ws Hb Hnd Hfree Hrest.
  - simpl. by rewrite filter_all in Hrest by (intros; apply not_elem_of_nil).
  - apply NoDup_cons in Hnd as [Hx Hnd]. simpl.
    apply extracts_cons; [done|].
    destruct (Hfree x) as (w & Hw & Hid & Hw_free); [by left|].
    exists w. do 3 (split; [done|]).
    assert (filter (fun v => worm_id v ∉ [x]) ws `sublist_of` ws) as Hsub
      by apply sublist_filter.
    apply IH; [by apply (board_sublist ws)|done| |].
    + intros y Hy. destruct (Hfree y) as (v & Hv & Hvid & Hv_free);
        [by right|].
      exists v. split; [|split; [done|by apply (free_in_sublist _ _ ws)]].
      apply list_elem_of_filter. split; [|done].
      rewrite Hvid. intros ->%list_elem_of_singleton. done.
    + by rewrite filter_filter_ids.
Qed.

(** An extraction order stays one when worms are taken off the board. *)
Lemma extracts_filter (rows cols : Z) (S : list pystr) (order : list pystr) :
  ∀ ws : list Worm,
    board ws → extracts rows cols ws order →
    extracts rows cols (filter (fun v => worm_id v ∉ S) ws)
      (filter (fun x => x ∉ S) order).
Proof.
  induction order as [|x order IH]; intros ws Hb Hex.
  - simpl in Hex. by subst ws.
  - apply extracts_cons in Hex as (w & Hw & Hid & Hfree & Hrest); [|done].
    assert (board (filter (fun v => worm_id v ∉ [x]) ws)) as Hb1
      by (apply (board_sublist ws); [done|apply sublist_filter]).
    assert (board (filter (fun v => worm_id v ∉ S) ws)) as Hb2
      by (apply (board_sublist ws); [done|apply sublist_filter]).
    specialize (IH _ Hb1 Hrest). rewrite filter_filter_ids in IH.
    destruct (decide (x ∈ S)) as [Hx|Hx].
    + rewrite filter_cons_False by (intros Hn; by apply Hn).
      rewrite (list_filter_iff (fun v => worm_id v ∉ S)
                 (fun v => worm_id v ∉ [x] ++ S)); [done|].
      intros v. split.
      * intros Hv [Heq%list_elem_of_singleton|?]%elem_of_app; [|done].
        by rewrite Heq in Hv.
      * intros Hv ?. apply Hv, elem_of_app. by right.
    + rewrite filter_cons_True by done. apply extracts_cons; [done|].
      exists w. split; [apply list_elem_of_filter; by rewrite Hid|].
      split; [done|].
      split; [apply (free_in_sublist _ _ ws); [done|apply sublist_filter|done]|].
      rewrite filter_filter_ids.
      rewrite (list_filter_iff (fun v => worm_id v ∉ S ++ [x])
                 (fun v => worm_id v ∉ [x] ++ S)); [done|].
      intros v. split; intros Hv [?|?]%elem_of_app; apply Hv, elem_of_app;
        tauto.
Qed.

Lemma extracts_ids (rows cols : Z) (order : list pystr) :
  ∀ ws : list Worm,
    board ws → extracts rows cols ws order → order ≡ₚ worm_id <$> ws.
Proof.
  induction order as [|x order IH]; intros ws Hb Hex.
  - simpl in Hex. by subst ws.
  - pose proof Hb as (Hnd & _).
    apply extracts_cons in Hex as (w & Hw & Hid & _ & Hrest); [|done].
    rewrite (IH _ (board_sublist _ _ Hb (sublist_filter _ _)) Hrest).
    change (x :: ?l) with ([x] ++ l).
    apply round_ids_perm; [done|apply NoDup_singleton|].
    intros y ->%list_elem_of_singleton. apply list_elem_of_fmap. eauto.
Qed.

(** ** The loop of the solver, for any board *)

Lemma load_level_board `{CaseTable} (level_data : LevelData)
    (rows cols : Z) (name : string) (worms : list Worm) :
  NoDup (ld_worms level_data).*1 →
  load_level level_data = Ret (rows, cols, name, worms) →
  board worms.
Proof.
  intros Hnd Hload.
  split; [by rewrite (load_level_ids _ _ _ _ _ Hload)|].
  split; [by eapply load_level_NoDup_cells|].
  intros w [i Hi]%list_elem_of_lookup.
  destruct (load_level_Forall2 _ _ _ _ _ Hload) as (_ & _ & _ & Hall).
  destruct (Forall2_lookup_r _ _ _ _ _ Hall Hi)
    as ([wid meta] & _ & h & d & _ & _ & _ & ->). simpl.
  intros Hnil. apply (f_equal length) in Hnil.
  rewrite sort_by_perm, length_app in Hnil. simpl in Hnil. lia.
Qed.

Lemma board_heads (ws : list Worm) :
  board ws → ∀ w, w ∈ ws → ∃ h, head w = Ret h.
Proof. intros Hb w Hw. by apply (board_head ws). Qed.

Lemma solve_loop_sound (rows cols : Z) (fuel : nat) :
  ∀ (ws : list Worm) (rn : nat) (rep : list line) (ord ext : list pystr)
    (report : list line),
    board ws →
    solve_loop fuel rows cols ws rn rep ord = Ret (true, ext, report) →
    ∃ order, ext = ord ++ order ∧ extracts rows cols ws order.
Proof.
  induction fuel as [|fuel IH]; intros ws rn rep ord ext report Hb;
    (destruct ws as [|w0 ws];
     [intros [= <- _]; exists []; by rewrite app_nil_r|]); [done|].
  cbn [solve_loop].
  intros (graph & Hg & Hrest)%bind_Ret.
  pose proof Hb as (Hnd & _).
  pose proof (NoDup_free_of graph) as Hfree_nd.
  pose proof (fun x => free_of_board rows cols _ graph x Hnd Hg) as Hfree.
  destruct (free_of graph) as [|x free] eqn:Hf; [done|].
  apply IH in Hrest as (order & -> & Hex);
    [|apply (board_sublist (w0 :: ws)); [done|apply sublist_filter]].
  exists ((x :: free) ++ order). split; [by rewrite app_assoc|].
  apply extracts_round; [done|done| |done].
  intros y Hy. by apply Hfree.
Qed.

Lemma solve_loop_complete (rows cols : Z) (fuel : nat) :
  ∀ (ws : list Worm) (rn : nat) (rep : list line) (ord order : list pystr),
    board ws → (length ws <= fuel)%nat →
    extracts rows cols ws order →
    ∃ ext report,
      solve_loop fuel rows cols ws rn rep ord = Ret (true, ext, report).
Proof.
  induction fuel as [|fuel IH]; intros ws rn rep ord order Hb Hfuel Hex.
  { destruct ws; [|simpl in Hfuel; lia]. simpl. eauto. }
  destruct (graph_total ws rows cols (board_heads ws Hb)) as [graph Hg].
  pose proof (round_shrinks _ _ _ _ Hg) as Hshrink.
  pose proof Hb as (Hnd & _).
  pose proof (fun x => free_of_board rows cols _ graph x Hnd Hg) as Hfree.
  destruct ws as [|w0 ws]; [simpl; eauto|].
  cbn [solve_loop]. rewrite Hg. cbn [mbind res_bind].
  destruct order as [|x order]; [done|].
  pose proof Hex as (w & Hw & Hid & Hw_free & _)%extracts_cons; [|done].
  assert (x ∈ free_of graph) as Hx by (apply Hfree; eauto).
  pose proof (extracts_filter rows cols (free_of graph) _ _ Hb Hex) as Hex'.
  destruct (free_of graph) as [|y free] eqn:Hf; [by apply elem_of_nil in Hx|].
  specialize (Hshrink ltac:(done)).
  eapply IH; [|simpl in *; lia|done].
  apply (board_sublist (w0 :: ws)); [done|apply sublist_filter].
Qed.

Lemma solve_loop_outcome (rows cols : Z) (fuel : nat) :
  ∀ (ws : list Worm) (rn : nat) (rep : list line) (ord : list pystr)
    (b : bool) (ext : list pystr) (report : list line),
    NoDup (worm_id <$> ws) →
    solve_loop fuel rows cols ws rn rep ord = Ret (b, ext, report) →
    ∃ (order : list pystr) (front : list line) (k : nat)
      (remaining : list pystr),
      ext = ord ++ order ∧ NoDup order
      ∧ order ++ remaining ≡ₚ worm_id <$> ws
      ∧ (k <= length ws)%nat
      ∧ if b
        then remaining = []
             ∧ report
               = rep ++ front
                 ++ [LBlank; LExtractionOrder ext (rn + k); LSolvable]
        else remaining ≠ []
             ∧ report
               = rep ++ front
                 ++ [LBlank;
                     LRemaining (length remaining) (sorted remaining);
                     LUnsolvable].
Proof.
  induction fuel as [|fuel IH]; intros ws rn rep ord b ext report Hnd;
    (destruct ws as [|w0 ws];
     [intros [= <- <- <-]; exists [], [], 0%nat, [];
      rewrite app_nil_r, Nat.add_0_r; repeat split; [constructor|done..]|]);
    [done|].
  cbn [solve_loop].
  intros (graph & Hg & Hrest)%bind_Ret.
  pose proof (NoDup_free_of graph) as Hfree_nd.
  pose proof (round_shrinks _ _ _ _ Hg) as Hshrink.
  assert (∀ x, x ∈ free_of graph → x ∈ worm_id <$> w0 :: ws) as Hsub.
  { intros x Hx%elem_of_free_of. apply (graph_dom _ _ _ _ Hg).
    apply elem_of_dom. eauto. }
  destruct (free_of graph) as [|x free] eqn:Hf.
  - injection Hrest as <- <- <-.
    exists [], ([LDeadlock (S rn)]
                ++ ((fun wid => LBlockedBy wid (deps_of graph wid))
                      <$> sorted (fst <$> map_to_list graph))), 0%nat,
      (worm_id <$> w0 :: ws).
    rewrite app_nil_r, length_fmap. split; [done|].
    split; [constructor|]. split; [done|]. split; [lia|].
    split; [done|]. unfold deadlock_report. by rewrite <- !app_assoc.
  - specialize (Hshrink ltac:(done)).
    apply IH in Hrest
      as (order & front & k & remaining & -> & Hnd' & Hperm & Hk & Hb);
      [|by apply NoDup_ids_filter].
    exists ((x :: free) ++ order),
      (round_report (S rn) (x :: free) graph ++ front), (S k), remaining.
    split; [by rewrite app_assoc|]. split; [|split; [|split]].
    + apply NoDup_app. split; [done|]. split; [|done].
      intros y Hy Hy'.
      assert (y ∈ order ++ remaining) as Hin by (apply elem_of_app; by left).
      rewrite Hperm in Hin.
      apply list_elem_of_fmap in Hin as (v & -> & [Hv _]%list_elem_of_filter).
      done.
    + rewrite <- app_assoc, Hperm. by apply round_ids_perm.
    + simpl in *. lia.
    + replace (rn + S k)%nat with (S rn + k)%nat by lia.
      destruct b; destruct Hb as [Hrem ->]; (split; [done|]);
        by rewrite <- !app_assoc.
Qed.

(** ** The verdict of the solver *)

Lemma solve_loop_last (rows cols : Z) (fuel : nat) :
  ∀ (ws : list Worm) (rn : nat) (rep : list line) (ord : list pystr)
    (b : bool) (ext : list pystr) (report : list line),
    solve_loop fuel rows cols ws rn rep ord = Ret (b, ext, report) →
    last report = Some (if b then LSolvable else LUnsolvable).
Proof.
  induction fuel as [|fuel IH]; intros ws rn rep ord b ext report;
    (destruct ws as [|w0 ws];
     [intros [= <- _ <-]; by rewrite last_app|]); [done|].
  cbn [solve_loop]. intros (graph & Hg & Hrest)%bind_Ret.
  destruct (free_of graph) as [|x free]; [|by eapply IH].
  injection Hrest as <- _ <-. unfold deadlock_report.
  by rewrite !last_app.
Qed.

(** X5.  [is_solvable] never runs out of rounds.  When [load_level] raises
    it raises the same exception; otherwise it returns a verdict and a
    report, and the last line of the report is the line of that verdict. *)
Theorem is_solvable_answers `{CaseTable} (level_data : LevelData) :
  (∃ rows cols name worms verdict report,
     load_level level_data = Ret (rows, cols, name, worms)
     ∧ is_solvable level_data = Ret (verdict, report)
     ∧ last report = Some (if verdict then LSolvable else LUnsolvable))
  ∨ (∃ e, load_level level_data = Raise e
          ∧ is_solvable level_data = Raise e).
Proof.
  destruct (is_solvable_total level_data)
    as [(rows & cols & name & worms & verdict & report & Hload & Hs)
       |(e & He)]; [left|by right; exists e].
  exists rows, cols, name, worms, verdict, report.
  split; [done|]. split; [done|].
  unfold is_solvable, is_solvable_trace in Hs. rewrite Hload in Hs.
  cbn [mbind res_bind] in Hs.
  destruct (solve_loop _ _ _ _ _ _ _) as [[[b ext] rep]| |] eqn:Hsolve;
    [|done..].
  injection Hs as <- <-. by eapply solve_loop_last.
Qed.

Lemma is_solvable_trace_Ret `{CaseTable} (level_data : LevelData) (b : bool)
    (ext : list pystr) (report : list line) :
  is_solvable_trace level_data = Ret (b, ext, report) ↔
  ∃ rows cols name worms,
    load_level level_data = Ret (rows, cols, name, worms)
    ∧ solve_loop (length worms) rows cols worms 0 [] [] = Ret (b, ext, report).
Proof.
  unfold is_solvable_trace. rewrite bind_Ret. split.
  - intros ([[[rows cols] name] worms] & Hload & Hsolve). by eexists _, _, _, _.
  - intros (rows & cols & name & worms & Hload & Hsolve).
    by exists (rows, cols, name, worms).
Qed.

Lemma is_solvable_Ret `{CaseTable} (level_data : LevelData) (b : bool)
    (report : list line) :
  is_solvable level_data = Ret (b, report) ↔
  ∃ ext, is_solvable_trace level_data = Ret (b, ext, report).
Proof.
  unfold is_solvable. rewrite bind_Ret. split.
  - intros ([[b' ext] report'] & Htrace & [= <- <-]). by exists ext.
  - intros (ext & Htrace). by exists (b, ext, report).
Qed.

(** X6.  When the ids of the metadata are distinct and [is_solvable]
    returns, the extraction order holds no id twice, and the ids extracted
    together with the ids that remain are the ids of the metadata.  With the
    verdict true no id remains, the report ends with the extraction order,
    the number of rounds, which is at most the number of worms, and the
    line of the verdict; with the verdict false some id remains, and the
    report ends with the count and the sorted list of the remaining ids and
    the line of the verdict. *)
Theorem is_solvable_outcome `{CaseTable} (level_data : LevelData) (b : bool)
    (ext : list pystr) (report : list line) :
  NoDup (ld_worms level_data).*1 →
  is_solvable_trace level_data = Ret (b, ext, report) →
  is_solvable level_data = Ret (b, report)
  ∧ NoDup ext
  ∧ ∃ (front : list line) (k : nat) (remaining : list pystr),
      ext ++ remaining ≡ₚ (ld_worms level_data).*1
      ∧ (k <= length (ld_worms level_data))%nat
      ∧ if b
        then remaining = []
             ∧ report = front ++ [LBlank; LExtractionOrder ext k; LSolvable]
        else remaining ≠ []
             ∧ report
               = front
                 ++ [LBlank;
                     LRemaining (length remaining) (sorted remaining);
                     LUnsolvable].
Proof.
  intros Hnd Htrace. split; [apply is_solvable_Ret; by exists ext|].
  apply is_solvable_trace_Ret in Htrace
    as (rows & cols & name & worms & Hload & Hsolve).
  pose proof (load_level_ids _ _ _ _ _ Hload) as Hids.
  assert (NoDup (worm_id <$> worms)) as Hnd' by (by rewrite Hids).
  destruct (solve_loop_outcome _ _ _ _ _ _ _ _ _ _ Hnd' Hsolve)
    as (order & front & k & remaining & -> & Hord & Hperm & Hk & Hb).
  simpl in *. split; [done|]. exists front, k, remaining.
  rewrite <- Hids. split; [done|].
  split; [by rewrite <- (length_fmap worm_id), Hids, length_fmap in Hk|done].
Qed.

(** Level 1: C, B, A in three rounds. *)
Lemma is_solvable_outcome_witness :
  @is_solvable caseless_table level_01
  = Ret (true,
         [LExtract 1 [cp "C"];
          LStillBlocked (cp "A") [cp "B"]; LStillBlocked (cp "B") [cp "C"];
          LExtract 2 [cp "B"]; LStillBlocked (cp "A") [cp "B"];
          LExtract 3 [cp "A"];
          LBlank; LExtractionOrder [cp "C"; cp "B"; cp "A"] 3; LSolvable])
  ∧ NoDup [cp "C"; cp "B"; cp "A"]
  ∧ ∃ (front : list line) (k : nat) (remaining : list pystr),
      [cp "C"; cp "B"; cp "A"] ++ remaining ≡ₚ (ld_worms level_01).*1
      ∧ (k <= length (ld_worms level_01))%nat
      ∧ remaining = []
      ∧ [LExtract 1 [cp "C"];
         LStillBlocked (cp "A") [cp "B"]; LStillBlocked (cp "B") [cp "C"];
         LExtract 2 [cp "B"]; LStillBlocked (cp "A") [cp "B"];
         LExtract 3 [cp "A"];
         LBlank; LExtractionOrder [cp "C"; cp "B"; cp "A"] 3; LSolvable]
        = front
          ++ [LBlank; LExtractionOrder [cp "C"; cp "B"; cp "A"] k; LSolvable].
Proof.
  apply (@is_solvable_outcome caseless_table level_01 true).
  - apply (bool_decide_unpack _). vm_compute. reflexivity.
  - vm_compute. reflexivity.
Defined.

(** X7.  For a layout that [load_level] accepts, with distinct ids in the
    metadata, [is_solvable] returns true exactly when the worms can leave the
    board one after the other in some order, each extracted by one call of
    the game engine; it returns false otherwise. *)
Theorem is_solvable_iff_extracts `{CaseTable} (level_data : LevelData)
    (rows cols : Z) (name : string) (worms : list Worm) :
  NoDup (ld_worms level_data).*1 →
  load_level level_data = Ret (rows, cols, name, worms) →
  ((∃ report, is_solvable level_data = Ret (true, report))
   ↔ ∃ order, extracts rows cols worms order)
  ∧ ((∃ report, is_solvable level_data = Ret (false, report))
     ↔ ¬ ∃ order, extracts rows cols worms order).
Proof.
  intros Hnd Hload.
  pose proof (load_level_board _ _ _ _ _ Hnd Hload) as Hb.
  assert ((∃ report, is_solvable level_data = Ret (true, report))
          ↔ ∃ order, extracts rows cols worms order) as Hiff.
  { split.
    - intros (report & (ext & Htrace)%is_solvable_Ret).
      apply is_solvable_trace_Ret in Htrace
        as (rows' & cols' & name' & worms' & Hload' & Hsolve).
      rewrite Hload in Hload'. injection Hload' as <- <- <- <-.
      destruct (solve_loop_sound _ _ _ _ _ _ _ _ _ Hb Hsolve)
        as (order & _ & Hex).
      by exists order.
    - intros (order & Hex).
      destruct (solve_loop_complete rows cols (length worms) worms 0 [] []
                  order Hb (le_n _) Hex) as (ext & report & Hsolve).
      exists report. apply is_solvable_Ret. exists ext.
      apply is_solvable_trace_Ret. by exists rows, cols, name, worms. }
  split; [done|]. rewrite <- Hiff. split.
  - intros (report & Hfalse) (report' & Htrue). congruence.
  - intros Hno.
    destruct (is_solvable_total level_data)
      as [(? & ? & ? & ? & [|] & report & _ & Hs)|(e & He & _)];
      [|by exists report|congruence].
    destruct Hno. by exists report.
Qed.

(** Level 1 can be cleared in the order C, B, A. *)
Lemma is_solvable_iff_extracts_witness :
  ((∃ report, @is_solvable caseless_table level_01 = Ret (true, report))
   ↔ ∃ order, extracts 6 6 [worm_A; worm_B; worm_C] order)
  ∧ ((∃ report, @is_solvable caseless_table level_01 = Ret (false, report))
     ↔ ¬ ∃ order, extracts 6 6 [worm_A; worm_B; worm_C] order).
Proof.
  apply (@is_solvable_iff_extracts caseless_table level_01 6 6
           "Level 1 — First Steps").
  - apply (bool_decide_unpack _). vm_compute. reflexivity.
  - vm_compute. reflexivity.
Defined.

(** ** Layouts with a worm less *)

Lemma load_worm_id (cm : gmap pystr CellEntry) (item : pystr * WormMeta)
    (w : Worm) :
  load_worm cm item = Ret w → worm_id w = item.1.
Proof.
  destruct item as [wid meta]. unfold load_worm.
  destruct (cm !! wid) as [[[[hr hc]|] body]|]; simpl; try done.
  destruct (existsb _ _); [done|].
  destruct (parse_direction _) as [d|]; [|done]. by intros [= <-].
Qed.

Lemma mapM_filter {A B} (f : A → res B) (P : A → Prop) (Q : B → Prop)
    `{∀ x, Decision (P x)} `{∀ y, Decision (Q y)} (l : list A) :
  (∀ x y, f x = Ret y → (P x ↔ Q y)) →
  ∀ ys, mapM f l = Ret ys → mapM f (filter P l) = Ret (filter Q ys).
Proof.
  intros HPQ. induction l as [|x l IH]; intros ys; simpl.
  - by intros [= <-].
  - intros (y & Hy & (k & Hk & [= <-])%bind_Ret)%bind_Ret.
    specialize (IH k Hk). pose proof (HPQ x y Hy) as Hxy.
    destruct (decide (P x)) as [HP|HP].
    + rewrite filter_cons_True by done.
      rewrite (filter_cons_True Q) by tauto. simpl.
      rewrite Hy. simpl. by rewrite IH.
    + rewrite filter_cons_False by done.
      by rewrite (filter_cons_False Q) by tauto.
Qed.

(** The layout [level_data] without the metadata entry of [wid]. *)
Lemma load_level_without `{CaseTable} (level_data : LevelData) (wid : pystr)
    (rows cols : Z) (name : string) (worms : list Worm) :
  load_level level_data = Ret (rows, cols, name, worms) →
  load_level
    (mkLevel (ld_name level_data) (ld_rows level_data) (ld_cols level_data)
       (ld_grid level_data)
       (filter (fun item => item.1 ∉ [wid]) (ld_worms level_data)))
  = Ret (rows, cols, name, filter (fun w => worm_id w ∉ [wid]) worms).
Proof.
  unfold load_level. simpl.
  intros (cm & -> & (ws & Hm & [= <- <- <- <-])%bind_Ret)%bind_Ret.
  cbn [mbind res_bind].
  erewrite (mapM_filter (load_worm cm) _ (fun w => worm_id w ∉ [wid]));
    [done| |done].
  intros item w Hw. by rewrite (load_worm_id cm item w Hw).
Qed.

(** X8.  Taking the entry of a worm out of the metadata of a layout that
    [is_solvable] finds solvable gives a layout that it finds solvable:
    a worm less never blocks the others. *)
Theorem is_solvable_without `{CaseTable} (level_data : LevelData)
    (wid : pystr) (report : list line) :
  NoDup (ld_worms level_data).*1 →
  is_solvable level_data = Ret (true, report) →
  ∃ report',
    is_solvable
      (mkLevel (ld_name level_data) (ld_rows level_data)
         (ld_cols level_data) (ld_grid level_data)
         (filter (fun item => item.1 ∉ [wid]) (ld_worms level_data)))
    = Ret (true, report').
Proof.
  intros Hnd (ext & Htrace)%is_solvable_Ret.
  apply is_solvable_trace_Ret in Htrace
    as (rows & cols & name & worms & Hload & Hsolve).
  pose proof (load_level_board _ _ _ _ _ Hnd Hload) as Hb.
  destruct (solve_loop_sound _ _ _ _ _ _ _ _ _ Hb Hsolve)
    as (order & _ & Hex).
  pose proof (extracts_filter rows cols [wid] order worms Hb Hex) as Hex'.
  pose proof (load_level_without level_data wid _ _ _ _ Hload) as Hload'.
  set (ws' := filter (fun w => worm_id w ∉ [wid]) worms) in *.
  destruct (solve_loop_complete rows cols (length ws') ws' 0 [] [] _
              (board_sublist worms ws' Hb (sublist_filter _ _)) (le_n _) Hex')
    as (ext' & report' & Hsolve').
  exists report'. apply is_solvable_Ret. exists ext'.
  apply is_solvable_trace_Ret. by eexists _, _, _, _.
Qed.

(** Level 1 without worm B. *)
Lemma is_solvable_without_witness :
  ∃ report',
    @is_solvable caseless_table
      (mkLevel (ld_name level_01) (ld_rows level_01) (ld_cols level_01)
         (ld_grid level_01)
         (filter (fun item => item.1 ∉ [cp "B"]) (ld_worms level_01)))
    = Ret (true, report').
Proof.
  eapply (@is_solvable_without caseless_table level_01 (cp "B")).
  - apply (bool_decide_unpack _). vm_compute. reflexivity.
  - vm_compute. reflexivity.
Defined.

(** ** The game loop *)

Lemma main_loop_extracts (rows cols : Z) (order : list pystr) :
  ∀ (worms : list Worm) (moves : nat) (more : list pystr),
    extracts rows cols worms order →
    (∀ x, x ∈ order → x ∉ QUIT_WORDS) →
    main_loop rows cols (order ++ more) worms moves
    = Congratulations (moves + length order).
Proof.
  induction order as [|x order IH]; intros worms moves more Hex Hq.
  - simpl in Hex. subst worms. simpl. rewrite Nat.add_0_r.
    by destruct more.
  - destruct Hex as (i & w & steps & w' & Hfind & Hat & Hrest).
    destruct worms as [|w0 worms]; [done|].
    cbn [main_loop app].
    rewrite bool_decide_eq_false_2 by (apply Hq; by left).
    rewrite Hfind, Hat.
    rewrite (IH _ _ _ Hrest) by (intros y Hy; apply Hq; by right).
    simpl. f_equal. lia.
Qed.

(** X12.  For a layout with distinct ids in the metadata, none of them
    [Q], [QUIT] or [EXIT], that [is_solvable] finds solvable: typing the ids
    of the extraction order of the solver, in that order, at the prompt of
    the game clears the board, in as many moves as there are worms. *)
Theorem solver_order_wins `{CaseTable} (level_data : LevelData)
    (ext : list pystr) (report : list line) (rows cols : Z) (name : string)
    (worms : list Worm) (more : list pystr) :
  NoDup (ld_worms level_data).*1 →
  (∀ x, x ∈ (ld_worms level_data).*1 → x ∉ QUIT_WORDS) →
  is_solvable_trace level_data = Ret (true, ext, report) →
  load_level level_data = Ret (rows, cols, name, worms) →
  main_loop rows cols (ext ++ more) worms 0
  = Congratulations (length worms).
Proof.
  intros Hnd Hq Htrace Hload.
  apply is_solvable_trace_Ret in Htrace
    as (rows' & cols' & name' & worms' & Hload' & Hsolve).
  rewrite Hload in Hload'. injection Hload' as <- <- <- <-.
  pose proof (load_level_board _ _ _ _ _ Hnd Hload) as Hb.
  pose proof (load_level_ids _ _ _ _ _ Hload) as Hids.
  destruct (solve_loop_sound _ _ _ _ _ _ _ _ _ Hb Hsolve)
    as (order & -> & Hex).
  pose proof (extracts_ids _ _ _ _ Hb Hex) as Hperm. simpl.
  rewrite (main_loop_extracts rows cols order worms 0 more Hex).
  - by rewrite Hperm, length_fmap.
  - intros x Hx. apply Hq. by rewrite <- Hids, <- Hperm.
Qed.

(** Level 1 is cleared by typing C, B, A. *)
Lemma solver_order_wins_witness :
  main_loop 6 6 ([cp "C"; cp "B"; cp "A"] ++ [])
    [worm_A; worm_B; worm_C] 0
  = Congratulations (length [worm_A; worm_B; worm_C]).
Proof.
  apply (@solver_order_wins caseless_table level_01 [cp "C"; cp "B"; cp "A"]
           [LExtract 1 [cp "C"];
            LStillBlocked (cp "A") [cp "B"]; LStillBlocked (cp "B") [cp "C"];
            LExtract 2 [cp "B"]; LStillBlocked (cp "A") [cp "B"];
            LExtract 3 [cp "A"];
            LBlank; LExtractionOrder [cp "C"; cp "B"; cp "A"] 3; LSolvable]
           6 6 "Level 1 — First Steps" [worm_A; worm_B; worm_C] []).
  - apply (bool_decide_unpack _). vm_compute. reflexivity.
  - intros x Hx. apply (bool_decide_unpack _).
    vm_compute in Hx.
    repeat (apply elem_of_cons in Hx as [->|Hx]; [vm_compute; reflexivity|]).
    by apply elem_of_nil in Hx.
  - vm_compute. reflexivity.
  - vm_compute. reflexivity.
Defined.

Lemma elem_of_delete_other {A} (l : list A) (i : nat) (x v : A) :
  l !! i = Some x → v ∈ l → v ≠ x → v ∈ delete i l.
Proof.
  intros Hi Hv Hne. rewrite (delete_Permutation l i x Hi) in Hv.
  by apply elem_of_cons in Hv as [->|Hv].
Qed.

Lemma elem_of_insert_other {A} (l : list A) (i : nat) (x y v : A) :
  l !! i = Some x → v ∈ l → v ≠ x → v ∈ <[i := y]> l.
Proof.
  intros Hi [j Hj]%list_elem_of_lookup Hne.
  apply list_elem_of_lookup. exists j.
  rewrite list_lookup_insert_ne; [done|]. intros ->. congruence.
Qed.

Lemma main_loop_quit_worm (rows cols : Z) (v : Worm) (n : nat) :
  worm_id v ∈ QUIT_WORDS →
  ∀ (inputs : list pystr) (worms : list Worm) (moves m : nat),
    (length inputs <= n)%nat → v ∈ worms →
    main_loop rows cols inputs worms moves ≠ Congratulations m.
Proof.
  intros Hq. induction n as [|n IH]; intros inputs worms moves m Hlen Hv;
    (destruct worms as [|w0 worms]; [by apply elem_of_nil in Hv|]);
    destruct inputs as [|choice inputs]; try done;
    [simpl in Hlen; lia|].
  cbn [main_loop]. case_bool_decide as Hc; [done|].
  destruct (find_worm choice (w0 :: worms)) as [[i w]|] eqn:Hfind.
  - apply find_worm_Some in Hfind as [Hi Hid].
    assert (v ≠ w) as Hne by (intros ->; congruence).
    destruct (attempt_extraction w (aliased i (w0 :: worms)) rows cols)
      as [[[[|] steps] w']| |]; try done.
    + apply IH; [simpl in Hlen; lia|]. by apply (elem_of_delete_other _ _ w).
    + apply IH; [simpl in Hlen; lia|]. by apply (elem_of_insert_other _ _ w).
  - destruct inputs as [|line inputs]; [done|].
    apply IH; [simpl in Hlen; lia|done].
Qed.

(** X13.  When a worm of the board is named [Q], [QUIT] or [EXIT], no
    sequence of lines typed at the prompts makes the loop of the game end
    with the board clear: the line that would select the worm leaves the
    game. *)
Theorem main_loop_quit_word (rows cols : Z) (worms : list Worm) (v : Worm)
    (inputs : list pystr) (moves m : nat) :
  v ∈ worms → worm_id v ∈ QUIT_WORDS →
  main_loop rows cols inputs worms moves ≠ Congratulations m.
Proof.
  intros Hv Hq.
  by apply (main_loop_quit_worm rows cols v (length inputs) Hq).
Qed.

(** A board with the one worm Q, which faces the edge: typing Q leaves the
    game. *)
Lemma main_loop_quit_word_witness :
  main_loop 1 1 [cp "Q"] [mkWorm (cp "Q") [(0, 0)] Up "red"] 0
  ≠ Congratulations 1.
Proof.
  apply (main_loop_quit_word 1 1 [mkWorm (cp "Q") [(0, 0)] Up "red"]
           (mkWorm (cp "Q") [(0, 0)] Up "red") [cp "Q"] 0 1).
  - apply list_elem_of_singleton. reflexivity.
  - apply (bool_decide_unpack _). vm_compute. reflexivity.
Defined.

(** ** Picking a head *)

(** The candidate head at [dep] cells from the edge cell [(er, ec)]. *)
Lemma candidate_head (d : Direction) (er ec dep : Z) :
  (er + dep * - (DIR_DELTA d).1, ec + dep * - (DIR_DELTA d).2)
  = ahead d (er, ec) (- dep).
Proof. unfold ahead. simpl. f_equal; lia. Qed.

Lemma pick_depth_Some (rows cols : Z) (occupied : gset cell) (er ec : Z)
    (d : Direction) (depths : list Z) (hr hc : Z) (d' : Direction)
    (corridor : gset cell) :
  pick_depth rows cols occupied er ec d depths
    = Ret (Some (hr, hc, d', corridor)) →
  d' = d ∧ ∃ dep, dep ∈ depths ∧ (hr, hc) = ahead d (er, ec) (- dep).
Proof.
  induction depths as [|dep rest IH]; simpl; [done|].
  assert (∀ r, (r = Ret (Some (hr, hc, d', corridor)) →
                d' = d ∧ ∃ dep0, dep0 ∈ rest
                  ∧ (hr, hc) = ahead d (er, ec) (- dep0)) →
               r = Ret (Some (hr, hc, d', corridor)) →
               d' = d ∧ ∃ dep0, dep0 ∈ dep :: rest
                  ∧ (hr, hc) = ahead d (er, ec) (- dep0)) as Hskip.
  { intros r Hr Heq. destruct (Hr Heq) as (-> & dep0 & ? & ?).
    split; [done|]. exists dep0. split; [by right|done]. }
  destruct (in_grid _ _ _) eqn:Hin; simpl; [|by apply Hskip].
  case_bool_decide as Hocc; [by apply Hskip|].
  destruct (_exit_corridor _ _ _ _ _) as [S| |] eqn:Hcorr; simpl; try done.
  case_bool_decide as Hclear; [by apply Hskip|].
  intros Heq. injection Heq as <- <- <- <-. split; [done|].
  exists dep. split; [by left|]. by rewrite candidate_head.
Qed.

Lemma pick_depth_None (rows cols : Z) (occupied : gset cell) (er ec : Z)
    (d : Direction) (depths : list Z) :
  pick_depth rows cols occupied er ec d depths = Ret None →
  ∀ dep, dep ∈ depths →
    let h := ahead d (er, ec) (- dep) in
    in_grid rows cols h = true → (h ∉ occupied) →
    ∃ i, 1 <= i <= depth d rows cols h ∧ ahead d h i ∈ occupied.
Proof.
  induction depths as [|dep0 rest IH]; simpl;
    [intros _ dep Hdep; by apply elem_of_nil in Hdep|].
  intros Hpick dep [->|Hdep]%elem_of_cons Hin Hfree.
  - rewrite <- candidate_head in Hin, Hfree |- *.
    rewrite Hin in Hpick. simpl in Hpick.
    rewrite bool_decide_eq_false_2 in Hpick by done.
    destruct (exit_corridor_cells d rows cols _ Hin) as (S & HS & Hcells).
    simpl in HS. rewrite HS in Hpick. simpl in Hpick.
    case_bool_decide as Hclear; [|done].
    apply set_choose_L in Hclear as [q [Hq Hocc]%elem_of_intersection].
    apply Hcells in Hq as (i & Hi & ->). by exists i.
  - apply IH; [|done..].
    destruct (in_grid _ _ _) eqn:Hin0; simpl in Hpick; [|done].
    case_bool_decide; [done|].
    destruct (_exit_corridor _ _ _ _ _); simpl in Hpick; try done.
    by case_bool_decide.
Qed.

Lemma pick_depth_total (rows cols : Z) (occupied : gset cell) (er ec : Z)
    (d : Direction) (depths : list Z) :
  ∃ r, pick_depth rows cols occupied er ec d depths = Ret r.
Proof.
  induction depths as [|dep rest IH]; simpl; [by eexists|].
  destruct (in_grid _ _ _) eqn:Hin; simpl; [|done].
  case_bool_decide; [done|].
  destruct (exit_corridor_cells d rows cols _ Hin) as (S & HS & _).
  simpl in HS. rewrite HS. simpl.
  case_bool_decide; [done|by eexists].
Qed.

(** The edge cell that a head faces is a candidate of [_pick_head]. *)
Lemma edge_of_head (d : Direction) (rows cols : Z) (h : cell) :
  in_grid rows cols h = true →
  let e := ahead d h (depth d rows cols h) in
  (e.1, e.2, d) ∈ edges_of rows cols
  ∧ h = ahead d (e.1, e.2) (- depth d rows cols h).
Proof.
  intros [Hr Hc]%in_grid_spec e. split.
  - unfold edges_of, range. apply elem_of_app.
    destruct d; [left|left|right|right]; apply list_elem_of_bind.
    + exists h.2. split; [|apply elem_of_seqZ; lia].
      subst e. unfold ahead, depth. simpl.
      replace (h.1 + h.1 * -1) with 0 by lia.
      replace (h.2 + h.1 * 0) with h.2 by lia. by left.
    + exists h.2. split; [|apply elem_of_seqZ; lia].
      subst e. unfold ahead, depth. simpl.
      replace (h.1 + (rows - 1 - h.1) * 1) with (rows - 1) by lia.
      replace (h.2 + (rows - 1 - h.1) * 0) with h.2 by lia.
      right. by left.
    + exists h.1. split; [|apply elem_of_seqZ; lia].
      subst e. unfold ahead, depth. simpl.
      replace (h.1 + h.2 * 0) with h.1 by lia.
      replace (h.2 + h.2 * -1) with 0 by lia. by left.
    + exists h.1. split; [|apply elem_of_seqZ; lia].
      subst e. unfold ahead, depth. simpl.
      replace (h.1 + (cols - 1 - h.2) * 0) with h.1 by lia.
      replace (h.2 + (cols - 1 - h.2) * 1) with (cols - 1) by lia.
      right. by left.
  - rewrite <- surjective_pairing. subst e.
    rewrite ahead_ahead, Z.add_opp_diag_r, ahead_0. done.
Qed.

(** An edge cell of the candidate list, and the depth of a head in front
    of it. *)
Lemma depth_from_edge (d : Direction) (rows cols er ec dep : Z) :
  (er, ec, d) ∈ edges_of rows cols →
  depth d rows cols (ahead d (er, ec) (- dep)) = dep.
Proof.
  unfold edges_of. rewrite elem_of_app, !list_elem_of_bind.
  intros [(c & Hin & _)|(r & Hin & _)];
    repeat (apply elem_of_cons in Hin as [Hin|Hin];
            [injection Hin as -> -> ->; unfold depth, ahead; simpl; lia|]);
    by apply elem_of_nil in Hin.
Qed.

Section pick.
Context `{RandomSource}.

Lemma shuffle_Ret {A} (l l' : list A) (g g' : rng) :
  shuffle l g = Ret (l', g') → l' ≡ₚ l.
Proof.
  unfold shuffle. intros [= Heq]. pose proof (rng_shuffle_perm A l g) as Hp.
  by rewrite Heq in Hp.
Qed.

Lemma pick_edge_Some (rows cols : Z) (occupied : gset cell)
    (min_depth max_depth : Z) (edges : list (Z * Z * Direction))
    (g g' : rng) (hr hc : Z) (d : Direction) (corridor : gset cell) :
  pick_edge rows cols occupied min_depth max_depth edges g
    = Ret (Some (hr, hc, d, corridor), g') →
  ∃ er ec dep, (er, ec, d) ∈ edges ∧ min_depth <= dep <= max_depth
               ∧ (hr, hc) = ahead d (er, ec) (- dep).
Proof.
  revert g. induction edges as [|[[er ec] d0] rest IH]; intros g; simpl.
  - done.
  - intros (depths & g1 & Hsh & (found & g2 & Hfound & Hk)%rand_bind_Ret)
             %rand_bind_Ret.
    apply lift_Ret in Hfound as [Hfound ->].
    destruct found as [y|].
    + injection Hk as -> _.
      apply pick_depth_Some in Hfound as (-> & dep & Hdep & Hh).
      exists er, ec, dep. split; [by left|]. split; [|done].
      rewrite (shuffle_Ret _ _ _ _ Hsh) in Hdep.
      unfold range2 in Hdep. apply elem_of_seqZ in Hdep. lia.
    + destruct (IH _ Hk) as (er' & ec' & dep & Hin & ? & ?).
      exists er', ec', dep. split; [by right|done].
Qed.

Lemma pick_edge_None (rows cols : Z) (occupied : gset cell)
    (min_depth max_depth : Z) (edges : list (Z * Z * Direction))
    (g g' : rng) :
  pick_edge rows cols occupied min_depth max_depth edges g = Ret (None, g') →
  ∀ er ec d dep,
    (er, ec, d) ∈ edges → min_depth <= dep <= max_depth →
    let h := ahead d (er, ec) (- dep) in
    in_grid rows cols h = true → (h ∉ occupied) →
    ∃ i, 1 <= i <= depth d rows cols h ∧ ahead d h i ∈ occupied.
Proof.
  revert g. induction edges as [|[[er0 ec0] d0] rest IH]; intros g; simpl.
  - intros _ er ec d dep Hin. by apply elem_of_nil in Hin.
  - intros (depths & g1 & Hsh & (found & g2 & Hfound & Hk)%rand_bind_Ret)
             %rand_bind_Ret er ec d dep Hin Hdep.
    apply lift_Ret in Hfound as [Hfound ->].
    destruct found as [y|]; [done|].
    apply elem_of_cons in Hin as [[= -> -> ->]|Hin]; [|by eapply IH].
    apply (pick_depth_None _ _ _ _ _ _ _ Hfound).
    rewrite (shuffle_Ret _ _ _ _ Hsh). unfold range2.
    apply elem_of_seqZ. lia.
Qed.

Lemma pick_edge_total (rows cols : Z) (occupied : gset cell)
    (min_depth max_depth : Z) (edges : list (Z * Z * Direction)) (g : rng) :
  ∃ r g', pick_edge rows cols occupied min_depth max_depth edges g
          = Ret (r, g').
Proof.
  revert g. induction edges as [|[[er ec] d] rest IH]; intros g; simpl.
  - by eexists _, _.
  - unfold mbind at 1, rand_bind at 1, shuffle at 1.
    destruct (rng_shuffle _ g) as [depths g1].
    unfold mbind at 1, rand_bind at 1, lift.
    destruct (pick_depth_total rows cols occupied er ec d depths)
      as [[y|] ->]; simpl; [by eexists _, _|apply IH].
Qed.

(** [_pick_head] returns, with a head or with [None]. *)
Lemma pick_head_total (rows cols : Z) (occupied : gset cell) (min_depth : Z)
    (max_depth : option Z) (g : rng) :
  ∃ r g', _pick_head rows cols occupied min_depth max_depth g = Ret (r, g').
Proof.
  unfold _pick_head. unfold mbind at 1, rand_bind at 1, shuffle at 1.
  destruct (rng_shuffle _ g) as [edges g1]. apply pick_edge_total.
Qed.

(** X14.  A head that [_pick_head] returns is a free cell of the grid, at a
    depth from the edge it faces that lies within the bounds asked for; the
    corridor returned with it is its exit corridor, the cells between the
    head and that edge, and none of them is occupied. *)
Theorem pick_head_spec (rows cols : Z) (occupied : gset cell)
    (min_depth : Z) (max_depth : option Z) (g g' : rng) (hr hc : Z)
    (d : Direction) (corridor : gset cell) :
  _pick_head rows cols occupied min_depth max_depth g
    = Ret (Some (hr, hc, d, corridor), g') →
  in_grid rows cols (hr, hc) = true
  ∧ ((hr, hc) ∉ occupied)
  ∧ min_depth <= depth d rows cols (hr, hc)
    <= default (Z.max rows cols - 2) max_depth
  ∧ _exit_corridor hr hc d rows cols = Ret corridor
  ∧ (∀ q, q ∈ corridor
          ↔ ∃ i, 1 <= i <= depth d rows cols (hr, hc)
                 ∧ q = ahead d (hr, hc) i)
  ∧ corridor ∩ occupied = ∅.
Proof.
  intros Hpick.
  pose proof (pick_head_ok _ _ _ _ _ _ _ _ Hpick) as (Hin & Hfree & Hc & Hdis).
  unfold _pick_head in Hpick.
  apply rand_bind_Ret in Hpick as (edges & g1 & Hsh & Hpick).
  apply pick_edge_Some in Hpick as (er & ec & dep & Hedge & Hdep & Hh).
  rewrite (shuffle_Ret _ _ _ _ Hsh) in Hedge.
  split; [done|]. split; [done|].
  split; [by rewrite Hh, (depth_from_edge _ _ _ _ _ _ Hedge)|].
  split; [done|]. split; [|done].
  destruct (exit_corridor_cells d rows cols (hr, hc) Hin) as (S & HS & Hcells).
  simpl in HS. rewrite Hc in HS. by injection HS as ->.
Qed.

(** X15.  [_pick_head] never raises, and it returns [None] only when no
    head qualifies: every free cell of the grid, for every direction in
    which its depth lies within the bounds, has an occupied cell in its exit
    corridor. *)
Theorem pick_head_exhaustive (rows cols : Z) (occupied : gset cell)
    (min_depth : Z) (max_depth : option Z) (g : rng) :
  ∃ r g',
    _pick_head rows cols occupied min_depth max_depth g = Ret (r, g')
    ∧ (r = None →
       ∀ (h : cell) (d : Direction),
         in_grid rows cols h = true → (h ∉ occupied) →
         min_depth <= depth d rows cols h
           <= default (Z.max rows cols - 2) max_depth →
         ∃ i, 1 <= i <= depth d rows cols h ∧ ahead d h i ∈ occupied).
Proof.
  destruct (pick_head_total rows cols occupied min_depth max_depth g)
    as (r & g' & Hpick).
  exists r, g'. split; [done|]. intros -> h d Hin Hfree Hdep.
  unfold _pick_head in Hpick.
  apply rand_bind_Ret in Hpick as (edges & g1 & Hsh & Hpick).
  destruct (edge_of_head d rows cols h Hin) as [Hedge Hh].
  rewrite <- (shuffle_Ret _ _ _ _ Hsh) in Hedge.
  pose proof (pick_edge_None _ _ _ _ _ _ _ _ Hpick _ _ _ _ Hedge Hdep) as Hno.
  cbv zeta in Hno. rewrite <- Hh in Hno. by apply Hno.
Qed.

End pick.

(** On an empty 3x3 grid the first candidate is the cell below the top
    left corner, facing up. *)
Lemma pick_head_spec_witness :
  in_grid 3 3 (1, 0) = true
  ∧ ((1, 0) ∉ (∅ : gset cell))
  ∧ 1 <= depth Up 3 3 (1, 0) <= default (Z.max 3 3 - 2) None
  ∧ _exit_corridor 1 0 Up 3 3 = Ret {[ (0, 0) ]}
  ∧ (∀ q, q ∈ ({[ (0, 0) ]} : gset cell)
          ↔ ∃ i, 1 <= i <= depth Up 3 3 (1, 0) ∧ q = ahead Up (1, 0) i)
  ∧ ({[ (0, 0) ]} : gset cell) ∩ ∅ = ∅.
Proof.
  apply (@pick_head_spec first_source 3 3 ∅ 1 None tt tt 1 0 Up {[ (0, 0) ]}).
  vm_compute. reflexivity.
Defined.

(** ** Growing a body *)

Lemma adjacent_sym (p q : cell) : adjacent p q → adjacent q p.
Proof. unfold adjacent. lia. Qed.

Lemma chain_snoc (l : list cell) (x : cell) :
  chain (l ++ [x])
  ↔ chain l ∧ match last l with Some y => adjacent y x | None => True end.
Proof.
  induction l as [|p l IH]; [simpl; tauto|].
  destruct l as [|q l]; [simpl; tauto|].
  change ((p :: q :: l) ++ [x]) with (p :: (q :: l) ++ [x]).
  change (chain (p :: (q :: l) ++ [x]))
    with (adjacent p q ∧ chain ((q :: l) ++ [x])).
  change (chain (p :: q :: l)) with (adjacent p q ∧ chain (q :: l)).
  rewrite IH. change (last (p :: q :: l)) with (last (q :: l)). tauto.
Qed.

Lemma chain_cons (p : cell) (l : list cell) :
  chain (p :: l)
  ↔ chain l ∧ match l with q :: _ => adjacent p q | [] => True end.
Proof. destruct l; simpl; tauto. Qed.

Lemma chain_reverse (l : list cell) : chain l → chain (reverse l).
Proof.
  induction l as [|p l IH]; [done|].
  rewrite chain_cons, reverse_cons, chain_snoc. intros [Hl Hp].
  split; [by apply IH|].
  destruct l as [|q l]; [done|].
  rewrite reverse_cons, last_snoc. by apply adjacent_sym.
Qed.

Lemma candidates_adjacent (d : Direction) (hr hc rows cols : Z)
    (taken : gset cell) (cur_r cur_c : Z) (q : cell) :
  q ∈ candidates_of d hr hc rows cols taken cur_r cur_c →
  adjacent (cur_r, cur_c) q.
Proof.
  unfold candidates_of, ALL_DIRS.
  intros [_ Hq]%list_elem_of_filter.
  apply list_elem_of_fmap in Hq as (dir & -> & Hdir).
  unfold adjacent. simpl.
  repeat (apply elem_of_cons in Hdir as [->|Hdir]; [simpl; lia|]).
  by apply elem_of_nil in Hdir.
Qed.

Lemma weighted_of_nonempty (target_cells : gset cell) (c : cell)
    (cs : list cell) :
  weighted_of target_cells (c :: cs) ≠ [].
Proof.
  unfold weighted_of. rewrite bind_cons. by case_bool_decide.
Qed.

Section grow.
Context `{RandomSource}.

Lemma choice_total {A} (x : A) (l : list A) (g : rng) :
  ∃ y g', choice (x :: l) g = Ret (y, g').
Proof.
  unfold choice. destruct (rng_choice x l g) as [y g'] eqn:Hc.
  by exists y, g'.
Qed.

Lemma grow_loop_chain (n : nat) (d : Direction) (hr hc : Z)
    (target_cells : gset cell) (rows cols : Z) :
  ∀ (body : list cell) (taken : gset cell) (cur_r cur_c : Z) (g g' : rng)
    (body' : list cell),
    grow_loop n d hr hc target_cells rows cols body taken cur_r cur_c g
      = Ret (body', g') →
    ∃ new, body' = body ++ new ∧ (length new <= n)%nat
           ∧ chain ((cur_r, cur_c) :: new).
Proof.
  induction n as [|n IH]; intros body taken cur_r cur_c g g' body'; simpl.
  - intros [= <- _]. exists []. by rewrite app_nil_r.
  - destruct (candidates_of d hr hc rows cols taken cur_r cur_c)
      as [|c0 cs] eqn:Hcands.
    { intros [= <- _]. exists []. rewrite app_nil_r. split; [done|].
      split; [simpl; lia|done]. }
    intros ([nr nc] & g1 & Hchoice & Hrest)%rand_bind_Ret.
    apply choice_elem, elem_of_weighted_of in Hchoice.
    rewrite <- Hcands in Hchoice. apply candidates_adjacent in Hchoice.
    apply IH in Hrest as (new & -> & Hlen & Hchain).
    exists ((nr, nc) :: new). split; [by rewrite <- app_assoc|].
    split; [simpl; lia|]. done.
Qed.

Lemma grow_loop_total (n : nat) (d : Direction) (hr hc : Z)
    (target_cells : gset cell) (rows cols : Z) :
  ∀ (body : list cell) (taken : gset cell) (cur_r cur_c : Z) (g : rng),
    ∃ body' g',
      grow_loop n d hr hc target_cells rows cols body taken cur_r cur_c g
      = Ret (body', g').
Proof.
  induction n as [|n IH]; intros body taken cur_r cur_c g; simpl;
    [by eexists _, _|].
  destruct (candidates_of d hr hc rows cols taken cur_r cur_c)
    as [|c0 cs] eqn:Hcands; [by eexists _, _|].
  pose proof (weighted_of_nonempty target_cells c0 cs) as Hne.
  destruct (weighted_of target_cells (c0 :: cs)) as [|x l]; [done|].
  destruct (choice_total x l g) as ([nr nc] & g1 & Hc).
  unfold mbind at 1, rand_bind at 1. rewrite Hc. apply IH.
Qed.

(** [_grow_body] raises a ValueError on an empty range of lengths, and
    returns otherwise. *)
Lemma grow_body_total (hr hc : Z) (d : Direction)
    (occupied target_cells : gset cell) (min_segs max_segs rows cols : Z)
    (g : rng) :
  if decide (min_segs <= max_segs)
  then ∃ r g',
         _grow_body hr hc d occupied target_cells min_segs max_segs rows
           cols g = Ret (r, g')
  else _grow_body hr hc d occupied target_cells min_segs max_segs rows cols g
       = Raise ValueError.
Proof.
  unfold _grow_body, mbind at 1, rand_bind at 1, randint.
  case_decide as Hle.
  - rewrite (proj2 (Z.leb_le _ _) Hle).
    destruct (rng_randint min_segs max_segs g) as [num_segs g1].
    destruct (num_segs =? 0); [by eexists _, _|].
    destruct (grow_loop_total (Z.to_nat num_segs) d hr hc target_cells rows
                cols [] (occupied ∪ {[(hr, hc)]}) hr hc g1)
      as (body & g2 & Hgrow).
    unfold mbind, rand_bind. rewrite Hgrow.
    destruct (_ <? min_segs); by eexists _, _.
  - by rewrite (proj2 (Z.leb_gt _ _)) by lia.
Qed.

(** X16.  A body that [_grow_body] returns for a head has a length within
    the bounds asked for; its cells are distinct cells of the grid, free,
    other than the head and not further along the direction than the head;
    and the body followed by the head is a chain: each cell touches the
    next by a side. *)
Theorem grow_body_spec (hr hc : Z) (d : Direction)
    (occupied target_cells : gset cell) (min_segs max_segs rows cols : Z)
    (g g' : rng) (body : list cell) :
  _grow_body hr hc d occupied target_cells min_segs max_segs rows cols g
    = Ret (Some body, g') →
  min_segs <= Z.of_nat (length body) <= Z.max 0 max_segs
  ∧ NoDup body
  ∧ (∀ q, q ∈ body →
          in_grid rows cols q = true ∧ (q ∉ occupied) ∧ q ≠ (hr, hc)
          ∧ ¬ further d (hr, hc) q)
  ∧ chain (body ++ [(hr, hc)]).
Proof.
  intros Hgrow.
  pose proof (grow_body_ok _ _ _ _ _ _ _ _ _ _ _ _ Hgrow) as [Hnd Hcells].
  split; [|split; [done|split; [done|]]];
    unfold _grow_body in Hgrow;
    apply rand_bind_Ret in Hgrow as (num_segs & g1 & Hrand & Hk);
    unfold randint in Hrand;
    (destruct (Z.leb_spec min_segs max_segs) as [Hle|]; [|done]);
    injection Hrand as Hrand;
    pose proof (rng_randint_range min_segs max_segs g Hle) as Hrange;
    rewrite Hrand in Hrange; simpl in Hrange;
    (destruct (Z.eqb_spec num_segs 0) as [->|Hne];
     [injection Hk as <- _; simpl; try lia; done|]);
    apply rand_bind_Ret in Hk as (body0 & g2 & Hloop & Hk);
    (destruct (Z.ltb_spec (Z.of_nat (length body0)) min_segs); [done|]);
    injection Hk as <- _;
    apply grow_loop_chain in Hloop as (new & -> & Hlen & Hchain);
    simpl in *.
  - rewrite length_reverse. lia.
  - rewrite <- (reverse_involutive [(hr, hc)]), <- reverse_app.
    by apply chain_reverse.
Qed.

End grow.

(** On an empty 3x3 grid, a body of one cell for the head (1, 0) facing
    up. *)
Lemma grow_body_spec_witness :
  1 <= Z.of_nat (length [(1, 1)]) <= Z.max 0 1
  ∧ NoDup [(1, 1)]
  ∧ (∀ q : cell, q ∈ [(1, 1)] →
          in_grid 3 3 q = true ∧ (q ∉ (∅ : gset cell)) ∧ q ≠ (1, 0)
          ∧ ¬ further Up (1, 0) q)
  ∧ chain ([(1, 1)] ++ [(1, 0)]).
Proof.
  apply (@grow_body_spec first_source 1 0 Up ∅ ∅ 1 1 3 3 tt tt [(1, 1)]).
  vm_compute. reflexivity.
Defined.

(** ** The generator returns *)

Section generate_total.
Context `{RandomSource} `{CaseTable}.

Lemma attempt_loop_total (n : nat) (rows cols i : Z) (wid : N)
    (occupied target_cells : gset cell) (max_depth min_body max_body : Z) :
  min_body <= max_body →
  ∀ g, ∃ r g',
    attempt_loop n rows cols i wid occupied target_cells max_depth min_body
      max_body g = Ret (r, g').
Proof.
  intros Hle. induction n as [|n IH]; intros g; simpl; [by eexists _, _|].
  destruct (pick_head_total rows cols occupied 1 (Some max_depth) g)
    as (r & g1 & Hpick).
  unfold mbind at 1, rand_bind at 1. rewrite Hpick.
  destruct r as [[[[hr hc] d] corridor]|]; [|by eexists _, _].
  pose proof (grow_body_total hr hc d occupied target_cells min_body
                max_body rows cols g1) as Hgrow.
  rewrite decide_True in Hgrow by done.
  destruct Hgrow as (body & g2 & Hgrow).
  unfold mbind at 1, rand_bind at 1. rewrite Hgrow.
  destruct body; [by eexists _, _|apply IH].
Qed.

Lemma place_worm_total (rows cols i : Z) (occupied : gset cell)
    (corridors : list (gset cell)) (min_body max_body : Z) (g : rng) :
  min_body <= max_body → 0 <= i < 1114047 →
  ∃ r g',
    place_worm rows cols i occupied corridors min_body max_body g
    = Ret (r, g').
Proof.
  intros Hle Hi. unfold place_worm, mbind at 1, rand_bind at 1, lift, chr.
  rewrite (proj2 (andb_true_iff _ _)) by (split; lia).
  cbn [mbind res_bind]. by apply attempt_loop_total.
Qed.

Lemma place_loop_total (rows cols min_body max_body : Z) (n : nat) :
  min_body <= max_body →
  ∀ (i : Z) (occupied : gset cell) (ws : list Placed)
    (corridors : list (gset cell)) (g : rng),
    0 <= i → i + Z.of_nat n <= 1114047 →
    ∃ r g',
      place_loop n rows cols i occupied ws corridors min_body max_body g
      = Ret (r, g').
Proof.
  intros Hle. induction n as [|n IH]; intros i occupied ws corridors g Hi Hn;
    simpl; [by eexists _, _|].
  destruct (place_worm_total rows cols i occupied corridors min_body max_body
              g Hle ltac:(lia)) as (r & g1 & Hplace).
  unfold mbind at 1, rand_bind at 1. rewrite Hplace.
  destruct r as [[wd corridor]|].
  - apply IH; lia.
  - destruct (i =? 0); by eexists _, _.
Qed.

(** X17.  With length bounds [1 <= max_len] and [min_len <= max_len], and
    at most 1114047 worms asked for, [generate_level] returns: it raises no
    exception. *)
Theorem generate_level_returns (rows cols num_worms min_len max_len : Z)
    (seed : option Z) (g : rng) :
  min_len <= max_len → 1 <= max_len → num_worms <= 1114047 →
  ∃ (ld : option LevelData) (order : list pystr) (msg : string) (g' : rng),
    generate_level rows cols num_worms min_len max_len seed g
    = Ret ((ld, order, msg), g').
Proof.
  intros Hlen Hmax Hn. unfold generate_level.
  destruct (place_loop_total rows cols (Z.max (min_len - 1) 0) (max_len - 1)
              (Z.to_nat num_worms) ltac:(lia) 0 ∅ [] [] (start_rng seed g)
              ltac:(lia) ltac:(lia)) as (r & g1 & Hloop).
  unfold mbind at 1, rand_bind at 1. rewrite Hloop.
  destruct r as [ws|]; [|by eexists _, _, _, _].
  destruct (place_loop_ok rows cols _ _ (Z.to_nat num_worms) 0 ∅ [] [] _ _ _
              (wp_nil rows cols) eq_refl
              ltac:(intros q; by rewrite elem_of_nil, elem_of_empty) Hloop)
    as (Hws & _).
  unfold lift. destruct (decide (ws = [])) as [->|Hne].
  { simpl. by eexists _, _, _, _. }
  destruct (build_level_ok rows cols num_worms ws Hws Hne)
    as (grid & -> & _). simpl. by eexists _, _, _, _.
Qed.





End generate_total.

(** On a 3x3 grid a worm of length 1 to 2 is placed. *)
Lemma generate_level_returns_witness :
  ∃ (ld : option LevelData) (order : list pystr) (msg : string) (g' : unit),
    @generate_level first_source caseless_table 3 3 1 1 2 (Some 0) tt
    = Ret ((ld, order, msg), g').
Proof.
  apply (@generate_level_returns first_source caseless_table 3 3 1 1 2
           (Some 0) tt); lia.
Defined.


(** ** The layout that the generator returns *)

Lemma length_concat_singles {A} (row : list (list A)) :
  (∀ s, s ∈ row → ∃ c, s = [c]) → length (concat row) = length row.
Proof.
  induction row as [|s row IH]; intros Hall; [done|].
  destruct (Hall s) as [c ->]; [by left|]. simpl. f_equal.
  apply IH. intros s' Hs'. apply Hall. by right.
Qed.

Lemma grid_at_lookup {A} (grid : list (list A)) (i j : nat) (row : list A)
    (x : A) :
  grid !! i = Some row → row !! j = Some x →
  grid_at grid (Z.of_nat i, Z.of_nat j) = Some x.
Proof.
  intros Hi Hj. unfold grid_at. simpl.
  destruct (Z.leb_spec 0 (Z.of_nat i)), (Z.leb_spec 0 (Z.of_nat j)); try lia.
  simpl. rewrite !Nat2Z.id, Hi. simpl. done.
Qed.

Section generated.
Context `{RandomSource} `{CaseTable}.

(** What a run of [generate_level] that returns a layout has built. *)
Lemma generated_placed (rows cols num_worms min_len max_len : Z)
    (seed : option Z) (g g' : rng) (ld : LevelData) (order : list pystr)
    (msg : string) :
  generate_level rows cols num_worms min_len max_len seed g
    = Ret ((Some ld, order, msg), g') →
  ∃ (ws : list Placed) (grid : list (list pystr)),
    well_placed rows cols ws ∧ ws ≠ []
    ∧ (length ws <= Z.to_nat num_worms)%nat
    ∧ ld = mkLevel (Some (generated_name rows cols (length ws))) rows cols
             ((fun row : list pystr => concat row) <$> grid)
             ((fun wd => ([p_worm_id wd], meta_of wd)) <$> ws)
    ∧ order = (fun wd => [p_worm_id wd]) <$> ws
    ∧ msg = (if Z.of_nat (length ws) <? num_worms
             then msg_fewer (length ws) num_worms else msg_ok)
    ∧ rect rows cols grid
    ∧ (∀ q, in_grid rows cols q = true → q ∉ cells_of ws →
            grid_at grid q = Some [46%N])
    ∧ (∀ wd, wd ∈ ws →
             grid_at grid (p_head wd) = Some (upper (p_worm_id wd))
             ∧ ∀ b, b ∈ p_body wd →
                    grid_at grid b = Some (lower (p_worm_id wd))).
Proof.
  unfold generate_level.
  intros (placed & g1 & Hloop & Hbuild)%rand_bind_Ret.
  destruct placed as [ws|]; [|done].
  apply lift_Ret in Hbuild as [Hbuild ->].
  destruct (place_loop_ok rows cols _ _ (Z.to_nat num_worms) 0 ∅ [] [] _ _ _
              (wp_nil rows cols) eq_refl
              ltac:(intros q; by rewrite elem_of_nil, elem_of_empty) Hloop)
    as (Hws & _ & Hlen).
  simpl in Hlen.
  destruct (decide (ws = [])) as [->|Hne]; [done|].
  destruct (build_level_ok rows cols num_worms ws Hws Hne)
    as (grid & Heq & Hrect & Hdot & Hcontent).
  rewrite Heq in Hbuild. injection Hbuild as <- <- <-.
  exists ws, grid. repeat (split; [done|]). done.
Qed.

Lemma placed_ids (rows cols : Z) (ws : list Placed) :
  well_placed rows cols ws →
  (fun wd => [p_worm_id wd]) <$> ws
  = (fun j : nat => [Z.to_N (65 + Z.of_nat j)]) <$> seq 0 (length ws).
Proof.
  intros Hws. apply list_eq. intros j.
  rewrite !list_lookup_fmap.
  destruct (ws !! j) as [wd|] eqn:Hj; simpl.
  - rewrite (wp_ids _ _ _ Hws _ _ Hj).
    rewrite lookup_seq_lt by (by eapply lookup_lt_Some). done.
  - rewrite lookup_seq_ge; [done|]. by apply lookup_ge_None.
Qed.

(** X19.  A layout that [generate_level] returns for at most 26 worms has
    the rows and columns asked for, a grid of that many rows of that many
    characters, each a dot or the letter of a worm in upper or lower case,
    and a name that tells the size and the number of worms.  The ids of the
    metadata are the placement order, which is A, B, C and so on without a
    gap; at least one worm and at most the number asked for are placed, and
    the message is "OK" exactly when all of them are. *)
Theorem generated_layout_shape (rows cols num_worms min_len max_len : Z)
    (seed : option Z) (g g' : rng) (ld : LevelData) (order : list pystr)
    (msg : string) :
  num_worms <= 26 →
  generate_level rows cols num_worms min_len max_len seed g
    = Ret ((Some ld, order, msg), g') →
  ld_rows ld = rows ∧ ld_cols ld = cols
  ∧ ld_name ld = Some (generated_name rows cols (length order))
  ∧ length (ld_grid ld) = Z.to_nat rows
  ∧ Forall (fun row => length row = Z.to_nat cols) (ld_grid ld)
  ∧ (∀ p ch, (p, ch) ∈ grid_cells 0 (ld_grid ld) →
             ch = 46%N
             ∨ ∃ j : nat, (j < length order)%nat
                 ∧ (ch = N.of_nat (65 + j) ∨ ch = N.of_nat (97 + j)))
  ∧ (ld_worms ld).*1 = order
  ∧ order = (fun j : nat => [Z.to_N (65 + Z.of_nat j)])
              <$> seq 0 (length order)
  ∧ 1 <= Z.of_nat (length order) <= num_worms
  ∧ (msg = msg_ok ↔ Z.of_nat (length order) = num_worms)
  ∧ (msg ≠ msg_ok → msg = msg_fewer (length order) num_worms).
Proof.
  intros Hn
    (ws & grid & Hws & Hne & Hlen & -> & -> & -> & Hrect & Hdot & Hcontent)
      %generated_placed.
  assert (length ws <= 26)%nat as Hlen26 by lia.
  assert (length ws ≠ 0)%nat as Hpos by (by destruct ws).
  pose proof (built_cell rows cols ws grid Hws Hlen26 Hrect Hdot Hcontent)
    as Hcell.
  rewrite length_fmap. simpl.
  split; [done|]. split; [done|]. split; [done|].
  split; [rewrite length_fmap; apply Hrect|].
  split; [|split; [|split; [|split; [|split; [|split]]]]].
  - apply Forall_forall. intros row_str (row & -> & Hrow)%list_elem_of_fmap.
    apply list_elem_of_lookup in Hrow as [i Hi].
    rewrite <- (rect_row _ _ _ _ _ Hrect Hi).
    apply length_concat_singles. intros s [j Hj]%list_elem_of_lookup.
    pose proof (grid_at_lookup grid i j row s Hi Hj) as Hq.
    destruct (Hcell _ _ Hq) as [[-> _]|(wd & _ & [[_ ->]|[_ ->]])]; eauto.
  - intros p ch Hin.
    apply (cells_char rows cols ws grid Hws Hlen26 Hrect Hdot Hcontent)
      in Hin.
    destruct (Hcell _ _ Hin) as [[[= ->] _]|(wd & Hwd & Hcase)];
      [by left|right].
    apply list_elem_of_lookup in Hwd as [j Hj].
    exists j. split; [by eapply lookup_lt_Some|].
    rewrite (wp_ids _ _ _ Hws _ _ Hj) in Hcase.
    destruct Hcase as [[_ [= ->]]|[_ [= ->]]]; [left|right]; lia.
  - rewrite <- list_fmap_compose. done.
  - by apply (placed_ids rows cols).
  - lia.
  - destruct (Z.ltb_spec (Z.of_nat (length ws)) num_worms) as [Hlt|Hge].
    + split; [intros Heq; by apply msg_fewer_not_ok in Heq|lia].
    + split; [lia|done].
  - destruct (Z.ltb_spec (Z.of_nat (length ws)) num_worms); done.
Qed.

(** Worms in a clear order can leave in the reverse order. *)
Lemma ready_extracts (rows cols : Z) (ws : list Worm) :
  solver_ready rows cols ws → board ws →
  extracts rows cols ws (reverse (worm_id <$> ws)).
Proof.
  induction ws as [|w ws IH] using rev_ind; intros Hready Hb; [done|].
  rewrite fmap_app, reverse_app. simpl.
  apply extracts_cons; [done|]. exists w.
  split; [apply elem_of_app; right; by left|]. split; [done|].
  split; [by apply last_worm_free|].
  rewrite filter_last_id by apply Hready.
  apply IH; [by apply (solver_ready_app_l rows cols ws [w])|].
  apply (board_sublist (ws ++ [w])); [done|]. by apply sublist_inserts_r.
Qed.

(** What the game and the solver make of a generated layout. *)
Lemma generated_board (rows cols num_worms min_len max_len : Z)
    (seed : option Z) (g g' : rng) (ld : LevelData) (order : list pystr)
    (msg : string) :
  num_worms <= 26 →
  generate_level rows cols num_worms min_len max_len seed g
    = Ret ((Some ld, order, msg), g') →
  ∃ name worms,
    load_level ld = Ret (rows, cols, name, worms)
    ∧ worm_id <$> worms = order
    ∧ board worms
    ∧ extracts rows cols worms (reverse order).
Proof.
  intros Hn Hgen.
  destruct (generated_layout_solved _ _ _ _ _ _ _ _ _ _ _ Hn Hgen)
    as ((name & worms & Hload & Hids & Hready) & _).
  exists name, worms. split; [done|]. split; [done|].
  assert (board worms) as Hb.
  { apply (load_level_board ld rows cols name worms); [|done].
    rewrite <- (load_level_ids _ _ _ _ _ Hload). apply Hready. }
  split; [done|]. rewrite <- Hids. by apply ready_extracts.
Qed.

(** X20.  Every layout that [generate_level] returns for at most 26 worms,
    with all the worms asked for or with fewer, is solvable, and the
    extraction order of the solver is a rearrangement of the placement
    order. *)
Theorem generated_partial_solvable
    (rows cols num_worms min_len max_len : Z) (seed : option Z) (g g' : rng)
    (ld : LevelData) (order : list pystr) (msg : string) :
  num_worms <= 26 →
  generate_level rows cols num_worms min_len max_len seed g
    = Ret ((Some ld, order, msg), g') →
  ∃ ext report,
    is_solvable_trace ld = Ret (true, ext, report)
    ∧ is_solvable ld = Ret (true, report)
    ∧ ext ≡ₚ order.
Proof.
  intros Hn Hgen.
  destruct (generated_layout_solved _ _ _ _ _ _ _ _ _ _ _ Hn Hgen)
    as (_ & ext & rounds & k & Htrace & Hperm & _).
  eexists ext, _. split; [done|]. split; [|done].
  apply is_solvable_Ret. by exists ext.
Qed.

Lemma placed_not_quit (j : nat) :
  (j < 16)%nat → [Z.to_N (65 + Z.of_nat j)] ∉ QUIT_WORDS.
Proof.
  intros Hj. unfold QUIT_WORDS.
  change (cp "Q") with [81%N]. change (cp "QUIT") with [81; 85; 73; 84]%N.
  change (cp "EXIT") with [69; 88; 73; 84]%N.
  intros [Heq|[Heq|[Heq|Hnil%elem_of_nil]%elem_of_cons]%elem_of_cons]
    %elem_of_cons; [|done..].
  injection Heq as Heq. lia.
Qed.

(** X21.  For a layout that [generate_level] returns for at most 16 worms,
    typing the placement order in reverse at the prompt of the game clears
    the board, in as many moves as there are worms: the solve order that the
    generator announces works in the game. *)
Theorem generated_reverse_wins
    (rows cols num_worms min_len max_len : Z) (seed : option Z) (g g' : rng)
    (ld : LevelData) (order : list pystr) (msg : string)
    (more : list pystr) :
  num_worms <= 16 →
  generate_level rows cols num_worms min_len max_len seed g
    = Ret ((Some ld, order, msg), g') →
  ∃ name worms,
    load_level ld = Ret (rows, cols, name, worms)
    ∧ main_loop rows cols (reverse order ++ more) worms 0
      = Congratulations (length order).
Proof.
  intros Hn Hgen. assert (num_worms <= 26) as Hn26 by lia.
  destruct (generated_board _ _ _ _ _ _ _ _ _ _ _ Hn26 Hgen)
    as (name & worms & Hload & Hids & Hb & Hex).
  exists name, worms. split; [done|].
  rewrite (main_loop_extracts rows cols (reverse order) worms 0 more Hex).
  - by rewrite length_reverse.
  - apply generated_placed in Hgen
      as (ws & grid & Hws & _ & Hlen & _ & -> & _).
    intros x Hx. rewrite elem_of_reverse, (placed_ids rows cols ws Hws) in Hx.
    apply list_elem_of_fmap in Hx as (j & -> & Hj).
    apply elem_of_seq in Hj. apply placed_not_quit. lia.
Qed.

(** X22.  A layout that [generate_level] returns with 17 worms or more
    holds a worm named Q: whatever is typed, the loop of the game never ends
    with the board clear. *)
Theorem generated_17_never_won
    (rows cols num_worms min_len max_len : Z) (seed : option Z) (g g' : rng)
    (ld : LevelData) (order : list pystr) (msg : string) :
  num_worms <= 26 → (17 <= length order)%nat →
  generate_level rows cols num_worms min_len max_len seed g
    = Ret ((Some ld, order, msg), g') →
  ∃ name worms,
    load_level ld = Ret (rows, cols, name, worms)
    ∧ ∀ inputs moves m,
        main_loop rows cols inputs worms moves ≠ Congratulations m.
Proof.
  intros Hn Hlen Hgen.
  destruct (generated_board _ _ _ _ _ _ _ _ _ _ _ Hn Hgen)
    as (name & worms & Hload & Hids & Hb & _).
  exists name, worms. split; [done|].
  apply generated_placed in Hgen as (ws & grid & Hws & _ & _ & _ & -> & _).
  assert (cp "Q" ∈ worm_id <$> worms) as Hq.
  { rewrite Hids, (placed_ids rows cols ws Hws).
    rewrite length_fmap in Hlen.
    apply list_elem_of_fmap. exists 16%nat. split; [done|].
    apply elem_of_seq. lia. }
  apply list_elem_of_fmap in Hq as (v & Hv & Hin).
  intros inputs moves m.
  apply (main_loop_quit_worm rows cols v (length inputs)); [|done..].
  rewrite <- Hv. by left.
Qed.

End generated.

(** The layout that [generate_level 6 6 3 2 4] builds with the random
    source that takes the first possibility. *)
Lemma generated_layout_shape_witness :
  ld_rows generated_6x6 = 6 ∧ ld_cols generated_6x6 = 6
  ∧ ld_name generated_6x6
    = Some (generated_name 6 6 (length [cp "A"; cp "B"; cp "C"]))
  ∧ length (ld_grid generated_6x6) = Z.to_nat 6
  ∧ Forall (fun row => length row = Z.to_nat 6) (ld_grid generated_6x6)
  ∧ (∀ p ch, (p, ch) ∈ grid_cells 0 (ld_grid generated_6x6) →
             ch = 46%N
             ∨ ∃ j : nat, (j < length [cp "A"; cp "B"; cp "C"])%nat
                 ∧ (ch = N.of_nat (65 + j) ∨ ch = N.of_nat (97 + j)))
  ∧ (ld_worms generated_6x6).*1 = [cp "A"; cp "B"; cp "C"]
  ∧ [cp "A"; cp "B"; cp "C"]
    = (fun j : nat => [Z.to_N (65 + Z.of_nat j)])
        <$> seq 0 (length [cp "A"; cp "B"; cp "C"])
  ∧ 1 <= Z.of_nat (length [cp "A"; cp "B"; cp "C"]) <= 3
  ∧ (msg_ok = msg_ok ↔ Z.of_nat (length [cp "A"; cp "B"; cp "C"]) = 3)
  ∧ (msg_ok ≠ msg_ok
     → msg_ok = msg_fewer (length [cp "A"; cp "B"; cp "C"]) 3).
Proof.
  apply (@generated_layout_shape first_source caseless_table 6 6 3 2 4
           (Some 0) tt tt generated_6x6 [cp "A"; cp "B"; cp "C"] msg_ok);
    [lia|].
  vm_compute. reflexivity.
Defined.

(** On a 1x3 grid only worm A is placed of the two asked for; the layout is
    solvable. *)
Lemma generated_partial_solvable_witness :
  ∃ ext report,
    @is_solvable_trace caseless_table
      (mkLevel (Some (generated_name 1 3 1)) 1 3 [cp ".A."]
         [(cp "A", mkMeta (Some "red"%string) "left")])
    = Ret (true, ext, report)
    ∧ @is_solvable caseless_table
        (mkLevel (Some (generated_name 1 3 1)) 1 3 [cp ".A."]
           [(cp "A", mkMeta (Some "red"%string) "left")])
      = Ret (true, report)
    ∧ ext ≡ₚ [cp "A"].
Proof.
  apply (@generated_partial_solvable first_source caseless_table 1 3 2 1 1
           (Some 0) tt tt _ [cp "A"] (msg_fewer 1 2)); [lia|].
  vm_compute. reflexivity.
Defined.

(** The 6x6 layout with three worms is cleared by typing C, B, A. *)
Lemma generated_reverse_wins_witness :
  ∃ name worms,
    @load_level caseless_table generated_6x6 = Ret (6, 6, name, worms)
    ∧ main_loop 6 6 (reverse [cp "A"; cp "B"; cp "C"] ++ []) worms 0
      = Congratulations (length [cp "A"; cp "B"; cp "C"]).
Proof.
  apply (@generated_reverse_wins first_source caseless_table 6 6 3 2 4
           (Some 0) tt tt generated_6x6 [cp "A"; cp "B"; cp "C"] msg_ok []);
    [lia|].
  vm_compute. reflexivity.
Defined.

(** The 4x9 layout with seventeen worms holds worm Q. *)
Lemma generated_17_never_won_witness :
  ∃ name worms,
    @load_level caseless_table generated_4x9 = Ret (4, 9, name, worms)
    ∧ ∀ inputs moves m,
        main_loop 4 9 inputs worms moves ≠ Congratulations m.
Proof.
  apply (@generated_17_never_won first_source caseless_table 4 9 17 1 1
           (Some 0) tt tt generated_4x9
           (cp <$> ["A"; "B"; "C"; "D"; "E"; "F"; "G"; "H"; "I"; "J"; "K";
                    "L"; "M"; "N"; "O"; "P"; "Q"]%string) msg_ok).
  - lia.
  - vm_compute. lia.
  - vm_compute. reflexivity.
Defined.

(** ** Sliding keeps a worm in one piece *)

Lemma adjacent_ahead_1 (d : Direction) (h : cell) : adjacent h (ahead d h 1).
Proof. destruct d; unfold adjacent, ahead; simpl; lia. Qed.

Lemma step_forward_chain (w : Worm) (worms : list (option Worm))
    (rows cols : Z) (r : step_result) (w' : Worm) :
  _step_forward w worms rows cols = Ret (r, w') →
  chain (segments w) → chain (segments w').
Proof.
  intros Hstep Hchain.
  destruct (head w) as [h| |] eqn:Hh;
    [|unfold _step_forward in Hstep;
      destruct (DIR_DELTA (direction w)); by rewrite Hh in Hstep..].
  rewrite (step_forward_spec w worms rows cols h Hh) in Hstep.
  cbn zeta in Hstep.
  destruct (negb _); [by injection Hstep as _ <-|].
  destruct (bool_decide _); [by injection Hstep as _ <-|].
  injection Hstep as _ <-. simpl.
  apply head_Ret in Hh. apply chain_snoc.
  destruct (segments w) as [|s0 rest]; [done|]. simpl.
  split; [by apply chain_cons in Hchain as [? _]|].
  destruct (last rest) as [y|] eqn:Hlast; [|done].
  rewrite last_cons, Hlast in Hh. injection Hh as ->.
  apply adjacent_ahead_1.
Qed.

(** X23.  When the segments of a worm, from tail to head, form a chain in
    which each cell touches the next by a side, they still do after
    [attempt_extraction]: sliding never breaks such a worm. *)
Theorem attempt_extraction_chain (worm : Worm) (worms : list (option Worm))
    (rows cols : Z) (ok : bool) (n : Z) (worm' : Worm) :
  chain (segments worm) →
  attempt_extraction worm worms rows cols = Ret (ok, n, worm') →
  chain (segments worm').
Proof.
  unfold attempt_extraction.
  generalize (Z.to_nat (Z.max rows cols)) 0. intros fuel.
  revert worm.
  induction fuel as [|fuel IH]; intros w steps Hchain;
    rewrite attempt_loop_unfold;
    destruct (_step_forward w worms rows cols) as [[r w1]| |] eqn:Hstep;
    cbn [mbind res_bind]; try done;
    pose proof (step_forward_chain _ _ _ _ _ _ Hstep Hchain) as Hc;
    destruct r; try done; try (intros [= _ _ <-]; done).
  intros Hloop. by apply (IH w1 (steps + 1)).
Qed.

(** Worm C of level 1 after its slide to the left edge. *)
Lemma attempt_extraction_chain_witness : chain [(1, 1); (1, 0)].
Proof.
  apply (attempt_extraction_chain worm_C [Some worm_A; Some worm_B; None]
           6 6 true 3 (mkWorm (cp "C") [(1, 1); (1, 0)] Left "green")).
  - simpl. unfold adjacent. simpl. lia.
  - vm_compute. reflexivity.
Defined.

(** ** The occupancy map and the tracer, for any worms *)

Lemma occupancy_seg_lookup (id : pystr) (segs : list cell)
    (occ : gmap cell pystr) (q : cell) :
  foldl (fun occ seg => <[seg := id]> occ) occ segs !! q
  = if decide (q ∈ segs) then Some id else occ !! q.
Proof.
  revert occ. induction segs as [|s segs IH]; intros occ.
  - destruct (decide (q ∈ [])) as [Hin|_]; [by apply elem_of_nil in Hin|done].
  - cbn [foldl]. rewrite IH.
    destruct (decide (q ∈ segs)) as [Hin|Hnin];
      destruct (decide (q ∈ s :: segs)) as [Hin'|Hnin']; try done.
    + exfalso. apply Hnin'. by right.
    + apply elem_of_cons in Hin' as [->|?]; [|done].
      by rewrite lookup_insert_eq.
    + rewrite lookup_insert_ne; [done|]. intros ->. apply Hnin'. by left.
Qed.

(** X24.  The occupancy map gives a cell to the last worm of the list that
    holds it, and has no entry for a cell that no worm holds. *)
Theorem build_occupancy_spec (worms : list Worm) (q : cell) :
  _build_occupancy worms !! q
  = worm_id <$> last (filter (fun w => q ∈ segments w) worms).
Proof.
  unfold _build_occupancy.
  induction worms as [|w worms IH] using rev_ind; [done|].
  rewrite foldl_snoc, occupancy_seg_lookup, filter_app, last_app.
  destruct (decide (q ∈ segments w)) as [Hin|Hnin].
  - by rewrite filter_cons_True by done.
  - rewrite filter_cons_False by done. simpl. apply IH.
Qed.

(** X25.  The tracer returns for every worm that has a segment, wherever
    its head lies, and raises the IndexError of [segments[-1]] for a worm
    without segments. *)
Theorem first_blocker_answers (worm : Worm) (occupancy : gmap cell pystr)
    (rows cols : Z) :
  match segments worm with
  | [] => _first_blocker worm occupancy rows cols = Raise IndexError
  | _ :: _ => ∃ res, _first_blocker worm occupancy rows cols = Ret res
  end.
Proof.
  destruct (segments worm) as [|s segs] eqn:Hsegs.
  - unfold _first_blocker, head. rewrite Hsegs.
    by destruct (DIR_DELTA (direction worm)).
  - destruct (last (segments worm)) as [h|] eqn:Hlast.
    + apply (first_blocker_total worm occupancy rows cols h).
      apply head_Ret. done.
    + apply last_None in Hlast. congruence.
Qed.

(** ** The order of the metadata does not matter *)

Lemma sorted_perm (l l' : list pystr) : l ≡ₚ l' → sorted l = sorted l'.
Proof.
  intros Hperm. unfold sorted.
  apply (StronglySorted_unique pystr_le);
    [apply StronglySorted_merge_sort; apply _..|].
  by rewrite !merge_sort_Permutation.
Qed.

Lemma board_perm (ws ws' : list Worm) : board ws → ws ≡ₚ ws' → board ws'.
Proof.
  intros (Hids & Hcells & Hne) Hperm. split; [|split].
  - by rewrite <- Hperm.
  - by rewrite <- Hperm.
  - intros w Hw. apply Hne. by rewrite Hperm.
Qed.

Lemma occupancy_perm (ws ws' : list Worm) :
  board ws → ws ≡ₚ ws' → _build_occupancy ws = _build_occupancy ws'.
Proof.
  intros Hb Hperm. pose proof (board_perm ws ws' Hb Hperm) as Hb'.
  apply map_eq. intros q.
  destruct (_build_occupancy ws !! q) as [id|] eqn:Hq.
  - destruct (occupancy_owner ws q id Hq) as (w & Hw & Hin & <-).
    symmetry. apply occupancy_lookup; [done| |done]. by rewrite <- Hperm.
  - destruct (_build_occupancy ws' !! q) as [id|] eqn:Hq'; [|done].
    destruct (occupancy_owner ws' q id Hq') as (w & Hw & Hin & <-).
    rewrite <- Hperm in Hw.
    destruct (occupancy_dom ws w q Hw Hin) as [? ?]. congruence.
Qed.

Lemma graph_perm (ws ws' : list Worm) (rows cols : Z)
    (graph : gmap pystr (gset pystr)) :
  board ws → ws ≡ₚ ws' →
  _build_dependency_graph ws rows cols = Ret graph →
  _build_dependency_graph ws' rows cols = Ret graph.
Proof.
  intros Hb Hperm Hg. pose proof (board_perm ws ws' Hb Hperm) as Hb'.
  destruct (graph_total ws' rows cols (board_heads ws' Hb')) as [graph' Hg'].
  rewrite Hg'. f_equal. apply map_eq. intros x.
  pose proof Hb as (Hnd & _). pose proof Hb' as (Hnd' & _).
  destruct (decide (x ∈ worm_id <$> ws)) as [Hx|Hx].
  - apply list_elem_of_fmap in Hx as (w & -> & Hw).
    destruct (graph_lookup ws rows cols graph w Hnd Hg Hw)
      as (bl & Hbl & ->).
    assert (w ∈ ws') as Hw' by (by rewrite <- Hperm).
    destruct (graph_lookup ws' rows cols graph' w Hnd' Hg' Hw')
      as (bl' & Hbl' & ->).
    rewrite <- (occupancy_perm ws ws' Hb Hperm), Hbl in Hbl'.
    by injection Hbl' as <-.
  - assert (x ∉ dom graph) as Hd by (by rewrite (graph_dom _ _ _ _ Hg)).
    assert (x ∉ dom graph') as Hd'
      by (by rewrite (graph_dom _ _ _ _ Hg'), <- Hperm).
    apply not_elem_of_dom in Hd, Hd'. congruence.
Qed.

Lemma solve_loop_perm (rows cols : Z) (fuel : nat) :
  ∀ (ws ws' : list Worm) (rn : nat) (rep : list line) (ord : list pystr),
    board ws → ws ≡ₚ ws' →
    solve_loop fuel rows cols ws rn rep ord
    = solve_loop fuel rows cols ws' rn rep ord.
Proof.
  induction fuel as [|fuel IH]; intros ws ws' rn rep ord Hb Hperm.
  - destruct ws as [|w ws]; [by apply Permutation_nil in Hperm as ->|].
    destruct ws' as [|w' ws']; [|done].
    symmetry in Hperm. by apply Permutation_nil_cons in Hperm.
  - destruct ws as [|w ws]; [by apply Permutation_nil in Hperm as ->|].
    destruct ws' as [|w' ws'];
      [symmetry in Hperm; by apply Permutation_nil_cons in Hperm|].
    cbn [solve_loop].
    destruct (graph_total (w :: ws) rows cols (board_heads _ Hb))
      as [graph Hg].
    rewrite Hg, (graph_perm _ _ _ _ _ Hb Hperm Hg). cbn [mbind res_bind].
    destruct (free_of graph) as [|x free] eqn:Hf.
    + unfold deadlock_report.
      by rewrite (sorted_perm (worm_id <$> w :: ws) (worm_id <$> w' :: ws'))
        , (Permutation_length Hperm) by (by rewrite Hperm).
    + apply IH; [|by rewrite Hperm].
      apply (board_sublist (w :: ws)); [done|apply sublist_filter].
Qed.

Lemma mapM_perm {A B} (f : A → res B) (l l' : list A) :
  l ≡ₚ l' →
  ∀ ys, mapM f l = Ret ys → ∃ ys', mapM f l' = Ret ys' ∧ ys ≡ₚ ys'.
Proof.
  induction 1 as [|x l l' Hperm IH|x y l|l1 l2 l3 H12 IH12 H23 IH23];
    intros ys; simpl.
  - intros [= <-]. by exists [].
  - intros (z & Hz & (k & Hk & [= <-])%bind_Ret)%bind_Ret.
    destruct (IH k Hk) as (k' & Hk' & Hp). exists (z :: k').
    rewrite Hz. simpl. rewrite Hk'. split; [done|]. by constructor.
  - intros (zy & Hy & (k1 & (zx & Hx & (k & Hk & [= <-])%bind_Ret)%bind_Ret
                         & [= <-])%bind_Ret)%bind_Ret.
    exists (zx :: zy :: k). rewrite Hx. simpl. rewrite Hy. simpl.
    rewrite Hk. split; [done|]. apply perm_swap.
  - intros Hys. destruct (IH12 ys Hys) as (ys2 & H2 & Hp2).
    destruct (IH23 ys2 H2) as (ys3 & H3 & Hp3).
    exists ys3. split; [done|]. by rewrite Hp2.
Qed.

(** X26.  The answer of [is_solvable] does not depend on the order of the
    entries of the metadata: with distinct ids, a layout whose entries are
    rearranged gets the same verdict and the same report. *)
Theorem is_solvable_order_free `{CaseTable} (level_data : LevelData)
    (worms' : list (pystr * WormMeta)) (verdict : bool)
    (report : list line) :
  NoDup (ld_worms level_data).*1 →
  ld_worms level_data ≡ₚ worms' →
  is_solvable level_data = Ret (verdict, report) →
  is_solvable
    (mkLevel (ld_name level_data) (ld_rows level_data) (ld_cols level_data)
       (ld_grid level_data) worms')
  = Ret (verdict, report).
Proof.
  intros Hnd Hperm (ext & Htrace)%is_solvable_Ret.
  apply is_solvable_trace_Ret in Htrace
    as (rows & cols & name & ws & Hload & Hsolve).
  pose proof (load_level_board _ _ _ _ _ Hnd Hload) as Hb.
  assert (∃ ws', load_level
                   (mkLevel (ld_name level_data) (ld_rows level_data)
                      (ld_cols level_data) (ld_grid level_data) worms')
                 = Ret (rows, cols, name, ws') ∧ ws ≡ₚ ws')
    as (ws' & Hload' & Hp).
  { unfold load_level in *. simpl.
    apply bind_Ret in Hload
      as (cm & -> & (ys & Hm & [= <- <- <- <-])%bind_Ret).
    cbn [mbind res_bind].
    destruct (mapM_perm (load_worm cm) _ _ Hperm ys Hm) as (ws' & -> & Hp).
    by exists ws'. }
  apply is_solvable_Ret. exists ext. apply is_solvable_trace_Ret.
  exists rows, cols, name, ws'. split; [done|].
  by rewrite <- (solve_loop_perm rows cols _ ws ws' 0 [] [] Hb Hp),
    <- (Permutation_length Hp).
Qed.

(** Level 1 with the entries of its metadata in the order C, A, B. *)
Lemma is_solvable_order_free_witness :
  @is_solvable caseless_table
    (mkLevel (ld_name level_01) (ld_rows level_01) (ld_cols level_01)
       (ld_grid level_01)
       [(cp "C", mkMeta (Some "green"%string) "left");
        (cp "A", mkMeta (Some "red"%string) "right");
        (cp "B", mkMeta (Some "blue"%string) "up")])
  = Ret (true,
         [LExtract 1 [cp "C"];
          LStillBlocked (cp "A") [cp "B"]; LStillBlocked (cp "B") [cp "C"];
          LExtract 2 [cp "B"]; LStillBlocked (cp "A") [cp "B"];
          LExtract 3 [cp "A"];
          LBlank; LExtractionOrder [cp "C"; cp "B"; cp "A"] 3; LSolvable]).
Proof.
  apply (@is_solvable_order_free caseless_table level_01).
  - apply (bool_decide_unpack _). vm_compute. reflexivity.
  - simpl. etransitivity; [apply Permutation_skip, Permutation_swap|].
    apply Permutation_swap.
  - vm_compute. reflexivity.
Defined.

(** ** The invariant of the reverse construction *)

Lemma clear_order_lookup (rows cols : Z) (ws : list Worm) :
  clear_order rows cols ws →
  ∀ (j k : nat) wj wk h n,
    ws !! j = Some wj → ws !! k = Some wk → (j < k)%nat →
    head wk = Ret h → 1 <= n →
    in_grid rows cols (ahead (direction wk) h n) = true →
    ahead (direction wk) h n ∉ segments wj.
Proof.
  induction ws as [|w ws IH]; [by intros _ j k ? ? ? ? ?|].
  intros [Hw Hrest] j k wj wk h n Hj Hk Hjk Hh Hn Hin.
  destruct k as [|k]; [lia|]. simpl in Hk.
  destruct j as [|j]; simpl in Hj.
  - injection Hj as <-. apply (Hw wk h n); [|done..].
    by eapply list_elem_of_lookup_2.
  - apply (IH Hrest j k wj wk h n); [done..|lia|done|done|done].
Qed.

Section invariant.
Context `{RandomSource} `{CaseTable}.

(** X27.  In a layout that [generate_level] returns for at most 26 worms,
    read back by [load_level] in the placement order: every segment lies in
    the grid, no two worms share a cell, and no worm has a cell in the exit
    corridor of a worm that was placed after it. *)
Theorem generated_corridors_clear
    (rows cols num_worms min_len max_len : Z) (seed : option Z) (g g' : rng)
    (ld : LevelData) (order : list pystr) (msg : string) :
  num_worms <= 26 →
  generate_level rows cols num_worms min_len max_len seed g
    = Ret ((Some ld, order, msg), g') →
  ∃ name worms,
    load_level ld = Ret (rows, cols, name, worms)
    ∧ worm_id <$> worms = order
    ∧ (∀ w q, w ∈ worms → q ∈ segments w → in_grid rows cols q = true)
    ∧ NoDup (worms ≫= segments)
    ∧ ∀ (j k : nat) wj wk h n,
        worms !! j = Some wj → worms !! k = Some wk → (j < k)%nat →
        head wk = Ret h → 1 <= n →
        in_grid rows cols (ahead (direction wk) h n) = true →
        ahead (direction wk) h n ∉ segments wj.
Proof.
  intros Hn Hgen.
  destruct (generated_board _ _ _ _ _ _ _ _ _ _ _ Hn Hgen)
    as (name & worms & Hload & Hids & Hb & _).
  destruct (generated_layout_solved _ _ _ _ _ _ _ _ _ _ _ Hn Hgen)
    as ((name' & worms' & Hload' & _ & Hready) & _).
  rewrite Hload in Hload'. injection Hload' as <- <-.
  exists name, worms. split; [done|]. split; [done|].
  split; [|split; [apply Hb|apply clear_order_lookup, Hready]].
  apply generated_placed in Hgen
    as (ws & grid & Hws & _ & Hlen & -> & _ & _ & Hrect & Hdot & Hcontent).
  assert (length ws <= 26)%nat as Hlen26 by lia.
  rewrite (load_built rows cols ws grid Hws Hlen26 Hrect Hdot Hcontent)
    in Hload.
  injection Hload as _ <-.
  intros w q (wd & -> & Hwd)%list_elem_of_fmap Hq.
  apply (parsed_segments rows cols ws grid Hws Hlen26 Hrect Hdot Hcontent)
    in Hq; [|done].
  by apply (wp_cells _ _ _ Hws wd Hwd).
Qed.

End invariant.

(** The 6x6 layout with three worms. *)
Lemma generated_corridors_clear_witness :
  ∃ name worms,
    @load_level caseless_table generated_6x6 = Ret (6, 6, name, worms)
    ∧ worm_id <$> worms = [cp "A"; cp "B"; cp "C"]
    ∧ (∀ w q, w ∈ worms → q ∈ segments w → in_grid 6 6 q = true)
    ∧ NoDup (worms ≫= segments)
    ∧ ∀ (j k : nat) wj wk h n,
        worms !! j = Some wj → worms !! k = Some wk → (j < k)%nat →
        head wk = Ret h → 1 <= n →
        in_grid 6 6 (ahead (direction wk) h n) = true →
        ahead (direction wk) h n ∉ segments wj.
Proof.
  apply (@generated_corridors_clear first_source caseless_table 6 6 3 2 4
           (Some 0) tt tt generated_6x6 [cp "A"; cp "B"; cp "C"] msg_ok);
    [lia|].
  vm_compute. reflexivity.
Defined.

(** ** The verdict and partial slides *)

